(** * VTU EduMate: the retrieval-augmented generation pipeline

    A shallow embedding of the RAG core of the repository
    (embeddings, index store, retriever, prompt builder, generation client,
    ingestion chunker and the [/api/rag/ask] route) together with the
    properties its specification states about it (Part II) and further
    properties of the code around them (Part III).

    Conventions of the embedding.
    - A JavaScript [number] is an IEEE-754 binary64 value.  The numeric code is
      written once over the interface [JsNumber] and read at [float64]
      (Rocq's primitive binary64 floats, the arithmetic the code runs in);
      the instance [exact] (the real numbers) serves comparisons with exact
      arithmetic only.  Bounds on binary64 results are stated on the real
      numbers they denote ([toReal]), with the rounding of each operation
      derived from its IEEE 754 specification.
    - A [Promise] that rejects, or a function that throws, returns [Err] with
      the thrown [Error]; one that resolves or returns gives [Ok].
    - Strings are sequences of code units below 256.
    - Calls that leave the repository (the file system, [JSON.parse], the
      embedding and generation services, the clock) are fields of an
      environment record or an oracle, never fixed by the model.
    - Console logging is not modelled: it changes no control flow. *)

From Stdlib Require Import String Ascii Bool Arith ZArith Lia List.
From Stdlib Require Import Reals Lra Psatz.
From Stdlib Require Import Sorted Permutation.
From Stdlib Require Floats Uint63 DecimalString.
Import ListNotations.

Set Implicit Arguments.

(* ================================================================== *)
(** * Part I: the program *)
(* ================================================================== *)

(** ** Results of fallible computations *)

(** A thrown value: an [Error] object, by its [name] and [message]. *)
Record JsError : Type := {
  error_name : string;
  error_message : string
}.

(** [new Error(message)] *)
Definition Error (message : string) : JsError :=
  {| error_name := "Error"; error_message := message |}.

(** [String(error)], as a template literal renders a caught error
    ([Error.prototype.toString]). *)
Definition errorToString (e : JsError) : string :=
  if String.eqb (error_name e) "" then error_message e
  else if String.eqb (error_message e) "" then error_name e
  else (error_name e ++ ": " ++ error_message e)%string.

Inductive Result (A : Type) : Type :=
| Ok (value : A)
| Err (error : JsError).

Arguments Ok {A} value.
Arguments Err {A} error.

Definition bind {A B : Type} (c : Result A) (k : A -> Result B) : Result B :=
  match c with
  | Ok a => k a
  | Err e => Err e
  end.

Notation "x <- c ;; k" := (bind c (fun x => k))
  (at level 61, c at next level, right associativity).

Fixpoint mapM {A B : Type} (f : A -> Result B) (l : list A) : Result (list B) :=
  match l with
  | [] => Ok []
  | x :: l' => y <- f x ;; ys <- mapM f l' ;; Ok (y :: ys)
  end.

(** ** JavaScript numbers *)

Class JsNumber (num : Type) : Type := {
  nzero : num;
  nadd : num -> num -> num;
  nsub : num -> num -> num;
  nmul : num -> num -> num;
  ndiv : num -> num -> num;
  nsqrt : num -> num;                (* Math.sqrt *)
  ngtb : num -> num -> bool;         (* a > b *)
  ngeb : num -> num -> bool;         (* a >= b *)
  of_length : nat -> num             (* the length of an array, as a number *)
}.

(** The arithmetic of the JavaScript engine: binary64, round to nearest even.
    An array length is below 2^32, so its conversion is exact. *)
#[export] Instance float64 : JsNumber PrimFloat.float := {
  nzero := PrimFloat.zero;
  nadd := PrimFloat.add;
  nsub := PrimFloat.sub;
  nmul := PrimFloat.mul;
  ndiv := PrimFloat.div;
  nsqrt := PrimFloat.sqrt;
  ngtb := fun a b => PrimFloat.ltb b a;
  ngeb := fun a b => PrimFloat.leb b a;
  of_length := fun n => PrimFloat.of_uint63 (Uint63.of_Z (Z.of_nat n))
}.

(** Exact arithmetic over the reals. *)
#[export] Instance exact : JsNumber R := {
  nzero := 0%R;
  nadd := Rplus;
  nsub := Rminus;
  nmul := Rmult;
  ndiv := Rdiv;
  nsqrt := sqrt;
  ngtb := fun a b => if Rlt_dec b a then true else false;
  ngeb := fun a b => if Rle_dec b a then true else false;
  of_length := INR
}.

(** ** lib/rag/embeddings.ts *)

Module Embeddings.
Section WithNumbers.
Context {num : Type} `{JsNumber num}.

(** The accumulators of the loop of [cosineSimilarity]:
    [dotProduct], [normA], [normB]. *)
Record Accumulators : Type := {
  dotProduct : num;
  normA : num;
  normB : num
}.

(** [for (let i = 0; i < a.length; i++) { ... }], run once the two lengths
    are known to agree. *)
Fixpoint accumulate (a b : list num) (acc : Accumulators) : Accumulators :=
  match a, b with
  | x :: a', y :: b' =>
      accumulate a' b'
        {| dotProduct := nadd (dotProduct acc) (nmul x y);
           normA := nadd (normA acc) (nmul x x);
           normB := nadd (normB acc) (nmul y y) |}
  | _, _ => acc
  end.

Definition cosineSimilarity (a b : list num) : Result num :=
  if negb (length a =? length b) then Err (Error "Vectors must have same length")
  else
    let acc := accumulate a b
                 {| dotProduct := nzero; normA := nzero; normB := nzero |} in
    let magnitude := nmul (nsqrt (normA acc)) (nsqrt (normB acc)) in
    Ok (if ngtb magnitude nzero then ndiv (dotProduct acc) magnitude else nzero).

(** The squared norm [sum of x*x], as the loop accumulates it. *)
Definition squaredNorm (a : list num) : num :=
  fold_left (fun s x => nadd s (nmul x x)) a nzero.

End WithNumbers.
End Embeddings.

(** ** lib/rag/indexer.ts *)

Module Indexer.
Section WithNumbers.
Context {num : Type}.

Record ChunkMetadata : Type := {
  source : string;
  page : option num;
  unit : option string;
  chunk_id : string;
  created_at : string
}.

Record DocumentChunk : Type := {
  doc_id : string;
  doc_text : string;
  doc_metadata : ChunkMetadata
}.

(** [IndexedChunk extends DocumentChunk] with its [embedding]. *)
Record IndexedChunk : Type := {
  id : string;
  text : string;
  metadata : ChunkMetadata;
  embedding : list num
}.

Record IndexMetadata : Type := {
  driver : string;
  index_created_at : string;
  updated_at : string;
  chunk_count : nat;
  embedding_model : string
}.

Record IndexData : Type := {
  chunks : list IndexedChunk;
  index_metadata : IndexMetadata
}.

(** What the index store reads from its surroundings:
    [process.env.RAG_INDEX_DRIVER || 'json'], the outcome of
    [fs.readFile(indexPath, 'utf-8')] ([Err] when the file is missing or
    unreadable) and [JSON.parse] read at the type [IndexData] ([Err] when the
    text does not parse to an object with a [chunks] array, in which case
    [JSON.parse] or the access [indexData.chunks.length] throws). *)
Record Store : Type := {
  RAG_INDEX_DRIVER : string;
  readIndexFile : Result string;
  JSON_parse : string -> Result IndexData
}.

(** [try { readFile; JSON.parse; return indexData } catch { return null }] *)
Definition loadJsonIndex (st : Store) : option IndexData :=
  match (data <- readIndexFile st ;; JSON_parse st data) with
  | Ok indexData => Some indexData
  | Err _ => None
  end.

Definition loadFaissIndex (st : Store) : option IndexData := loadJsonIndex st.

Definition loadChromaIndex (st : Store) : option IndexData := loadJsonIndex st.

(** The [switch] of [loadIndex]; its [default] branch throws inside the
    [try], so the [catch] turns it into [null]. *)
Definition loadIndex (st : Store) : option IndexData :=
  if String.eqb (RAG_INDEX_DRIVER st) "json" then loadJsonIndex st
  else if String.eqb (RAG_INDEX_DRIVER st) "faiss" then loadFaissIndex st
  else if String.eqb (RAG_INDEX_DRIVER st) "chroma" then loadChromaIndex st
  else None.

End WithNumbers.
Arguments ChunkMetadata num : clear implicits.
Arguments DocumentChunk num : clear implicits.
Arguments IndexedChunk num : clear implicits.
Arguments IndexData num : clear implicits.
Arguments Store num : clear implicits.
End Indexer.

(** ** Array.prototype.sort *)

(** [arr.sort(compare)]: a stable sort (ECMAScript 2019).  An element [x]
    moves behind [y] exactly when [compare(x, y) > 0]; a result that is zero,
    negative or NaN leaves [x] in front (the standard reads NaN as +0).  For
    a comparator that is a consistent ordering every stable sort returns
    this list, the engine's included.  For an inconsistent one (a NaN among
    keys that are numbers) the standard leaves the order to the
    implementation: this list is one admissible outcome and the engine's
    merge sort may return another, so that no property below that depends
    on the order is stated for such keys. *)
Section ArraySort.
Context {num : Type} `{JsNumber num} {A : Type}.
Variable compare : A -> A -> num.

Fixpoint insertSorted (x : A) (l : list A) : list A :=
  match l with
  | [] => [x]
  | y :: l' =>
      if ngtb (compare x y) nzero then y :: insertSorted x l' else x :: y :: l'
  end.

Definition Array_sort (l : list A) : list A := fold_right insertSorted [] l.

End ArraySort.

(** ** lib/rag/retriever.ts *)

Module Retriever.
Import Indexer Embeddings.
Section WithNumbers.
Context {num : Type} `{JsNumber num}.

Record RetrievalResult : Type := {
  result_id : string;
  score : num;
  result_metadata : ChunkMetadata num;
  result_text : string
}.

Record RetrievalMetadata : Type := {
  total_chunks : nat;
  search_time_ms : nat;
  top_k : nat;
  min_similarity : num;
  average_score : num
}.

Record RetrievalResponse : Type := {
  results : list RetrievalResult;
  confidence : bool;
  query : string;
  response_metadata : RetrievalMetadata
}.

(** The surroundings of the retriever: the configuration
    ([RAG_TOP_K], [RAG_MIN_SIM]), the index store, [embedQuery] of the
    embedding service (it never rejects: the service falls back to hash
    embeddings) and the two readings of the clock, as their difference. *)
Record Env : Type := {
  RAG_TOP_K : nat;
  RAG_MIN_SIM : num;
  store : Store num;
  embedQuery : string -> list num;
  searchTime : nat
}.

(** An element of [similarities]: [{ index, chunk, score }]. *)
Record Similarity : Type := {
  sim_index : nat;
  sim_chunk : IndexedChunk num;
  sim_score : num
}.

(** [(a, b) => b.score - a.score] *)
Definition byScoreDescending (a b : Similarity) : num :=
  nsub (sim_score b) (sim_score a).

(** [topResults.length > 0 ? topResults.reduce(...) / topResults.length : 0] *)
Definition averageOf (scores : list num) : num :=
  if 0 <? length scores
  then ndiv (fold_left nadd scores nzero) (of_length (length scores))
  else nzero.

Definition formatResult (s : Similarity) : RetrievalResult :=
  {| result_id := id (sim_chunk s);
     score := sim_score s;
     result_metadata := metadata (sim_chunk s);
     result_text := text (sim_chunk s) |}.

(** [indexData.chunks.map((chunk, index) => ({ index, chunk, score }))];
    [cosineSimilarity] throws on an embedding of another length than the
    query's, which rejects the whole retrieval. *)
Definition similaritiesOf (queryEmbedding : list num)
    (chunks : list (IndexedChunk num)) : Result (list Similarity) :=
  mapM (fun ic : nat * IndexedChunk num =>
          s <- cosineSimilarity queryEmbedding (embedding (snd ic)) ;;
          Ok {| sim_index := fst ic; sim_chunk := snd ic; sim_score := s |})
       (combine (seq 0 (length chunks)) chunks).

(** [similarities.sort(...)] followed by [similarities.slice(0, k)], for a
    count [k]. *)
Definition topResultsOf (k : nat) (similarities : list Similarity)
  : list Similarity :=
  firstn k (Array_sort byScoreDescending similarities).

Definition retrieve (env : Env) (question : string) (k : nat)
  : Result RetrievalResponse :=
  match loadIndex (store env) with
  | None =>
      Err (Error "No RAG index found. Please run the ingestion script first.")
  | Some indexData =>
      let queryEmbedding := embedQuery env question in
      similarities <- similaritiesOf queryEmbedding (chunks indexData) ;;
      let topResults := topResultsOf k similarities in
      let averageScore := averageOf (map sim_score topResults) in
      let confidence := ngeb averageScore (RAG_MIN_SIM env) in
      Ok {| results := map formatResult topResults;
            confidence := confidence;
            query := question;
            response_metadata :=
              {| total_chunks := length (chunks indexData);
                 search_time_ms := searchTime env;
                 top_k := k;
                 min_similarity := RAG_MIN_SIM env;
                 average_score := averageScore |} |}
  end.

End WithNumbers.
Arguments RetrievalResult num : clear implicits.
Arguments RetrievalResponse num : clear implicits.
Arguments Env num : clear implicits.
Arguments Similarity num : clear implicits.
End Retriever.

(** ** lib/rag/prompt_builder.ts *)

Module PromptBuilder.
Import Indexer Retriever.

Inductive AnswerFormat : Type := detailed | concise | exam.
Inductive CitationStyle : Type := inline | numbered | vtu.

Record PromptOptions : Type := {
  maxContextTokens : option Z;
  includeMetadata : option bool;
  answerFormat : option AnswerFormat;
  citationStyle : option CitationStyle
}.

Record BuiltPrompt : Type := {
  systemPrompt : string;
  userPrompt : string;
  fullPrompt : string;
  contextSources : list string;
  tokenEstimate : Z
}.

(** The result of [buildContextSection]. *)
Record ContextSection : Type := {
  contextText : string;
  sources : list string;
  estimatedTokens : Z
}.

Definition newline : string := String (ascii_of_nat 10) EmptyString.

(** [Math.ceil(length / 4)] *)
Definition ceilQuarter (length : nat) : Z := (Z.of_nat length + 3) / 4.

Definition estimateTokens (text : string) : Z := ceilQuarter (String.length text).

(** The double quote. *)
Definition quote : string := String (ascii_of_nat 34) EmptyString.

(** The lines of a template literal, joined by line feeds. *)
Definition lines (l : list string) : string := String.concat newline l.

(** [buildSystemPrompt]: its three tables and the text it returns. *)
Definition baseInstructions : string :=
  lines
    [ "You are VTU EduMate, an AI assistant for Visvesvaraya Technological University (VTU). You provide accurate, comprehensive answers based on official VTU syllabus and course materials.";
      "";
      "CRITICAL RULES:";
      "1. Answer ONLY from the provided context";
      ("2. If you cannot find an answer in the context, respond: " ++ quote ++ "Not found in VTU context." ++ quote);
      "3. Cite facts using the format [source:page] after relevant sentences";
      "4. Follow VTU examination answer standards";
      "5. Return response as JSON object with keys: answer, citations, exam_format" ]%string.

Definition formatInstructions (answerFormat : AnswerFormat) : string :=
  match answerFormat with
  | detailed =>
      lines
        [ "";
          "ANSWER FORMAT:";
          "- Provide comprehensive explanations with examples";
          "- Include technical details and diagrams when relevant";
          "- Structure answers with clear headings and bullet points";
          "- Aim for university-level depth and clarity" ]
  | concise =>
      lines
        [ "";
          "ANSWER FORMAT:";
          "- Provide concise, direct answers (150-300 words)";
          "- Focus on key concepts and essential information";
          "- Use bullet points for clarity";
          "- Suitable for quick reference" ]
  | exam =>
      lines
        [ "";
          "ANSWER FORMAT:";
          "- Follow VTU examination answer patterns";
          "- Include proper technical terminology";
          "- Provide step-by-step explanations where applicable";
          "- Add relevant diagrams/flowchart descriptions";
          "- Structure for maximum marks in VTU exams" ]
  end%string.

Definition citationInstructions (citationStyle : CitationStyle) : string :=
  match citationStyle with
  | inline => "Use inline citations: [source:page] immediately after facts."
  | numbered =>
      "Use numbered citations: [1], [2], etc. with reference list at end."
  | vtu => "Use VTU academic format: [source p.page] for citations."
  end%string.

Definition buildSystemPrompt (answerFormat : AnswerFormat)
    (citationStyle : CitationStyle) : string :=
  lines
    [ baseInstructions;
      "";
      formatInstructions answerFormat;
      "";
      "CITATION RULES:";
      citationInstructions citationStyle;
      "";
      "EXAM FORMAT CLASSIFICATION:";
      "- two_mark: Brief, definitional answers (2-3 sentences)";
      "- six_mark: Moderate explanations with examples (1-2 paragraphs)";
      "- viva: Comprehensive analysis with applications (multiple sections)" ]%string.

(** [buildUserPrompt]: the context text, the question, and the
    instructions with the JSON example. *)
Definition formatHints (answerFormat : AnswerFormat) : string :=
  match answerFormat with
  | detailed => "Provide a comprehensive, detailed answer."
  | concise => "Provide a concise, focused answer."
  | exam => "Provide an examination-style answer suitable for VTU standards."
  end%string.

Definition buildUserPrompt (question contextText : string)
    (answerFormat : AnswerFormat) : string :=
  lines
    [ contextText;
      "";
      "QUESTION: " ++ question;
      "";
      "INSTRUCTIONS: " ++ formatHints answerFormat ++ " Base your answer strictly on the provided context. Include proper citations and classify the answer format (two_mark, six_mark, or viva) based on the question complexity and required depth.";
      "";
      "Respond in JSON format:";
      "{";
      ("  " ++ quote ++ "answer" ++ quote ++ ": " ++ quote ++ "Your detailed answer here with [source:page] citations" ++ quote ++ ",");
      ("  " ++ quote ++ "citations" ++ quote ++ ": [{" ++ quote ++ "source" ++ quote ++ ": " ++ quote ++ "filename" ++ quote ++ ", " ++ quote ++ "page" ++ quote ++ ": 1, " ++ quote ++ "chunk_id" ++ quote ++ ": " ++ quote ++ "id" ++ quote ++ "}],");
      ("  " ++ quote ++ "exam_format" ++ quote ++ ": " ++ quote ++ "six_mark" ++ quote);
      "}" ]%string.

Section WithNumbers.
Context {num : Type}.

(** What the prompt builder takes from the language runtime for a number:
    truthiness, [String(n)] inside a template literal, and [n.toFixed(3)]. *)
Record Runtime : Type := {
  truthy : num -> bool;
  Number_toString : num -> string;
  toFixed3 : num -> string
}.

Variable rt : Runtime.

(** [`${source}${page ? `:p${page}` : ''}`] *)
Definition sourceIdOf (chunk : RetrievalResult num) : string :=
  (source (result_metadata chunk) ++
   match page (result_metadata chunk) with
   | Some p => if truthy rt p then ":p" ++ Number_toString rt p else ""
   | None => ""
   end)%string.

(** [chunk.metadata.page || 'N/A'] inside the template literal *)
Definition pageOrNA (chunk : RetrievalResult num) : string :=
  match page (result_metadata chunk) with
  | Some p => if truthy rt p then Number_toString rt p else "N/A"
  | None => "N/A"
  end.

(** [chunk.metadata.unit || 'N/A'] *)
Definition unitOrNA (chunk : RetrievalResult num) : string :=
  match unit (result_metadata chunk) with
  | Some u => if String.eqb u "" then "N/A" else u
  | None => "N/A"
  end.

Definition metadataLineOf (includeMetadata : bool) (chunk : RetrievalResult num)
  : string :=
  if includeMetadata
  then ("Source: " ++ source (result_metadata chunk) ++
        ", Page: " ++ pageOrNA chunk ++
        ", Unit: " ++ unitOrNA chunk ++
        ", Score: " ++ toFixed3 rt (score chunk) ++ newline)%string
  else ""%string.

(** [`${sourceHeader}${metadataLine}${chunk.text}\n\n`] *)
Definition chunkTextOf (includeMetadata : bool) (chunk : RetrievalResult num)
  : string :=
  (("[" ++ sourceIdOf chunk ++ "]" ++ newline) ++
   metadataLineOf includeMetadata chunk ++
   result_text chunk ++ newline ++ newline)%string.

Definition chunkTokensOf (includeMetadata : bool) (chunk : RetrievalResult num)
  : Z :=
  ceilQuarter (String.length (chunkTextOf includeMetadata chunk)).

(** The loop of [buildContextSection] from index [i] on, [break] included. *)
Fixpoint contextLoop (maxTokens : Z) (includeMetadata : bool)
    (chunks : list (RetrievalResult num)) (i : nat) (acc : ContextSection)
  : ContextSection :=
  match chunks with
  | [] => acc
  | chunk :: rest =>
      let chunkTokens := chunkTokensOf includeMetadata chunk in
      if (estimatedTokens acc + chunkTokens >? maxTokens)%Z && (0 <? i)
      then acc
      else contextLoop maxTokens includeMetadata rest (S i)
             {| contextText :=
                  (contextText acc ++ chunkTextOf includeMetadata chunk)%string;
                sources := sources acc ++ [sourceIdOf chunk];
                estimatedTokens := (estimatedTokens acc + chunkTokens)%Z |}
  end.

Definition buildContextSection (chunks : list (RetrievalResult num))
    (maxTokens : Z) (includeMetadata : bool) (citationStyle : CitationStyle)
  : ContextSection :=
  contextLoop maxTokens includeMetadata chunks 0
    {| contextText := ("CONTEXT INFORMATION:" ++ newline ++ newline)%string;
       sources := [];
       estimatedTokens := 50 (* base overhead *) |}.

Definition buildPrompt (retrievedChunks : list (RetrievalResult num))
    (question : string) (options : PromptOptions) : BuiltPrompt :=
  let maxContextTokens := match maxContextTokens options with
                          | Some m => m | None => 4000%Z end in
  let includeMetadata := match includeMetadata options with
                         | Some b => b | None => true end in
  let answerFormat := match answerFormat options with
                      | Some f => f | None => detailed end in
  let citationStyle := match citationStyle options with
                       | Some c => c | None => vtu end in
  let systemPrompt := buildSystemPrompt answerFormat citationStyle in
  let section := buildContextSection retrievedChunks maxContextTokens
                   includeMetadata citationStyle in
  let userPrompt := buildUserPrompt question (contextText section)
                      answerFormat in
  {| systemPrompt := systemPrompt;
     userPrompt := userPrompt;
     fullPrompt := (systemPrompt ++ newline ++ newline ++ userPrompt)%string;
     contextSources := sources section;
     tokenEstimate := estimatedTokens section |}.

End WithNumbers.
Arguments Runtime num : clear implicits.
End PromptBuilder.

(** ** JavaScript strings *)

(** [\s] of a regular expression and the white space [trim] removes, among
    the code units below 256: tab, line feed, vertical tab, form feed,
    carriage return, space and no-break space. *)
Definition isWhiteSpace (c : ascii) : bool :=
  let n := nat_of_ascii c in
  ((9 <=? n) && (n <=? 13)) || (n =? 32) || (n =? 160).

Fixpoint trimStart (s : string) : string :=
  match s with
  | EmptyString => EmptyString
  | String c s' => if isWhiteSpace c then trimStart s' else s
  end.

Fixpoint trimEnd (s : string) : string :=
  match s with
  | EmptyString => EmptyString
  | String c s' =>
      match trimEnd s' with
      | EmptyString => if isWhiteSpace c then EmptyString else String c EmptyString
      | t => String c t
      end
  end.

Definition trim (s : string) : string := trimEnd (trimStart s).

(** [s.split(/[...]+/)] for a character class [sep]: the pieces between
    maximal runs of separators, in order; a separator at either end of [s]
    leaves an empty piece there, and the empty string gives one empty piece.
    [inRun] tells that the code unit before was a separator. *)
Fixpoint splitRuns (sep : ascii -> bool) (inRun : bool) (s : string)
  : list string :=
  match s with
  | EmptyString => [EmptyString]
  | String c s' =>
      if sep c
      then (if inRun then splitRuns sep true s'
            else EmptyString :: splitRuns sep true s')
      else match splitRuns sep false s' with
           | piece :: pieces => String c piece :: pieces
           | [] => [String c EmptyString]
           end
  end.

(** [s.split(/\s+/)] *)
Definition splitWhiteSpace (s : string) : list string :=
  splitRuns isWhiteSpace false s.

(** [array.join(' ')] *)
Definition joinSpace (l : list string) : string := String.concat " " l.

(** [String(n)] for a non-negative integer. *)
Definition decimal (n : nat) : string :=
  DecimalString.NilEmpty.string_of_uint (Nat.to_uint n).

(** ** lib/rag/gemini_client.ts *)

Module GeminiClient.

(** The JSON body of a response of the generation service, as far as the
    client reads it; a field that may be absent is an [option]. *)
Record Part : Type := { part_text : option string }.
Record Content : Type := { parts : option (list Part) }.
Record Candidate : Type := {
  content : option Content;
  finishReason : option string
}.
Record GeminiResponse : Type := { candidates : option (list Candidate) }.

(** The outcome of one [fetch] and of reading its body. *)
Inductive HttpReply : Type :=
| Rejected (error : JsError)                     (* fetch or response.json() rejects *)
| NotOk (status : nat) (errorText : string)      (* !response.ok *)
| Body (data : GeminiResponse).

(** The part of [callGeminiAPI] after the [fetch]. *)
Definition readReply (reply : HttpReply) : Result string :=
  match reply with
  | Rejected e => Err e
  | NotOk status errorText =>
      Err (Error ("Gemini API error (" ++ decimal status ++ "): " ++ errorText))
  | Body data =>
      match candidates data with
      | None | Some [] => Err (Error "No candidates returned from Gemini API")
      | Some (candidate :: _) =>
          match content candidate with
          | Some {| parts := Some (part :: _) |} =>
              if match finishReason candidate with
                 | Some r => String.eqb r "SAFETY"
                 | None => false
                 end
              then Err (Error "Response blocked by safety filters")
              else
                match part_text part with
                | Some generatedText =>
                    if (String.length (trim generatedText) =? 0)%nat
                    then Err (Error "Empty response from Gemini API")
                    else Ok (trim generatedText)
                | None => Err (Error "Empty response from Gemini API")
                end
          | _ => Err (Error "Invalid candidate structure in Gemini response")
          end
      end
  end.

Section WithConfig.
(** [GenerationConfig] only travels into the request body. *)
Variable GenerationConfig : Type.

(** What the client does to the outside world, in order. *)
Inductive Event : Type :=
| Request (model prompt : string) (config : GenerationConfig)
| Sleep (delayMs : nat).

Definition Trace : Type := list Event.

Fixpoint requestCount (t : Trace) : nat :=
  match t with
  | [] => 0
  | Request _ _ _ :: t' => S (requestCount t')
  | Sleep _ :: t' => requestCount t'
  end.

(** The environment of the client: its three configuration variables and
    the generation service, which answers the [n]-th request of a run
    (counted from 0) with [service n]. *)
Record Env : Type := {
  GEMINI_API_KEY : option string;
  GEN_MODEL : string;
  GEN_MODEL_FALLBACK : string;
  service : nat -> HttpReply
}.

(** An asynchronous computation: it extends the trace and resolves or
    rejects. *)
Definition Async (A : Type) : Type := Trace -> Result A * Trace.

Definition resolve {A : Type} (a : A) : Async A := fun t => (Ok a, t).

Definition throw {A : Type} (e : JsError) : Async A := fun t => (Err e, t).

Definition await {A B : Type} (c : Async A) (k : A -> Async B) : Async B :=
  fun t =>
    match c t with
    | (Ok a, t') => k a t'
    | (Err e, t') => (Err e, t')
    end.

(** [try { c } catch (error) { ... }]: the outcome of [c], as a value. *)
Definition try {A : Type} (c : Async A) : Async (Result A) :=
  fun t => let (r, t') := c t in (Ok r, t').

Definition emit (e : Event) : Async unit := fun t => (Ok tt, t ++ [e]).

Notation "x <~ c ;; k" := (await c (fun x => k))
  (at level 61, c at next level, right associativity).

Variable env : Env.

Definition callGeminiAPI (model prompt : string) (config : GenerationConfig)
  : Async string :=
  fun t =>
    (readReply (service env (requestCount t)),
     t ++ [Request model prompt config]).

(** The body of the [for] loop of [generateWithModel] for the attempts still
    to run, and the [throw] after the loop. *)
Fixpoint retryLoop (model prompt : string) (config : GenerationConfig)
    (maxRetries : nat) (attempts : list nat) (lastError : option JsError)
  : Async string :=
  match attempts with
  | [] =>
      throw (match lastError with
             | Some e => e
             | None => Error "Maximum retry attempts exceeded"
             end)
  | attempt :: rest =>
      r <~ try (callGeminiAPI model prompt config) ;;
      match r with
      | Ok response => resolve response
      | Err error =>
          _ <~ (if attempt <? maxRetries
                then emit (Sleep (2 ^ (attempt - 1) * 1000))
                else resolve tt) ;;
          retryLoop model prompt config maxRetries rest (Some error)
      end
  end.

(** [for (let attempt = 1; attempt <= maxRetries; attempt++)] *)
Definition generateWithModel (model prompt : string) (config : GenerationConfig)
    (maxRetries : nat) : Async string :=
  retryLoop model prompt config maxRetries (seq 1 maxRetries) None.

Definition defaultMaxRetries : nat := 3.

Definition generateFromPrompt (prompt : string) (finalConfig : GenerationConfig)
  : Async string :=
  match GEMINI_API_KEY env with
  | None | Some EmptyString =>
      throw (Error "GEMINI_API_KEY environment variable is required for RAG functionality")
  | Some _ =>
      primary <~ try (generateWithModel (GEN_MODEL env) prompt finalConfig
                        defaultMaxRetries) ;;
      match primary with
      | Ok response => resolve response
      | Err primaryError =>
          fallback <~ try (generateWithModel (GEN_MODEL_FALLBACK env) prompt
                             finalConfig defaultMaxRetries) ;;
          match fallback with
          | Ok response => resolve response
          | Err fallbackError =>
              throw (Error ("Generation failed: " ++ errorToString fallbackError))
          end
      end
  end.

End WithConfig.
End GeminiClient.

(** ** scripts/ingest_rag.ts: the chunker *)

Module Ingest.
Import Indexer.

Record FileMetadata : Type := {
  filename : string;
  filepath : string;
  extension : string;
  size : nat;
  lastModified : string
}.

(** What [createChunk] takes from elsewhere: the [unit] that [parseFilename]
    reads off a file name, and [new Date().toISOString()]. *)
Record Env : Type := {
  parseFilenameUnit : string -> option string;
  now : string
}.

(** The character class [[.!?]]. *)
Definition isSentenceEnd (c : ascii) : bool :=
  let n := nat_of_ascii c in (n =? 46) || (n =? 33) || (n =? 63).

(** [array.slice(-n)]: the last [n] elements, and for [n = 0] the whole
    array, since [-0] is [0]. *)
Definition sliceFromEnd {A : Type} (n : nat) (l : list A) : list A :=
  match n with
  | 0 => l
  | _ => skipn (length l - n) l
  end.

Definition getOverlapText (text : string) (overlapWords : nat) : string :=
  let words := splitWhiteSpace text in
  if length words <=? overlapWords then text
  else joinSpace (sliceFromEnd overlapWords words).

Definition countWords (text : string) : nat :=
  length (filter (fun word => 0 <? String.length word) (splitWhiteSpace text)).

Section WithNumbers.
Context {num : Type}.
Variable env : Env.

Definition createChunk (text : string) (file : FileMetadata) (index : nat)
  : DocumentChunk num :=
  {| doc_id := (filename file ++ "_chunk_" ++ decimal index)%string;
     doc_text := text;
     doc_metadata :=
       {| source := filename file;
          page := None;
          unit := parseFilenameUnit env (filename file);
          chunk_id := (filename file ++ "_" ++ decimal index)%string;
          created_at := now env |} |}.

(** The variables of the loop of [chunkText]. *)
Record ChunkerState : Type := {
  emitted : list (DocumentChunk num);     (* [chunks] *)
  currentChunk : string;
  currentWordCount : nat;
  chunkIndex : nat
}.

Definition chunkStep (file : FileMetadata) (chunkSizeWords overlapWords : nat)
    (st : ChunkerState) (rawSentence : string) : ChunkerState :=
  let sentence := (trim rawSentence ++ ".")%string in
  let sentenceWords := length (splitWhiteSpace sentence) in
  if (chunkSizeWords <? currentWordCount st + sentenceWords)
     && (0 <? String.length (currentChunk st))
  then
    let overlapText := getOverlapText (currentChunk st) overlapWords in
    let next := (overlapText ++
                 (if (0 <? String.length overlapText)%nat then " " else "") ++
                 sentence)%string in
    {| emitted := emitted st ++
                  [createChunk (trim (currentChunk st)) file (chunkIndex st)];
       currentChunk := next;
       currentWordCount := countWords next;
       chunkIndex := S (chunkIndex st) |}
  else
    {| emitted := emitted st;
       currentChunk := (currentChunk st ++
                        (if (0 <? String.length (currentChunk st))%nat
                         then " " else "") ++
                        sentence)%string;
       currentWordCount := currentWordCount st + sentenceWords;
       chunkIndex := chunkIndex st |}.

Definition chunkText (text : string) (file : FileMetadata)
    (chunkSizeWords overlapWords : nat) : list (DocumentChunk num) :=
  let sentences :=
    filter (fun s => 0 <? String.length (trim s))
           (splitRuns isSentenceEnd false text) in
  let final :=
    fold_left (chunkStep file chunkSizeWords overlapWords) sentences
      {| emitted := []; currentChunk := ""; currentWordCount := 0;
         chunkIndex := 0 |} in
  if 0 <? String.length (trim (currentChunk final))
  then emitted final ++
       [createChunk (trim (currentChunk final)) file (chunkIndex final)]
  else emitted final.

End WithNumbers.
End Ingest.

(** ** lib/rag/gemini_client.ts: structured responses *)

Module StructuredGeneration.
Import GeminiClient.
Section WithNumbers.
Context {num : Type}.

(** A value [JSON.parse] returns. *)
#[local] Unset Elimination Schemes.
Inductive Json : Type :=
| JNull
| JBool (b : bool)
| JNumber (n : num)
| JString (s : string)
| JArray (items : list Json)
| JObject (fields : list (string * Json)).
#[local] Set Elimination Schemes.

(** What [generateStructuredResponse] takes from the language:
    [JSON.parse], and for a key that is not an own key of the parsed
    object whether [key in parsed] holds all the same (the names an object
    inherits, the indices and [length] of an array). *)
Record Runtime : Type := {
  JSON_parse : string -> Result Json;
  inherited : Json -> string -> bool
}.

(** The object [generateStructuredResponse] resolves to: the parsed value,
    and the properties the function set on it, in order. *)
Record Structured : Type := {
  parsed : Json;
  defaulted : list (string * Json)
}.

Variable rt : Runtime.

(** [key in parsed]; [None] is the [TypeError] the operator throws for a
    value that is not an object. *)
Definition keyIn (key : string) (value : Json) : option bool :=
  match value with
  | JObject fields =>
      Some (existsb (fun field => String.eqb (fst field) key) fields
            || inherited rt value key)
  | JArray _ => Some (inherited rt value key)
  | JNull | JBool _ | JNumber _ | JString _ => None
  end.

(** [expectedKeys.filter(key => !(key in parsed))] *)
Fixpoint missingKeysOf (expectedKeys : list string) (value : Json)
  : option (list string) :=
  match expectedKeys with
  | [] => Some []
  | key :: keys =>
      match keyIn key value, missingKeysOf keys value with
      | Some present, Some missing =>
          Some (if present then missing else key :: missing)
      | _, _ => None
      end
  end.

(** [defaults[key] || null] for a key that no object inherits. *)
Definition defaultFor (response key : string) : Json :=
  if String.eqb key "answer"
  then (if String.eqb response "" then JNull else JString response)
  else if String.eqb key "citations" then JArray []
  else if String.eqb key "exam_format" then JString "six_mark"
  else JNull.

(** The object of the [catch]: the raw text, wrapped. *)
Definition wrapped (response : string) : Structured :=
  {| parsed := JObject [ ("answer", JString response);
                         ("citations", JArray []);
                         ("exam_format", JString "six_mark");
                         ("_parsing_error", JBool true) ]%string;
     defaulted := [] |}.

(** The [try] and [catch] of [generateStructuredResponse], on the text the
    model returned. *)
Definition structure (response : string) (expectedKeys : list string)
  : Structured :=
  match JSON_parse rt response with
  | Err _ => wrapped response
  | Ok value =>
      match missingKeysOf expectedKeys value with
      | None => wrapped response
      | Some missingKeys =>
          {| parsed := value;
             defaulted := map (fun key => (key, defaultFor response key))
                              missingKeys |}
      end
  end.

(** [response[key]] on the object [generateStructuredResponse] resolves
    to, for a key that no object inherits: a property the function set, else
    an own key of the parsed object, else [undefined]. *)
Definition valueOf (response : Structured) (key : string) : option Json :=
  match find (fun field => String.eqb (fst field) key) (defaulted response) with
  | Some field => Some (snd field)
  | None =>
      match parsed response with
      | JObject fields =>
          option_map snd (find (fun field => String.eqb (fst field) key) fields)
      | _ => None
      end
  end.

(** The default of [expectedKeys]. *)
Definition defaultKeys : list string :=
  ["answer"; "citations"; "exam_format"]%string.

Section WithConfig.
Variable GenerationConfig : Type.
Variable env : GeminiClient.Env.

(** [generateStructuredResponse]; [jsonConfig] is the default
    configuration with the response format [json]. *)
Definition generateStructuredResponse (jsonConfig : GenerationConfig)
    (prompt : string) (expectedKeys : list string)
  : Async GenerationConfig Structured :=
  await (generateFromPrompt env prompt jsonConfig)
        (fun response => resolve (structure response expectedKeys)).

End WithConfig.
End WithNumbers.
Arguments Json num : clear implicits.
Arguments Runtime num : clear implicits.
Arguments Structured num : clear implicits.
End StructuredGeneration.

(** ** app/api/rag/ask/route.ts *)

Module AskRoute.
Import Indexer Retriever PromptBuilder StructuredGeneration.
Local Open Scope string_scope.

(** A field of the request body that should hold a string. *)
Inductive Field : Type :=
| Missing                 (* undefined or null *)
| NotAString              (* a value of another type *)
| Text (s : string).

Record RagRequest : Type := {
  question : Field;
  scheme : option string;
  subject : option string;
  useRag : option bool
}.

(** What [request.json()] resolves to: [null], or a value whose properties
    the handler reads.  A value that is no object (a number, a string, a
    boolean, an array) has none of the four, and reads as the record whose
    fields are all absent. *)
Inductive RequestBody : Type :=
| NullBody
| Fields (request : RagRequest).

Inductive Method : Type := rag | heuristic_fallback.

(** The expressions of the handler that can raise a [TypeError]; the engine
    words the message of each. *)
Inductive TypeErrorSite : Type :=
| QuestionOfNull          (* body.question, for a body that is null *)
| SubstringOfQuestion     (* body.question?.substring(0, 50), for a question
                             that is neither absent nor a string *)
| MapOfCitations          (* rawCitations.map(...), for a value that is no
                             array *)
| SourceOfNull.           (* citation.source, for a citation that is null *)

(** [GenerationConfig] of gemini_client.ts; both formats are strings. *)
Record GenerationConfig (num : Type) : Type := {
  temperature : num;
  topK : nat;
  topP : num;
  maxOutputTokens : nat;
  responseFormat : string
}.

Section WithNumbers.
Context {num : Type} `{JsNumber num}.

(** [{ ...DEFAULT_CONFIG, responseFormat: 'json' }], the configuration
    [generateStructuredResponse] asks for.  The literals 0.1 and 0.95 denote
    the binary64 numbers nearest to 1/10 and 95/100, which are the rounded
    quotients. *)
Definition jsonConfig : GenerationConfig num :=
  {| temperature := ndiv (of_length 1) (of_length 10);
     topK := 40;
     topP := ndiv (of_length 95) (of_length 100);
     maxOutputTokens := 2048;
     responseFormat := "json" |}.

(** A citation of a response; the reply of the model is not typed, so that
    [source] and [chunk_id] hold whatever value it gave, and [page] may be
    left [undefined]. *)
Record Citation : Type := {
  cit_source : Json num;
  cit_page : option (Json num);
  cit_chunk_id : Json num
}.

Record SourceInfo : Type := {
  src_source : string;
  src_page : option num;
  src_unit : option string;
  src_chunk_id : string;
  src_score : num
}.

Record Debug : Type := {
  scores : list num;
  retrieval_confidence : bool;
  debug_search_time_ms : nat;
  debug_total_chunks : nat;
  method : Method
}.

(** The body of a response; [answer] is a string wherever the handler sets
    it, and whatever value the reply of the model held under [answer]
    otherwise. *)
Record RagResponse : Type := {
  answer : Json num;
  citations : list Citation;
  response_sources : list SourceInfo;
  debug : option Debug;
  error : option string
}.

(** [NextResponse.json(body, { status })] *)
Record HttpResponse : Type := {
  status : nat;
  json : RagResponse
}.

(** The answer of the heuristic system, [getAiResponse]. *)
Record HeuristicResponse : Type := {
  success : bool;
  heuristic_answer : string;
  heuristic_error : option string
}.

(** The surroundings of the route: [ENABLE_RAG], the retriever, the runtime
    of the prompt builder, [JSON.parse] and the [in] operator, the
    surroundings of the generation client, the heuristic system
    ([getAiResponse] on the question and the scheme) and the messages of the
    [TypeError]s. *)
Record Env : Type := {
  ENABLE_RAG : bool;
  retriever : Retriever.Env num;
  runtime : PromptBuilder.Runtime num;
  language : StructuredGeneration.Runtime num;
  client : GeminiClient.Env;
  getAiResponse : string -> string -> Result HeuristicResponse;
  typeErrorMessage : TypeErrorSite -> string
}.

Variable env : Env.

(** [new TypeError(...)], as the engine raises it. *)
Definition typeError (site : TypeErrorSite) : JsError :=
  {| error_name := "TypeError"; error_message := typeErrorMessage env site |}.

Definition validateRequest (body : RagRequest) : option string :=
  match question body with
  | Missing | NotAString | Text EmptyString =>
      Some "Question is required and must be a string"
  | Text q =>
      if (String.length (trim q) =? 0)%nat then Some "Question cannot be empty"
      else if (2000 <? String.length q)%nat
           then Some "Question is too long (max 2000 characters)"
           else None
  end.

(** [a || b] on strings that may be absent: the first that is present and
    not empty. *)
Definition orElse (a : option string) (b : option string) : option string :=
  match a with
  | Some (String _ _) => a
  | _ => b
  end.

Definition withDefault (a : option string) (d : string) : string :=
  match orElse a None with
  | Some s => s
  | None => d
  end.

(** The truth value of a value of JSON: [null], [false], the empty string
    and the numbers 0 and NaN are false. *)
Definition truthyValue (value : Json num) : bool :=
  match value with
  | JNull => false
  | JBool b => b
  | JNumber n => truthy (runtime env) n
  | JString s => negb (String.eqb s "")
  | JArray _ | JObject _ => true
  end.

(** [a || b] on values that may be [undefined]. *)
Definition orValue (a b : option (Json num)) : option (Json num) :=
  match a with
  | Some value => if truthyValue value then a else b
  | None => b
  end.

(** [a || d] for a default that is there. *)
Definition valueOr (a : option (Json num)) (d : Json num) : Json num :=
  match orValue a None with
  | Some value => value
  | None => d
  end.

(** [citation.key] for a citation that is not null and a key that no value
    inherits: a number, a string, a boolean or an array has no such
    property. *)
Definition member (citation : Json num) (key : string) : option (Json num) :=
  match citation with
  | JObject fields =>
      option_map snd (find (fun field => String.eqb (fst field) key) fields)
  | _ => None
  end.

(** [text === value] for a string [text]. *)
Definition strictlyEquals (text : string) (value : option (Json num)) : bool :=
  match value with
  | Some (JString s) => String.eqb text s
  | _ => false
  end.

(** The callback of [rawCitations.map]. *)
Definition mapCitation (retrievedChunks : list (RetrievalResult num))
    (citation : Json num) : Result Citation :=
  match citation with
  | JNull => Err (typeError SourceOfNull)
  | _ =>
      let matchedChunk :=
        find (fun chunk =>
                strictlyEquals (source (result_metadata chunk))
                  (member citation "source")
                || strictlyEquals (chunk_id (result_metadata chunk))
                     (member citation "chunk_id"))
             retrievedChunks in
      Ok {| cit_source :=
              valueOr
                (orValue (member citation "source")
                   (option_map (fun c => JString (source (result_metadata c)))
                      matchedChunk))
                (JString "Unknown");
            cit_page :=
              orValue (member citation "page")
                (match matchedChunk with
                 | Some c => option_map (@JNumber num) (page (result_metadata c))
                 | None => None
                 end);
            cit_chunk_id :=
              valueOr
                (orValue (member citation "chunk_id")
                   (option_map (fun c => JString (chunk_id (result_metadata c)))
                      matchedChunk))
                (JString "unknown") |}
  end.

(** [processGeminiResponse]; it throws where [rawCitations] has no [map],
    and on a citation that is null. *)
Definition processGeminiResponse (geminiResponse : Structured num)
    (retrievedChunks : list (RetrievalResult num))
  : Result (Json num * list Citation * list SourceInfo) :=
  let answer :=
    valueOr (valueOf geminiResponse "answer") (JString "No answer generated") in
  rawCitations <-
    match valueOr (valueOf geminiResponse "citations") (JArray []) with
    | JArray items => Ok items
    | _ => Err (typeError MapOfCitations)
    end ;;
  citations <- mapM (mapCitation retrievedChunks) rawCitations ;;
  let sources :=
    map (fun chunk =>
           {| src_source := source (result_metadata chunk);
              src_page := page (result_metadata chunk);
              src_unit := unit (result_metadata chunk);
              src_chunk_id := chunk_id (result_metadata chunk);
              src_score := score chunk |})
        retrievedChunks in
  Ok (answer, citations, sources).

Definition ok (body : RagResponse) : HttpResponse :=
  {| status := 200; json := body |}.

Definition debugOf (retrievalResult : RetrievalResponse num) (confident : bool)
  : Debug :=
  {| scores := map (@score num) (results retrievalResult);
     retrieval_confidence := confident;
     debug_search_time_ms := search_time_ms (response_metadata retrievalResult);
     debug_total_chunks := total_chunks (response_metadata retrievalResult);
     method := rag |}.

(** [await generateStructuredResponse(prompt, [...])], as the handler sees
    it: the outcome of the run of the client, which starts with the call. *)
Definition generated (prompt : string) : Result (Structured num) :=
  fst (generateStructuredResponse (language env) (client env) jsonConfig prompt
         ["answer"; "citations"; "exam_format"] []).

Definition handleRagPipeline (questionText : string) : Result HttpResponse :=
  retrievalResult <- retrieve (retriever env) questionText
                       (RAG_TOP_K (retriever env)) ;;
  if negb (confidence retrievalResult)
  then Ok (ok {| answer := JString "Not found in VTU context.";
                 citations := [];
                 response_sources := [];
                 debug := Some (debugOf retrievalResult false);
                 error := None |})
  else
    let promptData :=
      buildPrompt (runtime env) (results retrievalResult) questionText
        {| maxContextTokens := None; includeMetadata := Some true;
           answerFormat := Some exam; citationStyle := Some vtu |} in
    geminiResponse <- generated (fullPrompt promptData) ;;
    processedResponse <-
      processGeminiResponse geminiResponse (results retrievalResult) ;;
    let '(answer, citations, sources) := processedResponse in
    Ok (ok {| answer := answer;
              citations := citations;
              response_sources := sources;
              debug := Some (debugOf retrievalResult (confidence retrievalResult));
              error := None |}).

Definition handleHeuristicFallback (questionText : string)
    (body : RagRequest) (ragError : option JsError) : HttpResponse :=
  let attempt :=
    heuristicResponse <- getAiResponse env questionText
                           (withDefault (scheme body) "2022") ;;
    if success heuristicResponse then Ok heuristicResponse
    else Err (Error (withDefault (heuristic_error heuristicResponse)
                       "Heuristic system failed")) in
  match attempt with
  | Ok heuristicResponse =>
      ok {| answer := JString (heuristic_answer heuristicResponse);
            citations := [];
            response_sources := [];
            debug := Some {| scores := []; retrieval_confidence := true;
                             debug_search_time_ms := 0; debug_total_chunks := 0;
                             method := heuristic_fallback |};
            error := None |}
  | Err fallbackError =>
      {| status := 500;
         json :=
           {| answer := JString "Sorry, I encountered an error while processing your question. Please try again later.";
              citations := [];
              response_sources := [];
              debug := Some {| scores := []; retrieval_confidence := false;
                               debug_search_time_ms := 0; debug_total_chunks := 0;
                               method := heuristic_fallback |};
              error :=
                Some ("RAG failed: " ++
                      withDefault (option_map error_message ragError)
                        "Unknown RAG error" ++
                      ". Fallback failed: " ++
                      error_message fallbackError)%string |} |}
  end.

Definition serverError (message : string) : HttpResponse :=
  {| status := 500;
     json := {| answer := JString "An error occurred while processing your question. Please try again.";
                citations := [];
                response_sources := [];
                debug := None;
                error := Some message |} |}.

(** [POST]; [body] is the outcome of [request.json()].  The log line at
    the head of the handler reads [body.question], which throws for a body
    that is null, and calls [body.question?.substring], which throws for a
    question that is neither absent nor a string. *)
Definition POST (body : Result RequestBody) : HttpResponse :=
  match body with
  | Err e => serverError (error_message e)
  | Ok NullBody => serverError (typeErrorMessage env QuestionOfNull)
  | Ok (Fields body) =>
      match question body with
      | NotAString => serverError (typeErrorMessage env SubstringOfQuestion)
      | _ =>
          match validateRequest body with
          | Some validationError =>
              {| status := 400;
                 json := {| answer := JString validationError;
                            citations := [];
                            response_sources := [];
                            debug := None;
                            error := Some validationError |} |}
          | None =>
              let questionText :=
                match question body with Text q => q | _ => "" end in
              let shouldUseRag :=
                match useRag body with Some true => true | _ => false end
                || ENABLE_RAG env in
              if negb shouldUseRag
              then handleHeuristicFallback questionText body None
              else match handleRagPipeline questionText with
                   | Ok response => response
                   | Err ragError =>
                       handleHeuristicFallback questionText body (Some ragError)
                   end
          end
      end
  end.

End WithNumbers.
Arguments Env num : clear implicits.
Arguments Citation num : clear implicits.
Arguments RagResponse num : clear implicits.
Arguments HttpResponse num : clear implicits.
End AskRoute.

(** ** JavaScript strings: case and search *)

(** [String.prototype.toLowerCase] on a code unit below 256: the letters
    [A-Z], and the capital letters of Latin-1, U+00C0 to U+00DE but the
    multiplication sign U+00D7. *)
Definition toLowerCaseUnit (c : ascii) : ascii :=
  let n := nat_of_ascii c in
  if ((65 <=? n) && (n <=? 90))
     || ((192 <=? n) && (n <=? 222) && negb (n =? 215))
  then ascii_of_nat (n + 32)
  else c.

Fixpoint toLowerCase (s : string) : string :=
  match s with
  | EmptyString => EmptyString
  | String c s' => String (toLowerCaseUnit c) (toLowerCase s')
  end.

(** [s.includes(needle)] *)
Fixpoint includes (s needle : string) : bool :=
  String.prefix needle s
  || match s with
     | EmptyString => false
     | String _ s' => includes s' needle
     end.

(** Whether the regular expression [new RegExp(term, 'i')] matches at the
    head of [s], for a [term] of lower-case letters and spaces: a code unit
    of [s] matches a letter of [term] in either case. *)
Fixpoint matchesIgnoringCase (term s : string) : bool :=
  match term, s with
  | EmptyString, _ => true
  | String t term', String c s' =>
      Ascii.eqb (toLowerCaseUnit c) t && matchesIgnoringCase term' s'
  | String _ _, EmptyString => false
  end.

(** [s.replace(new RegExp(term, 'gi'), replacement)] for such a [term], not
    empty, and a [replacement] without [$]: every match, from the left and
    without overlap, gives way to [replacement].  [skip] counts the code
    units of a match still to pass over. *)
Fixpoint replaceIgnoringCase (term replacement : string) (skip : nat)
    (s : string) : string :=
  match s with
  | EmptyString => EmptyString
  | String c s' =>
      match skip with
      | S skip' => replaceIgnoringCase term replacement skip' s'
      | 0 =>
          if matchesIgnoringCase term s
          then (replacement ++
                replaceIgnoringCase term replacement (String.length term - 1) s')%string
          else String c (replaceIgnoringCase term replacement 0 s')
      end
  end.

(** [Array.from(new Set(l))]: the elements of [l] in the order of their
    first occurrence; [seen] holds the elements met so far. *)
Fixpoint uniqueFrom (seen l : list string) : list string :=
  match l with
  | [] => []
  | x :: l' =>
      if existsb (String.eqb x) seen then uniqueFrom seen l'
      else x :: uniqueFrom (x :: seen) l'
  end.

Definition Array_from_Set (l : list string) : list string := uniqueFrom [] l.

(** ** lib/rag/retriever.ts: filtered retrieval, statistics, query expansion *)

Module RetrieverTools.
Import Indexer Embeddings Retriever.
Section WithNumbers.
Context {num : Type} `{JsNumber num}.

(** The [filters] of [retrieveFiltered]; an absent key is [None]. *)
Record Filters : Type := {
  filter_source : option string;
  filter_unit : option string;
  filter_minScore : option num
}.

(** [result.metadata.source.toLowerCase().includes(filters.source.toLowerCase())] *)
Definition sourceIncludes (wanted : string) (result : RetrievalResult num) : bool :=
  includes (toLowerCase (source (result_metadata result))) (toLowerCase wanted).

(** [result.metadata.unit?.toLowerCase() === filters.unit.toLowerCase()] *)
Definition unitIs (wanted : string) (result : RetrievalResult num) : bool :=
  match unit (result_metadata result) with
  | Some u => String.eqb (toLowerCase u) (toLowerCase wanted)
  | None => false
  end.

(** [result.score >= filters.minScore] *)
Definition scoreAtLeast (minScore : num) (result : RetrievalResult num) : bool :=
  ngeb (score result) minScore.

(** The three [if (filters. ...)] steps: a filter applies when its key
    holds a string that is not empty, respectively a number. *)
Definition applyFilters (filters : Filters)
    (results : list (RetrievalResult num)) : list (RetrievalResult num) :=
  let filteredResults := results in
  let filteredResults :=
    match filter_source filters with
    | Some (String _ _ as wanted) => filter (sourceIncludes wanted) filteredResults
    | _ => filteredResults
    end in
  let filteredResults :=
    match filter_unit filters with
    | Some (String _ _ as wanted) => filter (unitIs wanted) filteredResults
    | _ => filteredResults
    end in
  match filter_minScore filters with
  | Some minScore => filter (scoreAtLeast minScore) filteredResults
  | None => filteredResults
  end.

Definition retrieveFiltered (env : Env num) (question : string)
    (filters : Filters) (k : nat) : Result (RetrievalResponse num) :=
  allResults <- retrieve env question (k * 2) ;;
  let filteredResults := firstn k (applyFilters filters (results allResults)) in
  let averageScore := averageOf (map (@score num) filteredResults) in
  let confidence := ngeb averageScore (RAG_MIN_SIM env) in
  Ok {| results := filteredResults;
        confidence := confidence;
        query := query allResults;
        response_metadata :=
          {| total_chunks := total_chunks (response_metadata allResults);
             search_time_ms := search_time_ms (response_metadata allResults);
             top_k := top_k (response_metadata allResults);
             min_similarity := min_similarity (response_metadata allResults);
             average_score := averageScore |} |}.

(** The object [getRetrievalStats] resolves to. *)
Inductive RetrievalStats : Type :=
| no_index (message : string)
| ready (index_metadata : IndexMetadata) (top_k : nat) (min_similarity : num)
        (time_ms : nat) (results_count : nat) (confidence : bool)
| error (message : string).

(** [getRetrievalStats]; [testTime] is the difference of its two readings
    of the clock.  A caught value is always an [Error] here. *)
Definition getRetrievalStats (env : Env num) (testTime : nat) : RetrievalStats :=
  match loadIndex (store env) with
  | None => no_index "No RAG index found. Run ingestion script first."
  | Some indexData =>
      match retrieve env "test query" 1 with
      | Ok testResults =>
          ready (index_metadata indexData) (RAG_TOP_K env) (RAG_MIN_SIM env)
                testTime (length (results testResults)) (confidence testResults)
      | Err e => error (error_message e)
      end
  end.

End WithNumbers.
Arguments Filters num : clear implicits.
Arguments RetrievalStats num : clear implicits.

(** The table [synonymMap] of [expandQuery], in the order of its keys. *)
Definition synonymMap : list (string * list string) :=
  [ ("algorithm", ["algo"; "procedure"; "method"]);
    ("data structure", ["ds"; "data structures"]);
    ("operating system", ["os"; "operating systems"]);
    ("database", ["db"; "dbms"; "database management"]);
    ("network", ["networking"; "computer network"]);
    ("tree", ["binary tree"; "search tree"]);
    ("heap", ["priority queue"; "heap sort"]);
    ("process", ["threading"; "multithreading"; "concurrency"]) ]%string.

(** One round of the loop over [Object.entries(synonymMap)]. *)
Definition expandWith (query : string) (expansions : list string)
    (entry : string * list string) : list string :=
  let (term, synonyms) := entry in
  if includes (toLowerCase query) term
  then expansions ++ map (fun syn => replaceIgnoringCase term syn 0 query) synonyms
  else expansions.

Definition expandQuery (query : string) : list string :=
  Array_from_Set (fold_left (expandWith query) synonymMap [query]).

End RetrieverTools.

(** ** lib/rag/embeddings.ts: the embedding service *)

Module EmbeddingService.
Import Embeddings.

(** [digest('hex')]: two lower-case hexadecimal digits for each byte. *)
Definition hexDigitOf (n : nat) : ascii :=
  if n <? 10 then ascii_of_nat (48 + n) else ascii_of_nat (87 + n).

Definition hexOfByte (b : Byte.byte) : string :=
  let n := Byte.to_nat b in
  String (hexDigitOf (n / 16)) (String (hexDigitOf (n mod 16)) EmptyString).

Fixpoint hexOf (bytes : list Byte.byte) : string :=
  match bytes with
  | [] => EmptyString
  | b :: bytes' => (hexOfByte b ++ hexOf bytes')%string
  end.

(** The value of a hexadecimal digit, in either case. *)
Definition hexValue (c : ascii) : option nat :=
  let n := nat_of_ascii c in
  if (48 <=? n) && (n <=? 57) then Some (n - 48)
  else if (97 <=? n) && (n <=? 102) then Some (n - 87)
  else if (65 <=? n) && (n <=? 70) then Some (n - 55)
  else None.

Fixpoint parseHexFrom (acc : nat) (s : string) : nat :=
  match s with
  | EmptyString => acc
  | String c s' =>
      match hexValue c with
      | Some d => parseHexFrom (16 * acc + d) s'
      | None => acc
      end
  end.

(** [parseInt(s, 16)] for a string that starts with neither white space,
    a sign nor the prefix [0x], as the pieces of a hexadecimal digest do:
    the number its leading digits write, and NaN ([None]) when it starts
    with no digit. *)
Definition parseInt16 (s : string) : option nat :=
  match s with
  | EmptyString => None
  | String c _ =>
      match hexValue c with
      | Some _ => Some (parseHexFrom 0 s)
      | None => None
      end
  end.

Definition EMBEDDING_DIMENSION : nat := 768.

Section WithNumbers.
Context {num : Type} `{JsNumber num}.

(** The outcome of the [fetch] of [generateSingleEmbedding] and of reading
    its body; [values] is [data.embedding?.values], [None] when it is
    absent. *)
Inductive EmbedReply : Type :=
| Rejected (error : JsError)
| NotOk (status : nat) (errorText : string)
| Body (values : option (list num)).

(** What the service does to the outside world, in order: a request for the
    embedding of a text, or a pause. *)
Inductive Event : Type :=
| Request (text : string)
| Sleep (delayMs : nat).

Definition Trace : Type := list Event.

Fixpoint requestCount (t : Trace) : nat :=
  match t with
  | [] => 0
  | Request _ :: t' => S (requestCount t')
  | Sleep _ :: t' => requestCount t'
  end.

(** The surroundings of the service: the API key, the SHA-256 digest of
    [crypto], the number NaN, and the embedding service, which answers the
    [n]-th request of a run (counted from 0) with [service n]. *)
Record Env : Type := {
  GEMINI_API_KEY : option string;
  sha256 : string -> list Byte.byte;
  NaN : num;
  service : nat -> EmbedReply
}.

Variable env : Env.

(** The literal [0.5]. *)
Definition half : num := ndiv (of_length 1) (of_length 2).

(** One round of the loop of [hashEmbed]: the coordinate [i]. *)
Definition hashCoordinate (hash : string) (i : nat) : num :=
  let start := (i * 2) mod String.length hash in
  let hexPair := substring start 2 hash in
  let value :=
    ndiv (match parseInt16 hexPair with
          | Some n => of_length n
          | None => NaN env
          end)
         (of_length 255) in
  nmul (nsub value half) (of_length 2).

Definition hashEmbed (text : string) : list num :=
  let normalized := trim (toLowerCase text) in
  let hash := hexOf (sha256 env normalized) in
  let vector := map (hashCoordinate hash) (seq 0 EMBEDDING_DIMENSION) in
  let magnitude :=
    nsqrt (fold_left (fun sum val => nadd sum (nmul val val)) vector nzero) in
  map (fun val => if ngtb magnitude nzero then ndiv val magnitude else nzero)
      vector.

(** The part of [generateSingleEmbedding] after the [fetch]. *)
Definition readEmbedding (reply : EmbedReply) : Result (list num) :=
  match reply with
  | Rejected e => Err e
  | NotOk status errorText =>
      Err (Error ("Gemini API error (" ++ decimal status ++ "): " ++ errorText))
  | Body None => Err (Error "Invalid embedding response format")
  | Body (Some values) => Ok values
  end.

(** The limit [30000] on the length of an embedded text. *)
Definition textLimit : nat := 30 * 1000.

(** [generateSingleEmbedding]: the request carries
    [text.substring(0, 30000)]. *)
Definition generateSingleEmbedding (text : string) (t : Trace)
  : Result (list num) * Trace :=
  (readEmbedding (service env (requestCount t)),
   t ++ [Request (substring 0 textLimit text)]).

(** [Promise.all(batch.map(text => generateSingleEmbedding(text)))]: the
    requests of the batch leave in order; the promise resolves to the
    embeddings, in the order of the batch, or rejects ([None]) when a
    request fails.  Which failure it reports depends on the order the
    replies arrive in; [embedTexts] does not look at it. *)
Fixpoint Promise_all (batch : list string) (t : Trace)
  : option (list (list num)) * Trace :=
  match batch with
  | [] => (Some [], t)
  | text :: batch' =>
      let (first, t') := generateSingleEmbedding text t in
      let (others, t'') := Promise_all batch' t' in
      (match first, others with
       | Ok values, Some embeddings => Some (values :: embeddings)
       | _, _ => None
       end, t'')
  end.

Definition batchSize : nat := 10.

(** The [for] loop of [embedTexts] from [i] on; it runs at most [rounds]
    times, and [texts.length] rounds always suffice since [i] grows by 10.
    [None] is an exception on its way to the [catch]. *)
Fixpoint batchLoop (rounds : nat) (texts : list string) (i : nat)
    (embeddings : list (list num)) (t : Trace)
  : option (list (list num)) * Trace :=
  match rounds with
  | 0 => (Some embeddings, t)
  | S rounds' =>
      if i <? length texts
      then
        let batch := firstn batchSize (skipn i texts) in
        match Promise_all batch t with
        | (Some batchEmbeddings, t') =>
            batchLoop rounds' texts (i + batchSize)
              (embeddings ++ batchEmbeddings)
              (if i + batchSize <? length texts then t' ++ [Sleep 100] else t')
        | (None, t') => (None, t')
        end
      else (Some embeddings, t)
  end.

(** [embedTexts] never rejects. *)
Definition embedTexts (texts : list string) (t : Trace)
  : list (list num) * Trace :=
  match GEMINI_API_KEY env with
  | None | Some EmptyString => (map hashEmbed texts, t)
  | Some _ =>
      match batchLoop (length texts) texts 0 [] t with
      | (Some embeddings, t') => (embeddings, t')
      | (None, t') => (map hashEmbed texts, t')
      end
  end.

(** [embedQuery]: [embeddings[0]], which is always there. *)
Definition embedQuery (query : string) (t : Trace) : list num * Trace :=
  let (embeddings, t') := embedTexts [query] t in
  (nth 0 embeddings [], t').

End WithNumbers.
Arguments EmbedReply num : clear implicits.
Arguments Env num : clear implicits.
End EmbeddingService.

(** ** lib/rag/indexer.ts: building, clearing and statistics *)

Module IndexFiles.
Import Indexer.
Section WithNumbers.
Context {num : Type} `{JsNumber num}.

(** The file [rag_index/index.json]: its text, when the file is there. *)
Definition Disk : Type := option string.

(** What the index store takes from its surroundings when it writes:
    [process.env.RAG_INDEX_DRIVER || 'json']; whether [fs.mkdir],
    [fs.writeFile] and the [fs.unlink] of a file that is there succeed (a
    write that fails leaves the file as it was); [JSON.stringify] and
    [JSON.parse] at the type [IndexData]; the two readings of the clock
    that stamp an index; and the embedding service. *)
Record Io : Type := {
  driverSetting : string;
  mkdir : Result Datatypes.unit;
  writeFile : string -> Result Datatypes.unit;
  unlink : Result Datatypes.unit;
  JSON_stringify : IndexData num -> string;
  JSON_parse : string -> Result (IndexData num);
  clock : string * string;
  embedder : EmbeddingService.Env num
}.

Variable io : Io.

(** The store [loadIndex] reads, for a state of the file; [fs.readFile]
    rejects when the file is not there. *)
Definition storeOn (disk : Disk) : Store num :=
  {| RAG_INDEX_DRIVER := driverSetting io;
     readIndexFile := match disk with
                      | Some data => Ok data
                      | None => Err (Error "ENOENT: no such file or directory")
                      end;
     Indexer.JSON_parse := JSON_parse io |}.

(** [chunks.map((chunk, i) => ({ ...chunk, embedding: embeddings[i] }))];
    [embeddings[i]] is there, as [embedTexts] returns an embedding for each
    text. *)
Definition indexedChunksOf (chunks : list (DocumentChunk num))
    (embeddings : list (list num)) : list (IndexedChunk num) :=
  map (fun ic : nat * DocumentChunk num =>
         {| id := doc_id (snd ic);
            text := doc_text (snd ic);
            metadata := doc_metadata (snd ic);
            embedding := nth (fst ic) embeddings [] |})
      (combine (seq 0 (length chunks)) chunks).

(** The [indexData] of [buildJsonIndex]. *)
Definition indexDataOf (chunks : list (IndexedChunk num)) : IndexData num :=
  {| chunks := chunks;
     index_metadata :=
       {| driver := "json";
          index_created_at := fst (clock io);
          updated_at := snd (clock io);
          chunk_count := length chunks;
          embedding_model := "text-embedding-004" |} |}.

Definition buildJsonIndex (chunks : list (IndexedChunk num)) (disk : Disk)
  : Result Datatypes.unit * Disk :=
  let data := JSON_stringify io (indexDataOf chunks) in
  match writeFile io data with
  | Ok _ => (Ok tt, Some data)
  | Err e => (Err e, disk)
  end.

(** "For now, fallback to JSON". *)
Definition buildFaissIndex (chunks : list (IndexedChunk num)) (disk : Disk)
  : Result Datatypes.unit * Disk := buildJsonIndex chunks disk.

Definition buildChromaIndex (chunks : list (IndexedChunk num)) (disk : Disk)
  : Result Datatypes.unit * Disk := buildJsonIndex chunks disk.

Definition buildIndex (chunks : list (DocumentChunk num)) (driver : string)
    (disk : Disk) (t : EmbeddingService.Trace)
  : Result Datatypes.unit * Disk * EmbeddingService.Trace :=
  match mkdir io with
  | Err e => (Err e, disk, t)
  | Ok _ =>
      let texts := map (@doc_text num) chunks in
      let (embeddings, t') := EmbeddingService.embedTexts (embedder io) texts t in
      let indexedChunks := indexedChunksOf chunks embeddings in
      if String.eqb driver "json"
      then (buildJsonIndex indexedChunks disk, t')
      else if String.eqb driver "faiss"
      then (buildFaissIndex indexedChunks disk, t')
      else if String.eqb driver "chroma"
      then (buildChromaIndex indexedChunks disk, t')
      else (Err (Error ("Unsupported index driver: " ++ driver)), disk, t')
  end.

(** The object [getIndexStats] resolves to. *)
Inductive IndexStats : Type :=
| not_found (driver : string) (chunk_count : nat)
| ready (driver : string) (chunk_count : nat)
        (created_at updated_at embedding_model : string).

Definition getIndexStats (disk : Disk) : IndexStats :=
  match loadIndex (storeOn disk) with
  | None => not_found (driverSetting io) 0
  | Some indexData =>
      ready (driver (index_metadata indexData))
            (chunk_count (index_metadata indexData))
            (index_created_at (index_metadata indexData))
            (updated_at (index_metadata indexData))
            (embedding_model (index_metadata indexData))
  end.

(** [clearIndex]: [fs.unlink] inside a [try]; it never rejects. *)
Definition clearIndex (disk : Disk) : Disk :=
  match disk with
  | None => None
  | Some _ =>
      match unlink io with
      | Ok _ => None
      | Err _ => disk
      end
  end.

End WithNumbers.
Arguments Io num : clear implicits.
End IndexFiles.

(** ** lib/rag/prompt_builder.ts: follow-up prompts and optimisation *)

(** [s.split(separator)[0]] for a separator that is not empty: the text
    before its first occurrence, all of [s] when there is none. *)
Fixpoint beforeFirst (separator s : string) : string :=
  if String.prefix separator s then EmptyString
  else match s with
       | EmptyString => EmptyString
       | String c s' => String c (beforeFirst separator s')
       end.

(** [s.substring(0, n)] for an integer [n]: a negative end counts as 0. *)
Definition substringTo (n : Z) (s : string) : string :=
  substring 0 (Z.to_nat n) s.

Module PromptTools.
Import Indexer Retriever PromptBuilder.
Section WithNumbers.
Context {num : Type}.
Variable rt : Runtime num.

Definition buildFollowUpPrompt (originalQuestion originalAnswer
    followUpQuestion : string) (newChunks : list (RetrievalResult num))
  : BuiltPrompt :=
  let contextSection := buildContextSection rt newChunks 3000 true vtu in
  let systemPrompt :=
    ("You are VTU EduMate continuing a conversation. Consider the previous question and answer when responding to the follow-up question. Maintain consistency and build upon previous information."
     ++ newline ++ newline
     ++ "PREVIOUS CONTEXT:" ++ newline
     ++ "Question: " ++ originalQuestion ++ newline
     ++ "Answer: " ++ substring 0 500 originalAnswer ++ "..."
     ++ newline ++ newline
     ++ buildSystemPrompt detailed vtu)%string in
  let userPrompt :=
    (contextText contextSection
     ++ newline ++ newline
     ++ "FOLLOW-UP QUESTION: " ++ followUpQuestion
     ++ newline ++ newline
     ++ "Provide a comprehensive answer that builds upon the previous discussion while addressing the new question. Use the same JSON format as before.")%string in
  {| systemPrompt := systemPrompt;
     userPrompt := userPrompt;
     fullPrompt := (systemPrompt ++ newline ++ newline ++ userPrompt)%string;
     contextSources := sources contextSection;
     tokenEstimate := (estimatedTokens contextSection + 500)%Z |}.

End WithNumbers.

(** [optimizePromptForTokens], for a whole number of tokens. *)
Definition optimizePromptForTokens (prompt : BuiltPrompt) (maxTokens : Z)
  : BuiltPrompt :=
  if (tokenEstimate prompt <=? maxTokens)%Z then prompt
  else
    let systemTokens := estimateTokens (systemPrompt prompt) in
    let questionTokens :=
      estimateTokens (beforeFirst "CONTEXT INFORMATION:" (userPrompt prompt)) in
    let availableContextTokens :=
      (maxTokens - systemTokens - questionTokens - 100)%Z in
    let truncatedUserPrompt :=
      substringTo (availableContextTokens * 4) (userPrompt prompt) in
    let truncatedFullPrompt :=
      (systemPrompt prompt ++ newline ++ newline ++ truncatedUserPrompt)%string in
    {| systemPrompt := systemPrompt prompt;
       userPrompt := truncatedUserPrompt;
       fullPrompt := truncatedFullPrompt;
       contextSources := contextSources prompt;
       tokenEstimate := maxTokens |}.

End PromptTools.

(** ** scripts/ingest_rag.ts: file names *)

Module IngestFiles.

Definition isLetter (c : ascii) : bool :=
  let n := nat_of_ascii c in
  ((65 <=? n) && (n <=? 90)) || ((97 <=? n) && (n <=? 122)).

Definition isDigit (c : ascii) : bool :=
  let n := nat_of_ascii c in (48 <=? n) && (n <=? 57).

Definition isDot (c : ascii) : bool := nat_of_ascii c =? 46.

(** The longest prefix of code units in a class, and what follows it: a
    greedy [[...]*] of a regular expression. *)
Fixpoint takeWhile (class : ascii -> bool) (s : string) : string :=
  match s with
  | EmptyString => EmptyString
  | String c s' => if class c then String c (takeWhile class s') else EmptyString
  end.

Fixpoint dropWhile (class : ascii -> bool) (s : string) : string :=
  match s with
  | EmptyString => EmptyString
  | String c s' => if class c then dropWhile class s' else s
  end.

(** Whether [/[^.]+$/] matches all of [s]: [s] is not empty and has no dot. *)
Definition isExtension (s : string) : bool :=
  (0 <? String.length s) && (String.length (takeWhile (fun c => negb (isDot c)) s)
                             =? String.length s).

(** [filename.replace(/\.[^.]+$/, '')]: the name without its last
    extension. *)
Fixpoint stripExtension (s : string) : string :=
  match s with
  | EmptyString => EmptyString
  | String c s' =>
      if isDot c && isExtension s' then EmptyString
      else String c (stripExtension s')
  end.

(** [toUpperCase] on a string of the letters [A-Z] and [a-z]. *)
Definition toUpperCaseLetter (c : ascii) : ascii :=
  let n := nat_of_ascii c in
  if (97 <=? n) && (n <=? 122) then ascii_of_nat (n - 32) else c.

Fixpoint toUpperCaseLetters (s : string) : string :=
  match s with
  | EmptyString => EmptyString
  | String c s' => String (toUpperCaseLetter c) (toUpperCaseLetters s')
  end.

(** The object [parseFilename] returns; a key that is [undefined] or
    absent is [None]. *)
Record ParsedFilename : Type := {
  subject : option string;
  unit : option string
}.

(** [parseFilename].  The regular expression
    [/^([A-Za-z]+)_?(unit\d+)?/i] takes the longest run of letters, then an
    underscore if there is one, then [unit] and digits if they follow; as
    all that comes after the letters is optional, it never gives letters
    back. *)
Definition parseFilename (filename : string) : ParsedFilename :=
  let nameWithoutExt := stripExtension filename in
  match takeWhile isLetter nameWithoutExt with
  | EmptyString => {| subject := None; unit := None |}
  | letters =>
      let afterLetters := dropWhile isLetter nameWithoutExt in
      let afterUnderscore :=
        match afterLetters with
        | String c rest => if (nat_of_ascii c =? 95) then rest else afterLetters
        | EmptyString => afterLetters
        end in
      let digits := takeWhile isDigit (substring 4 (String.length afterUnderscore)
                                         afterUnderscore) in
      {| subject := Some (toUpperCaseLetters letters);
         unit :=
           if matchesIgnoringCase "unit" afterUnderscore
              && (0 <? String.length digits)
           then Some (toLowerCase
                        (substring 0 (4 + String.length digits) afterUnderscore))
           else None |}
  end.

End IngestFiles.

(* ================================================================== *)
(** * Part I, continued: vocabulary of the properties *)
(* ================================================================== *)

(** Scores that compare as a total order, the sign of a difference telling
    the order of its operands: any real numbers, and any binary64 numbers
    other than NaN. *)
Definition Comparable {num : Type} `{JsNumber num} (scores : list num) : Prop :=
  (forall a b, In a scores -> In b scores ->
     ngtb (nsub a b) nzero = ngtb a b
     /\ ngeb a b = negb (ngtb b a)
     /\ (ngtb a b = true -> ngeb a b = true))
  /\ (forall a b c, In a scores -> In b scores -> In c scores ->
        ngeb a b = true -> ngeb b c = true -> ngeb a c = true).

(** [Comparable], decided by going through the scores. *)
Definition comparableb {num : Type} `{JsNumber num} (scores : list num) : bool :=
  forallb
    (fun a =>
       forallb
         (fun b =>
            Bool.eqb (ngtb (nsub a b) nzero) (ngtb a b)
            && Bool.eqb (ngeb a b) (negb (ngtb b a))
            && implb (ngtb a b) (ngeb a b)
            && forallb (fun c => implb (ngeb a b && ngeb b c) (ngeb a c)) scores)
         scores)
    scores.

(** The scores [retrieve] computes for the records of the index. *)
Definition candidateScores {num : Type} `{JsNumber num}
    (env : Retriever.Env num) (question : string) : list num :=
  match Indexer.loadIndex (Retriever.store env) with
  | Some indexData =>
      match Retriever.similaritiesOf (Retriever.embedQuery env question)
              (Indexer.chunks indexData) with
      | Ok similarities => map (@Retriever.sim_score num) similarities
      | Err _ => []
      end
  | None => []
  end.

(** The order of two scored records: the first scores at least as high. *)
Definition scoresAtLeast {num : Type} `{JsNumber num}
    (a b : Retriever.Similarity num) : Prop :=
  ngeb (Retriever.sim_score a) (Retriever.sim_score b) = true.

(** The mean of a list of scores, as the specification words it: their sum
    over their number. *)
Definition meanScore {num : Type} `{JsNumber num} (scores : list num) : num :=
  ndiv (fold_left nadd scores nzero) (of_length (length scores)).

(** Non-increasing order of the scores of a list of results. *)
Definition nonIncreasing {num : Type} `{JsNumber num}
    (l : list (Retriever.RetrievalResult num)) : Prop :=
  StronglySorted
    (fun r1 r2 => ngeb (Retriever.score r1) (Retriever.score r2) = true) l.

(** The error [retrieve] throws when there is no index. *)
Definition noIndexError : JsError :=
  Error "No RAG index found. Please run the ingestion script first.".

(** A binary64 number that compares equal to zero ([+0] or [-0]). *)
Definition isZero (x : PrimFloat.float) : Prop :=
  PrimFloat.eqb x PrimFloat.zero = true.

(** The context section that holds exactly the chunks [kept], appended in
    order after [acc] with no budget check. *)
Definition appendChunks {num : Type} (rt : PromptBuilder.Runtime num)
    (includeMetadata : bool) (acc : PromptBuilder.ContextSection)
    (kept : list (Retriever.RetrievalResult num))
  : PromptBuilder.ContextSection :=
  fold_left
    (fun acc chunk =>
       {| PromptBuilder.contextText :=
            (PromptBuilder.contextText acc
             ++ PromptBuilder.chunkTextOf rt includeMetadata chunk)%string;
          PromptBuilder.sources :=
            PromptBuilder.sources acc ++ [PromptBuilder.sourceIdOf rt chunk];
          PromptBuilder.estimatedTokens :=
            (PromptBuilder.estimatedTokens acc
             + PromptBuilder.chunkTokensOf rt includeMetadata chunk)%Z |})
    kept acc.

(** The empty context section [buildContextSection] starts from. *)
Definition emptySection : PromptBuilder.ContextSection :=
  {| PromptBuilder.contextText :=
       ("CONTEXT INFORMATION:" ++ PromptBuilder.newline
        ++ PromptBuilder.newline)%string;
     PromptBuilder.sources := [];
     PromptBuilder.estimatedTokens := 50 |}.

(** The budget a call of [buildPrompt] works with. *)
Definition budgetOf (options : PromptBuilder.PromptOptions) : Z :=
  match PromptBuilder.maxContextTokens options with
  | Some m => m
  | None => 4000%Z
  end.

Definition metadataFlagOf (options : PromptBuilder.PromptOptions) : bool :=
  match PromptBuilder.includeMetadata options with
  | Some b => b
  | None => true
  end.

(** The generation client, as the specification words it.  Among the
    [count] requests numbered from [from], [firstSuccess] finds the first
    whose reply yields a text, with its position; when none does it gives
    the error of the last one ([lastError] when [count] is 0). *)
Fixpoint firstSuccess (service : nat -> GeminiClient.HttpReply)
    (from count : nat) (lastError : JsError) : (nat * string) + JsError :=
  match count with
  | 0 => inr lastError
  | S count' =>
      match GeminiClient.readReply (service from) with
      | Ok text => inl (0, text)
      | Err e =>
          match firstSuccess service (S from) count' e with
          | inl (j, text) => inl (S j, text)
          | inr e' => inr e'
          end
      end
  end.

(** [n] requests for [model], the attempts [attempt], [attempt + 1], ...,
    with the pause [2^(attempt-1) * 1000] ms after each but the last. *)
Fixpoint attemptsFrom {Config : Type} (model prompt : string) (config : Config)
    (attempt n : nat) : list (GeminiClient.Event Config) :=
  match n with
  | 0 => []
  | S n' =>
      GeminiClient.Request model prompt config ::
      match n' with
      | 0 => []
      | S _ =>
          GeminiClient.Sleep Config (2 ^ (attempt - 1) * 1000) ::
          attemptsFrom model prompt config (S attempt) n'
      end
  end.

Definition attemptsTrace {Config : Type} (model prompt : string)
    (config : Config) (n : nat) : list (GeminiClient.Event Config) :=
  attemptsFrom model prompt config 1 n.

(** The requests and pauses [generateFromPrompt] has behind it once it has
    sent [n] requests, [n] at most 6: attempts on the primary model, and
    after the third, attempts on the fallback model. *)
Definition scheduleOf {Config : Type} (primary fallback prompt : string)
    (config : Config) (n : nat) : list (GeminiClient.Event Config) :=
  if n <=? 3 then attemptsTrace primary prompt config n
  else attemptsTrace primary prompt config 3
       ++ attemptsTrace fallback prompt config (n - 3).

(** The number of requests a trace sends to [model]. *)
Fixpoint requestsTo {Config : Type} (model : string)
    (t : list (GeminiClient.Event Config)) : nat :=
  match t with
  | [] => 0
  | GeminiClient.Request m _ _ :: t' =>
      (if String.eqb m model then 1 else 0) + requestsTo model t'
  | GeminiClient.Sleep _ _ :: t' => requestsTo model t'
  end.

(** A reply whose first candidate carries content and the finish reason
    [SAFETY]. *)
Definition safetyRejected (reply : GeminiClient.HttpReply) : Prop :=
  exists candidate others part others',
    reply = GeminiClient.Body
              {| GeminiClient.candidates := Some (candidate :: others) |}
    /\ GeminiClient.content candidate
       = Some {| GeminiClient.parts := Some (part :: others') |}
    /\ GeminiClient.finishReason candidate = Some "SAFETY"%string.

(** *** Words of a text *)

(** A text that starts, respectively ends, with a code unit that is not
    white space; a text that does both is [tidy]: [trim] leaves it as it
    is, and [split(/\s+/)] cuts it into words, none empty. *)
Definition startsWithWord (s : string) : Prop :=
  match s with
  | EmptyString => False
  | String c _ => isWhiteSpace c = false
  end.

Fixpoint endsWithWord (s : string) : Prop :=
  match s with
  | EmptyString => False
  | String c EmptyString => isWhiteSpace c = false
  | String _ s' => endsWithWord s'
  end.

Definition tidy (s : string) : Prop := startsWithWord s /\ endsWithWord s.

(** A word: not empty and free of white space. *)
Fixpoint spaceFree (s : string) : Prop :=
  match s with
  | EmptyString => True
  | String c s' => isWhiteSpace c = false /\ spaceFree s'
  end.

Definition isWord (w : string) : Prop := w <> EmptyString /\ spaceFree w.

(** The last [n] elements of a list, all of them when it has fewer. *)
Definition lastWords {A : Type} (n : nat) (l : list A) : list A :=
  skipn (length l - n) l.


(** [chunk.text.split(/\s+/)] *)
Definition wordsOf {num : Type} (chunk : Indexer.DocumentChunk num) : list string :=
  splitWhiteSpace (Indexer.doc_text chunk).

(** The number of words two consecutive chunks share. *)
Definition sharedWords (overlapWords : nat) (earlier : string) : nat :=
  Nat.min overlapWords (length (splitWhiteSpace earlier)).

(** The words of [later] start with the last [sharedWords] words of
    [earlier]. *)
Definition carriesOver (overlapWords : nat) (earlier later : string) : Prop :=
  exists rest,
    splitWhiteSpace later
    = lastWords (sharedWords overlapWords earlier) (splitWhiteSpace earlier)
      ++ rest.

(** The last [sharedWords] words of [earlier] are the first of [later]. *)
Definition overlaps (overlapWords : nat) (earlier later : string) : Prop :=
  lastWords (sharedWords overlapWords earlier) (splitWhiteSpace earlier)
  = firstn (sharedWords overlapWords earlier) (splitWhiteSpace later).

(** Every two neighbours of a list are related. *)
Inductive Linked {A : Type} (R : A -> A -> Prop) : list A -> Prop :=
| Linked_nil : Linked R []
| Linked_one (a : A) : Linked R [a]
| Linked_cons (a b : A) (l : list A) :
    R a b -> Linked R (b :: l) -> Linked R (a :: b :: l).

(** What the loop of [chunkText] maintains. *)
Record chunkerInvariant {num : Type} (overlapWords : nat)
    (st : Ingest.ChunkerState (num := num)) : Prop := {
  emitted_linked :
    Linked (overlaps overlapWords)
           (map (@Indexer.doc_text num) (Ingest.emitted st));
  current_carries :
    forall prev, hd_error (rev (Ingest.emitted st)) = Some prev ->
      carriesOver overlapWords (Indexer.doc_text prev) (Ingest.currentChunk st);
  current_tidy :
    (Ingest.currentChunk st = EmptyString /\ Ingest.emitted st = [])
    \/ tidy (Ingest.currentChunk st)
}.


(** *** Filtered retrieval *)

(** A result passes the filters that are set. *)
Definition meetsFilters {num : Type} `{JsNumber num}
    (filters : RetrieverTools.Filters num)
    (result : Retriever.RetrievalResult num) : Prop :=
  (forall wanted, RetrieverTools.filter_source filters = Some wanted ->
     wanted <> EmptyString ->
     includes (toLowerCase (Indexer.source (Retriever.result_metadata result)))
              (toLowerCase wanted) = true)
  /\ (forall wanted, RetrieverTools.filter_unit filters = Some wanted ->
        wanted <> EmptyString ->
        exists u, Indexer.unit (Retriever.result_metadata result) = Some u
                  /\ toLowerCase u = toLowerCase wanted)
  /\ (forall minScore, RetrieverTools.filter_minScore filters = Some minScore ->
        ngeb (Retriever.score result) minScore = true).

(** No filter is set: each key is absent, or holds the empty string. *)
Definition unfiltered {num : Type} (filters : RetrieverTools.Filters num) : Prop :=
  (RetrieverTools.filter_source filters = None
   \/ RetrieverTools.filter_source filters = Some EmptyString)
  /\ (RetrieverTools.filter_unit filters = None
      \/ RetrieverTools.filter_unit filters = Some EmptyString)
  /\ RetrieverTools.filter_minScore filters = None.

(** The expansions of [query] that the table gives: for each term the
    query mentions, the query with the term replaced by each synonym. *)
Definition synonymExpansion (query expansion : string) : Prop :=
  exists term synonyms synonym,
    In (term, synonyms) RetrieverTools.synonymMap
    /\ In synonym synonyms
    /\ includes (toLowerCase query) term = true
    /\ expansion = replaceIgnoringCase term synonym 0 query.

(** *** The embedding service *)

(** The trace the batching of [embedTexts] leaves when no request fails,
    as a rule on the position of a text: each text is requested, cut to
    30000 code units, and after every tenth request the service pauses for
    100 ms when texts remain. *)
Fixpoint batchedRequests (position : nat) (texts : list string)
  : list EmbeddingService.Event :=
  match texts with
  | [] => []
  | text :: rest =>
      EmbeddingService.Request (substring 0 EmbeddingService.textLimit text) ::
      (if ((S position) mod 10 =? 0) && (0 <? length rest)
       then [EmbeddingService.Sleep 100]
       else [])
      ++ batchedRequests (S position) rest
  end.

(** The API key is set. *)
Definition keyIsSet (key : option string) : Prop :=
  exists c rest, key = Some (String c rest).

(** *** The index file *)

(** The drivers [buildIndex] and [loadIndex] know. *)
Definition supportedDriver (driver : string) : Prop :=
  driver = "json"%string \/ driver = "faiss"%string \/ driver = "chroma"%string.

(** *** The generation client *)

(** The time a trace spends in pauses, in milliseconds. *)
Fixpoint pausedMs {Config : Type} (t : list (GeminiClient.Event Config)) : nat :=
  match t with
  | [] => 0
  | GeminiClient.Request _ _ _ :: t' => pausedMs t'
  | GeminiClient.Sleep _ delayMs :: t' => delayMs + pausedMs t'
  end.

(** A request of a trace goes to one of two models, with a given prompt
    and configuration. *)
Definition requestsOnly {Config : Type} (primary fallback prompt : string)
    (config : Config) (t : list (GeminiClient.Event Config)) : Prop :=
  Forall (fun event =>
            match event with
            | GeminiClient.Request model prompt' config' =>
                (model = primary \/ model = fallback)
                /\ prompt' = prompt /\ config' = config
            | GeminiClient.Sleep _ _ => True
            end) t.

(** A key is there in a structured response: the function set it, or
    [key in parsed] holds. *)
Definition present {num : Type} (rt : StructuredGeneration.Runtime num)
    (response : StructuredGeneration.Structured num) (key : string) : bool :=
  existsb (fun field => String.eqb (fst field) key)
          (StructuredGeneration.defaulted response)
  || match StructuredGeneration.keyIn rt key
             (StructuredGeneration.parsed response) with
     | Some there => there
     | None => false
     end.

(** A parsed value that is neither an object nor an array: null, a boolean,
    a number or a string. *)
Definition notAnObject {num : Type} (value : StructuredGeneration.Json num) : Prop :=
  match value with
  | StructuredGeneration.JObject _ | StructuredGeneration.JArray _ => False
  | _ => True
  end.

(** *** Prompts *)

(** The text the kept chunks add to a context section. *)
Definition chunkTextsOf {num : Type} (rt : PromptBuilder.Runtime num)
    (includeMetadata : bool) (kept : list (Retriever.RetrievalResult num))
  : string :=
  String.concat "" (map (PromptBuilder.chunkTextOf rt includeMetadata) kept).

(** The heading a context section opens with. *)
Definition contextHeading : string :=
  ("CONTEXT INFORMATION:" ++ PromptBuilder.newline ++ PromptBuilder.newline)%string.


(** *** File names and chunks *)

(** Every code unit of a string is in a class. *)
Fixpoint everyUnit (class : ascii -> bool) (s : string) : bool :=
  match s with
  | EmptyString => true
  | String c s' => class c && everyUnit class s'
  end.

(** A text whose last code unit is [c]. *)
Fixpoint endsWith (c : ascii) (s : string) : Prop :=
  match s with
  | EmptyString => False
  | String c' EmptyString => c' = c
  | String _ s' => endsWith c s'
  end.

(** A chunk text: tidy, and closed by a full stop. *)
Definition sentenceText (s : string) : Prop := tidy s /\ endsWith "." s.

(** The words of [later] are all the words of [earlier], followed by at
    least one more. *)
Definition extendsWords (earlier later : string) : Prop :=
  exists rest,
    rest <> [] /\ splitWhiteSpace later = splitWhiteSpace earlier ++ rest.

(** [text.split(/[.!?]+/).filter(s => s.trim().length > 0)] *)
Definition sentencesOf (text : string) : list string :=
  filter (fun s => 0 <? String.length (trim s))
         (splitRuns Ingest.isSentenceEnd false text).

(** The chunk that is still open when the loop of [chunkText] ends. *)
Definition pending {num : Type} (st : Ingest.ChunkerState (num := num)) : nat :=
  if 0 <? String.length (Ingest.currentChunk st) then 1 else 0.

(** What the loop of [chunkText] maintains on the shape of its chunks. *)
Record chunkerShape {num : Type} (env : Ingest.Env) (file : Ingest.FileMetadata)
    (st : Ingest.ChunkerState (num := num)) : Prop := {
  shape_index : Ingest.chunkIndex st = length (Ingest.emitted st);
  shape_chunks :
    forall i chunk, nth_error (Ingest.emitted st) i = Some chunk ->
      chunk = Ingest.createChunk env (Indexer.doc_text chunk) file i
      /\ sentenceText (Indexer.doc_text chunk);
  shape_current :
    (Ingest.currentChunk st = EmptyString /\ Ingest.emitted st = [])
    \/ sentenceText (Ingest.currentChunk st)
}.

(** What it maintains when the overlap is 0: each chunk carries the whole
    chunk before it. *)
Record chunkerCarriesAll {num : Type}
    (st : Ingest.ChunkerState (num := num)) : Prop := {
  all_linked :
    Linked extendsWords (map (@Indexer.doc_text num) (Ingest.emitted st));
  all_current :
    forall prev, hd_error (rev (Ingest.emitted st)) = Some prev ->
      extendsWords (Indexer.doc_text prev) (Ingest.currentChunk st);
  all_tidy :
    (Ingest.currentChunk st = EmptyString /\ Ingest.emitted st = [])
    \/ tidy (Ingest.currentChunk st)
}.

(** *** The query endpoint *)

(** A question the endpoint takes: a string that is not blank and has at
    most 2000 code units. *)
Definition acceptedQuestion (field : AskRoute.Field) : Prop :=
  exists q, field = AskRoute.Text q
            /\ trim q <> EmptyString /\ String.length q <= 2000.

(** The sources of a response, best first. *)
Definition sourcesRanked {num : Type} `{JsNumber num}
    (l : list (AskRoute.SourceInfo (num := num))) : Prop :=
  StronglySorted
    (fun s1 s2 => ngeb (AskRoute.src_score s1) (AskRoute.src_score s2) = true) l.


(** ** Sample surroundings *)

Module Samples.
Import Indexer Retriever.
Import Floats.

Definition metadataOf {num : Type} (file : string) (n : nat)
  : ChunkMetadata num :=
  {| source := file;
     page := None;
     unit := None;
     chunk_id := (file ++ "_" ++ decimal n)%string;
     created_at := "2025-01-01T00:00:00.000Z" |}.

Definition chunkOf {num : Type} (file : string) (n : nat) (body : string)
    (vector : list num) : IndexedChunk num :=
  {| id := (file ++ "_chunk_" ++ decimal n)%string;
     text := body;
     metadata := metadataOf file n;
     embedding := vector |}.

Definition indexOf {num : Type} (records : list (IndexedChunk num))
  : IndexData num :=
  {| chunks := records;
     index_metadata :=
       {| driver := "json";
          index_created_at := "2025-01-01T00:00:00.000Z";
          updated_at := "2025-01-01T00:00:00.000Z";
          chunk_count := length records;
          embedding_model := "text-embedding-004" |} |}.

(** A store whose file holds the snapshot [indexData]. *)
Definition storeOf {num : Type} (indexData : IndexData num) : Store num :=
  {| RAG_INDEX_DRIVER := "json";
     readIndexFile := Ok "{ ... }"%string;
     JSON_parse := fun _ => Ok indexData |}.

(** A store with no file. *)
Definition emptyStore {num : Type} : Store num :=
  {| RAG_INDEX_DRIVER := "json";
     readIndexFile := Err (Error "ENOENT: no such file or directory");
     JSON_parse := fun _ => Err (Error "Unexpected end of JSON input") |}.

(** A store whose file is not JSON. *)
Definition corruptStore {num : Type} : Store num :=
  {| RAG_INDEX_DRIVER := "json";
     readIndexFile := Ok "{ chunks: ["%string;
     JSON_parse := fun _ => Err (Error "Unexpected token c in JSON") |}.

(** Binary64: one record whose embedding is the query's, with the
    threshold set to 1, the score the record gets. *)
Definition boundaryEnv : Retriever.Env PrimFloat.float :=
  {| RAG_TOP_K := 5;
     RAG_MIN_SIM := 1%float;
     store := storeOf (indexOf [chunkOf "DSA_unit3.txt" 0 "Binary trees." [1%float]]);
     embedQuery := fun _ => [1%float];
     searchTime := 0 |}.

Definition boundaryResponse : RetrievalResponse PrimFloat.float :=
  {| results := [ {| result_id := "DSA_unit3.txt_chunk_0";
                     score := 1%float;
                     result_metadata := metadataOf "DSA_unit3.txt" 0;
                     result_text := "Binary trees." |} ];
     confidence := true;
     query := "What are binary trees?";
     response_metadata :=
       {| total_chunks := 1; search_time_ms := 0; top_k := 5;
          min_similarity := 1%float; average_score := 1%float |} |}.

(** Binary64, default threshold, and no index. *)
Definition noIndexEnv : Retriever.Env PrimFloat.float :=
  {| RAG_TOP_K := 5;
     RAG_MIN_SIM := 0.25%float;
     store := emptyStore;
     embedQuery := fun _ => [1%float];
     searchTime := 0 |}.

(** Binary64, default threshold, and an index without records. *)
Definition emptyIndexEnv : Retriever.Env PrimFloat.float :=
  {| RAG_TOP_K := 5;
     RAG_MIN_SIM := 0.25%float;
     store := storeOf (indexOf []);
     embedQuery := fun _ => [1%float];
     searchTime := 0 |}.

(** Binary64: three records in two dimensions, which score -1, 0 and 1
    against the query. *)
Definition rankingEnv : Retriever.Env PrimFloat.float :=
  {| RAG_TOP_K := 5;
     RAG_MIN_SIM := 0.25%float;
     store := storeOf (indexOf [chunkOf "DSA_unit3.txt" 0 "Binary trees." [0; -1]%float;
                                chunkOf "DSA_unit3.txt" 1 "Heaps." [1; 0]%float;
                                chunkOf "OS_unit2.txt" 0 "Scheduling." [0; 1]%float]);
     embedQuery := fun _ => [0; 1]%float;
     searchTime := 0 |}.

(** Binary64: three records with the same embedding, which score 12/13,
    rounded, against the query; the threshold is that very number (the
    setting 0.9230769230769231). *)
Definition roundedMeanEnv : Retriever.Env PrimFloat.float :=
  {| RAG_TOP_K := 5;
     RAG_MIN_SIM := (12 / 13)%float;
     store := storeOf (indexOf [chunkOf "DSA_unit3.txt" 0 "Binary trees." [1; 0]%float;
                                chunkOf "DSA_unit3.txt" 1 "Heaps." [1; 0]%float;
                                chunkOf "OS_unit2.txt" 0 "Scheduling." [1; 0]%float]);
     embedQuery := fun _ => [12; 5]%float;
     searchTime := 0 |}.

(** Binary64: two records in one dimension; the query and the first record
    hold 2^600, whose square overflows. *)
Definition overflowEnv : Retriever.Env PrimFloat.float :=
  {| RAG_TOP_K := 5;
     RAG_MIN_SIM := 0.25%float;
     store := storeOf (indexOf [chunkOf "DSA_unit3.txt" 0 "Binary trees." [0x1p600]%float;
                                chunkOf "DSA_unit3.txt" 1 "Heaps." [1]%float]);
     embedQuery := fun _ => [0x1p600]%float;
     searchTime := 0 |}.

(** A text of [n] letters. *)
Fixpoint filler (n : nat) : string :=
  match n with
  | 0 => EmptyString
  | S n' => String "a" (filler n')
  end.

(** A retrieved chunk whose text has [n] letters. *)
Definition resultOfSize (n : nat) : RetrievalResult PrimFloat.float :=
  {| result_id := "notes.txt_chunk_0";
     score := 1%float;
     result_metadata := metadataOf "notes.txt" 0;
     result_text := filler n |}.

(** A budget of [m] tokens, the metadata line left out. *)
Definition budget (m : Z) : PromptBuilder.PromptOptions :=
  {| PromptBuilder.maxContextTokens := Some m;
     PromptBuilder.includeMetadata := Some false;
     PromptBuilder.answerFormat := None;
     PromptBuilder.citationStyle := None |}.

(** Replies of the generation service. *)
Definition unavailable : GeminiClient.HttpReply :=
  GeminiClient.NotOk 503 "Service Unavailable".

Definition candidateWith (body : string) (reason : string)
  : GeminiClient.Candidate :=
  {| GeminiClient.content :=
       Some {| GeminiClient.parts :=
                 Some [ {| GeminiClient.part_text := Some body |} ] |};
     GeminiClient.finishReason := Some reason |}.

Definition answering (body : string) : GeminiClient.HttpReply :=
  GeminiClient.Body
    {| GeminiClient.candidates := Some [candidateWith body "STOP"] |}.

Definition blocked : GeminiClient.HttpReply :=
  GeminiClient.Body
    {| GeminiClient.candidates := Some [candidateWith "I cannot help with that." "SAFETY"] |}.

Definition clientOf (replies : nat -> GeminiClient.HttpReply)
  : GeminiClient.Env :=
  {| GeminiClient.GEMINI_API_KEY := Some "test-key"%string;
     GeminiClient.GEN_MODEL := "gemini-2.0-flash-exp";
     GeminiClient.GEN_MODEL_FALLBACK := "gemini-1.5-flash-latest";
     GeminiClient.service := replies |}.

(** The primary model fails three times, then the fallback answers. *)
Definition fallbackAnswers : GeminiClient.Env :=
  clientOf (fun n => if n <? 3 then unavailable
                     else answering " Heaps are complete binary trees. ").

(** Every request fails. *)
Definition alwaysUnavailable : GeminiClient.Env := clientOf (fun _ => unavailable).

(** Every response is blocked by the safety filters. *)
Definition alwaysBlocked : GeminiClient.Env := clientOf (fun _ => blocked).

(** The runtime of the prompt builder on binary64 numbers: JavaScript's
    truthiness (neither zero nor NaN), and renderings that are right for the
    one number the samples hold, 1. *)
Definition runtime : PromptBuilder.Runtime PrimFloat.float :=
  {| PromptBuilder.truthy :=
       fun x => negb (PrimFloat.eqb x 0%float) && PrimFloat.eqb x x;
     PromptBuilder.Number_toString := fun _ => "1"%string;
     PromptBuilder.toFixed3 := fun _ => "1.000"%string |}.

(** The messages of the engine's [TypeError]s. *)
Definition typeErrorMessage (site : AskRoute.TypeErrorSite) : string :=
  match site with
  | AskRoute.QuestionOfNull =>
      "Cannot read properties of null (reading 'question')"
  | AskRoute.SubstringOfQuestion =>
      "body.question?.substring is not a function"
  | AskRoute.MapOfCitations => "rawCitations.map is not a function"
  | AskRoute.SourceOfNull => "Cannot read properties of null (reading 'source')"
  end.

(** A reply of the model: an answer that cites one chunk by its chunk_id. *)
Definition replyText : string :=
  ("{" ++ PromptBuilder.quote ++ "answer" ++ PromptBuilder.quote ++ ": "
   ++ PromptBuilder.quote
   ++ "A binary tree has at most two children per node."
   ++ PromptBuilder.quote ++ ", "
   ++ PromptBuilder.quote ++ "citations" ++ PromptBuilder.quote ++ ": [{"
   ++ PromptBuilder.quote ++ "chunk_id" ++ PromptBuilder.quote ++ ": "
   ++ PromptBuilder.quote ++ "DSA_unit3.txt_0" ++ PromptBuilder.quote ++ "}], "
   ++ PromptBuilder.quote ++ "exam_format" ++ PromptBuilder.quote ++ ": "
   ++ PromptBuilder.quote ++ "two_mark" ++ PromptBuilder.quote ++ "}")%string.

Definition replyValue : StructuredGeneration.Json PrimFloat.float :=
  StructuredGeneration.JObject
    [ ("answer"%string,
       StructuredGeneration.JString
         "A binary tree has at most two children per node.");
      ("citations"%string,
       StructuredGeneration.JArray
         [ StructuredGeneration.JObject
             [ ("chunk_id"%string,
                StructuredGeneration.JString "DSA_unit3.txt_0") ] ]);
      ("exam_format"%string, StructuredGeneration.JString "two_mark") ].

(** [JSON.parse] on the texts of the samples, and an [in] operator that
    finds none of the keys asked for among the inherited names. *)
Definition language : StructuredGeneration.Runtime PrimFloat.float :=
  {| StructuredGeneration.JSON_parse :=
       fun text =>
         if String.eqb text replyText then Ok replyValue
         else Err {| error_name := "SyntaxError";
                     error_message := "Unexpected token in JSON" |};
     StructuredGeneration.inherited := fun _ _ => false |}.

(** The route with RAG enabled over an index without records; neither the
    generation service nor the heuristic system is available. *)
Definition routeEnv : AskRoute.Env PrimFloat.float :=
  {| AskRoute.ENABLE_RAG := true;
     AskRoute.retriever := emptyIndexEnv;
     AskRoute.runtime := runtime;
     AskRoute.language := language;
     AskRoute.client := alwaysUnavailable;
     AskRoute.getAiResponse := fun _ _ => Err (Error "fetch failed");
     AskRoute.typeErrorMessage := typeErrorMessage |}.

Definition ask (q : string) : AskRoute.RagRequest :=
  {| AskRoute.question := AskRoute.Text q;
     AskRoute.scheme := None;
     AskRoute.subject := None;
     AskRoute.useRag := Some true |}.

(** The surroundings of the chunker, and a file. *)
Definition ingestEnv : Ingest.Env :=
  {| Ingest.parseFilenameUnit := fun _ => Some "unit3"%string;
     Ingest.now := "2025-01-01T00:00:00.000Z" |}.

Definition notes : Ingest.FileMetadata :=
  {| Ingest.filename := "DSA_unit3.txt";
     Ingest.filepath := "data/sample_pdfs/DSA_unit3.txt";
     Ingest.extension := ".txt";
     Ingest.size := 41;
     Ingest.lastModified := "2025-01-01T00:00:00.000Z" |}.

(** Three sentences of one, three and three words, cut into chunks of at
    most three words with an overlap of two. *)
Definition shortFirstSentence : list (DocumentChunk PrimFloat.float) :=
  Ingest.chunkText ingestEnv "Trees. Heaps are trees. Queues use heaps."
    notes 3 2.

End Samples.

(** ** Further sample surroundings *)

Module Scenarios.
Import Floats.

(** Filters: records of the file [OS_unit2.txt] that score at least 0. *)
Definition fromOS : RetrieverTools.Filters PrimFloat.float :=
  {| RetrieverTools.filter_source := Some "os_"%string;
     RetrieverTools.filter_unit := None;
     RetrieverTools.filter_minScore := Some 0%float |}.

Definition noFilters : RetrieverTools.Filters PrimFloat.float :=
  {| RetrieverTools.filter_source := None;
     RetrieverTools.filter_unit := Some ""%string;
     RetrieverTools.filter_minScore := None |}.

(** The SHA-256 digests of the empty string and of [what is a heap?]. *)
Definition digestOfEmpty : list Byte.byte :=
  [Byte.xe3; Byte.xb0; Byte.xc4; Byte.x42; Byte.x98; Byte.xfc; Byte.x1c; Byte.x14;
   Byte.x9a; Byte.xfb; Byte.xf4; Byte.xc8; Byte.x99; Byte.x6f; Byte.xb9; Byte.x24;
   Byte.x27; Byte.xae; Byte.x41; Byte.xe4; Byte.x64; Byte.x9b; Byte.x93; Byte.x4c;
   Byte.xa4; Byte.x95; Byte.x99; Byte.x1b; Byte.x78; Byte.x52; Byte.xb8; Byte.x55].

Definition digestOfQuestion : list Byte.byte :=
  [Byte.x2d; Byte.x83; Byte.x75; Byte.xa4; Byte.x31; Byte.x9a; Byte.xff; Byte.x77;
   Byte.x2c; Byte.x0c; Byte.xfa; Byte.xdf; Byte.x0d; Byte.xab; Byte.x76; Byte.x3b;
   Byte.x60; Byte.xbc; Byte.x2f; Byte.xd1; Byte.x10; Byte.xd5; Byte.x80; Byte.x07;
   Byte.xed; Byte.xd5; Byte.xc1; Byte.x39; Byte.x3f; Byte.xec; Byte.x27; Byte.x2b].

(** A digest function that is right on these two texts. *)
Definition sampleDigest (s : string) : list Byte.byte :=
  if String.eqb s "what is a heap?" then digestOfQuestion else digestOfEmpty.


(** A binary64 service that answers every request with the same vector. *)
Definition online : EmbeddingService.Env PrimFloat.float :=
  {| EmbeddingService.GEMINI_API_KEY := Some "test-key"%string;
     EmbeddingService.sha256 := sampleDigest;
     EmbeddingService.NaN := PrimFloat.nan;
     EmbeddingService.service :=
       fun _ => EmbeddingService.Body (Some [1; 0]%float) |}.

(** Twelve texts. *)
Definition twelveTexts : list string :=
  map (fun n => ("text " ++ decimal n)%string) (seq 0 12).

(** The binary64 embedding service without API key. *)
Definition offlineFloat : EmbeddingService.Env PrimFloat.float :=
  {| EmbeddingService.GEMINI_API_KEY := None;
     EmbeddingService.sha256 := sampleDigest;
     EmbeddingService.NaN := PrimFloat.nan;
     EmbeddingService.service :=
       fun _ => EmbeddingService.Rejected (Error "fetch failed") |}.

(** Two chunks of a file, as the chunker makes them. *)
Definition twoChunks : list (Indexer.DocumentChunk PrimFloat.float) :=
  Ingest.chunkText Samples.ingestEnv "Trees. Heaps are trees. Queues use heaps."
    Samples.notes 4 1.

(** The index that holds them, with their hash embeddings. *)
Definition builtIndex : Indexer.IndexData PrimFloat.float :=
  {| Indexer.chunks :=
       IndexFiles.indexedChunksOf twoChunks
         (map (EmbeddingService.hashEmbed offlineFloat)
              (map (@Indexer.doc_text _) twoChunks));
     Indexer.index_metadata :=
       {| Indexer.driver := "json";
          Indexer.index_created_at := "2025-01-01T00:00:00.000Z";
          Indexer.updated_at := "2025-01-01T00:00:00.001Z";
          Indexer.chunk_count := 2;
          Indexer.embedding_model := "text-embedding-004" |} |}.

(** A file system that lets every operation pass, with a [JSON.parse] that
    reads the one text [JSON.stringify] writes. *)
Definition indexIo (driver : string) : IndexFiles.Io PrimFloat.float :=
  {| IndexFiles.driverSetting := driver;
     IndexFiles.mkdir := Ok tt;
     IndexFiles.writeFile := fun _ => Ok tt;
     IndexFiles.unlink := Ok tt;
     IndexFiles.JSON_stringify := fun _ => "{ chunks: [ ... ] }"%string;
     IndexFiles.JSON_parse :=
       fun data => if String.eqb data "{ chunks: [ ... ] }" then Ok builtIndex
                   else Err (Error "Unexpected token");
     IndexFiles.clock :=
       ("2025-01-01T00:00:00.000Z", "2025-01-01T00:00:00.001Z")%string;
     IndexFiles.embedder := offlineFloat |}.

(** The three sentences of [shortFirstSentence], cut into chunks of at most
    three words with no overlap asked for. *)
Definition noOverlapAsked : list (Indexer.DocumentChunk PrimFloat.float) :=
  Ingest.chunkText Samples.ingestEnv
    "Trees. Heaps are trees. Queues use heaps." Samples.notes 3 0.

(** The route with RAG enabled and no index, beside a heuristic system
    that answers. *)
Definition noIndexRoute : AskRoute.Env PrimFloat.float :=
  {| AskRoute.ENABLE_RAG := true;
     AskRoute.retriever := Samples.noIndexEnv;
     AskRoute.runtime := Samples.runtime;
     AskRoute.language := Samples.language;
     AskRoute.client := Samples.alwaysUnavailable;
     AskRoute.getAiResponse :=
       fun _ _ => Ok {| AskRoute.success := true;
                        AskRoute.heuristic_answer := "A heap is a complete binary tree.";
                        AskRoute.heuristic_error := None |};
     AskRoute.typeErrorMessage := Samples.typeErrorMessage |}.

(** The route with RAG disabled, beside a heuristic system that reports a
    failure without a message. *)
Definition heuristicOnlyRoute : AskRoute.Env PrimFloat.float :=
  {| AskRoute.ENABLE_RAG := false;
     AskRoute.retriever := Samples.noIndexEnv;
     AskRoute.runtime := Samples.runtime;
     AskRoute.language := Samples.language;
     AskRoute.client := Samples.alwaysUnavailable;
     AskRoute.getAiResponse :=
       fun _ _ => Ok {| AskRoute.success := false;
                        AskRoute.heuristic_answer := "";
                        AskRoute.heuristic_error := None |};
     AskRoute.typeErrorMessage := Samples.typeErrorMessage |}.

(** The route with RAG enabled over the index of [boundaryEnv], beside a
    generation service that answers [replyText] to every request. *)
Definition confidentRoute : AskRoute.Env PrimFloat.float :=
  {| AskRoute.ENABLE_RAG := true;
     AskRoute.retriever := Samples.boundaryEnv;
     AskRoute.runtime := Samples.runtime;
     AskRoute.language := Samples.language;
     AskRoute.client := Samples.clientOf (fun _ => Samples.answering Samples.replyText);
     AskRoute.getAiResponse := fun _ _ => Err (Error "fetch failed");
     AskRoute.typeErrorMessage := Samples.typeErrorMessage |}.

(** A request that leaves [useRag] out. *)
Definition askPlainly (q : string) : AskRoute.RagRequest :=
  {| AskRoute.question := AskRoute.Text q;
     AskRoute.scheme := None;
     AskRoute.subject := None;
     AskRoute.useRag := None |}.

End Scenarios.

(** ** The order of binary64 numbers *)

Section Binary64Vocabulary.
Import Floats.
Local Open Scope Z_scope.
Local Unset Implicit Arguments.

(** The smallest exponent of binary64. *)
Definition emin64 : Z := SpecFloat.emin prec emax.

(** The numbers of sign [s] other than the zeros and NaN. *)
Inductive signed (s : bool) : spec_float -> Prop :=
| signed_finite (m : positive) (e : Z) : signed s (S754_finite s m e)
| signed_infinity : signed s (S754_infinity s).

(** The zero that JavaScript writes [0]. *)
Definition SFzero : spec_float := S754_zero false.

(** Every value but NaN: the infinities, the zeros and the finite numbers. *)
Definition notNaN (x : spec_float) : Prop := x <> S754_nan.

(** The place of a number on the line: its class, then its exponent and
    mantissa, negated below zero. *)
Definition key (x : spec_float) : Z * (Z * Z) :=
  match x with
  | S754_nan => (3, (0, 0))
  | S754_infinity true => (-2, (0, 0))
  | S754_finite true m e => (-1, (- e, - Zpos m))
  | S754_zero _ => (0, (0, 0))
  | S754_finite false m e => (1, (e, Zpos m))
  | S754_infinity false => (2, (0, 0))
  end.

(** The order of the places, class first. *)
Definition keyLe (k1 k2 : Z * (Z * Z)) : Prop :=
  fst k1 < fst k2
  \/ (fst k1 = fst k2
      /\ (fst (snd k1) < fst (snd k2)
          \/ (fst (snd k1) = fst (snd k2) /\ snd (snd k1) <= snd (snd k2)))).

End Binary64Vocabulary.

(** ** The values of binary64 numbers *)

(** The bounds on [cosineSimilarity] are stated on the real numbers that
    binary64 numbers denote. *)

Section Binary64Values.
Import Floats.
Local Open Scope R_scope.
Local Unset Implicit Arguments.

(** 2 to the power [e], for an exponent of either sign. *)
Definition pow2 (e : Z) : R := powerRZ 2 e.

(** The sign of a number, as a factor. *)
Definition signR (s : bool) : R := if s then -1 else 1.

(** The real number a finite binary64 number denotes (0 for the others). *)
Definition SF2R (x : spec_float) : R :=
  match x with
  | S754_finite s m e => signR s * (IZR (Zpos m) * pow2 e)
  | _ => 0
  end.

(** The zeros and the finite numbers: neither an infinity nor NaN. *)
Definition SFfinite (x : spec_float) : bool :=
  match x with
  | S754_zero _ | S754_finite _ _ _ => true
  | _ => false
  end.

(** The value of a number of the engine, when it is finite. *)
Definition toReal (x : float) : R := SF2R (Prim2SF x).

Definition isFinite (x : float) : Prop := SFfinite (Prim2SF x) = true.

(** The relative error the bounds below allow each operation, 2^-52 (a
    rounding to nearest errs by at most half of it), and the absolute error
    of a result of the subnormal range. *)
Definition u64 : R := pow2 (-52).
Definition eta64 : R := pow2 (-1074).

(** The numbers the bounds are stated for: zero, and the numbers whose
    magnitude lies between 2^-500 and 2^500, so that no product of two of
    them overflows or falls into the subnormal range. *)
Definition inRange (x : float) : Prop :=
  isFinite x
  /\ (toReal x = 0 \/ pow2 (-500) <= Rabs (toReal x) <= pow2 500).

(** The exact sums of the squares of a vector and of the magnitudes of the
    products of two. *)
Definition sumSquares (a : list float) : R :=
  fold_right (fun x s => toReal x * toReal x + s) 0 a.

Fixpoint sumProducts (a b : list float) : R :=
  match a, b with
  | x :: a', y :: b' => Rabs (toReal x * toReal y) + sumProducts a' b'
  | _, _ => 0
  end.

(** What the three sums of [cosineSimilarity] satisfy after [j] rounds,
    against the exact sums [P] of the magnitudes of the products and [SA],
    [SB] of the squares. *)
Definition accumulated (j : nat) (P SA SB : R)
    (acc : Embeddings.Accumulators (num := float)) : Prop :=
  (isFinite (Embeddings.dotProduct acc)
   /\ isFinite (Embeddings.normA acc) /\ isFinite (Embeddings.normB acc))
  /\ (0 <= P <= INR j * pow2 1000
      /\ 0 <= SA <= INR j * pow2 1000
      /\ 0 <= SB <= INR j * pow2 1000)
  /\ ((SA = 0 \/ pow2 (-1000) <= SA) /\ (SB = 0 \/ pow2 (-1000) <= SB))
  /\ P * P <= SA * SB
  /\ Rabs (toReal (Embeddings.dotProduct acc)) <= P * (1 + u64) ^ (j + 1)
  /\ (SA * (1 - u64) ^ (j + 1) <= toReal (Embeddings.normA acc)
      /\ toReal (Embeddings.normA acc) <= SA * (1 + u64) ^ (j + 1))
  /\ (SB * (1 - u64) ^ (j + 1) <= toReal (Embeddings.normB acc)
      /\ toReal (Embeddings.normB acc) <= SB * (1 + u64) ^ (j + 1)).

End Binary64Values.

(** ** Proof automation *)

(** Decides the comparisons of real numbers a goal branches on. *)
Ltac decide_order :=
  repeat match goal with
         | |- context [Rlt_dec ?a ?b] => destruct (Rlt_dec a b)
         | |- context [Rle_dec ?a ?b] => destruct (Rle_dec a b)
         end;
  auto; try (exfalso; lra).

(** Splits a goal on the comparisons of integers it branches on. *)
Ltac compare_cases :=
  repeat match goal with
         | |- context [Z.compare ?a ?b] => destruct (Z.compare_spec a b)
         | |- context [Pos.compare_cont Eq ?a ?b] =>
             change (Pos.compare_cont Eq a b) with (Pos.compare a b);
             destruct (Pos.compare_spec a b)
         end.

(* ================================================================== *)
(** * Part II: properties *)
(* ================================================================== *)

(** ** The order of binary64 numbers *)

(** JavaScript compares and subtracts binary64 numbers; the sort of
    [retrieve] needs the two to agree.  They do for all numbers but NaN:
    the comparison is the order of the line, and a difference of two
    different numbers never rounds to zero. *)

Section Binary64Order.
Import Floats.
Local Open Scope Z_scope.
Local Unset Implicit Arguments.

Lemma emin64_value : emin64 = -1074.
Proof. reflexivity. Qed.

Lemma fexp_value (e : Z) : fexp prec emax e = Z.max (e - 53) (-1074).
Proof. reflexivity. Qed.

Lemma digits2_pos_bounds (p : positive) :
  2 ^ (Zpos (digits2_pos p) - 1) <= Zpos p < 2 ^ Zpos (digits2_pos p).
Proof.
  induction p as [p IH|p IH|]; cbn [digits2_pos].
  - rewrite Pos2Z.inj_succ.
    replace (Z.succ (Zpos (digits2_pos p)) - 1) with (Zpos (digits2_pos p) - 1 + 1) by lia.
    rewrite Z.pow_succ_r by lia.
    assert (0 <= Zpos (digits2_pos p) - 1) by lia.
    rewrite Z.pow_add_r by lia. change (2 ^ 1) with 2. lia.
  - rewrite Pos2Z.inj_succ.
    replace (Z.succ (Zpos (digits2_pos p)) - 1) with (Zpos (digits2_pos p) - 1 + 1) by lia.
    rewrite Z.pow_succ_r by lia.
    assert (0 <= Zpos (digits2_pos p) - 1) by lia.
    rewrite Z.pow_add_r by lia. change (2 ^ 1) with 2. lia.
  - simpl. lia.
Qed.

Lemma shr_1_m (mrs : shr_record) :
  0 <= shr_m mrs -> shr_m (shr_1 mrs) = shr_m mrs / 2.
Proof.
  destruct mrs as [m r s]. cbn [shr_m]. intros Hm.
  destruct m as [|p|p]; [reflexivity| |lia].
  destruct p as [p|p|]; cbn [shr_1 shr_m].
  - apply Z.div_unique with 1; lia.
  - apply Z.div_unique with 0; lia.
  - reflexivity.
Qed.

Lemma pow2_xO (n : positive) : 2 ^ Zpos n~0 = 2 ^ Zpos n * 2 ^ Zpos n.
Proof.
  replace (Zpos n~0) with (Zpos n + Zpos n) by lia.
  apply Z.pow_add_r; lia.
Qed.

Lemma pow2_xI (n : positive) : 2 ^ Zpos n~1 = 2 * (2 ^ Zpos n * 2 ^ Zpos n).
Proof.
  replace (Zpos n~1) with (Z.succ (Zpos n + Zpos n)) by lia.
  rewrite Z.pow_succ_r by lia. rewrite Z.pow_add_r by lia. reflexivity.
Qed.

Lemma pow2_pos (n : positive) : 0 < 2 ^ Zpos n.
Proof.
  apply Z.pow_pos_nonneg; lia.
Qed.

Lemma iter_shr_1_m (n : positive) :
  forall mrs, 0 <= shr_m mrs ->
    shr_m (iter_pos shr_1 n mrs) = shr_m mrs / 2 ^ Zpos n.
Proof.
  induction n as [n IH|n IH|]; intros mrs Hm; cbn [iter_pos].
  - assert (H1 : 0 <= shr_m (shr_1 mrs)).
    { rewrite shr_1_m by exact Hm. apply Z.div_pos; lia. }
    assert (H2 : 0 <= shr_m (iter_pos shr_1 n (shr_1 mrs))).
    { rewrite IH by exact H1. apply Z.div_pos; [lia|apply pow2_pos]. }
    rewrite IH by exact H2. rewrite IH by exact H1. rewrite shr_1_m by exact Hm.
    pose proof (pow2_pos n) as Hp.
    rewrite !Z.div_div by lia. rewrite pow2_xI. reflexivity.
  - assert (H2 : 0 <= shr_m (iter_pos shr_1 n mrs)).
    { rewrite IH by exact Hm. apply Z.div_pos; [lia|apply pow2_pos]. }
    rewrite IH by exact H2. rewrite IH by exact Hm.
    pose proof (pow2_pos n) as Hp.
    rewrite !Z.div_div by lia. rewrite pow2_xO. reflexivity.
  - rewrite shr_1_m by exact Hm. reflexivity.
Qed.

Lemma shr_record_of_loc_m (m : Z) (l : location) :
  shr_m (shr_record_of_loc m l) = m.
Proof.
  destruct l as [|[| |]]; reflexivity.
Qed.

(** Shifting a positive mantissa to its format keeps it positive. *)
Lemma shr_fexp_positive (m e : Z) (l : location) :
  0 < m -> emin64 <= e ->
  0 < shr_m (fst (shr_fexp prec emax m e l))
  /\ emin64 <= snd (shr_fexp prec emax m e l).
Proof.
  intros Hm He. unfold shr_fexp, shr. rewrite fexp_value.
  rewrite emin64_value in *.
  destruct m as [|p|p]; try lia. cbn [Zdigits2].
  pose proof (digits2_pos_bounds p) as Hd.
  set (d := Zpos (digits2_pos p)) in *.
  destruct (Z.max (d + e - 53) (-1074) - e) as [|n|n] eqn:Hn; cbn [fst snd].
  - rewrite shr_record_of_loc_m. lia.
  - rewrite iter_shr_1_m by (rewrite shr_record_of_loc_m; lia).
    rewrite shr_record_of_loc_m. split; [|lia].
    apply Z.div_str_pos. split; [apply Z.pow_pos_nonneg; lia|].
    apply Z.le_trans with (2 ^ (d - 1)); [|lia].
    apply Z.pow_le_mono_r; lia.
  - rewrite shr_record_of_loc_m. lia.
Qed.

Lemma round_nearest_even_positive (m : Z) (l : location) :
  0 < m -> 0 < round_nearest_even m l.
Proof.
  intros Hm. destruct l as [|[| |]]; cbn [round_nearest_even]; try lia.
  destruct (Z.even m); lia.
Qed.

(** The sign of a rounded non-zero number is the sign given. *)
Lemma binary_round_aux_signed (s : bool) (m e : Z) (l : location) :
  0 < m -> emin64 <= e -> signed s (binary_round_aux prec emax s m e l).
Proof.
  intros Hm He. unfold binary_round_aux.
  pose proof (shr_fexp_positive m e l Hm He) as [H1 H1e].
  destruct (shr_fexp prec emax m e l) as [mrs' e'] eqn:Hs1. cbn [fst snd] in *.
  pose proof (round_nearest_even_positive (shr_m mrs') (loc_of_shr_record mrs') H1) as Hr.
  pose proof (shr_fexp_positive _ e' loc_Exact Hr H1e) as [H2 _].
  destruct (shr_fexp prec emax _ e' loc_Exact) as [mrs'' e''] eqn:Hs2.
  cbn [fst snd] in *.
  destruct (shr_m mrs'') as [|p|p]; try lia.
  destruct (e'' <=? emax - prec); constructor.
Qed.

Lemma shl_align_exponent (m : positive) (e e' : Z) :
  emin64 <= e -> emin64 <= e' -> emin64 <= snd (shl_align m e e').
Proof.
  intros He He'. unfold shl_align. destruct (e' - e); cbn [snd]; assumption.
Qed.

Lemma binary_round_signed (s : bool) (m : positive) (e : Z) :
  emin64 <= e -> signed s (binary_round prec emax s m e).
Proof.
  intros He. unfold binary_round.
  pose proof (shl_align_exponent m e
                (fexp prec emax (Zpos (digits2_pos m) + e)) He) as Hs.
  destruct (shl_align m e (fexp prec emax (Zpos (digits2_pos m) + e)))
    as [mz ez]. cbn [snd] in Hs.
  apply binary_round_aux_signed; [lia|]. apply Hs.
  rewrite fexp_value, emin64_value. lia.
Qed.

Lemma signed_positive (x : spec_float) :
  signed false x -> SFltb SFzero x = true.
Proof.
  destruct 1; reflexivity.
Qed.

Lemma signed_negative (x : spec_float) :
  signed true x -> SFltb SFzero x = false.
Proof.
  destruct 1; reflexivity.
Qed.

(** A normalised number is above zero exactly when its integer mantissa
    is. *)
Lemma binary_normalize_positive (m e : Z) :
  emin64 <= e ->
  SFltb SFzero (binary_normalize prec emax m e false) = (0 <? m).
Proof.
  intros He. destruct m as [|p|p]; cbn [binary_normalize].
  - reflexivity.
  - rewrite signed_positive by (apply binary_round_signed; exact He).
    reflexivity.
  - rewrite signed_negative by (apply binary_round_signed; exact He).
    reflexivity.
Qed.

Lemma iter_xO (d : positive) (m : positive) :
  Zpos (Pos.iter xO m d) = Zpos m * 2 ^ Zpos d.
Proof.
  revert m. induction d as [|d IH] using Pos.peano_ind; intros m.
  - simpl. lia.
  - rewrite Pos.iter_succ. rewrite Pos2Z.inj_succ, Z.pow_succ_r by lia.
    change (Zpos (Pos.iter xO m d)~0) with (2 * Zpos (Pos.iter xO m d)).
    rewrite IH. lia.
Qed.

(** Aligning a mantissa to a smaller exponent multiplies it by the power of
    two between the exponents. *)
Lemma shl_align_value (m : positive) (e e' : Z) :
  e' <= e -> Zpos (fst (shl_align m e e')) = Zpos m * 2 ^ (e - e').
Proof.
  intros He. unfold shl_align.
  destruct (e' - e) as [|d|d] eqn:Hd; cbn [fst].
  - replace (e - e') with 0 by lia. simpl. lia.
  - lia.
  - rewrite iter_xO. replace (e - e') with (Zpos d) by lia. reflexivity.
Qed.

(** What being a valid binary64 number says of a mantissa and exponent. *)
Lemma bounded_facts (m : positive) (e : Z) :
  bounded prec emax m e = true ->
  emin64 <= e
  /\ Zpos (digits2_pos m) <= 53
  /\ (emin64 < e -> Zpos (digits2_pos m) = 53).
Proof.
  unfold bounded, canonical_mantissa. rewrite fexp_value, emin64_value.
  intros Hb. apply andb_prop in Hb. destruct Hb as [Hc _].
  apply Z.eqb_eq in Hc. lia.
Qed.

Lemma mantissa_range (m : positive) (e : Z) :
  bounded prec emax m e = true ->
  Zpos m < 2 ^ 53 /\ (emin64 < e -> 2 ^ 52 <= Zpos m).
Proof.
  intros Hb. destruct (bounded_facts m e Hb) as (_ & Hd & Hn).
  pose proof (digits2_pos_bounds m) as Hm. split.
  - apply Z.lt_le_trans with (2 ^ Zpos (digits2_pos m)); [lia|].
    apply Z.pow_le_mono_r; lia.
  - intros He. rewrite (Hn He) in Hm. exact (proj1 Hm).
Qed.

(** The number with the larger exponent has the larger aligned mantissa. *)
Lemma aligned_lt (m1 m2 : positive) (e1 e2 : Z) :
  bounded prec emax m1 e1 = true -> bounded prec emax m2 e2 = true ->
  e1 < e2 ->
  Zpos (fst (shl_align m1 e1 (Z.min e1 e2)))
  < Zpos (fst (shl_align m2 e2 (Z.min e1 e2))).
Proof.
  intros H1 H2 He.
  destruct (mantissa_range m1 e1 H1) as [Hm1 _].
  destruct (mantissa_range m2 e2 H2) as [_ Hm2].
  destruct (bounded_facts m1 e1 H1) as (He1 & _ & _).
  rewrite Z.min_l by lia.
  rewrite !shl_align_value by lia.
  replace (e1 - e1) with 0 by lia. rewrite Z.pow_0_r, Z.mul_1_r.
  assert (Hp : 2 <= 2 ^ (e2 - e1)).
  { change 2 with (2 ^ 1) at 1. apply Z.pow_le_mono_r; lia. }
  assert (H52 : 2 ^ 52 <= Zpos m2) by (apply Hm2; lia).
  change (2 ^ 53) with (2 * 2 ^ 52) in Hm1.
  nia.
Qed.

Lemma aligned_same (m1 m2 : positive) (e : Z) :
  Zpos (fst (shl_align m1 e (Z.min e e))) = Zpos m1.
Proof.
  rewrite Z.min_id, shl_align_value by lia.
  rewrite Z.sub_diag. simpl. lia.
Qed.

Lemma SFsub_finite_sign (sx sy : bool) (mx my : positive) (ex ey : Z) :
  bounded prec emax mx ex = true -> bounded prec emax my ey = true ->
  SFltb SFzero (SFsub prec emax (S754_finite sx mx ex) (S754_finite sy my ey))
  = SFltb (S754_finite sy my ey) (S754_finite sx mx ex).
Proof.
  intros Hx Hy.
  destruct (bounded_facts mx ex Hx) as (Hex & _ & _).
  destruct (bounded_facts my ey Hy) as (Hey & _ & _).
  cbn [SFsub]. cbv zeta.
  rewrite binary_normalize_positive by lia.
  unfold SFltb, SFcompare.
  destruct (Z.compare_spec ey ex) as [Heq|Hlt|Hgt].
  - subst ey. rewrite Z.min_id, !shl_align_value by lia.
    rewrite Z.sub_diag, Z.pow_0_r, !Z.mul_1_r.
    change (Pos.compare_cont Eq my mx) with (Pos.compare my mx).
    destruct sx, sy; cbn [cond_Zopp];
      destruct (Pos.compare_spec my mx) as [Hm|Hm|Hm]; cbn [CompOpp];
      try subst my;
      match goal with
      | |- (0 <? ?d) = true => apply Z.ltb_lt; lia
      | |- (0 <? ?d) = false => apply Z.ltb_ge; lia
      end.
  - pose proof (aligned_lt my mx ey ex Hy Hx Hlt) as Hal.
    rewrite (Z.min_comm ey ex) in Hal.
    destruct sx, sy; cbn [cond_Zopp];
      match goal with
      | |- (0 <? ?d) = true => apply Z.ltb_lt; lia
      | |- (0 <? ?d) = false => apply Z.ltb_ge; lia
      end.
  - pose proof (aligned_lt mx my ex ey Hx Hy Hgt) as Hal.
    destruct sx, sy; cbn [cond_Zopp];
      match goal with
      | |- (0 <? ?d) = true => apply Z.ltb_lt; lia
      | |- (0 <? ?d) = false => apply Z.ltb_ge; lia
      end.
Qed.

(** The difference of two numbers is above zero exactly when the first is
    above the second. *)
Lemma SFsub_sign (x y : spec_float) :
  valid_binary x = true -> valid_binary y = true ->
  notNaN x -> notNaN y ->
  SFltb SFzero (SFsub prec emax x y) = SFltb y x.
Proof.
  intros Hx Hy Hnx Hny.
  destruct x as [sx|sx| |sx mx ex]; [| |exfalso; apply Hnx; reflexivity|];
    (destruct y as [sy|sy| |sy my ey]; [| |exfalso; apply Hny; reflexivity|]);
    try (destruct sx, sy; reflexivity);
    try (destruct sx; reflexivity);
    try (destruct sy; reflexivity).
  apply SFsub_finite_sign; assumption.
Qed.

Lemma SFleb_key (x y : spec_float) :
  notNaN x -> notNaN y ->
  (SFleb x y = true <-> keyLe (key x) (key y)).
Proof.
  intros Hx Hy. unfold SFleb, SFcompare, keyLe.
  destruct x as [sx|sx| |sx mx ex]; [| |exfalso; apply Hx; reflexivity|];
    (destruct y as [sy|sy| |sy my ey]; [| |exfalso; apply Hy; reflexivity|]);
    try destruct sx; try destruct sy; cbn [key fst snd];
    compare_cases; cbn [CompOpp]; subst;
    split; intros; try discriminate; try reflexivity; try lia.
Qed.

Lemma SFltb_key (x y : spec_float) :
  notNaN x -> notNaN y ->
  (SFltb x y = true <-> ~ keyLe (key y) (key x)).
Proof.
  intros Hx Hy. unfold SFltb, SFcompare, keyLe.
  destruct x as [sx|sx| |sx mx ex]; [| |exfalso; apply Hx; reflexivity|];
    (destruct y as [sy|sy| |sy my ey]; [| |exfalso; apply Hy; reflexivity|]);
    try destruct sx; try destruct sy; cbn [key fst snd];
    compare_cases; cbn [CompOpp]; subst;
    split; intros; try discriminate; try reflexivity; try lia.
Qed.

Lemma keyLe_trans (a b c : Z * (Z * Z)) :
  keyLe a b -> keyLe b c -> keyLe a c.
Proof.
  unfold keyLe. lia.
Qed.

Lemma SFleb_trans (x y z : spec_float) :
  notNaN x -> notNaN y -> notNaN z ->
  SFleb x y = true -> SFleb y z = true -> SFleb x z = true.
Proof.
  intros Hx Hy Hz Hxy Hyz.
  apply (SFleb_key x z Hx Hz).
  apply keyLe_trans with (key y);
    [apply (SFleb_key x y Hx Hy)|apply (SFleb_key y z Hy Hz)]; assumption.
Qed.

Lemma SFleb_total (x y : spec_float) :
  notNaN x -> notNaN y -> SFleb x y = negb (SFltb y x).
Proof.
  intros Hx Hy.
  pose proof (SFleb_key x y Hx Hy) as Hle.
  pose proof (SFltb_key y x Hy Hx) as Hlt.
  destruct (SFleb x y), (SFltb y x); simpl; try reflexivity; exfalso.
  - apply (proj1 Hlt eq_refl). apply Hle. reflexivity.
  - assert (Hn : ~ ~ keyLe (key x) (key y)).
    { intros Hc. apply Hlt in Hc. discriminate. }
    apply Hn. intros Hk. apply Hle in Hk. discriminate.
Qed.

Lemma SFltb_SFleb (x y : spec_float) :
  SFltb x y = true -> SFleb x y = true.
Proof.
  unfold SFltb, SFleb. destruct (SFcompare x y) as [[| |]|]; auto.
Qed.

Lemma float_notNaN (x : float) :
  PrimFloat.eqb x x = true -> notNaN (Prim2SF x).
Proof.
  rewrite eqb_spec. intros He Hn. rewrite Hn in He. discriminate.
Qed.

Lemma float_sub_sign (a b : float) :
  PrimFloat.eqb a a = true -> PrimFloat.eqb b b = true ->
  PrimFloat.ltb PrimFloat.zero (PrimFloat.sub a b) = PrimFloat.ltb b a.
Proof.
  intros Ha Hb. rewrite !ltb_spec, sub_spec.
  apply SFsub_sign; auto using Prim2SF_valid, float_notNaN.
Qed.

Lemma float_leb_total (a b : float) :
  PrimFloat.eqb a a = true -> PrimFloat.eqb b b = true ->
  PrimFloat.leb b a = negb (PrimFloat.ltb a b).
Proof.
  intros Ha Hb. rewrite leb_spec, ltb_spec.
  apply SFleb_total; auto using float_notNaN.
Qed.

Lemma float_ltb_leb (a b : float) :
  PrimFloat.ltb a b = true -> PrimFloat.leb a b = true.
Proof.
  rewrite leb_spec, ltb_spec. apply SFltb_SFleb.
Qed.

Lemma float_leb_trans (a b c : float) :
  PrimFloat.eqb a a = true -> PrimFloat.eqb b b = true ->
  PrimFloat.eqb c c = true ->
  PrimFloat.leb a b = true -> PrimFloat.leb b c = true ->
  PrimFloat.leb a c = true.
Proof.
  intros Ha Hb Hc. rewrite !leb_spec.
  apply SFleb_trans; auto using float_notNaN.
Qed.

End Binary64Order.

(** ** The rounding of binary64 operations *)

(** Each operation of the engine returns its exact result rounded.  The
    lemmas below derive, from the definitions of the operations in the
    specification of IEEE 754 arithmetic, that the result of a
    multiplication, an addition, a division or a square root that neither
    overflows nor falls into the subnormal range differs from the exact one
    by a relative error of at most 2^-52. *)

Section PowersOfTwo.
Import Floats.
Local Open Scope R_scope.
Local Unset Implicit Arguments.

Lemma pow2_gt_0 (e : Z) : 0 < pow2 e.
Proof. apply powerRZ_lt. lra. Qed.

Lemma pow2_add (a b : Z) : pow2 (a + b) = pow2 a * pow2 b.
Proof. apply powerRZ_add. lra. Qed.

Lemma pow2_IZR (n : Z) : (0 <= n)%Z -> pow2 n = IZR (2 ^ n).
Proof.
  intros Hn. destruct n as [|p|p]; [reflexivity| |lia].
  unfold pow2. rewrite <- Zpower_pos_powerRZ. reflexivity.
Qed.

Lemma pow2_ge_1 (n : Z) : (0 <= n)%Z -> 1 <= pow2 n.
Proof.
  intros Hn. rewrite pow2_IZR by exact Hn. apply IZR_le.
  pose proof (Z.pow_pos_nonneg 2 n ltac:(lia) Hn). lia.
Qed.

Lemma pow2_le (a b : Z) : (a <= b)%Z -> pow2 a <= pow2 b.
Proof.
  intros Hab. replace b with (a + (b - a))%Z by lia. rewrite pow2_add.
  pose proof (pow2_gt_0 a). pose proof (pow2_ge_1 (b - a) ltac:(lia)). nra.
Qed.

Lemma pow2_lt (a b : Z) : (a < b)%Z -> pow2 a < pow2 b.
Proof.
  intros Hab. replace b with (a + (b - a))%Z by lia. rewrite pow2_add.
  pose proof (pow2_gt_0 a).
  assert (2 <= pow2 (b - a)).
  { rewrite pow2_IZR by lia. apply IZR_le.
    replace (b - a)%Z with (Z.succ (b - a - 1)) by lia.
    rewrite Z.pow_succ_r by lia.
    pose proof (Z.pow_pos_nonneg 2 (b - a - 1) ltac:(lia) ltac:(lia)). lia. }
  nra.
Qed.

Lemma pow2_lt_inv (a b : Z) : pow2 a < pow2 b -> (a < b)%Z.
Proof.
  intros Hlt. destruct (Z_lt_le_dec a b) as [H|H]; [exact H|].
  apply pow2_le in H. lra.
Qed.

Lemma pow2_succ (a : Z) : pow2 (a + 1) = 2 * pow2 a.
Proof. rewrite pow2_add. change (pow2 1) with (2 * 1). lra. Qed.

Lemma pow2_square (a : Z) : pow2 a * pow2 a = pow2 (2 * a).
Proof. rewrite <- pow2_add. f_equal. lia. Qed.

Lemma sqrt_pow2_even (a : Z) : R_sqrt.sqrt (pow2 (2 * a)) = pow2 a.
Proof.
  rewrite <- pow2_square. apply sqrt_square. pose proof (pow2_gt_0 a). lra.
Qed.

End PowersOfTwo.

Section RoundingCore.
Import Floats.
Local Open Scope Z_scope.
Local Unset Implicit Arguments.

Lemma Zdigits2_nonneg (m : Z) : 0 <= Zdigits2 m.
Proof. destruct m; simpl; lia. Qed.

Lemma Zdigits2_bounds (m : Z) :
  0 < m -> 2 ^ (Zdigits2 m - 1) <= m < 2 ^ Zdigits2 m.
Proof.
  destruct m as [|p|p]; try lia. intros _. apply digits2_pos_bounds.
Qed.

Lemma Zdigits2_upper (m : Z) : 0 <= m -> m < 2 ^ Zdigits2 m.
Proof.
  intros Hm. destruct (Z.eq_dec m 0) as [->|Hne]; [simpl; lia|].
  apply Zdigits2_bounds. lia.
Qed.

Lemma Zdigits2_le (m k : Z) : 0 <= m -> 0 <= k -> m < 2 ^ k -> Zdigits2 m <= k.
Proof.
  intros Hm Hk Hlt. destruct (Z.eq_dec m 0) as [->|Hne]; [simpl; lia|].
  pose proof (Zdigits2_bounds m ltac:(lia)) as [Hlow _].
  assert (2 ^ (Zdigits2 m - 1) < 2 ^ k) as H by lia.
  apply Z.pow_lt_mono_r_iff in H; lia.
Qed.

Lemma Zdigits2_gt (m k : Z) : 0 <= k -> 2 ^ k <= m -> k < Zdigits2 m.
Proof.
  intros Hk Hle.
  assert (0 < m) as Hm.
  { pose proof (Z.pow_pos_nonneg 2 k ltac:(lia) Hk). lia. }
  pose proof (Zdigits2_bounds m Hm) as [_ Hup].
  assert (2 ^ k < 2 ^ Zdigits2 m) as H by lia.
  apply Z.pow_lt_mono_r_iff in H; [exact H|lia|apply Zdigits2_nonneg].
Qed.

Lemma Zdigits2_unique (m k : Z) :
  0 < k -> 2 ^ (k - 1) <= m < 2 ^ k -> Zdigits2 m = k.
Proof.
  intros Hk [Hlow Hup].
  pose proof (Zdigits2_gt m (k - 1) ltac:(lia) Hlow).
  assert (0 <= m).
  { pose proof (Z.pow_pos_nonneg 2 (k - 1) ltac:(lia) ltac:(lia)). lia. }
  pose proof (Zdigits2_le m k ltac:(lia) ltac:(lia) Hup). lia.
Qed.

(** The first shift of a rounding. *)
Lemma shr_fexp_value (m e : Z) (l : location) :
  0 <= m -> e <= fexp prec emax (Zdigits2 m + e) ->
  snd (shr_fexp prec emax m e l) = fexp prec emax (Zdigits2 m + e)
  /\ shr_m (fst (shr_fexp prec emax m e l))
     = m / 2 ^ (fexp prec emax (Zdigits2 m + e) - e)
  /\ (fexp prec emax (Zdigits2 m + e) = e ->
      fst (shr_fexp prec emax m e l) = shr_record_of_loc m l).
Proof.
  intros Hm He. unfold shr_fexp, shr.
  set (E := fexp prec emax (Zdigits2 m + e)) in *.
  destruct (E - e) as [|p|p] eqn:Hn; cbn [fst snd].
  - split; [lia|]. split; [|reflexivity].
    rewrite shr_record_of_loc_m. simpl. rewrite Z.div_1_r. reflexivity.
  - split; [lia|]. split; [|lia].
    rewrite iter_shr_1_m by (rewrite shr_record_of_loc_m; exact Hm).
    rewrite shr_record_of_loc_m. reflexivity.
  - lia.
Qed.

Lemma round_nearest_even_cases (m : Z) (l : location) :
  round_nearest_even m l = m \/ round_nearest_even m l = m + 1.
Proof.
  destruct l as [|[| |]]; cbn [round_nearest_even]; auto.
  destruct (Z.even m); auto.
Qed.

(** The second shift: it acts only after a carry out of the 53 bits. *)
Lemma shr_fexp_second (m E : Z) :
  0 <= m <= 2 ^ 53 -> emin64 <= E ->
  (m < 2 ^ 53 ->
   shr_m (fst (shr_fexp prec emax m E loc_Exact)) = m
   /\ snd (shr_fexp prec emax m E loc_Exact) = E)
  /\ (m = 2 ^ 53 ->
      shr_m (fst (shr_fexp prec emax m E loc_Exact)) = 2 ^ 52
      /\ snd (shr_fexp prec emax m E loc_Exact) = E + 1).
Proof.
  intros Hm HE. rewrite emin64_value in HE. split.
  - intros Hlt. unfold shr_fexp, shr. rewrite fexp_value.
    pose proof (Zdigits2_le m 53 ltac:(lia) ltac:(lia) Hlt) as Hd.
    destruct (Z.max (Zdigits2 m + E - 53) (-1074) - E) as [|p|p] eqn:Hn;
      cbn [fst snd]; try (split; reflexivity); lia.
  - intros ->. unfold shr_fexp, shr. rewrite fexp_value.
    change (Zdigits2 (2 ^ 53)) with 54.
    replace (Z.max (54 + E - 53) (-1074) - E) with 1 by lia.
    cbn [fst snd]. split; [reflexivity|lia].
Qed.

Lemma fexp_ge_emin (e : Z) : emin64 <= fexp prec emax e.
Proof. rewrite fexp_value, emin64_value. lia. Qed.

(** The mantissa after the first shift has at most 53 bits, and exactly 53
    above the subnormal range. *)
Lemma shifted_mantissa_range (mx ex : Z) :
  0 <= mx -> ex <= fexp prec emax (Zdigits2 mx + ex) ->
  0 <= mx / 2 ^ (fexp prec emax (Zdigits2 mx + ex) - ex) < 2 ^ 53
  /\ (emin64 < fexp prec emax (Zdigits2 mx + ex) ->
      2 ^ 52 <= mx / 2 ^ (fexp prec emax (Zdigits2 mx + ex) - ex)).
Proof.
  intros Hm He. rewrite emin64_value. rewrite fexp_value in *.
  set (d := Zdigits2 mx) in *.
  pose proof (Zdigits2_nonneg mx) as Hd. fold d in Hd.
  pose proof (Zdigits2_upper mx Hm) as Hup. fold d in Hup.
  set (n := Z.max (d + ex - 53) (-1074) - ex) in *.
  assert (Hn : 0 <= n) by (unfold n; lia).
  assert (Hpn : 0 < 2 ^ n) by (apply Z.pow_pos_nonneg; lia).
  split; [split|].
  - apply Z.div_pos; lia.
  - apply Z.div_lt_upper_bound; [exact Hpn|].
    rewrite <- Z.pow_add_r by lia.
    apply Z.lt_le_trans with (2 ^ d); [exact Hup|].
    apply Z.pow_le_mono_r; unfold n; lia.
  - intros Hnormal.
    assert (Hndef : n = d - 53) by (unfold n; lia).
    assert (Hpos : 0 < mx).
    { destruct (Z.eq_dec mx 0) as [H0|H0]; [|lia].
      subst mx. unfold d in *. simpl in *. lia. }
    pose proof (Zdigits2_bounds mx Hpos) as [Hlow _]. fold d in Hlow.
    apply Z.div_le_lower_bound; [exact Hpn|].
    rewrite <- Z.pow_add_r by lia.
    replace (n + 52) with (d - 1) by lia. exact Hlow.
Qed.

(** What a rounding returns, by the mantissa it settles on. *)
Lemma binary_round_aux_value (sx : bool) (mx ex : Z) (lx : location) :
  0 <= mx -> ex <= fexp prec emax (Zdigits2 mx + ex) ->
  exists m'',
    (m'' = mx / 2 ^ (fexp prec emax (Zdigits2 mx + ex) - ex)
     \/ m'' = mx / 2 ^ (fexp prec emax (Zdigits2 mx + ex) - ex) + 1)
    /\ (lx = loc_Exact -> fexp prec emax (Zdigits2 mx + ex) = ex -> m'' = mx)
    /\ binary_round_aux prec emax sx mx ex lx
       = if m'' =? 0 then S754_zero sx
         else if m'' =? 2 ^ 53
              then (if fexp prec emax (Zdigits2 mx + ex) + 1 <=? emax - prec
                    then S754_finite sx (Z.to_pos (2 ^ 52))
                           (fexp prec emax (Zdigits2 mx + ex) + 1)
                    else S754_infinity sx)
              else (if fexp prec emax (Zdigits2 mx + ex) <=? emax - prec
                    then S754_finite sx (Z.to_pos m'')
                           (fexp prec emax (Zdigits2 mx + ex))
                    else S754_infinity sx).
Proof.
  intros Hm He.
  destruct (shr_fexp_value mx ex lx Hm He) as (Hsnd & Hfst & Hsame).
  destruct (shifted_mantissa_range mx ex Hm He) as [Hrange _].
  pose proof (fexp_ge_emin (Zdigits2 mx + ex)) as HE.
  set (E := fexp prec emax (Zdigits2 mx + ex)) in *.
  set (m' := mx / 2 ^ (E - ex)) in *.
  unfold binary_round_aux.
  destruct (shr_fexp prec emax mx ex lx) as [mrs' e'] eqn:Hs1.
  cbn [fst snd] in Hsnd, Hfst, Hsame. subst e'.
  set (m'' := round_nearest_even (shr_m mrs') (loc_of_shr_record mrs')).
  exists m''. split; [|split].
  - unfold m''. rewrite <- Hfst. apply round_nearest_even_cases.
  - intros -> Hexact. unfold m''. rewrite (Hsame Hexact). reflexivity.
  - assert (Hcases : m'' = m' \/ m'' = m' + 1).
    { unfold m''. rewrite <- Hfst. apply round_nearest_even_cases. }
    assert (Hb : 0 <= m'' <= 2 ^ 53) by lia.
    destruct (shr_fexp_second m'' E Hb HE) as [Hsmall Hcarry].
    destruct (shr_fexp prec emax m'' E loc_Exact) as [mrs'' e''] eqn:Hs2.
    cbn [fst snd] in Hsmall, Hcarry.
    destruct (Z.eq_dec m'' (2 ^ 53)) as [Hc|Hc].
    + destruct (Hcarry Hc) as [Hm2 He2]. rewrite Hm2, He2, Hc.
      reflexivity.
    + destruct (Hsmall ltac:(lia)) as [Hm2 He2]. rewrite Hm2, He2.
      destruct m'' as [|p|p] eqn:Hp; [reflexivity| |lia].
      replace (Z.pos p =? 0) with false by (symmetry; apply Z.eqb_neq; lia).
      replace (Z.pos p =? 2 ^ 53) with false
        by (symmetry; apply Z.eqb_neq; exact Hc).
      reflexivity.
Qed.

End RoundingCore.

Section RoundingValues.
Import Floats.
Local Open Scope R_scope.
Local Unset Implicit Arguments.

Lemma binary_round_aux_bound (sx : bool) (mx ex : Z) (lx : location) (x : R) :
  (0 <= mx)%Z -> (ex <= fexp prec emax (Zdigits2 mx + ex))%Z ->
  IZR mx * pow2 ex <= x <= IZR (mx + 1) * pow2 ex ->
  x < pow2 1023 ->
  exists v,
    SFfinite (binary_round_aux prec emax sx mx ex lx) = true
    /\ SF2R (binary_round_aux prec emax sx mx ex lx) = signR sx * v
    /\ 0 <= v
    /\ Rabs (v - x) <= pow2 (fexp prec emax (Zdigits2 mx + ex))
    /\ (fexp prec emax (Zdigits2 mx + ex) = emin64
        \/ pow2 (fexp prec emax (Zdigits2 mx + ex) + 52) <= x)
    /\ (lx = loc_Exact -> fexp prec emax (Zdigits2 mx + ex) = ex ->
        v = IZR mx * pow2 ex).
Proof.
  intros Hm He [Hlow Hup] Hmax.
  destruct (binary_round_aux_value sx mx ex lx Hm He)
    as (m'' & Hcases & Hexact & Hresult).
  destruct (shifted_mantissa_range mx ex Hm He) as [Hrange Hnormal].
  pose proof (fexp_ge_emin (Zdigits2 mx + ex)) as HE.
  rewrite emin64_value in *.
  set (E := fexp prec emax (Zdigits2 mx + ex)) in *.
  set (n := (E - ex)%Z) in *.
  set (m' := (mx / 2 ^ n)%Z) in *.
  assert (Hn : (0 <= n)%Z) by (unfold n; lia).
  assert (Hpn : (0 < 2 ^ n)%Z) by (apply Z.pow_pos_nonneg; lia).
  assert (HpE : pow2 E = IZR (2 ^ n) * pow2 ex).
  { rewrite <- pow2_IZR by exact Hn. rewrite <- pow2_add. f_equal.
    unfold n. lia. }
  pose proof (pow2_gt_0 ex) as Hpex. pose proof (pow2_gt_0 E) as HpEpos.
  assert (Hbelow : IZR m' * pow2 E <= x).
  { apply Rle_trans with (IZR mx * pow2 ex); [|exact Hlow].
    rewrite HpE, <- Rmult_assoc, <- mult_IZR.
    apply Rmult_le_compat_r; [lra|]. apply IZR_le.
    pose proof (Z.mul_div_le mx (2 ^ n) Hpn). unfold m'. lia. }
  assert (Habove : x <= IZR (m' + 1) * pow2 E).
  { apply Rle_trans with (IZR (mx + 1) * pow2 ex); [exact Hup|].
    rewrite HpE, <- Rmult_assoc, <- mult_IZR.
    apply Rmult_le_compat_r; [lra|]. apply IZR_le.
    pose proof (Z.mul_succ_div_gt mx (2 ^ n) Hpn). unfold m'. lia. }
  assert (Hscale : (E = -1074)%Z \/ pow2 (E + 52) <= x).
  { destruct (Z.eq_dec E (-1074)) as [H0|H0]; [left; exact H0|right].
    specialize (Hnormal ltac:(lia)). fold m' in Hnormal.
    apply Rle_trans with (IZR m' * pow2 E); [|exact Hbelow].
    rewrite pow2_add, Rmult_comm.
    apply Rmult_le_compat_r; [lra|].
    rewrite pow2_IZR by lia. apply IZR_le. exact Hnormal. }
  assert (Hroom : (E <= 970)%Z \/ (E = -1074)%Z).
  { destruct Hscale as [H0|H0]; [right; exact H0|left].
    assert (pow2 (E + 52) < pow2 1023) as Hlt by lra.
    apply pow2_lt_inv in Hlt. lia. }
  assert (Hfit1 : (E + 1 <=? emax - prec)%Z = true).
  { apply Z.leb_le. change (emax - prec)%Z with 971%Z. lia. }
  assert (Hfit0 : (E <=? emax - prec)%Z = true).
  { apply Z.leb_le. change (emax - prec)%Z with 971%Z. lia. }
  rewrite Hfit1, Hfit0 in Hresult.
  exists (IZR m'' * pow2 E).
  assert (Hm''pos : (0 <= m'')%Z) by (fold m' in Hcases; lia).
  split; [|split; [|split; [|split; [|split]]]].
  - rewrite Hresult. destruct (m'' =? 0)%Z; [reflexivity|].
    destruct (m'' =? 2 ^ 53)%Z; reflexivity.
  - rewrite Hresult. destruct (m'' =? 0)%Z eqn:Hz.
    + apply Z.eqb_eq in Hz. rewrite Hz. cbn [SF2R]. lra.
    + apply Z.eqb_neq in Hz. destruct (m'' =? 2 ^ 53)%Z eqn:Hc.
      * apply Z.eqb_eq in Hc. rewrite Hc. cbn [SF2R]. f_equal.
        rewrite pow2_succ. change (Z.pos (Z.to_pos (2 ^ 52))) with (2 ^ 52)%Z.
        change (2 ^ 53)%Z with (2 * 2 ^ 52)%Z. rewrite mult_IZR. lra.
      * cbn [SF2R]. rewrite Z2Pos.id by lia. reflexivity.
  - apply Rmult_le_pos; [apply IZR_le; exact Hm''pos|lra].
  - fold m' in Hcases. rewrite plus_IZR in Habove.
    destruct Hcases as [-> | ->]; [|rewrite plus_IZR];
      apply Rabs_le; split; nra.
  - exact Hscale.
  - intros Hl HEex. rewrite (Hexact Hl HEex), HEex. reflexivity.
Qed.

(** The error of a rounding, as the analysis uses it. *)
Lemma rounding_error_forms (v x : R) (E : Z) :
  0 <= x ->
  Rabs (v - x) <= pow2 E ->
  (E = emin64 \/ pow2 (E + 52) <= x) ->
  Rabs (v - x) <= pow2 (-52) * x + pow2 (-1074)
  /\ (pow2 (-1022) <= x -> Rabs (v - x) <= pow2 (-52) * x)
  /\ ((emin64 < E)%Z -> Rabs (v - x) <= pow2 (-52) * x).
Proof.
  intros Hx Herr Hscale. rewrite emin64_value in *.
  assert (Hrel : pow2 (E + 52) <= x -> pow2 E <= pow2 (-52) * x).
  { intros H. replace E with (-52 + (E + 52))%Z at 1 by lia.
    rewrite pow2_add. pose proof (pow2_gt_0 (-52)). nra. }
  pose proof (pow2_gt_0 (-52)). pose proof (pow2_gt_0 (-1074)).
  split; [|split].
  - destruct Hscale as [-> | H1]; [nra|]. specialize (Hrel H1). lra.
  - intros Hnormal. destruct Hscale as [-> | H1]; [|specialize (Hrel H1); lra].
    apply Rle_trans with (pow2 (-1074)); [exact Herr|].
    replace (-1074)%Z with (-52 + -1022)%Z by lia. rewrite pow2_add. nra.
  - intros Hnormal. destruct Hscale as [Hz|H1]; [lia|].
    specialize (Hrel H1). lra.
Qed.

End RoundingValues.

Section Operations.
Import Floats.
Local Open Scope R_scope.
Local Unset Implicit Arguments.

Lemma signR_xorb (sx sy : bool) : signR (xorb sx sy) = signR sx * signR sy.
Proof. destruct sx, sy; unfold signR; simpl; lra. Qed.

Lemma Rabs_signR (s : bool) (v : R) : Rabs (signR s * v) = Rabs v.
Proof.
  destruct s; unfold signR.
  - replace (-1 * v) with (- v) by lra. apply Rabs_Ropp.
  - f_equal. lra.
Qed.

Lemma mantissa_pos (m : positive) (e : Z) : 0 < IZR (Zpos m) * pow2 e.
Proof.
  apply Rmult_lt_0_compat; [apply IZR_lt; lia|apply pow2_gt_0].
Qed.

(** The bounds of a mantissa in terms of its number of digits. *)
Lemma digits_of_product (mx my : positive) :
  (Zdigits2 (Zpos mx) + Zdigits2 (Zpos my) - 1 <= Zdigits2 (Zpos (mx * my)))%Z.
Proof.
  pose proof (Zdigits2_bounds (Zpos mx) ltac:(lia)) as [Hx _].
  pose proof (Zdigits2_bounds (Zpos my) ltac:(lia)) as [Hy _].
  assert (Hdx : (1 <= Zdigits2 (Zpos mx))%Z) by (simpl; lia).
  assert (Hdy : (1 <= Zdigits2 (Zpos my))%Z) by (simpl; lia).
  assert (H : (Zdigits2 (Zpos mx) + Zdigits2 (Zpos my) - 2
               < Zdigits2 (Zpos (mx * my)))%Z).
  { apply Zdigits2_gt; [lia|].
    replace (Zdigits2 (Zpos mx) + Zdigits2 (Zpos my) - 2)%Z
      with ((Zdigits2 (Zpos mx) - 1) + (Zdigits2 (Zpos my) - 1))%Z by lia.
    rewrite Z.pow_add_r by lia. rewrite Pos2Z.inj_mul.
    apply Z.mul_le_mono_nonneg; try lia;
      apply Z.pow_nonneg; lia. }
  lia.
Qed.

Lemma bounded_digits (m : positive) (e : Z) :
  bounded prec emax m e = true ->
  (-1074 <= e)%Z
  /\ (1 <= Zdigits2 (Zpos m) <= 53)%Z
  /\ ((-1074 < e)%Z -> Zdigits2 (Zpos m) = 53%Z)
  /\ (e <= 971)%Z.
Proof.
  intros Hb. destruct (bounded_facts m e Hb) as (He & Hd & Hn).
  rewrite emin64_value in *. cbn [Zdigits2].
  unfold bounded in Hb. apply andb_prop in Hb. destruct Hb as [_ Hmax].
  apply Z.leb_le in Hmax. change (emax - prec)%Z with 971%Z in Hmax.
  repeat split; try assumption; lia.
Qed.

(** Multiplication: the product is rounded with a relative error of at
    most 2^-52, or an absolute error of at most 2^-1074 in the subnormal
    range. *)
Lemma SFmul_bound (x y : spec_float) :
  valid_binary x = true -> valid_binary y = true ->
  SFfinite x = true -> SFfinite y = true ->
  Rabs (SF2R x * SF2R y) < pow2 1023 ->
  SFfinite (SFmul prec emax x y) = true
  /\ Rabs (SF2R (SFmul prec emax x y) - SF2R x * SF2R y)
     <= pow2 (-52) * Rabs (SF2R x * SF2R y) + pow2 (-1074)
  /\ (pow2 (-1022) <= Rabs (SF2R x * SF2R y) \/ SF2R x * SF2R y = 0 ->
      Rabs (SF2R (SFmul prec emax x y) - SF2R x * SF2R y)
      <= pow2 (-52) * Rabs (SF2R x * SF2R y)).
Proof.
  intros Hvx Hvy Hfx Hfy Hmax.
  pose proof (pow2_gt_0 (-52)) as Hu. pose proof (pow2_gt_0 (-1074)) as Heta.
  assert (Hzero : forall r, SF2R r = 0 -> SF2R x * SF2R y = 0 ->
            SFfinite r = true ->
            SFfinite r = true
            /\ Rabs (SF2R r - SF2R x * SF2R y)
               <= pow2 (-52) * Rabs (SF2R x * SF2R y) + pow2 (-1074)
            /\ (pow2 (-1022) <= Rabs (SF2R x * SF2R y) \/ SF2R x * SF2R y = 0 ->
                Rabs (SF2R r - SF2R x * SF2R y)
                <= pow2 (-52) * Rabs (SF2R x * SF2R y))).
  { intros r Hr Hxy Hfr. rewrite Hr, Hxy.
    replace (0 - 0) with 0 by lra. rewrite Rabs_R0.
    split; [exact Hfr|]. split; [lra|]. intros _. lra. }
  destruct x as [sx|sx| |sx mx ex]; try discriminate;
    destruct y as [sy|sy| |sy my ey]; try discriminate;
    try (apply Hzero; [reflexivity|cbn [SF2R]; lra|reflexivity]).
  cbn [valid_binary] in Hvx, Hvy.
  destruct (bounded_digits mx ex Hvx) as (Hex & Hdx & Hnx & _).
  destruct (bounded_digits my ey Hvy) as (Hey & Hdy & Hny & _).
  pose proof (digits_of_product mx my) as Hd.
  cbn [SFmul].
  set (X := IZR (Zpos (mx * my)) * pow2 (ex + ey)).
  assert (Hprod : SF2R (S754_finite sx mx ex) * SF2R (S754_finite sy my ey)
                  = signR (xorb sx sy) * X).
  { cbn [SF2R]. rewrite signR_xorb. unfold X.
    rewrite Pos2Z.inj_mul, mult_IZR, pow2_add. ring. }
  assert (HX : 0 < X) by apply mantissa_pos.
  rewrite Hprod in *. rewrite Rabs_signR in *.
  rewrite (Rabs_pos_eq X) in * by lra.
  destruct (binary_round_aux_bound (xorb sx sy) (Zpos (mx * my)) (ex + ey)
              loc_Exact X)
    as (v & Hfin & Hval & Hv & Herr & Hscale & _).
  - lia.
  - rewrite fexp_value. lia.
  - unfold X. split; [lra|]. rewrite plus_IZR.
    pose proof (pow2_gt_0 (ex + ey)). nra.
  - exact Hmax.
  - destruct (rounding_error_forms v X _ ltac:(lra) Herr Hscale)
      as (Hgen & Hnormal & _).
    rewrite Hval.
    replace (signR (xorb sx sy) * v - signR (xorb sx sy) * X)
      with (signR (xorb sx sy) * (v - X)) by ring.
    rewrite Rabs_signR.
    split; [exact Hfin|]. split; [exact Hgen|].
    intros [Hn|Hz]; [apply Hnormal; exact Hn|].
    exfalso. destruct (xorb sx sy); unfold signR in Hz; lra.
Qed.

Lemma shl_align_snd (m : positive) (e e' : Z) :
  snd (shl_align m e e') = Z.min e e'.
Proof.
  unfold shl_align. destruct (e' - e)%Z as [|d|d] eqn:Hd; cbn [snd]; lia.
Qed.

Lemma shl_align_fst (m : positive) (e e' : Z) :
  Zpos (fst (shl_align m e e')) = (Zpos m * 2 ^ (e - Z.min e e'))%Z.
Proof.
  destruct (Z_le_gt_dec e' e) as [Hle|Hgt].
  - rewrite shl_align_value by exact Hle. f_equal. f_equal. lia.
  - unfold shl_align. destruct (e' - e)%Z as [|d|d] eqn:Hd; try lia;
      cbn [fst]; replace (e - Z.min e e')%Z with 0%Z by lia; simpl; lia.
Qed.

(** Rounding an integer multiple of a power of two: the relative error is
    at most 2^-52 in every range, since a number of the subnormal range
    that is given exactly is kept. *)
Lemma binary_round_bound (s : bool) (p : positive) (e : Z) :
  (-1074 <= e)%Z ->
  IZR (Zpos p) * pow2 e < pow2 1023 ->
  SFfinite (binary_round prec emax s p e) = true
  /\ exists v,
      SF2R (binary_round prec emax s p e) = signR s * v
      /\ Rabs (v - IZR (Zpos p) * pow2 e)
         <= pow2 (-52) * (IZR (Zpos p) * pow2 e).
Proof.
  intros He Hmax. unfold binary_round.
  set (F := fexp prec emax (Zpos (digits2_pos p) + e)).
  pose proof (shl_align_snd p e F) as Hsnd.
  pose proof (shl_align_fst p e F) as Hfst.
  destruct (shl_align p e F) as [mz ez]. cbn [fst snd] in Hsnd, Hfst.
  set (X := IZR (Zpos p) * pow2 e) in *.
  assert (HX : 0 < X) by apply mantissa_pos.
  assert (Hsame : IZR (Zpos mz) * pow2 ez = X).
  { rewrite Hfst, mult_IZR. unfold X.
    rewrite <- pow2_IZR by lia. rewrite Rmult_assoc, <- pow2_add.
    do 2 f_equal. lia. }
  assert (Hdigits : (Zdigits2 (Zpos mz) + ez = Zpos (digits2_pos p) + e)%Z).
  { pose proof (Zdigits2_bounds (Zpos p) ltac:(lia)) as [Hlow Hup].
    cbn [Zdigits2] in Hlow, Hup.
    assert (Hk : (0 <= e - Z.min e F)%Z) by lia.
    assert (Zdigits2 (Zpos mz) = Zpos (digits2_pos p) + (e - Z.min e F))%Z.
    { apply Zdigits2_unique; [lia|]. rewrite Hfst.
      replace (Zpos (digits2_pos p) + (e - Z.min e F) - 1)%Z
        with ((Zpos (digits2_pos p) - 1) + (e - Z.min e F))%Z by lia.
      rewrite !Z.pow_add_r by lia.
      pose proof (Z.pow_pos_nonneg 2 (e - Z.min e F) ltac:(lia) Hk).
      split; nia. }
    lia. }
  destruct (binary_round_aux_bound s (Zpos mz) ez loc_Exact X)
    as (v & Hfin & Hval & Hv & Herr & Hscale & Hexact).
  - lia.
  - rewrite Hdigits. fold F. lia.
  - rewrite Hsame. split; [lra|]. rewrite plus_IZR.
    rewrite <- Hsame. pose proof (pow2_gt_0 ez). nra.
  - exact Hmax.
  - split; [exact Hfin|]. exists v. split; [exact Hval|].
    rewrite Hdigits in Herr, Hscale, Hexact. fold F in Herr, Hscale, Hexact.
    destruct (Z.eq_dec F ez) as [Heq|Hne].
    + rewrite (Hexact eq_refl Heq), Hsame.
      replace (X - X) with 0 by lra. rewrite Rabs_R0.
      pose proof (pow2_gt_0 (-52)). nra.
    + destruct (rounding_error_forms v X F ltac:(lra) Herr Hscale)
        as (_ & _ & Hrel).
      apply Hrel. rewrite emin64_value.
      pose proof (fexp_ge_emin (Zpos (digits2_pos p) + e)) as HF.
      fold F in HF. rewrite emin64_value in HF. lia.
Qed.

(** Addition: a relative error of at most 2^-52 in every range. *)
Lemma SFadd_bound (x y : spec_float) :
  valid_binary x = true -> valid_binary y = true ->
  SFfinite x = true -> SFfinite y = true ->
  Rabs (SF2R x + SF2R y) < pow2 1023 ->
  SFfinite (SFadd prec emax x y) = true
  /\ Rabs (SF2R (SFadd prec emax x y) - (SF2R x + SF2R y))
     <= pow2 (-52) * Rabs (SF2R x + SF2R y).
Proof.
  intros Hvx Hvy Hfx Hfy Hmax.
  pose proof (pow2_gt_0 (-52)) as Hu.
  assert (Hexact : forall r, SFfinite r = true ->
            SF2R r = SF2R x + SF2R y ->
            SFfinite r = true
            /\ Rabs (SF2R r - (SF2R x + SF2R y))
               <= pow2 (-52) * Rabs (SF2R x + SF2R y)).
  { intros r Hfr ->. split; [exact Hfr|].
    replace (SF2R x + SF2R y - (SF2R x + SF2R y)) with 0 by lra.
    rewrite Rabs_R0. pose proof (Rabs_pos (SF2R x + SF2R y)). nra. }
  destruct x as [sx|sx| |sx mx ex]; try discriminate;
    destruct y as [sy|sy| |sy my ey]; try discriminate.
  - destruct sx, sy; (apply Hexact; [reflexivity|cbn [SFadd SF2R]; lra]).
  - apply Hexact; [reflexivity|cbn [SFadd SF2R]; lra].
  - apply Hexact; [reflexivity|cbn [SFadd SF2R]; lra].
  - cbn [valid_binary] in Hvx, Hvy.
    destruct (bounded_digits mx ex Hvx) as (Hex & _).
    destruct (bounded_digits my ey Hvy) as (Hey & _).
    cbn [SFadd]. set (ez := Z.min ex ey).
    rewrite (shl_align_value mx ex ez) by (unfold ez; lia).
    rewrite (shl_align_value my ey ez) by (unfold ez; lia).
    set (M := (cond_Zopp sx (Zpos mx * 2 ^ (ex - ez))
               + cond_Zopp sy (Zpos my * 2 ^ (ey - ez)))%Z).
    assert (Hsum : SF2R (S754_finite sx mx ex) + SF2R (S754_finite sy my ey)
                   = IZR M * pow2 ez).
    { unfold M. rewrite plus_IZR, Rmult_plus_distr_r.
      assert (Hterm : forall s m e, (ez <= e)%Z ->
                IZR (cond_Zopp s (Zpos m * 2 ^ (e - ez))) * pow2 ez
                = signR s * (IZR (Zpos m) * pow2 e)).
      { intros s m e Hle.
        replace (pow2 e) with (IZR (2 ^ (e - ez)) * pow2 ez).
        - destruct s; unfold signR; cbn [cond_Zopp];
            [rewrite opp_IZR|]; rewrite mult_IZR; ring.
        - rewrite <- pow2_IZR by lia. rewrite <- pow2_add. f_equal. lia. }
      rewrite !Hterm by (unfold ez; lia). reflexivity. }
    rewrite Hsum in *.
    destruct M as [|p|p]; cbn [binary_normalize].
    + split; [reflexivity|]. cbn [SF2R].
      replace (0 - 0 * pow2 ez) with 0 by lra. rewrite Rabs_R0.
      pose proof (Rabs_pos (0 * pow2 ez)). nra.
    + assert (Hpos : 0 < IZR (Zpos p) * pow2 ez) by apply mantissa_pos.
      rewrite (Rabs_pos_eq (IZR (Zpos p) * pow2 ez)) in * by lra.
      destruct (binary_round_bound false p ez ltac:(unfold ez; lia) Hmax)
        as (Hfin & v & Hval & Herr).
      split; [exact Hfin|]. rewrite Hval. unfold signR.
      replace (1 * v - IZR (Zpos p) * pow2 ez)
        with (v - IZR (Zpos p) * pow2 ez) by lra.
      exact Herr.
    + assert (Hpos : 0 < IZR (Zpos p) * pow2 ez) by apply mantissa_pos.
      assert (Hneg : IZR (Zneg p) * pow2 ez = - (IZR (Zpos p) * pow2 ez)).
      { change (Zneg p) with (- Zpos p)%Z. rewrite opp_IZR. ring. }
      rewrite Hneg in *. rewrite Rabs_Ropp in *.
      rewrite (Rabs_pos_eq (IZR (Zpos p) * pow2 ez)) in * by lra.
      destruct (binary_round_bound true p ez ltac:(unfold ez; lia) Hmax)
        as (Hfin & v & Hval & Herr).
      split; [exact Hfin|]. rewrite Hval. unfold signR.
      replace (-1 * v - - (IZR (Zpos p) * pow2 ez))
        with (- (v - IZR (Zpos p) * pow2 ez)) by lra.
      rewrite Rabs_Ropp. exact Herr.
Qed.

(** The integer square root that [SFsqrt] rounds. *)
Lemma SFsqrt_core_binary_spec (mx : positive) (ex : Z) :
  bounded prec emax mx ex = true ->
  exists q e' l m',
    SFsqrt_core_binary prec emax (Zpos mx) ex = (q, e', l)
    /\ (m' = Zpos mx * 2 ^ (ex - 2 * e'))%Z
    /\ (0 <= ex - 2 * e')%Z
    /\ (q * q <= m' < (q + 1) * (q + 1))%Z
    /\ (2 ^ 52 <= q)%Z
    /\ (e' <= fexp prec emax (Zdigits2 q + e'))%Z.
Proof.
  intros Hb. destruct (bounded_digits mx ex Hb) as (Hex & Hd & _ & _).
  unfold SFsqrt_core_binary.
  set (d := Zdigits2 (Zpos mx)) in *.
  set (e' := Z.min (fexp prec emax (Z.div2 (d + ex + 1))) (Z.div2 ex)).
  assert (He' : (2 * e' <= ex)%Z /\ (105 - d <= ex - 2 * e')%Z).
  { unfold e'. rewrite fexp_value, !Z.div2_div.
    pose proof (Z.div_mod ex 2 ltac:(lia)).
    pose proof (Z.mod_pos_bound ex 2 ltac:(lia)).
    pose proof (Z.div_mod (d + ex + 1) 2 ltac:(lia)).
    pose proof (Z.mod_pos_bound (d + ex + 1) 2 ltac:(lia)).
    lia. }
  destruct He' as [Hs Hbig].
  set (s := (ex - 2 * e')%Z) in *.
  set (m' := match s with
             | 0%Z => Zpos mx
             | Zpos _ => Z.shiftl (Zpos mx) s
             | Zneg _ => 0%Z
             end).
  assert (Hm' : m' = (Zpos mx * 2 ^ s)%Z).
  { unfold m'. destruct s as [|p|p] eqn:Hp; [simpl; lia| |lia].
    apply Z.shiftl_mul_pow2. lia. }
  pose proof (Zdigits2_bounds (Zpos mx) ltac:(lia)) as [Hlow _]. fold d in Hlow.
  assert (Hm'big : (2 ^ 104 <= m')%Z).
  { rewrite Hm'. apply Z.le_trans with (2 ^ (d - 1) * 2 ^ s)%Z.
    - rewrite <- Z.pow_add_r by lia. apply Z.pow_le_mono_r; lia.
    - apply Z.mul_le_mono_nonneg_r; [apply Z.pow_nonneg; lia|exact Hlow]. }
  pose proof (Z.sqrtrem_spec m' ltac:(lia)) as Hspec.
  destruct (Z.sqrtrem m') as [q r].
  destruct Hspec as [Hsq Hr].
  assert (Hq : (2 ^ 52 <= q)%Z).
  { change (2 ^ 104)%Z with (2 ^ 52 * 2 ^ 52)%Z in Hm'big.
    generalize dependent (2 ^ 52)%Z. intros t Ht. nia. }
  exists q, e'. eexists. exists m'.
  split; [reflexivity|]. split; [exact Hm'|]. split; [lia|].
  split; [nia|]. split; [exact Hq|].
  rewrite fexp_value. pose proof (Zdigits2_gt q 52 ltac:(lia) Hq). lia.
Qed.

(** The square root: a relative error of at most 2^-52. *)
Lemma SFsqrt_bound (x : spec_float) :
  valid_binary x = true -> SFfinite x = true -> 0 <= SF2R x ->
  SFfinite (SFsqrt prec emax x) = true
  /\ 0 <= SF2R (SFsqrt prec emax x)
  /\ Rabs (SF2R (SFsqrt prec emax x) - R_sqrt.sqrt (SF2R x))
     <= pow2 (-52) * R_sqrt.sqrt (SF2R x).
Proof.
  intros Hv Hf Hpos. pose proof (pow2_gt_0 (-52)) as Hu.
  destruct x as [sx|sx| |sx mx ex]; try discriminate.
  - cbn [SFsqrt SF2R]. rewrite sqrt_0.
    replace (0 - 0) with 0 by lra. rewrite Rabs_R0.
    split; [reflexivity|]. split; lra.
  - cbn [valid_binary] in Hv.
    pose proof (mantissa_pos mx ex) as HX.
    destruct sx.
    { exfalso. cbn [SF2R] in Hpos. unfold signR in Hpos. lra. }
    destruct (bounded_digits mx ex Hv) as (Hex & Hd & _ & Hemax).
    destruct (SFsqrt_core_binary_spec mx ex Hv)
      as (q & e' & l & m' & Hcore & Hm' & Hs & Hq2 & Hq & Hn).
    cbn [SFsqrt]. rewrite Hcore.
    cbn [SF2R]. change (signR false) with 1. rewrite !Rmult_1_l.
    set (X := IZR (Zpos mx) * pow2 ex) in *.
    assert (HXm : X = IZR m' * pow2 (2 * e')).
    { unfold X. rewrite Hm', mult_IZR, <- pow2_IZR by lia.
      rewrite Rmult_assoc, <- pow2_add. do 2 f_equal. lia. }
    assert (Hroot : R_sqrt.sqrt X = R_sqrt.sqrt (IZR m') * pow2 e').
    { rewrite HXm. rewrite sqrt_mult_alt.
      - rewrite sqrt_pow2_even. reflexivity.
      - apply IZR_le. lia. }
    assert (Hqpos : (0 <= q)%Z) by lia.
    assert (Hlow : IZR q <= R_sqrt.sqrt (IZR m')).
    { rewrite <- (sqrt_square (IZR q)) by (apply IZR_le; exact Hqpos).
      apply sqrt_le_1_alt. rewrite <- mult_IZR. apply IZR_le. lia. }
    assert (Hup : R_sqrt.sqrt (IZR m') <= IZR (q + 1)).
    { rewrite <- (sqrt_square (IZR (q + 1))) by (apply IZR_le; lia).
      apply sqrt_le_1_alt. rewrite <- mult_IZR. apply IZR_le. lia. }
    pose proof (pow2_gt_0 e') as Hpe'.
    assert (Hmaxroot : R_sqrt.sqrt X < pow2 1023).
    { apply Rle_lt_trans with (pow2 512); [|apply pow2_lt; lia].
      change 512%Z with (2 * 256 + 0)%Z.
      replace (pow2 (2 * 256 + 0)) with (R_sqrt.sqrt (pow2 (2 * 512)))
        by (rewrite sqrt_pow2_even; reflexivity).
      apply sqrt_le_1_alt. unfold X.
      apply Rle_trans with (IZR (2 ^ 53) * pow2 971).
      - pose proof (Zdigits2_upper (Zpos mx) ltac:(lia)) as Hmx.
        assert (Zpos mx < 2 ^ 53)%Z.
        { apply Z.lt_le_trans with (2 ^ Zdigits2 (Zpos mx))%Z; [exact Hmx|].
          apply Z.pow_le_mono_r; lia. }
        apply Rmult_le_compat.
        + apply IZR_le. lia.
        + pose proof (pow2_gt_0 ex). lra.
        + apply IZR_le. lia.
        + apply pow2_le. lia.
      - rewrite <- pow2_IZR by lia. rewrite <- pow2_add. apply pow2_le. lia. }
    assert (Hminroot : pow2 (-1022) <= R_sqrt.sqrt X).
    { apply Rle_trans with (pow2 (-537)); [apply pow2_le; lia|].
      replace (pow2 (-537)) with (R_sqrt.sqrt (pow2 (2 * -537)))
        by (rewrite sqrt_pow2_even; reflexivity).
      apply sqrt_le_1_alt. unfold X.
      apply Rle_trans with (1 * pow2 (-1074)).
      - rewrite Rmult_1_l. apply pow2_le. lia.
      - apply Rmult_le_compat.
        + lra.
        + pose proof (pow2_gt_0 (-1074)). lra.
        + apply IZR_le. lia.
        + apply pow2_le. lia. }
    destruct (binary_round_aux_bound false q e' l (R_sqrt.sqrt X))
      as (v & Hfin & Hval & Hv0 & Herr & Hscale & _).
    + lia.
    + exact Hn.
    + rewrite Hroot. split; apply Rmult_le_compat_r; lra.
    + exact Hmaxroot.
    + destruct (rounding_error_forms v (R_sqrt.sqrt X) _
                  ltac:(pose proof (pow2_gt_0 (-1022)); lra) Herr Hscale)
        as (_ & Hnormal & _).
      rewrite Hval. unfold signR. rewrite Rmult_1_l.
      split; [exact Hfin|]. split; [exact Hv0|]. apply Hnormal. exact Hminroot.
Qed.

(** The integer quotient that [SFdiv] rounds. *)
Lemma SFdiv_core_binary_spec (mx my : positive) (ex ey : Z) :
  bounded prec emax mx ex = true -> bounded prec emax my ey = true ->
  exists q e' l m',
    SFdiv_core_binary prec emax (Zpos mx) ex (Zpos my) ey = (q, e', l)
    /\ (m' = Zpos mx * 2 ^ (ex - ey - e'))%Z
    /\ (0 <= ex - ey - e')%Z
    /\ (Zpos my * q <= m' < Zpos my * (q + 1))%Z
    /\ (0 <= q)%Z
    /\ (e' <= fexp prec emax (Zdigits2 q + e'))%Z.
Proof.
  intros Hbx Hby.
  destruct (bounded_digits mx ex Hbx) as (Hex & Hdx & _ & _).
  destruct (bounded_digits my ey Hby) as (Hey & Hdy & _ & _).
  unfold SFdiv_core_binary.
  set (d1 := Zdigits2 (Zpos mx)) in *. set (d2 := Zdigits2 (Zpos my)) in *.
  set (e' := Z.min (fexp prec emax (d1 + ex - (d2 + ey))) (ex - ey)).
  set (s := (ex - ey - e')%Z).
  assert (Hs : (0 <= s)%Z) by (unfold s, e'; lia).
  set (m' := match s with
             | 0%Z => Zpos mx
             | Zpos _ => Z.shiftl (Zpos mx) s
             | Zneg _ => 0%Z
             end).
  assert (Hm' : m' = (Zpos mx * 2 ^ s)%Z).
  { unfold m'. destruct s as [|p|p] eqn:Hp; [simpl; lia| |lia].
    apply Z.shiftl_mul_pow2. lia. }
  pose proof (Z_div_mod m' (Zpos my) ltac:(lia)) as Hspec.
  destruct (Z.div_eucl m' (Zpos my)) as [q r].
  destruct Hspec as [Hdiv Hr].
  assert (Hm'pos : (0 < m')%Z).
  { rewrite Hm'. pose proof (Z.pow_pos_nonneg 2 s ltac:(lia) Hs). nia. }
  assert (Hq : (0 <= q)%Z) by nia.
  exists q, e'. eexists. exists m'.
  split; [reflexivity|]. split; [exact Hm'|]. split; [exact Hs|].
  split; [nia|]. split; [exact Hq|].
  rewrite fexp_value.
  destruct (Z_le_gt_dec e' (-1074)) as [Hlow|Hhigh]; [lia|].
  assert (Hsbig : (53 - d1 + d2 <= s)%Z).
  { unfold s, e' in *. rewrite fexp_value in *. lia. }
  pose proof (Zdigits2_bounds (Zpos mx) ltac:(lia)) as [Hmx _]. fold d1 in Hmx.
  pose proof (Zdigits2_bounds (Zpos my) ltac:(lia)) as [_ Hmy]. fold d2 in Hmy.
  assert (Hbig : (2 ^ 52 * 2 ^ d2 <= m')%Z).
  { rewrite Hm'. apply Z.le_trans with (2 ^ (d1 - 1) * 2 ^ s)%Z.
    - rewrite <- !Z.pow_add_r by lia. apply Z.pow_le_mono_r; lia.
    - apply Z.mul_le_mono_nonneg_r; [apply Z.pow_nonneg; lia|exact Hmx]. }
  assert (Hq52 : (2 ^ 52 <= q)%Z).
  { destruct (Z_le_gt_dec (2 ^ 52) q) as [H|H]; [exact H|exfalso].
    assert (q + 1 <= 2 ^ 52)%Z by lia.
    assert (Zpos my * (q + 1) <= 2 ^ d2 * 2 ^ 52)%Z.
    { apply Z.mul_le_mono_nonneg; lia. }
    lia. }
  pose proof (Zdigits2_gt q 52 ltac:(lia) Hq52). lia.
Qed.

(** Division: a relative error of at most 2^-52, or an absolute error of
    at most 2^-1074 in the subnormal range. *)
Lemma SFdiv_bound (x y : spec_float) :
  valid_binary x = true -> valid_binary y = true ->
  SFfinite x = true -> SFfinite y = true ->
  SF2R y <> 0 ->
  Rabs (SF2R x / SF2R y) < pow2 1023 ->
  SFfinite (SFdiv prec emax x y) = true
  /\ Rabs (SF2R (SFdiv prec emax x y) - SF2R x / SF2R y)
     <= pow2 (-52) * Rabs (SF2R x / SF2R y) + pow2 (-1074)
  /\ (pow2 (-1022) <= Rabs (SF2R x / SF2R y) ->
      Rabs (SF2R (SFdiv prec emax x y) - SF2R x / SF2R y)
      <= pow2 (-52) * Rabs (SF2R x / SF2R y)).
Proof.
  intros Hvx Hvy Hfx Hfy Hy Hmax.
  pose proof (pow2_gt_0 (-52)) as Hu. pose proof (pow2_gt_0 (-1074)) as Heta.
  pose proof (pow2_gt_0 (-1022)) as Hmin.
  destruct y as [sy|sy| |sy my ey]; try discriminate;
    [exfalso; apply Hy; reflexivity|].
  destruct x as [sx|sx| |sx mx ex]; try discriminate.
  - cbn [SFdiv SF2R]. unfold Rdiv. rewrite Rmult_0_l.
    replace (0 - 0) with 0 by lra. rewrite Rabs_R0.
    split; [reflexivity|]. split; [lra|]. intros H. lra.
  - cbn [valid_binary] in Hvx, Hvy.
    destruct (SFdiv_core_binary_spec mx my ex ey Hvx Hvy)
      as (q & e' & l & m' & Hcore & Hm' & Hs & Hq2 & Hq & Hn).
    cbn [SFdiv]. rewrite Hcore.
    pose proof (mantissa_pos mx ex) as HX. pose proof (mantissa_pos my ey) as HY.
    set (Q := IZR (Zpos mx) * pow2 ex / (IZR (Zpos my) * pow2 ey)).
    assert (Hquot : SF2R (S754_finite sx mx ex) / SF2R (S754_finite sy my ey)
                    = signR (xorb sx sy) * Q).
    { assert (IZR (Zpos my) <> 0) by (apply Rgt_not_eq, IZR_lt; lia).
      pose proof (pow2_gt_0 ey).
      cbn [SF2R]. rewrite signR_xorb. unfold Q.
      destruct sx, sy; unfold signR; field; repeat split; lra. }
    assert (HQpos : 0 < Q).
    { unfold Q. apply Rdiv_lt_0_compat; assumption. }
    rewrite Hquot in *. rewrite Rabs_signR in *.
    rewrite (Rabs_pos_eq Q) in * by lra.
    pose proof (pow2_gt_0 e') as Hpe'. pose proof (pow2_gt_0 ey) as Hpey.
    assert (Hmy : 0 < IZR (Zpos my)) by (apply IZR_lt; lia).
    assert (HQm : Q = IZR m' / IZR (Zpos my) * pow2 e').
    { unfold Q. rewrite Hm', mult_IZR, <- pow2_IZR by lia.
      replace (pow2 ex) with (pow2 (ex - ey - e') * pow2 e' * pow2 ey).
      - field. lra.
      - rewrite <- !pow2_add. f_equal. lia. }
    assert (Hlow : IZR q <= IZR m' / IZR (Zpos my)).
    { apply Rmult_le_reg_r with (IZR (Zpos my)); [exact Hmy|].
      unfold Rdiv. rewrite Rmult_assoc, Rinv_l, Rmult_1_r by lra.
      rewrite <- mult_IZR. apply IZR_le. lia. }
    assert (Hup : IZR m' / IZR (Zpos my) <= IZR (q + 1)).
    { apply Rmult_le_reg_r with (IZR (Zpos my)); [exact Hmy|].
      unfold Rdiv. rewrite Rmult_assoc, Rinv_l, Rmult_1_r by lra.
      rewrite <- mult_IZR. apply IZR_le. lia. }
    destruct (binary_round_aux_bound (xorb sx sy) q e' l Q)
      as (v & Hfin & Hval & Hv0 & Herr & Hscale & _).
    + exact Hq.
    + exact Hn.
    + rewrite HQm. split; apply Rmult_le_compat_r; lra.
    + exact Hmax.
    + destruct (rounding_error_forms v Q _ ltac:(lra) Herr Hscale)
        as (Hgen & Hnormal & _).
      rewrite Hval.
      replace (signR (xorb sx sy) * v - signR (xorb sx sy) * Q)
        with (signR (xorb sx sy) * (v - Q)) by ring.
      rewrite Rabs_signR.
      split; [exact Hfin|]. split; [exact Hgen|exact Hnormal].
Qed.

End Operations.

Section Binary64Reals.
Import Floats.
Local Open Scope R_scope.
Local Unset Implicit Arguments.

Lemma toReal_zero : toReal PrimFloat.zero = 0.
Proof. reflexivity. Qed.

Lemma isFinite_zero : isFinite PrimFloat.zero.
Proof. reflexivity. Qed.

Lemma float_mul_bound (x y : float) :
  isFinite x -> isFinite y ->
  Rabs (toReal x * toReal y) < pow2 1023 ->
  isFinite (PrimFloat.mul x y)
  /\ Rabs (toReal (PrimFloat.mul x y) - toReal x * toReal y)
     <= u64 * Rabs (toReal x * toReal y) + eta64
  /\ (pow2 (-1022) <= Rabs (toReal x * toReal y) \/ toReal x * toReal y = 0 ->
      Rabs (toReal (PrimFloat.mul x y) - toReal x * toReal y)
      <= u64 * Rabs (toReal x * toReal y)).
Proof.
  unfold isFinite, toReal. rewrite mul_spec. intros Hx Hy Hmax.
  apply SFmul_bound; auto using Prim2SF_valid.
Qed.

Lemma float_add_bound (x y : float) :
  isFinite x -> isFinite y ->
  Rabs (toReal x + toReal y) < pow2 1023 ->
  isFinite (PrimFloat.add x y)
  /\ Rabs (toReal (PrimFloat.add x y) - (toReal x + toReal y))
     <= u64 * Rabs (toReal x + toReal y).
Proof.
  unfold isFinite, toReal. rewrite add_spec. intros Hx Hy Hmax.
  apply SFadd_bound; auto using Prim2SF_valid.
Qed.

Lemma float_sqrt_bound (x : float) :
  isFinite x -> 0 <= toReal x ->
  isFinite (PrimFloat.sqrt x)
  /\ 0 <= toReal (PrimFloat.sqrt x)
  /\ Rabs (toReal (PrimFloat.sqrt x) - R_sqrt.sqrt (toReal x))
     <= u64 * R_sqrt.sqrt (toReal x).
Proof.
  unfold isFinite, toReal. rewrite sqrt_spec. intros Hx Hpos.
  apply SFsqrt_bound; auto using Prim2SF_valid.
Qed.

Lemma float_div_bound (x y : float) :
  isFinite x -> isFinite y -> toReal y <> 0 ->
  Rabs (toReal x / toReal y) < pow2 1023 ->
  isFinite (PrimFloat.div x y)
  /\ Rabs (toReal (PrimFloat.div x y) - toReal x / toReal y)
     <= u64 * Rabs (toReal x / toReal y) + eta64
  /\ (pow2 (-1022) <= Rabs (toReal x / toReal y) ->
      Rabs (toReal (PrimFloat.div x y) - toReal x / toReal y)
      <= u64 * Rabs (toReal x / toReal y)).
Proof.
  unfold isFinite, toReal. rewrite div_spec. intros Hx Hy Hne Hmax.
  apply SFdiv_bound; auto using Prim2SF_valid.
Qed.

(** [x > 0] on a finite number. *)
Lemma float_gt_zero (x : float) :
  isFinite x -> (PrimFloat.ltb PrimFloat.zero x = true <-> 0 < toReal x).
Proof.
  unfold isFinite, toReal. rewrite ltb_spec.
  replace (Prim2SF PrimFloat.zero) with (S754_zero false) by reflexivity.
  destruct (Prim2SF x) as [s|s| |s m e]; try discriminate; intros _.
  - cbn. split; [discriminate|lra].
  - pose proof (mantissa_pos m e) as Hm.
    destruct s; cbn; unfold signR; split; try discriminate; try reflexivity;
      intros; lra.
Qed.

(** A finite number whose value is zero is a zero. *)
Lemma float_value_zero (x : float) :
  isFinite x -> toReal x = 0 -> isZero x.
Proof.
  unfold isFinite, toReal, isZero. rewrite eqb_spec.
  replace (Prim2SF PrimFloat.zero) with (S754_zero false) by reflexivity.
  destruct (Prim2SF x) as [s|s| |s m e]; try discriminate; intros _ Hz.
  - destruct s; reflexivity.
  - exfalso. pose proof (mantissa_pos m e) as Hm.
    cbn [SF2R] in Hz. destruct s; unfold signR in Hz; lra.
Qed.

End Binary64Reals.

Section ErrorGrowth.
Import Floats.
Local Open Scope R_scope.
Local Unset Implicit Arguments.

Lemma u64_value : u64 * 4503599627370496 = 1.
Proof.
  unfold u64. change 4503599627370496 with (IZR (2 ^ 52)).
  rewrite <- pow2_IZR by lia. rewrite <- pow2_add. reflexivity.
Qed.

Lemma u64_pos : 0 < u64.
Proof. apply pow2_gt_0. Qed.

Lemma eta64_pos : 0 < eta64.
Proof. apply pow2_gt_0. Qed.

Lemma eta64_le_u64 : eta64 <= u64.
Proof. apply pow2_le. lia. Qed.

Lemma up_pos (k : nat) : 1 <= (1 + u64) ^ k.
Proof.
  pose proof u64_pos. induction k as [|k IH]; simpl; [lra|nra].
Qed.

Lemma dn_range (k : nat) : 0 < (1 - u64) ^ k <= 1.
Proof.
  pose proof u64_pos. pose proof u64_value.
  induction k as [|k IH]; simpl; [lra|nra].
Qed.

(** Bernoulli's inequality, both ways. *)
Lemma dn_bernoulli (k : nat) : 1 - INR k * u64 <= (1 - u64) ^ k.
Proof.
  pose proof u64_pos. pose proof u64_value.
  induction k as [|k IH]; [simpl; lra|].
  rewrite S_INR. simpl. pose proof (pos_INR k). pose proof (dn_range k). nra.
Qed.

Lemma up_bernoulli (k : nat) :
  INR k * u64 <= 1 -> (1 + u64) ^ k * (1 - INR k * u64) <= 1.
Proof.
  pose proof u64_pos.
  induction k as [|k IH]; intros Hk; [simpl; lra|].
  rewrite S_INR in *. pose proof (pos_INR k). pose proof (up_pos k).
  specialize (IH ltac:(nra)). simpl.
  replace ((1 + u64) * (1 + u64) ^ k * (1 - (INR k + 1) * u64))
    with ((1 + u64) ^ k * (1 - INR k * u64)
          - (1 + u64) ^ k * ((INR k + 1) * (u64 * u64))) by ring.
  assert (0 <= (1 + u64) ^ k * ((INR k + 1) * (u64 * u64))).
  { apply Rmult_le_pos; [lra|]. apply Rmult_le_pos; nra. }
  lra.
Qed.

Lemma up_le_2 (k : nat) : INR k * u64 <= / 2 -> (1 + u64) ^ k <= 2.
Proof.
  intros Hk. pose proof (up_bernoulli k ltac:(lra)) as Hb.
  pose proof (up_pos k). nra.
Qed.

(** The lengths the bounds are stated for: up to 2^20 entries. *)
Lemma length_budget (k : nat) :
  (Z.of_nat k <= 2 ^ 20 + 8)%Z -> INR k * u64 <= / 2 /\ INR k <= pow2 21.
Proof.
  intros Hk. rewrite INR_IZR_INZ.
  assert (Hle : IZR (Z.of_nat k) <= IZR (2 ^ 20 + 8)) by (apply IZR_le; exact Hk).
  change (IZR (2 ^ 20 + 8)) with 1048584 in Hle.
  assert (Hp : pow2 21 = 2097152).
  { rewrite pow2_IZR by lia. reflexivity. }
  pose proof u64_value. pose proof u64_pos.
  assert (0 <= IZR (Z.of_nat k)) by (apply IZR_le; lia).
  split; [nra|lra].
Qed.

Lemma Rabs_le_bounds (a b : R) : Rabs a <= b -> - b <= a <= b.
Proof.
  unfold Rabs. destruct (Rcase_abs a); lra.
Qed.

(** A relative error bound, as an interval. *)
Lemma relative_interval (v x : R) :
  0 <= x -> Rabs (v - x) <= u64 * x ->
  (1 - u64) * x <= v <= (1 + u64) * x.
Proof.
  intros Hx Herr. apply Rabs_le_bounds in Herr. lra.
Qed.

Lemma relative_abs (v x : R) :
  Rabs (v - x) <= u64 * Rabs x -> Rabs v <= (1 + u64) * Rabs x.
Proof.
  intros Herr.
  replace v with ((v - x) + x) at 1 by lra.
  eapply Rle_trans; [apply Rabs_triang|]. lra.
Qed.

End ErrorGrowth.

(** ** Cosine similarity *)

Section CosineGeneric.
Import Embeddings.
Context {num : Type} `{JsNumber num}.

Lemma accumulate_normA (a b : list num) :
  length a = length b ->
  forall acc,
    normA (accumulate a b acc)
    = fold_left (fun s x => nadd s (nmul x x)) a (normA acc).
Proof.
  revert b; induction a as [|x a IH]; intros [|y b] Hlen acc;
    simpl in *; try discriminate; [reflexivity|].
  rewrite IH by lia. reflexivity.
Qed.

Lemma accumulate_normB (a b : list num) :
  length a = length b ->
  forall acc,
    normB (accumulate a b acc)
    = fold_left (fun s x => nadd s (nmul x x)) b (normB acc).
Proof.
  revert b; induction a as [|x a IH]; intros [|y b] Hlen acc;
    simpl in *; try discriminate; [reflexivity|].
  rewrite IH by lia. reflexivity.
Qed.

Lemma cosineSimilarity_length_mismatch (a b : list num) :
  length a <> length b ->
  cosineSimilarity a b = Err (Error "Vectors must have same length").
Proof.
  intros Hne. unfold cosineSimilarity.
  destruct (Nat.eqb_spec (length a) (length b)); [contradiction | reflexivity].
Qed.

Lemma cosineSimilarity_same_length (a b : list num) :
  length a = length b ->
  cosineSimilarity a b =
    Ok (let acc := accumulate a b
                     {| dotProduct := nzero; normA := nzero; normB := nzero |} in
        let magnitude := nmul (nsqrt (normA acc)) (nsqrt (normB acc)) in
        if ngtb magnitude nzero then ndiv (dotProduct acc) magnitude else nzero).
Proof.
  intros Hlen. unfold cosineSimilarity. rewrite Hlen, Nat.eqb_refl. reflexivity.
Qed.

End CosineGeneric.

(** *** In binary64 arithmetic *)

Section CosineFloat.
Import Embeddings.
Import Floats.

Lemma isZero_spec (x : float) :
  isZero x -> exists s, Prim2SF x = S754_zero s.
Proof.
  unfold isZero. rewrite eqb_spec.
  replace (Prim2SF PrimFloat.zero) with (S754_zero false) by reflexivity.
  destruct (Prim2SF x) as [s|s| |s m e]; try (destruct s); simpl;
    try discriminate; eauto.
Qed.

Lemma sqrt_of_zero (x : float) :
  isZero x -> exists s, Prim2SF (PrimFloat.sqrt x) = S754_zero s.
Proof.
  intros Hz. destruct (isZero_spec Hz) as [s Hs].
  exists s. rewrite sqrt_spec, Hs. reflexivity.
Qed.

(** A product with a factor that is zero is zero or NaN, so it does not
    compare greater than zero. *)
Lemma zero_product_not_positive (x y : float) :
  (exists s, Prim2SF x = S754_zero s) \/ (exists s, Prim2SF y = S754_zero s) ->
  PrimFloat.ltb PrimFloat.zero (PrimFloat.mul x y) = false.
Proof.
  intros Hz. rewrite ltb_spec, mul_spec.
  replace (Prim2SF PrimFloat.zero) with (S754_zero false) by reflexivity.
  destruct Hz as [[s Hs]|[s Hs]]; rewrite Hs.
  - destruct (Prim2SF y) as [s'|s'| |s' m e]; reflexivity.
  - destruct (Prim2SF x) as [s'|s'| |s' m e]; reflexivity.
Qed.

Lemma cosineSimilarity_float_zero_norm (a b : list float) :
  length a = length b ->
  isZero (squaredNorm a) \/ isZero (squaredNorm b) ->
  cosineSimilarity a b = Ok PrimFloat.zero.
Proof.
  intros Hlen Hz.
  rewrite (cosineSimilarity_same_length a b Hlen). cbv zeta.
  rewrite (accumulate_normA a b Hlen), (accumulate_normB a b Hlen).
  cbn [normA normB].
  change (fold_left (fun s x => nadd s (nmul x x)) a nzero) with (squaredNorm a).
  change (fold_left (fun s x => nadd s (nmul x x)) b nzero) with (squaredNorm b).
  cbn [ngtb nmul nsqrt nzero float64].
  rewrite zero_product_not_positive; [reflexivity|].
  destruct Hz as [Hz|Hz]; [left|right]; apply sqrt_of_zero; exact Hz.
Qed.

End CosineFloat.

(** *** In exact arithmetic *)

Section CosineExact.
Import Embeddings.
Local Open Scope R_scope.

(** One step of the Cauchy-Schwarz inequality. *)
Lemma cauchy_schwarz_step (d na nb x y : R) :
  0 <= na -> 0 <= nb -> d * d <= na * nb ->
  (d + x * y) * (d + x * y) <= (na + x * x) * (nb + y * y).
Proof.
  intros Hna Hnb Hd.
  assert (Hmix : 2 * d * (x * y) <= na * (y * y) + (x * x) * nb).
  { destruct (Rle_or_lt (2 * d * (x * y)) (na * (y * y) + x * x * nb)) as [Hle|Hgt];
      [exact Hle|exfalso].
    assert (Hyy : 0 <= y * y) by apply Rle_0_sqr.
    assert (Hxx : 0 <= x * x) by apply Rle_0_sqr.
    assert (H0 : 0 <= na * (y * y) + x * x * nb).
    { apply Rplus_le_le_0_compat; apply Rmult_le_pos; assumption. }
    set (S := na * (y * y) + x * x * nb) in *.
    set (T := 2 * d * (x * y)) in *.
    assert (H1 : S * S < T * T).
    { apply Rle_lt_trans with (S * T).
      - apply Rmult_le_compat_l; lra.
      - apply Rmult_lt_compat_r; lra. }
    assert (Hq : 0 <= (x * y) * (x * y)) by apply Rle_0_sqr.
    assert (H2 : T * T <= 4 * (na * nb) * ((x * y) * (x * y))).
    { unfold T.
      replace (2 * d * (x * y) * (2 * d * (x * y)))
        with (4 * (d * d) * ((x * y) * (x * y))) by ring.
      apply Rmult_le_compat_r; [exact Hq|lra]. }
    pose proof (Rle_0_sqr (na * (y * y) - x * x * nb)) as H3.
    unfold Rsqr in H3.
    assert (H4 : S * S - 4 * (na * nb) * ((x * y) * (x * y))
                 = (na * (y * y) - x * x * nb) * (na * (y * y) - x * x * nb))
      by (unfold S; ring).
    lra. }
  replace ((d + x * y) * (d + x * y))
    with (d * d + 2 * d * (x * y) + (x * y) * (x * y)) by ring.
  replace ((na + x * x) * (nb + y * y))
    with (na * nb + (na * (y * y) + x * x * nb) + (x * y) * (x * y)) by ring.
  lra.
Qed.

Lemma accumulate_invariant (a b : list R) :
  forall acc : Accumulators,
    0 <= normA acc -> 0 <= normB acc ->
    dotProduct acc * dotProduct acc <= normA acc * normB acc ->
    let r := accumulate a b acc in
    0 <= normA r /\ 0 <= normB r /\
    dotProduct r * dotProduct r <= normA r * normB r.
Proof.
  revert b; induction a as [|x a IH]; intros [|y b] acc Hna Hnb Hd; simpl;
    try (repeat split; assumption).
  apply IH; simpl.
  - nra.
  - nra.
  - apply cauchy_schwarz_step; assumption.
Qed.




Lemma cosineSimilarity_exact_bounds (a b : list R) :
  length a = length b ->
  exists s, cosineSimilarity a b = Ok s /\ -1 <= s <= 1.
Proof.
  intros Hlen. rewrite (cosineSimilarity_same_length a b Hlen).
  eexists; split; [reflexivity|]. cbv zeta.
  destruct (accumulate_invariant a b
              {| dotProduct := nzero; normA := nzero; normB := nzero |})
    as (Hna & Hnb & Hd); simpl; try lra.
  set (r := accumulate a b _) in *.
  cbn [ngtb nmul nsqrt ndiv nzero exact].
  destruct (Rlt_dec 0 (sqrt (normA r) * sqrt (normB r))) as [Hpos|Hnpos]; [|lra].
  set (m := sqrt (normA r) * sqrt (normB r)) in *.
  assert (Hm : m * m = normA r * normB r).
  { unfold m.
    replace (sqrt (normA r) * sqrt (normB r) * (sqrt (normA r) * sqrt (normB r)))
      with ((sqrt (normA r) * sqrt (normA r)) * (sqrt (normB r) * sqrt (normB r)))
      by ring.
    rewrite !sqrt_sqrt by assumption. reflexivity. }
  assert (Habs : - m <= dotProduct r <= m) by nra.
  split.
  - apply Rmult_le_reg_r with m; [exact Hpos|].
    unfold Rdiv. rewrite Rmult_assoc, Rinv_l by lra. lra.
  - apply Rmult_le_reg_r with m; [exact Hpos|].
    unfold Rdiv. rewrite Rmult_assoc, Rinv_l by lra. lra.
Qed.


Lemma cosineSimilarity_exact_zero_norm (a b : list R) :
  length a = length b ->
  squaredNorm a = 0 \/ squaredNorm b = 0 ->
  cosineSimilarity a b = Ok 0.
Proof.
  intros Hlen Hz. rewrite (cosineSimilarity_same_length a b Hlen). cbv zeta.
  rewrite (accumulate_normA a b Hlen), (accumulate_normB a b Hlen).
  cbn [normA normB].
  change (fold_left (fun s x => nadd s (nmul x x)) a nzero) with (squaredNorm a).
  change (fold_left (fun s x => nadd s (nmul x x)) b nzero) with (squaredNorm b).
  cbn [ngtb nmul nsqrt ndiv nzero exact].
  destruct (Rlt_dec 0 (sqrt (squaredNorm a) * sqrt (squaredNorm b))) as [Hpos|_];
    [exfalso|reflexivity].
  destruct Hz as [Hz|Hz]; rewrite Hz, sqrt_0 in Hpos; lra.
Qed.

End CosineExact.

(** *** In binary64 arithmetic, with bounds *)

Section Accumulation.
Import Floats.
Local Open Scope R_scope.
Local Unset Implicit Arguments.

Lemma product_range (x y : float) :
  inRange x -> inRange y ->
  (toReal x * toReal y = 0 \/ pow2 (-1000) <= Rabs (toReal x * toReal y))
  /\ Rabs (toReal x * toReal y) <= pow2 1000.
Proof.
  intros [_ Hx] [_ Hy]. rewrite Rabs_mult.
  pose proof (pow2_gt_0 (-500)) as Hl. pose proof (pow2_gt_0 500) as Hh.
  pose proof (pow2_gt_0 1000) as Hh2.
  assert (Hlow : pow2 (-1000) = pow2 (-500) * pow2 (-500))
    by (rewrite <- pow2_add; reflexivity).
  assert (Hhigh : pow2 1000 = pow2 500 * pow2 500)
    by (rewrite <- pow2_add; reflexivity).
  pose proof (Rabs_pos (toReal x)) as Hax. pose proof (Rabs_pos (toReal y)) as Hay.
  destruct Hx as [Hx|Hx]; [rewrite Hx, Rabs_R0; split; [left|]; lra|].
  destruct Hy as [Hy|Hy]; [rewrite Hy, Rabs_R0; split; [left|]; lra|].
  split; [right|]; nra.
Qed.

(** One round of an accumulation [s + x * y]: the magnitude of the sum
    grows with the magnitudes of the products and one more factor
    [1 + u64]; when the products are not negative the sum keeps above them,
    with one more factor [1 - u64]. *)
Lemma accumulate_step (s x y : float) (j : nat) (P : R) :
  inRange x -> inRange y -> isFinite s ->
  (Z.of_nat j < 2 ^ 20 + 8)%Z ->
  0 <= P <= INR j * pow2 1000 ->
  Rabs (toReal s) <= P * (1 + u64) ^ (j + 1) ->
  isFinite (PrimFloat.add s (PrimFloat.mul x y))
  /\ Rabs (toReal (PrimFloat.add s (PrimFloat.mul x y)))
     <= (P + Rabs (toReal x * toReal y)) * (1 + u64) ^ (S j + 1)
  /\ (0 <= toReal x * toReal y ->
      P * (1 - u64) ^ (j + 1) <= toReal s ->
      (P + toReal x * toReal y) * (1 - u64) ^ (S j + 1)
      <= toReal (PrimFloat.add s (PrimFloat.mul x y))).
Proof.
  intros Hx Hy Hs Hj [HP HPj] HS.
  destruct (product_range x y Hx Hy) as [Hprod Hprodmax].
  pose proof u64_pos as Hu. pose proof u64_value as Huv.
  set (XY := toReal x * toReal y) in *.
  pose proof (Rabs_pos XY) as Habs.
  destruct (length_budget (j + 1)) as [Hbudget Hlen]; [lia|].
  pose proof (up_le_2 (j + 1) Hbudget) as Hup2.
  pose proof (up_pos (j + 1)) as Hup1.
  assert (Hp1023 : pow2 1000 * pow2 21 * 2 < pow2 1023).
  { replace 2 with (pow2 1) by (unfold pow2; simpl; lra).
    rewrite <- !pow2_add. apply pow2_lt. lia. }
  pose proof (pow2_gt_0 1000) as Hp1000.
  assert (HINR : INR j + 1 = INR (j + 1)) by (rewrite plus_INR; reflexivity).
  pose proof (pos_INR j) as Hjpos.
  destruct (float_mul_bound x y (proj1 Hx) (proj1 Hy)) as (Hfp & _ & Hrel).
  { fold XY. apply Rle_lt_trans with (pow2 1000); [exact Hprodmax|].
    apply pow2_lt. lia. }
  fold XY in Hrel.
  assert (Hperr : Rabs (toReal (PrimFloat.mul x y) - XY) <= u64 * Rabs XY).
  { apply Hrel. destruct Hprod as [H0|Hn]; [right; exact H0|left].
    apply Rle_trans with (pow2 (-1000)); [apply pow2_le; lia|exact Hn]. }
  set (p := toReal (PrimFloat.mul x y)) in *.
  pose proof (relative_abs p XY Hperr) as Hpabs.
  assert (Hsum : Rabs (toReal s + p) <= (P + Rabs XY) * (1 + u64) ^ (j + 1)).
  { eapply Rle_trans; [apply Rabs_triang|].
    assert ((1 + u64) * Rabs XY <= Rabs XY * (1 + u64) ^ (j + 1)).
    { replace (j + 1)%nat with (S j) by lia. simpl.
      pose proof (up_pos j). nra. }
    lra. }
  assert (Hsummax : Rabs (toReal s + p) < pow2 1023).
  { eapply Rle_lt_trans; [exact Hsum|].
    apply Rle_lt_trans with (pow2 1000 * pow2 21 * 2); [|exact Hp1023].
    assert (P + Rabs XY <= pow2 1000 * pow2 21) by nra.
    assert (0 <= P + Rabs XY) by lra. nra. }
  destruct (float_add_bound s (PrimFloat.mul x y) Hs Hfp Hsummax)
    as (Hfs & Haerr).
  fold p in Haerr.
  split; [exact Hfs|]. split.
  - pose proof (relative_abs _ _ Haerr) as Hsabs.
    replace (S j + 1)%nat with (S (j + 1)) by lia. simpl.
    pose proof (Rabs_pos (toReal s + p)). nra.
  - intros Hnonneg Hlow.
    rewrite (Rabs_pos_eq XY) in * by exact Hnonneg.
    pose proof (relative_interval p XY Hnonneg Hperr) as [Hplow _].
    pose proof (dn_range (j + 1)) as [Hd0 Hd1].
    assert (Hdle : (1 - u64) ^ (j + 1) <= 1 - u64).
    { replace (j + 1)%nat with (S j) by lia. simpl.
      pose proof (dn_range j). nra. }
    assert (Hs0 : 0 <= toReal s) by nra.
    assert (Hp0 : 0 <= p) by nra.
    rewrite (Rabs_pos_eq (toReal s + p)) in Haerr by lra.
    assert (Hsp0 : 0 <= toReal s + p) by lra.
    pose proof (relative_interval _ _ Hsp0 Haerr) as [Hslow _].
    replace (S j + 1)%nat with (S (j + 1)) by lia. simpl.
    assert ((P + XY) * (1 - u64) ^ (j + 1) <= toReal s + p) by nra.
    nra.
Qed.

Lemma square_range (x : float) :
  inRange x ->
  0 <= toReal x * toReal x
  /\ Rabs (toReal x * toReal x) = toReal x * toReal x
  /\ (toReal x <> 0 -> pow2 (-1000) <= toReal x * toReal x).
Proof.
  intros Hx. assert (H0 : 0 <= toReal x * toReal x) by nra.
  split; [exact H0|]. split; [apply Rabs_pos_eq; exact H0|].
  intros Hne. destruct (product_range x x Hx Hx) as [[Hz|Hlow] _].
  - exfalso. apply Hne. nra.
  - rewrite Rabs_pos_eq in Hlow by exact H0. exact Hlow.
Qed.

Lemma sumSquares_nonneg (a : list float) : 0 <= sumSquares a.
Proof.
  induction a as [|x a IH]; cbn [sumSquares fold_right]; [lra|].
  fold (sumSquares a). nra.
Qed.

Lemma sumSquares_positive (a : list float) :
  Forall inRange a -> Exists (fun x => toReal x <> 0) a ->
  pow2 (-1000) <= sumSquares a.
Proof.
  intros Ha Hex. induction Hex as [x a Hx|x a Hex IH];
    inversion Ha as [|? ? Hrx Ha']; subst;
    cbn [sumSquares fold_right]; fold (sumSquares a).
  - destruct (square_range x Hrx) as (_ & _ & Hlow).
    pose proof (sumSquares_nonneg a). specialize (Hlow Hx). lra.
  - specialize (IH Ha'). assert (0 <= toReal x * toReal x) by nra. lra.
Qed.

Lemma accumulate_accumulated (a : list float) :
  forall (b : list float) (acc : Embeddings.Accumulators (num := float))
         (j : nat) (P SA SB : R),
    length a = length b ->
    Forall inRange a -> Forall inRange b ->
    (Z.of_nat (j + length a) <= 2 ^ 20 + 8)%Z ->
    accumulated j P SA SB acc ->
    accumulated (j + length a) (P + sumProducts a b) (SA + sumSquares a)
      (SB + sumSquares b) (Embeddings.accumulate a b acc).
Proof.
  induction a as [|x a IH]; intros [|y b] acc j P SA SB Hlen Ha Hb Hj Hacc;
    try discriminate.
  - cbn [Embeddings.accumulate length sumProducts sumSquares fold_right].
    rewrite Nat.add_0_r, !Rplus_0_r. exact Hacc.
  - cbn [Embeddings.accumulate].
    inversion Ha as [|? ? Hx Ha']; subst. inversion Hb as [|? ? Hy Hb']; subst.
    cbn [length] in Hj, Hlen.
    destruct Hacc as ((Hfd & Hfa & Hfb) & (HP & HSA & HSB) & (HzA & HzB)
                      & Hcs & Hd & (Halow & Haup) & (Hblow & Hbup)).
    set (X := toReal x) in *. set (Y := toReal y) in *.
    destruct (square_range x Hx) as (Hxx0 & Hxxabs & Hxxlow).
    destruct (square_range y Hy) as (Hyy0 & Hyyabs & Hyylow).
    fold X in Hxx0, Hxxabs, Hxxlow. fold Y in Hyy0, Hyyabs, Hyylow.
    destruct (product_range x y Hx Hy) as [_ Hxymax]. fold X Y in Hxymax.
    destruct (product_range x x Hx Hx) as [_ Hxxmax]. fold X in Hxxmax.
    destruct (product_range y y Hy Hy) as [_ Hyymax]. fold Y in Hyymax.
    rewrite Hxxabs in Hxxmax. rewrite Hyyabs in Hyymax.
    assert (Hjlt : (Z.of_nat j < 2 ^ 20 + 8)%Z) by lia.
    pose proof (up_pos (j + 1)) as Hup1.
    pose proof (dn_range (j + 1)) as [Hdn0 Hdn1].
    assert (Hna0 : 0 <= toReal (Embeddings.normA acc)) by nra.
    assert (Hnb0 : 0 <= toReal (Embeddings.normB acc)) by nra.
    destruct (accumulate_step (Embeddings.dotProduct acc) x y j P Hx Hy Hfd
                Hjlt HP Hd) as (Hfd' & Hd' & _).
    destruct (accumulate_step (Embeddings.normA acc) x x j SA Hx Hx Hfa
                Hjlt HSA) as (Hfa' & Haup' & Halow').
    { rewrite Rabs_pos_eq by exact Hna0. exact Haup. }
    destruct (accumulate_step (Embeddings.normB acc) y y j SB Hy Hy Hfb
                Hjlt HSB) as (Hfb' & Hbup' & Hblow').
    { rewrite Rabs_pos_eq by exact Hnb0. exact Hbup. }
    fold X in Hd', Haup', Halow'. fold Y in Hd', Hbup', Hblow'.
    rewrite Hxxabs in Haup'. rewrite Hyyabs in Hbup'.
    specialize (Halow' Hxx0 Halow). specialize (Hblow' Hyy0 Hblow).
    assert (HSj : INR (S j) = INR j + 1) by apply S_INR.
    pose proof (pow2_gt_0 1000) as Hp1000.
    pose proof (Rabs_pos (X * Y)) as Hxyabs0.
    cbn [sumProducts sumSquares fold_right length].
    fold (sumSquares a) (sumSquares b). fold X Y.
    replace (j + S (length a))%nat with (S j + length a)%nat by lia.
    replace (P + (Rabs (X * Y) + sumProducts a b))
      with ((P + Rabs (X * Y)) + sumProducts a b) by ring.
    replace (SA + (X * X + sumSquares a))
      with ((SA + X * X) + sumSquares a) by ring.
    replace (SB + (Y * Y + sumSquares b))
      with ((SB + Y * Y) + sumSquares b) by ring.
    apply IH; [lia|exact Ha'|exact Hb'|lia|].
    cbn [Embeddings.dotProduct Embeddings.normA Embeddings.normB
         nadd nmul float64].
    split; [repeat split; assumption|].
    split; [rewrite HSj; repeat split; nra|].
    split.
    { split.
      - destruct (Req_dec X 0) as [H0|H0].
        + rewrite H0. replace (SA + 0 * 0) with SA by lra. exact HzA.
        + right. specialize (Hxxlow H0). lra.
      - destruct (Req_dec Y 0) as [H0|H0].
        + rewrite H0. replace (SB + 0 * 0) with SB by lra. exact HzB.
        + right. specialize (Hyylow H0). lra. }
    split.
    { rewrite Rabs_mult.
      replace (X * X) with (Rabs X * Rabs X)
        by (rewrite <- Rabs_mult; apply Rabs_pos_eq; exact Hxx0).
      replace (Y * Y) with (Rabs Y * Rabs Y)
        by (rewrite <- Rabs_mult; apply Rabs_pos_eq; exact Hyy0).
      apply cauchy_schwarz_step; lra. }
    split; [exact Hd'|].
    split; split; try assumption.
    + eapply Rle_trans; [apply Rle_abs|exact Haup'].
    + eapply Rle_trans; [apply Rle_abs|exact Hbup'].
Qed.

End Accumulation.

Section CosineBinary64.
Import Floats.
Import Embeddings.
Local Open Scope R_scope.
Local Unset Implicit Arguments.

Lemma accumulated_start :
  accumulated 0 0 0 0
    {| dotProduct := PrimFloat.zero; normA := PrimFloat.zero;
       normB := PrimFloat.zero |}.
Proof.
  unfold accumulated. cbn [dotProduct normA normB].
  rewrite toReal_zero, Rabs_R0. cbn [INR].
  repeat split; try apply isFinite_zero; try lra; left; reflexivity.
Qed.

(** The squared norm [cosineSimilarity] computes is zero or lies between
    2^-1001 and 2^1022. *)
Lemma norm_range (n : nat) (S N : R) :
  (Z.of_nat n <= 2 ^ 20)%Z ->
  0 <= S <= INR n * pow2 1000 ->
  (S = 0 \/ pow2 (-1000) <= S) ->
  S * (1 - u64) ^ (n + 1) <= N -> N <= S * (1 + u64) ^ (n + 1) ->
  0 <= N /\ (0 < N -> pow2 (-1001) <= N <= pow2 1022).
Proof.
  intros Hn [HS0 HSn] HSz Hlow Hup.
  destruct (length_budget (n + 1)) as [Hbudget Hlen]; [lia|].
  pose proof (up_le_2 (n + 1) Hbudget) as Hup2.
  pose proof (up_pos (n + 1)) as Hup1.
  pose proof (dn_bernoulli (n + 1)) as Hdn.
  pose proof (dn_range (n + 1)) as [Hdn0 Hdn1].
  pose proof (pow2_gt_0 1000) as Hp. pose proof (pow2_gt_0 (-1000)) as Hq.
  split; [nra|]. intros Hpos.
  destruct HSz as [Hz|Hbig]; [rewrite Hz in Hup; lra|].
  split.
  - replace (pow2 (-1001)) with (pow2 (-1000) * / 2).
    + assert (/ 2 <= (1 - u64) ^ (n + 1)) by lra. nra.
    + replace (-1001)%Z with (-1000 + -1)%Z by lia. rewrite pow2_add.
      f_equal. unfold pow2. simpl. lra.
  - assert (INR n <= pow2 20).
    { rewrite INR_IZR_INZ, pow2_IZR by lia. apply IZR_le. exact Hn. }
    assert (Htop : pow2 20 * pow2 1000 * 2 <= pow2 1022).
    { replace 2 with (pow2 1) by (unfold pow2; simpl; lra).
      rewrite <- !pow2_add. apply pow2_le. lia. }
    pose proof (pow2_gt_0 20). pose proof (pos_INR n).
    assert (S <= pow2 20 * pow2 1000) by nra. nra.
Qed.

(** The square root of such a norm. *)
Lemma root_range (x : float) :
  isFinite x -> pow2 (-1001) <= toReal x <= pow2 1022 ->
  isFinite (PrimFloat.sqrt x)
  /\ (1 - u64) * R_sqrt.sqrt (toReal x) <= toReal (PrimFloat.sqrt x)
     <= (1 + u64) * R_sqrt.sqrt (toReal x)
  /\ pow2 (-501) <= R_sqrt.sqrt (toReal x) <= pow2 511.
Proof.
  intros Hf [Hlow Hup]. pose proof (pow2_gt_0 (-1001)) as Hp.
  destruct (float_sqrt_bound x Hf ltac:(lra)) as (Hfr & _ & Herr).
  pose proof (sqrt_pos (toReal x)) as Hroot.
  split; [exact Hfr|]. split; [apply relative_interval; assumption|].
  split.
  - replace (pow2 (-501)) with (R_sqrt.sqrt (pow2 (2 * -501)))
      by (rewrite sqrt_pow2_even; reflexivity).
    apply sqrt_le_1_alt.
    apply Rle_trans with (pow2 (-1001)); [apply pow2_le; lia|exact Hlow].
  - replace (pow2 511) with (R_sqrt.sqrt (pow2 (2 * 511)))
      by (rewrite sqrt_pow2_even; reflexivity).
    apply sqrt_le_1_alt. exact Hup.
Qed.

Lemma sqrt_product_lower (c P SA SB NA NB : R) :
  0 <= c -> 0 <= P -> 0 <= SA -> 0 <= SB ->
  P * P <= SA * SB -> SA * c <= NA -> SB * c <= NB ->
  c * P <= R_sqrt.sqrt NA * R_sqrt.sqrt NB.
Proof.
  intros Hc HP HSA HSB Hcs HA HB.
  assert (HNA : 0 <= NA) by nra. assert (HNB : 0 <= NB) by nra.
  rewrite <- sqrt_mult by assumption.
  rewrite <- (sqrt_square (c * P)) by nra.
  apply sqrt_le_1_alt.
  apply Rle_trans with ((SA * c) * (SB * c)); [nra|].
  apply Rmult_le_compat; nra.
Qed.

(** The tolerance of the bound on the similarity of [n] coordinates. *)
Lemma bound_tolerance (n : nat) (rho : R) :
  (Z.of_nat n <= 2 ^ 20)%Z ->
  0 <= rho ->
  rho * (1 - u64) ^ (n + 4) <= (1 + u64) ^ (n + 1) ->
  (1 + u64) * rho + eta64 <= 1 + (4 * INR n + 13) * u64.
Proof.
  intros Hn Hrho Hratio.
  destruct (length_budget (n + 4)) as [Hb4 _]; [lia|].
  destruct (length_budget (n + 2)) as [Hb2 _]; [lia|].
  pose proof (up_bernoulli (n + 2) ltac:(lra)) as Hupb.
  pose proof (dn_bernoulli (n + 4)) as Hdnb.
  pose proof (up_pos (n + 2)) as Hup1.
  pose proof (dn_range (n + 4)) as [Hdn0 Hdn1].
  pose proof u64_pos as Hu. pose proof u64_value as Huv.
  pose proof eta64_le_u64 as Heta. pose proof (pos_INR n) as Hnpos.
  assert (Hn2 : INR (n + 2) = INR n + 2) by (rewrite plus_INR; simpl; lra).
  assert (Hn4 : INR (n + 4) = INR n + 4) by (rewrite plus_INR; simpl; lra).
  rewrite Hn2 in Hb2, Hupb. rewrite Hn4 in Hb4, Hdnb.
  set (t1 := (INR n + 2) * u64) in *.
  set (t2 := (INR n + 4) * u64) in *.
  set (U := (1 + u64) ^ (n + 2)) in *.
  set (D := (1 - u64) ^ (n + 4)) in *.
  assert (HU : (1 + u64) * (1 + u64) ^ (n + 1) = U).
  { unfold U. replace (n + 2)%nat with (S (n + 1)) by lia. reflexivity. }
  assert (Ht1 : 0 <= t1 <= / 2) by (split; [unfold t1; nra|exact Hb2]).
  assert (Ht2 : 0 <= t2 <= / 2) by (split; [unfold t2; nra|exact Hb4]).
  assert (Hsmall : t1 + t2 <= / 4).
  { unfold t1, t2.
    assert (IZR (Z.of_nat n) <= 1048576) by (apply IZR_le; exact Hn).
    rewrite <- INR_IZR_INZ in *. nra. }
  assert (H1 : (1 + u64) * rho * D <= U) by (rewrite <- HU; nra).
  assert (H2 : (1 + u64) * rho * (1 - t2) <= U).
  { apply Rle_trans with ((1 + u64) * rho * D); [|exact H1].
    apply Rmult_le_compat_l; [nra|lra]. }
  assert (H3 : (1 + u64) * rho * (1 - t2) * (1 - t1) <= 1).
  { apply Rle_trans with (U * (1 - t1)); [|exact Hupb].
    apply Rmult_le_compat_r; lra. }
  set (w := (1 + u64) * rho) in *.
  assert (Hw : 0 <= w) by (unfold w; nra).
  assert (H4 : w * (1 - (t1 + t2)) <= 1) by nra.
  assert (H5 : w <= 1 + 2 * (t1 + t2)).
  { assert (w * (1 - (t1 + t2)) <= (1 + 2 * (t1 + t2)) * (1 - (t1 + t2))) by nra.
    apply Rmult_le_reg_r with (1 - (t1 + t2)); lra. }
  unfold t1, t2 in H5. lra.
Qed.

(** In binary64, the similarity of two vectors of up to 2^20 coordinates,
    each zero or of magnitude between 2^-500 and 2^500, is a finite number
    of magnitude at most 1 + (4 n + 13) 2^-52. *)
Lemma cosineSimilarity_float_bounds (a b : list float) :
  length a = length b ->
  (Z.of_nat (length a) <= 2 ^ 20)%Z ->
  Forall inRange a -> Forall inRange b ->
  exists s,
    cosineSimilarity a b = Ok s
    /\ isFinite s
    /\ Rabs (toReal s) <= 1 + (4 * INR (length a) + 13) * u64.
Proof.
  intros Hlen Hn Ha Hb.
  pose proof u64_pos as Hu. pose proof u64_value as Huv.
  pose proof (pos_INR (length a)) as Hnpos.
  assert (Hzero : exists s, Ok PrimFloat.zero = Ok s /\ isFinite s
            /\ Rabs (toReal s) <= 1 + (4 * INR (length a) + 13) * u64).
  { exists PrimFloat.zero. split; [reflexivity|]. split; [apply isFinite_zero|].
    rewrite toReal_zero, Rabs_R0. nra. }
  pose proof (accumulate_accumulated a b
                {| dotProduct := PrimFloat.zero; normA := PrimFloat.zero;
                   normB := PrimFloat.zero |} 0 0 0 0 Hlen Ha Hb
                ltac:(cbn [Nat.add]; lia) accumulated_start) as Hacc.
  cbn [Nat.add] in Hacc. rewrite !Rplus_0_l in Hacc.
  set (P := sumProducts a b) in *. set (SA := sumSquares a) in *.
  set (SB := sumSquares b) in *.
  destruct Hacc as ((Hfd & Hfa & Hfb) & (HP & HSA & HSB) & (HzA & HzB)
                    & Hcs & Hd & (Halow & Haup) & (Hblow & Hbup)).
  pose proof (accumulate_normA a b Hlen
                {| dotProduct := PrimFloat.zero; normA := PrimFloat.zero;
                   normB := PrimFloat.zero |}) as HnormA.
  pose proof (accumulate_normB a b Hlen
                {| dotProduct := PrimFloat.zero; normA := PrimFloat.zero;
                   normB := PrimFloat.zero |}) as HnormB.
  cbn [normA normB] in HnormA, HnormB.
  change (fold_left (fun s x => nadd s (nmul x x)) a PrimFloat.zero)
    with (squaredNorm a) in HnormA.
  change (fold_left (fun s x => nadd s (nmul x x)) b PrimFloat.zero)
    with (squaredNorm b) in HnormB.
  destruct (norm_range (length a) SA _ Hn HSA HzA Halow Haup) as [HNA0 HNA].
  destruct (norm_range (length a) SB _ Hn HSB HzB Hblow Hbup) as [HNB0 HNB].
  destruct (Req_dec (toReal (squaredNorm a)) 0) as [HzeroA|HposA].
  { rewrite (cosineSimilarity_float_zero_norm a b Hlen); [exact Hzero|].
    left. apply float_value_zero; [rewrite <- HnormA; exact Hfa|exact HzeroA]. }
  destruct (Req_dec (toReal (squaredNorm b)) 0) as [HzeroB|HposB].
  { rewrite (cosineSimilarity_float_zero_norm a b Hlen); [exact Hzero|].
    right. apply float_value_zero; [rewrite <- HnormB; exact Hfb|exact HzeroB]. }
  rewrite (cosineSimilarity_same_length a b Hlen). cbv zeta.
  set (acc := accumulate a b _) in *.
  rewrite <- HnormA in HposA. rewrite <- HnormB in HposB.
  specialize (HNA ltac:(lra)). specialize (HNB ltac:(lra)).
  destruct (root_range (normA acc) Hfa HNA) as (Hfra & [Hralow Hraup] & [Hsa0 Hsa1]).
  destruct (root_range (normB acc) Hfb HNB) as (Hfrb & [Hrblow Hrbup] & [Hsb0 Hsb1]).
  cbn [ngtb nmul nsqrt ndiv nzero float64].
  set (ra := PrimFloat.sqrt (normA acc)) in *.
  set (rb := PrimFloat.sqrt (normB acc)) in *.
  set (sa := R_sqrt.sqrt (toReal (normA acc))) in *.
  set (sb := R_sqrt.sqrt (toReal (normB acc))) in *.
  pose proof (pow2_gt_0 (-501)) as Hp501. pose proof (pow2_gt_0 511) as Hp511.
  assert (Hhalf : / 2 <= 1 - u64) by lra.
  assert (Hra0 : pow2 (-502) <= toReal ra).
  { replace (pow2 (-502)) with (/ 2 * pow2 (-501)); [nra|].
    replace (-501)%Z with (1 + -502)%Z by lia. rewrite pow2_add.
    replace (pow2 1) with 2 by (unfold pow2; simpl; lra).
    pose proof (pow2_gt_0 (-502)). field. }
  assert (Hrb0 : pow2 (-502) <= toReal rb).
  { replace (pow2 (-502)) with (/ 2 * pow2 (-501)); [nra|].
    replace (-501)%Z with (1 + -502)%Z by lia. rewrite pow2_add.
    replace (pow2 1) with 2 by (unfold pow2; simpl; lra).
    pose proof (pow2_gt_0 (-502)). field. }
  pose proof (pow2_gt_0 (-502)) as Hp502.
  assert (Hprodlow : pow2 (-1022) <= toReal ra * toReal rb).
  { apply Rle_trans with (pow2 (-502) * pow2 (-502)).
    - rewrite <- pow2_add. apply pow2_le. lia.
    - apply Rmult_le_compat; lra. }
  assert (Hprodup : toReal ra * toReal rb < pow2 1023).
  { apply Rle_lt_trans with ((1 + u64) * pow2 511 * ((1 + u64) * pow2 511)).
    - apply Rmult_le_compat; nra.
    - replace (pow2 1023) with (2 * (pow2 511 * pow2 511)).
      + assert ((1 + u64) * (1 + u64) < 2) by nra.
        assert (0 < pow2 511 * pow2 511) by nra. nra.
      + rewrite <- pow2_add.
        replace 2 with (pow2 1) at 1 by (unfold pow2; simpl; lra).
        rewrite <- pow2_add. reflexivity. }
  assert (Hprodpos : 0 < toReal ra * toReal rb).
  { pose proof (pow2_gt_0 (-1022)). lra. }
  destruct (float_mul_bound ra rb Hfra Hfrb) as (Hfm & _ & Hmrel).
  { rewrite Rabs_pos_eq by lra. exact Hprodup. }
  rewrite (Rabs_pos_eq (toReal ra * toReal rb)) in Hmrel by lra.
  specialize (Hmrel (or_introl Hprodlow)).
  pose proof (relative_interval _ _ (Rlt_le _ _ Hprodpos) Hmrel) as [Hmlow Hmup].
  set (m := PrimFloat.mul ra rb) in *.
  assert (Hmpos : 0 < toReal m) by nra.
  assert (Hgt : PrimFloat.ltb PrimFloat.zero m = true)
    by (apply float_gt_zero; assumption).
  rewrite Hgt.
  pose proof (dn_range (length a + 1)) as [Hc0 Hc1].
  pose proof (sqrt_product_lower ((1 - u64) ^ (length a + 1)) P SA SB _ _
                ltac:(lra) (proj1 HP) (proj1 HSA) (proj1 HSB) Hcs Halow Hblow)
    as Hcs'.
  fold sa sb in Hcs'.
  assert (Hmbig : (1 - u64) ^ (length a + 4) * P <= toReal m).
  { replace (length a + 4)%nat with (S (S (S (length a + 1)))) by lia.
    simpl.
    assert (0 <= sa) by lra. assert (0 <= sb) by lra.
    assert ((1 - u64) * sa * ((1 - u64) * sb) <= toReal ra * toReal rb).
    { apply Rmult_le_compat; nra. }
    assert (0 <= (1 - u64) ^ (length a + 1) * P) by nra.
    nra. }
  set (rho := Rabs (toReal (dotProduct acc)) / toReal m).
  assert (Hrho0 : 0 <= rho).
  { unfold rho. apply Rmult_le_pos; [apply Rabs_pos|].
    apply Rlt_le, Rinv_0_lt_compat. exact Hmpos. }
  assert (Hrhom : rho * toReal m = Rabs (toReal (dotProduct acc))).
  { unfold rho. field. lra. }
  assert (Hratio : rho * (1 - u64) ^ (length a + 4) <= (1 + u64) ^ (length a + 1)).
  { pose proof (dn_range (length a + 4)) as [Hd0 Hd1].
    pose proof (up_pos (length a + 1)) as Hup1.
    destruct (Rle_or_lt P 0) as [HP0|HPpos].
    - assert (Rabs (toReal (dotProduct acc)) <= 0) by nra.
      pose proof (Rabs_pos (toReal (dotProduct acc))).
      assert (rho * toReal m = 0) by lra.
      assert (rho = 0) by nra. rewrite H2. lra.
    - apply Rmult_le_reg_r with P; [exact HPpos|].
      apply Rle_trans with (rho * toReal m); [|rewrite Hrhom; lra].
      rewrite Rmult_assoc. apply Rmult_le_compat_l; [exact Hrho0|]. lra. }
  assert (Hquot : Rabs (toReal (dotProduct acc) / toReal m) = rho).
  { unfold rho, Rdiv. rewrite Rabs_mult. f_equal.
    apply Rabs_pos_eq. apply Rlt_le, Rinv_0_lt_compat. exact Hmpos. }
  pose proof (bound_tolerance (length a) rho Hn Hrho0 Hratio) as Htol.
  destruct (float_div_bound (dotProduct acc) m Hfd Hfm ltac:(lra))
    as (Hfq & Hqerr & _).
  { rewrite Hquot.
    apply Rle_lt_trans with (1 + (4 * INR (length a) + 13) * u64).
    - pose proof eta64_pos. nra.
    - apply Rlt_le_trans with 2.
      + assert (INR (length a) <= 1048576).
        { rewrite INR_IZR_INZ. apply IZR_le. exact Hn. }
        assert (INR (length a) * u64 <= 1048576 * u64)
          by (apply Rmult_le_compat_r; lra).
        lra.
      + replace 2 with (pow2 1) by (unfold pow2; simpl; lra).
        apply pow2_le. lia. }
  rewrite Hquot in Hqerr.
  eexists. split; [reflexivity|]. split; [exact Hfq|].
  eapply Rle_trans; [|exact Htol].
  set (qv := toReal (PrimFloat.div (dotProduct acc) m)) in *.
  set (ex := toReal (dotProduct acc) / toReal m) in *.
  replace qv with ((qv - ex) + ex) by lra.
  eapply Rle_trans; [apply Rabs_triang|]. rewrite Hquot. lra.
Qed.

Lemma accumulate_same (a : list float) :
  forall acc : Accumulators (num := float),
    dotProduct acc = normA acc -> normB acc = normA acc ->
    dotProduct (accumulate a a acc) = normA (accumulate a a acc)
    /\ normB (accumulate a a acc) = normA (accumulate a a acc).
Proof.
  induction a as [|x a IH]; intros acc Hd Hb; cbn [accumulate];
    [split; assumption|].
  apply IH; cbn [dotProduct normA normB]; congruence.
Qed.

(** In binary64, the similarity of a vector with itself is within 2^-49 of
    1, for up to 2^20 coordinates, each zero or of magnitude between 2^-500
    and 2^500, and not all zero. *)
Lemma cosineSimilarity_float_self (a : list float) :
  (Z.of_nat (length a) <= 2 ^ 20)%Z ->
  Forall inRange a ->
  Exists (fun x => toReal x <> 0) a ->
  exists s,
    cosineSimilarity a a = Ok s
    /\ isFinite s
    /\ Rabs (toReal s - 1) <= pow2 (-49).
Proof.
  intros Hn Ha Hnz.
  pose proof u64_pos as Hu. pose proof u64_value as Huv.
  pose proof (accumulate_accumulated a a
                {| dotProduct := PrimFloat.zero; normA := PrimFloat.zero;
                   normB := PrimFloat.zero |} 0 0 0 0 eq_refl Ha Ha
                ltac:(cbn [Nat.add]; lia) accumulated_start) as Hacc.
  cbn [Nat.add] in Hacc. rewrite !Rplus_0_l in Hacc.
  pose proof (sumSquares_positive a Ha Hnz) as HexA.
  set (SA := sumSquares a) in *.
  destruct Hacc as ((_ & Hfa & _) & (_ & HSA & _) & (HzA & _)
                    & _ & _ & (Halow & Haup) & _).
  destruct (accumulate_same a
              {| dotProduct := PrimFloat.zero; normA := PrimFloat.zero;
                 normB := PrimFloat.zero |} eq_refl eq_refl) as [Hd Hb].
  rewrite (cosineSimilarity_same_length a a eq_refl). cbv zeta.
  set (acc := accumulate a a _) in *. rewrite Hd, Hb.
  destruct (norm_range (length a) SA _ Hn HSA HzA Halow Haup) as [_ HNA].
  pose proof (dn_range (length a + 1)) as [Hc0 _].
  pose proof (pow2_gt_0 (-1000)) as Hp1000.
  assert (Hpos : 0 < toReal (normA acc)) by nra.
  specialize (HNA Hpos).
  destruct (root_range (normA acc) Hfa HNA) as (Hfr & [Hrlow Hrup] & [Hs0 Hs1]).
  cbn [ngtb nmul nsqrt ndiv nzero float64].
  set (r := PrimFloat.sqrt (normA acc)) in *.
  set (S := toReal (normA acc)) in *.
  set (sg := R_sqrt.sqrt S) in *.
  assert (Hsq : sg * sg = S) by (apply sqrt_sqrt; lra).
  pose proof (pow2_gt_0 (-501)) as Hp501. pose proof (pow2_gt_0 511) as Hp511.
  assert (Hr0 : pow2 (-502) <= toReal r).
  { replace (pow2 (-502)) with (/ 2 * pow2 (-501)); [nra|].
    replace (-501)%Z with (1 + -502)%Z by lia. rewrite pow2_add.
    replace (pow2 1) with 2 by (unfold pow2; simpl; lra).
    pose proof (pow2_gt_0 (-502)). field. }
  pose proof (pow2_gt_0 (-502)) as Hp502.
  assert (Hprodlow : pow2 (-1022) <= toReal r * toReal r).
  { apply Rle_trans with (pow2 (-502) * pow2 (-502)).
    - rewrite <- pow2_add. apply pow2_le. lia.
    - apply Rmult_le_compat; lra. }
  assert (Hprodup : toReal r * toReal r < pow2 1023).
  { apply Rle_lt_trans with ((1 + u64) * pow2 511 * ((1 + u64) * pow2 511)).
    - apply Rmult_le_compat; nra.
    - replace (pow2 1023) with (2 * (pow2 511 * pow2 511)).
      + assert ((1 + u64) * (1 + u64) < 2) by nra.
        assert (0 < pow2 511 * pow2 511) by nra. nra.
      + rewrite <- pow2_add.
        replace 2 with (pow2 1) at 1 by (unfold pow2; simpl; lra).
        rewrite <- pow2_add. reflexivity. }
  assert (Hprodpos : 0 < toReal r * toReal r).
  { pose proof (pow2_gt_0 (-1022)). lra. }
  destruct (float_mul_bound r r Hfr Hfr) as (Hfm & _ & Hmrel).
  { rewrite Rabs_pos_eq by lra. exact Hprodup. }
  rewrite (Rabs_pos_eq (toReal r * toReal r)) in Hmrel by lra.
  specialize (Hmrel (or_introl Hprodlow)).
  pose proof (relative_interval _ _ (Rlt_le _ _ Hprodpos) Hmrel) as [Hmlow Hmup].
  set (m := PrimFloat.mul r r) in *.
  assert (Hmpos : 0 < toReal m) by nra.
  assert (Hgt : PrimFloat.ltb PrimFloat.zero m = true)
    by (apply float_gt_zero; assumption).
  rewrite Hgt.
  assert (Hsg0 : 0 < sg) by lra.
  assert (Hrr_low : (1 - u64) * (1 - u64) * S <= toReal r * toReal r).
  { rewrite <- Hsq.
    replace ((1 - u64) * (1 - u64) * (sg * sg))
      with ((1 - u64) * sg * ((1 - u64) * sg)) by ring.
    apply Rmult_le_compat; nra. }
  assert (Hrr_up : toReal r * toReal r <= (1 + u64) * (1 + u64) * S).
  { rewrite <- Hsq.
    replace ((1 + u64) * (1 + u64) * (sg * sg))
      with ((1 + u64) * sg * ((1 + u64) * sg)) by ring.
    apply Rmult_le_compat; nra. }
  assert (Hm_low : (1 - 3 * u64) * S <= toReal m).
  { apply Rle_trans with ((1 - u64) * ((1 - u64) * (1 - u64) * S)); [|nra].
    assert (1 - 3 * u64 <= (1 - u64) * ((1 - u64) * (1 - u64))) by nra.
    nra. }
  assert (Hm_up : toReal m <= (1 + 4 * u64) * S).
  { apply Rle_trans with ((1 + u64) * ((1 + u64) * (1 + u64) * S)); [nra|].
    assert ((1 + u64) * ((1 + u64) * (1 + u64)) <= 1 + 4 * u64) by nra.
    nra. }
  set (x := S / toReal m).
  assert (Hxm : x * toReal m = S) by (unfold x; field; lra).
  assert (Hx0 : 0 < x).
  { unfold x. apply Rdiv_lt_0_compat; assumption. }
  assert (Hx_up : x <= 1 + 4 * u64).
  { assert (x * (1 - 3 * u64) <= 1).
    { apply Rmult_le_reg_r with S; [exact Hpos|].
      replace (x * (1 - 3 * u64) * S) with (x * ((1 - 3 * u64) * S)) by ring.
      apply Rle_trans with (x * toReal m); [|lra].
      apply Rmult_le_compat_l; lra. }
    nra. }
  assert (Hx_low : 1 - 4 * u64 <= x).
  { assert (1 <= x * (1 + 4 * u64)).
    { apply Rmult_le_reg_r with S; [exact Hpos|].
      replace (x * (1 + 4 * u64) * S) with (x * ((1 + 4 * u64) * S)) by ring.
      apply Rle_trans with (x * toReal m); [lra|].
      apply Rmult_le_compat_l; lra. }
    nra. }
  destruct (float_div_bound (normA acc) m Hfa Hfm ltac:(lra))
    as (Hfq & _ & Hqrel).
  { fold S x. rewrite Rabs_pos_eq by lra.
    apply Rle_lt_trans with 2; [lra|].
    replace 2 with (pow2 1) by (unfold pow2; simpl; lra).
    apply pow2_lt. lia. }
  fold S x in Hqrel. rewrite (Rabs_pos_eq x) in Hqrel by lra.
  assert (Hxnormal : pow2 (-1022) <= x).
  { apply Rle_trans with (/ 2); [|lra].
    replace (/ 2) with (pow2 (-1)) by (unfold pow2; simpl; lra).
    apply pow2_le. lia. }
  specialize (Hqrel Hxnormal).
  pose proof (relative_interval _ _ (Rlt_le _ _ Hx0) Hqrel) as [Hqlow Hqup].
  eexists. split; [reflexivity|]. split; [exact Hfq|].
  assert (H49 : pow2 (-49) = 8 * u64).
  { unfold u64. replace (-49)%Z with (3 + -52)%Z by lia. rewrite pow2_add.
    f_equal. unfold pow2. simpl. lra. }
  rewrite H49. apply Rabs_le. split; nra.
Qed.

(** A vector of zeros has the squared norm zero. *)
Lemma squaredNorm_zeros (a : list float) :
  Forall isZero a -> isZero (squaredNorm a).
Proof.
  intros Ha. unfold squaredNorm.
  assert (Hgen : forall s, Prim2SF s = S754_zero false ->
            Prim2SF (fold_left (fun s x => nadd s (nmul x x)) a s)
            = S754_zero false).
  { induction Ha as [|x a Hx Ha IH]; intros s Hs; cbn [fold_left];
      [exact Hs|].
    apply IH. cbn [nadd nmul float64]. rewrite add_spec, mul_spec, Hs.
    destruct (isZero_spec Hx) as [sx ->]. destruct sx; reflexivity. }
  assert (H0 : Prim2SF PrimFloat.zero = S754_zero false) by reflexivity.
  unfold isZero. rewrite eqb_spec.
  change (nzero (num := float)) with PrimFloat.zero.
  rewrite (Hgen PrimFloat.zero H0), H0. reflexivity.
Qed.

End CosineBinary64.

Section CosineClaims.
Import Floats.
Local Unset Implicit Arguments.

(** Three runs of the code in binary64: a vector of three ones has a
    similarity with itself above 1; a vector that is not zero but whose
    square underflows has similarity 0 with itself; one whose square
    overflows has similarity NaN. *)
Definition ones : list PrimFloat.float := [1; 1; 1]%float.
Definition tiny : list PrimFloat.float := [0x1p-600]%float.
Definition huge : list PrimFloat.float := [0x1p600]%float.

(** C2, as stated, fails on the code: in binary64,
    [cosineSimilarity([1,1,1],[1,1,1])] is [1.0000000000000002], which is
    neither 1 nor inside [-1,1]; and a non-zero vector with entry [2^-600] has
    similarity 0 with itself. *)
Lemma cosineSimilarity_float_counterexample :
  (exists s, Embeddings.cosineSimilarity ones ones = Ok s
             /\ PrimFloat.ltb 1%float s = true
             /\ PrimFloat.eqb s 1%float = false)
  /\ (Embeddings.cosineSimilarity tiny tiny = Ok 0%float
      /\ PrimFloat.eqb 0x1p-600%float 0%float = false)
  /\ (exists s, Embeddings.cosineSimilarity huge huge = Ok s
                /\ PrimFloat.eqb s s = false).
Proof.
  split; [|split].
  - eexists. split; [vm_compute; reflexivity|]. split; vm_compute; reflexivity.
  - split; vm_compute; reflexivity.
  - eexists. split; [vm_compute; reflexivity|]. vm_compute; reflexivity.
Qed.

(** C2 (amended): in the binary64 arithmetic of the code, for vectors of
    equal length of up to 2^20 coordinates, each zero or of magnitude
    between 2^-500 and 2^500, [cosineSimilarity] returns a finite number of
    magnitude at most 1 + (4 n + 13) 2^-52, [n] the length; for such a
    vector that is not zero, its similarity with itself is within 2^-49 of
    1; and for vectors of equal length without any condition,
    [cosineSimilarity] returns 0 when either is a vector of zeros, and more
    generally whenever the squared norm it computes for either is zero
    (there is no division by zero). *)
Theorem cosineSimilarity_bounds :
  (forall a b : list PrimFloat.float,
      length a = length b ->
      (Z.of_nat (length a) <= 2 ^ 20)%Z ->
      Forall inRange a -> Forall inRange b ->
      exists s,
        Embeddings.cosineSimilarity a b = Ok s
        /\ isFinite s
        /\ (Rabs (toReal s) <= 1 + (4 * INR (length a) + 13) * pow2 (-52))%R)
  /\ (forall a : list PrimFloat.float,
         (Z.of_nat (length a) <= 2 ^ 20)%Z ->
         Forall inRange a ->
         Exists (fun x => toReal x <> 0%R) a ->
         exists s,
           Embeddings.cosineSimilarity a a = Ok s
           /\ isFinite s
           /\ (Rabs (toReal s - 1) <= pow2 (-49))%R)
  /\ (forall a b : list PrimFloat.float,
         length a = length b ->
         Forall isZero a \/ Forall isZero b ->
         Embeddings.cosineSimilarity a b = Ok 0%float)
  /\ (forall a b : list PrimFloat.float,
         length a = length b ->
         isZero (Embeddings.squaredNorm a) \/ isZero (Embeddings.squaredNorm b) ->
         Embeddings.cosineSimilarity a b = Ok 0%float).
Proof.
  split; [|split; [|split]].
  - exact cosineSimilarity_float_bounds.
  - exact cosineSimilarity_float_self.
  - intros a b Hlen Hz. apply cosineSimilarity_float_zero_norm; [exact Hlen|].
    destruct Hz as [Hz|Hz]; [left|right]; apply squaredNorm_zeros; exact Hz.
  - exact cosineSimilarity_float_zero_norm.
Qed.

(** C2 (amended) on the vector [(3, 4)]: against [(4, 3)] the similarity is
    at most 1 + 21 * 2^-52, against itself it is within 2^-49 of 1, and
    against the zero vector it is 0. *)
Lemma cosineSimilarity_bounds_witness :
  (exists s,
      Embeddings.cosineSimilarity [3; 4]%float [4; 3]%float = Ok s
      /\ (Rabs (toReal s) <= 1 + 21 * pow2 (-52))%R)
  /\ (exists s,
         Embeddings.cosineSimilarity [3; 4]%float [3; 4]%float = Ok s
         /\ (Rabs (toReal s - 1) <= pow2 (-49))%R)
  /\ Embeddings.cosineSimilarity [0; 0]%float [3; 4]%float = Ok 0%float.
Proof.
  destruct cosineSimilarity_bounds as (Hbounds & Hself & Hzeros & _).
  assert (Hrange : forall x : PrimFloat.float,
             In x [3; 4]%float -> inRange x).
  { intros x Hin. split; [destruct Hin as [<-|[<-|[]]]; reflexivity|].
    right.
    assert (H3 : toReal 3%float = 3%R).
    { unfold toReal. replace (Prim2SF 3%float)
        with (S754_finite false 6755399441055744 (-51)) by reflexivity.
      cbn [SF2R]. unfold signR, pow2. simpl. lra. }
    assert (H4 : toReal 4%float = 4%R).
    { unfold toReal. replace (Prim2SF 4%float)
        with (S754_finite false 4503599627370496 (-50)) by reflexivity.
      cbn [SF2R]. unfold signR, pow2. simpl. lra. }
    assert (Hlow : (pow2 (-500) <= 1)%R).
    { change 1%R with (pow2 0). apply pow2_le. lia. }
    assert (Hhigh : (4 <= pow2 500)%R).
    { replace 4%R with (pow2 2) by (unfold pow2; simpl; lra).
      apply pow2_le. lia. }
    destruct Hin as [<-|[<-|[]]].
    - rewrite H3, Rabs_pos_eq by lra. lra.
    - rewrite H4, Rabs_pos_eq by lra. lra. }
  assert (Ha : Forall inRange [3; 4]%float).
  { apply Forall_forall. exact Hrange. }
  assert (Hb : Forall inRange [4; 3]%float).
  { apply Forall_forall. intros x Hin. apply Hrange.
    destruct Hin as [<-|[<-|[]]]; simpl; auto. }
  split; [|split].
  - destruct (Hbounds [3; 4]%float [4; 3]%float eq_refl ltac:(simpl; lia) Ha Hb)
      as (s & Hs & _ & Hle).
    exists s. split; [exact Hs|].
    replace (4 * INR (length [3; 4]%float) + 13)%R with 21%R in Hle
      by (simpl; lra).
    exact Hle.
  - destruct (Hself [3; 4]%float ltac:(simpl; lia) Ha) as (s & Hs & _ & Hle).
    + constructor.
      unfold toReal. replace (Prim2SF 3%float)
        with (S754_finite false 6755399441055744 (-51)) by reflexivity.
      cbn [SF2R]. unfold signR, pow2. simpl. lra.
    + exists s. split; [exact Hs|exact Hle].
  - apply Hzeros; [reflexivity|]. left. repeat constructor.
Defined.

End CosineClaims.

(** ** The index store and the retriever *)

Lemma bind_Ok {A B : Type} (c : Result A) (k : A -> Result B) (b : B) :
  bind c k = Ok b -> exists a, c = Ok a /\ k a = Ok b.
Proof.
  destruct c as [a|e]; simpl; [eauto|discriminate].
Qed.

Section ResultFacts.
Context {A B : Type}.

Lemma mapM_length (f : A -> Result B) (l : list A) (ys : list B) :
  mapM f l = Ok ys -> length ys = length l.
Proof.
  revert ys; induction l as [|x l IH]; intros ys Hm; simpl in Hm.
  - inversion Hm; reflexivity.
  - apply bind_Ok in Hm. destruct Hm as (y & _ & Hm).
    destruct (mapM f l) as [ys'|e]; simpl in Hm; [|discriminate].
    inversion Hm; subst. simpl. f_equal. apply IH. reflexivity.
Qed.

Lemma mapM_total (f : A -> Result B) (l : list A) :
  (forall x, In x l -> exists y, f x = Ok y) ->
  exists ys, mapM f l = Ok ys.
Proof.
  induction l as [|x l IH]; intros Hf; simpl; [eauto|].
  destruct (Hf x (or_introl eq_refl)) as [y Hy]. rewrite Hy. simpl.
  destruct IH as [ys Hys]; [intros z Hz; apply Hf; right; exact Hz|].
  rewrite Hys. simpl. eauto.
Qed.

End ResultFacts.

Section RetrieverFacts.
Import Indexer Embeddings Retriever.
Context {num : Type} `{JsNumber num}.

Lemma loadJsonIndex_missing (st : Store num) (e : JsError) :
  readIndexFile st = Err e -> loadJsonIndex st = None.
Proof.
  intros Hr. unfold loadJsonIndex. rewrite Hr. reflexivity.
Qed.

Lemma loadJsonIndex_unparseable (st : Store num) (data : string) (e : JsError) :
  readIndexFile st = Ok data -> JSON_parse st data = Err e ->
  loadJsonIndex st = None.
Proof.
  intros Hr Hp. unfold loadJsonIndex. rewrite Hr. simpl. rewrite Hp. reflexivity.
Qed.

Lemma loadIndex_cases (st : Store num) :
  loadIndex st = loadJsonIndex st \/ loadIndex st = None.
Proof.
  unfold loadIndex, loadFaissIndex, loadChromaIndex.
  repeat match goal with |- context [if ?c then _ else _] => destruct c end; auto.
Qed.

Lemma retrieve_without_index (env : Env num) (question : string) (k : nat) :
  loadIndex (store env) = None ->
  retrieve env question k = Err noIndexError.
Proof.
  intros Hl. unfold retrieve. rewrite Hl. reflexivity.
Qed.

(** What a resolved retrieval is made of. *)
Lemma retrieve_resolved (env : Env num) (question : string) (k : nat)
    (resp : RetrievalResponse num) :
  retrieve env question k = Ok resp ->
  exists indexData similarities,
    loadIndex (store env) = Some indexData
    /\ similaritiesOf (embedQuery env question) (chunks indexData)
       = Ok similarities
    /\ results resp = map formatResult (topResultsOf k similarities)
    /\ confidence resp
       = ngeb (averageOf (map sim_score (topResultsOf k similarities)))
              (RAG_MIN_SIM env)
    /\ average_score (response_metadata resp)
       = averageOf (map sim_score (topResultsOf k similarities))
    /\ total_chunks (response_metadata resp) = length (chunks indexData).
Proof.
  unfold retrieve. intros Hr.
  destruct (loadIndex (store env)) as [indexData|]; [|discriminate].
  cbv zeta in Hr. apply bind_Ok in Hr. destruct Hr as (sims & Hs & Hr).
  inversion Hr; subst; clear Hr. simpl.
  exists indexData, sims. repeat split; auto.
Qed.

(** The retrieval resolves as soon as there is an index whose embeddings
    have the dimension of the query's. *)
Lemma retrieve_total (env : Env num) (question : string) (k : nat)
    (indexData : IndexData num) :
  loadIndex (store env) = Some indexData ->
  Forall (fun c => length (embedding c) = length (embedQuery env question))
         (chunks indexData) ->
  exists resp, retrieve env question k = Ok resp.
Proof.
  intros Hl Hdim. unfold retrieve. rewrite Hl. cbv zeta.
  destruct (mapM_total
              (fun ic : nat * IndexedChunk num =>
                 s <- cosineSimilarity (embedQuery env question)
                        (embedding (snd ic)) ;;
                 Ok {| sim_index := fst ic; sim_chunk := snd ic; sim_score := s |})
              (combine (seq 0 (length (chunks indexData))) (chunks indexData)))
    as [sims Hs].
  - intros [i c] Hin. apply in_combine_r in Hin. simpl.
    rewrite Forall_forall in Hdim. specialize (Hdim c Hin).
    rewrite cosineSimilarity_same_length by (symmetry; exact Hdim).
    simpl. eauto.
  - unfold similaritiesOf. rewrite Hs. simpl. eauto.
Qed.

Lemma map_score_formatResult (l : list (Similarity num)) :
  map (@score num) (map formatResult l) = map (@sim_score num) l.
Proof.
  rewrite map_map. reflexivity.
Qed.

Lemma averageOf_nonempty (scores : list num) :
  scores <> [] -> averageOf scores = meanScore scores.
Proof.
  intros Hne. unfold averageOf, meanScore.
  destruct scores as [|s scores]; [contradiction|reflexivity].
Qed.

Lemma Array_sort_length {A : Type} (compare : A -> A -> num) (l : list A) :
  length (Array_sort compare l) = length l.
Proof.
  assert (Hins : forall x l', length (insertSorted compare x l') = S (length l')).
  { intros x l'; induction l' as [|y l' IH]; simpl; [reflexivity|].
    destruct (ngtb (compare x y) nzero); simpl; [rewrite IH|]; reflexivity. }
  induction l as [|x l IH]; simpl; [reflexivity|].
  rewrite Hins, IH. reflexivity.
Qed.

Lemma Array_sort_permutation {A : Type} (compare : A -> A -> num) (l : list A) :
  Permutation (Array_sort compare l) l.
Proof.
  assert (Hins : forall x l', Permutation (insertSorted compare x l') (x :: l')).
  { intros x l'; induction l' as [|y l' IH]; simpl; [reflexivity|].
    destruct (ngtb (compare x y) nzero); [|reflexivity].
    rewrite IH. apply perm_swap. }
  induction l as [|x l IH]; simpl; [reflexivity|].
  rewrite Hins. apply perm_skip. exact IH.
Qed.

End RetrieverFacts.

(** *** Ranking *)

Section Ranking.
Import Indexer Embeddings Retriever.
Context {num : Type} `{JsNumber num}.

Lemma insertSorted_permutation {A : Type} (compare : A -> A -> num)
    (x : A) (l : list A) :
  Permutation (insertSorted compare x l) (x :: l).
Proof.
  induction l as [|y l IH]; simpl; [reflexivity|].
  destruct (ngtb (compare x y) nzero); [|reflexivity].
  rewrite IH. apply perm_swap.
Qed.

Lemma comparableb_sound (scores : list num) :
  comparableb scores = true -> Comparable scores.
Proof.
  unfold comparableb. intros Hall. rewrite forallb_forall in Hall. split.
  - intros a b Ha Hb. specialize (Hall a Ha). rewrite forallb_forall in Hall.
    specialize (Hall b Hb).
    repeat (apply andb_prop in Hall; destruct Hall as [Hall ?]).
    repeat split.
    + apply Bool.eqb_prop. assumption.
    + apply Bool.eqb_prop. assumption.
    + intros Hgt. rewrite Hgt in *. simpl in *. assumption.
  - intros a b c Ha Hb Hc Hab Hbc.
    specialize (Hall a Ha). rewrite forallb_forall in Hall.
    specialize (Hall b Hb).
    apply andb_prop in Hall. destruct Hall as [_ Htrans].
    rewrite forallb_forall in Htrans. specialize (Htrans c Hc).
    rewrite Hab, Hbc in Htrans. simpl in Htrans. exact Htrans.
Qed.

Variable scores : list num.
Hypothesis scores_comparable : Comparable scores.

Lemma insertSorted_sorted (x : Similarity num) (l : list (Similarity num)) :
  In (sim_score x) scores ->
  Forall (fun y => In (sim_score y) scores) l ->
  StronglySorted scoresAtLeast l ->
  StronglySorted scoresAtLeast (insertSorted byScoreDescending x l).
Proof.
  destruct scores_comparable as [Hpair Htrans].
  intros Hx Hin Hs. induction l as [|y l IH]; simpl.
  - repeat constructor.
  - apply StronglySorted_inv in Hs. destruct Hs as [Hl Hy].
    inversion Hin as [|? ? Hyin Hlin]; subst.
    destruct (Hpair (sim_score y) (sim_score x) Hyin Hx) as (Hsign & _ & Hge).
    destruct (Hpair (sim_score x) (sim_score y) Hx Hyin) as (_ & Htotal & _).
    unfold byScoreDescending at 1. rewrite Hsign.
    destruct (ngtb (sim_score y) (sim_score x)) eqn:Hgt.
    + constructor; [apply IH; assumption|].
      eapply Permutation_Forall;
        [symmetry; apply insertSorted_permutation|].
      constructor; [apply Hge; reflexivity|exact Hy].
    + assert (Hxy : scoresAtLeast x y)
        by (unfold scoresAtLeast; rewrite Htotal; reflexivity).
      constructor; [constructor; assumption|].
      constructor; [exact Hxy|].
      rewrite Forall_forall in *. intros z Hz.
      unfold scoresAtLeast in *.
      apply (Htrans (sim_score x) (sim_score y) (sim_score z));
        auto.
Qed.

Lemma insertSorted_scores (x : Similarity num) (l : list (Similarity num)) :
  In (sim_score x) scores ->
  Forall (fun y => In (sim_score y) scores) l ->
  Forall (fun y => In (sim_score y) scores) (insertSorted byScoreDescending x l).
Proof.
  intros Hx Hl. eapply Permutation_Forall;
    [symmetry; apply insertSorted_permutation|].
  constructor; assumption.
Qed.

Lemma Array_sort_sorted (l : list (Similarity num)) :
  Forall (fun y => In (sim_score y) scores) l ->
  StronglySorted scoresAtLeast (Array_sort byScoreDescending l)
  /\ Forall (fun y => In (sim_score y) scores) (Array_sort byScoreDescending l).
Proof.
  induction 1 as [|x l Hx Hl IH]; simpl; [split; constructor|].
  destruct IH as [IHs IHf]. split.
  - apply insertSorted_sorted; assumption.
  - apply insertSorted_scores; assumption.
Qed.

End Ranking.

Section RankingOfResults.
Import Indexer Embeddings Retriever.
Context {num : Type} `{JsNumber num}.

Lemma firstn_Forall {A : Type} (P : A -> Prop) (k : nat) (l : list A) :
  Forall P l -> Forall P (firstn k l).
Proof.
  intros Hl; revert k; induction Hl as [|x l Hx Hl IH]; intros [|k]; simpl;
    constructor; auto.
Qed.

Lemma firstn_StronglySorted {A : Type} (R : A -> A -> Prop) (k : nat)
    (l : list A) :
  StronglySorted R l -> StronglySorted R (firstn k l).
Proof.
  intros Hs; revert k; induction Hs as [|x l Hl IH Hx]; intros [|k]; simpl;
    try constructor.
  - apply IH.
  - apply firstn_Forall. exact Hx.
Qed.

Lemma formatResult_sorted (l : list (Similarity num)) :
  StronglySorted scoresAtLeast l -> nonIncreasing (map formatResult l).
Proof.
  unfold nonIncreasing.
  induction 1 as [|x l Hl IH Hx]; simpl; constructor; [exact IH|].
  rewrite Forall_map. exact Hx.
Qed.

Lemma topResultsOf_length (k : nat) (l : list (Similarity num)) :
  length (topResultsOf k l) = Nat.min k (length l).
Proof.
  unfold topResultsOf. rewrite length_firstn, Array_sort_length. reflexivity.
Qed.

Lemma retrieve_ranked (env : Env num) (question : string) (k : nat)
    (resp : RetrievalResponse num) :
  retrieve env question k = Ok resp ->
  Comparable (candidateScores env question) ->
  nonIncreasing (results resp)
  /\ length (results resp) = Nat.min k (total_chunks (response_metadata resp)).
Proof.
  intros Hr Hcomp. apply retrieve_resolved in Hr.
  destruct Hr as (indexData & sims & Hload & Hs & Hres & _ & _ & Htot).
  unfold candidateScores in Hcomp. rewrite Hload, Hs in Hcomp.
  rewrite Hres, Htot. split.
  - apply formatResult_sorted. unfold topResultsOf.
    apply firstn_StronglySorted.
    apply (Array_sort_sorted Hcomp).
    apply Forall_forall. intros y Hy. apply in_map. exact Hy.
  - rewrite length_map, topResultsOf_length.
    unfold similaritiesOf in Hs. apply mapM_length in Hs.
    rewrite Hs, length_combine, length_seq, Nat.min_id. reflexivity.
Qed.

End RankingOfResults.

(** Real numbers always compare. *)
Lemma exact_comparable (scores : list R) : Comparable scores.
Proof.
  split.
  - intros a b _ _. cbn [ngtb ngeb nsub nzero exact].
    repeat split; decide_order.
  - intros a b c _ _ _. cbn [ngeb exact]. decide_order.
Qed.

(** A binary64 number that is not NaN compares [>=] to itself: the
    boundary case of the confidence gate applies to every threshold that is
    a number. *)
Lemma float64_ngeb_refl (x : PrimFloat.float) :
  PrimFloat.eqb x x = true -> ngeb x x = true.
Proof.
  cbn [ngeb float64].
  rewrite FloatAxioms.eqb_spec, FloatAxioms.leb_spec.
  unfold SpecFloat.SFeqb, SpecFloat.SFleb.
  destruct (SpecFloat.SFcompare (FloatOps.Prim2SF x) (FloatOps.Prim2SF x))
    as [[| |]|]; auto.
Qed.

(** Binary64 numbers compare as soon as none of them is NaN: a number is
    NaN exactly when it differs from itself. *)
Lemma float64_comparable (scores : list PrimFloat.float) :
  Forall (fun x => PrimFloat.eqb x x = true) scores -> Comparable scores.
Proof.
  intros Hall. rewrite Forall_forall in Hall. split.
  - intros a b Ha Hb. cbn [ngtb ngeb nsub nzero float64]. repeat split.
    + apply float_sub_sign; auto.
    + apply float_leb_total; auto.
    + apply float_ltb_leb.
  - intros a b c Ha Hb Hc. cbn [ngeb float64]. intros Hab Hbc.
    apply float_leb_trans with b; auto.
Qed.

(** In the arithmetic of the engine, the results of [retrieve] are ranked
    whenever no score of the index is NaN. *)
Lemma retrieve_ranked_float64 (env : Retriever.Env PrimFloat.float)
    (question : string) (k : nat)
    (resp : Retriever.RetrievalResponse PrimFloat.float) :
  Retriever.retrieve env question k = Ok resp ->
  Forall (fun x => PrimFloat.eqb x x = true) (candidateScores env question) ->
  nonIncreasing (Retriever.results resp)
  /\ length (Retriever.results resp)
     = Nat.min k (Retriever.total_chunks (Retriever.response_metadata resp)).
Proof.
  intros Hr Hnum. apply (retrieve_ranked _ _ _ Hr).
  apply float64_comparable. exact Hnum.
Qed.

(** *** The claims on retrieval *)

Section RetrievalClaims.
Import Indexer Embeddings Retriever.
Import Floats.

(** C3, as stated, fails on the code: in binary64 the average the code
    computes is not the mean.  Three results that all score 12/13 (rounded),
    against a threshold of that very number, have that number for their
    mean; the sum of the three rounds, its third rounds again, and the
    average the code compares is the next number below: the retrieval is
    not confident. *)
Lemma rounded_mean_counterexample :
  exists resp,
    retrieve Samples.roundedMeanEnv "What are binary trees?" 5 = Ok resp
    /\ length (results resp) = 3
    /\ Forall (fun r => score r = RAG_MIN_SIM Samples.roundedMeanEnv)
              (results resp)
    /\ PrimFloat.ltb (average_score (response_metadata resp))
         (RAG_MIN_SIM Samples.roundedMeanEnv) = true
    /\ confidence resp = false.
Proof.
  eexists. split; [vm_compute; reflexivity|].
  split; [reflexivity|]. split.
  - repeat constructor.
  - split; vm_compute; reflexivity.
Qed.

(** C3 (amended): the confidence flag of a retrieval is true exactly when
    the average the code computes is at least the threshold
    ([averageScore >= RAG_MIN_SIM]), so a computed average equal to the
    threshold (a number, which compares [>=] to itself) gives true.  That
    average is the one the response reports as [average_score]: the scores
    of the returned results, added in rank order starting from 0, over
    their number, each operation rounded, and 0 when nothing is returned. *)
Theorem retrieve_confidence_gate {num : Type} `{JsNumber num}
    (env : Env num) (question : string) (k : nat) (resp : RetrievalResponse num) :
  retrieve env question k = Ok resp ->
  (confidence resp = true
   <-> ngeb (average_score (response_metadata resp))
            (min_similarity (response_metadata resp)) = true)
  /\ min_similarity (response_metadata resp) = RAG_MIN_SIM env
  /\ average_score (response_metadata resp)
     = match results resp with
       | [] => nzero
       | _ :: _ =>
           ndiv (fold_left nadd (map (@score num) (results resp)) nzero)
                (of_length (length (results resp)))
       end
  /\ (ngeb (RAG_MIN_SIM env) (RAG_MIN_SIM env) = true ->
      average_score (response_metadata resp) = RAG_MIN_SIM env ->
      confidence resp = true)
  /\ (results resp = [] ->
      (confidence resp = true <-> ngeb nzero (RAG_MIN_SIM env) = true)).
Proof.
  intros Hr.
  assert (Hmin : min_similarity (response_metadata resp) = RAG_MIN_SIM env).
  { unfold retrieve in Hr.
    destruct (loadIndex (store env)) as [indexData|]; [|discriminate].
    cbv zeta in Hr. apply bind_Ok in Hr. destruct Hr as (sims & _ & Hr).
    inversion Hr; subst; reflexivity. }
  apply retrieve_resolved in Hr.
  destruct Hr as (indexData & sims & _ & _ & Hres & Hconf & Havg & _).
  rewrite Hmin, Hres, Hconf, Havg, map_score_formatResult.
  assert (Haverage :
    averageOf (map (@sim_score num) (topResultsOf k sims))
    = match map formatResult (topResultsOf k sims) with
      | [] => nzero
      | _ :: _ =>
          ndiv (fold_left nadd (map (@sim_score num) (topResultsOf k sims)) nzero)
               (of_length (length (map formatResult (topResultsOf k sims))))
      end).
  { rewrite length_map. unfold averageOf. rewrite length_map.
    destruct (topResultsOf k sims); reflexivity. }
  split; [tauto|]. split; [reflexivity|]. split; [exact Haverage|]. split.
  - intros Hrefl Hmean. rewrite Hmean. exact Hrefl.
  - intros Hnil. rewrite Haverage, Hnil. tauto.
Qed.

(** The boundary case of C3, run in binary64: one result of score 1 against
    the threshold 1. *)
Lemma retrieve_confidence_gate_witness :
  retrieve Samples.boundaryEnv "What are binary trees?" 5
    = Ok Samples.boundaryResponse
  /\ average_score (response_metadata Samples.boundaryResponse) = 1%float
  /\ confidence Samples.boundaryResponse = true.
Proof.
  assert (Hrun : retrieve Samples.boundaryEnv "What are binary trees?" 5
                 = Ok Samples.boundaryResponse) by (vm_compute; reflexivity).
  split; [exact Hrun|]. split; [reflexivity|].
  destruct (retrieve_confidence_gate _ _ _ Hrun) as (_ & _ & _ & Hboundary & _).
  apply Hboundary; vm_compute; reflexivity.
Defined.

(** C4, as stated, fails on the code: a score can be NaN, and NaN is in
    order with no number.  The query and the first record hold 2^600, whose
    square overflows: the first record scores NaN (infinity over infinity),
    the second 0, and the two results are in non-increasing order neither
    as the engine leaves them nor the other way round. *)
Lemma nan_score_counterexample :
  exists resp,
    retrieve Samples.overflowEnv "What are binary trees?" 5 = Ok resp
    /\ map (@result_id _) (results resp)
       = ["DSA_unit3.txt_chunk_0"; "DSA_unit3.txt_chunk_1"]%string
    /\ map (fun r => PrimFloat.eqb (score r) (score r)) (results resp)
       = [false; true]
    /\ ~ nonIncreasing (results resp)
    /\ forall reordered,
         Permutation (results resp) reordered -> ~ nonIncreasing reordered.
Proof.
  eexists. split; [vm_compute; reflexivity|].
  split; [reflexivity|]. split; [vm_compute; reflexivity|].
  assert (Hany : forall reordered,
             Permutation
               (results
                  {| results :=
                       map formatResult
                         (topResultsOf 5
                            [ {| sim_index := 0;
                                 sim_chunk := Samples.chunkOf "DSA_unit3.txt" 0
                                                "Binary trees." [0x1p600]%float;
                                 sim_score := PrimFloat.nan |};
                              {| sim_index := 1;
                                 sim_chunk := Samples.chunkOf "DSA_unit3.txt" 1
                                                "Heaps." [1]%float;
                                 sim_score := 0%float |} ]);
                     confidence := false;
                     query := "What are binary trees?";
                     response_metadata :=
                       {| total_chunks := 2; search_time_ms := 0; top_k := 5;
                          min_similarity := 0.25%float;
                          average_score := PrimFloat.nan |} |})
               reordered ->
             ~ nonIncreasing reordered).
  { intros reordered Hperm Hsorted.
    cbn [results] in Hperm.
    change (topResultsOf 5 _)
      with [ {| sim_index := 0;
                sim_chunk := Samples.chunkOf "DSA_unit3.txt" 0
                               "Binary trees." [0x1p600]%float;
                sim_score := PrimFloat.nan |};
             {| sim_index := 1;
                sim_chunk := Samples.chunkOf "DSA_unit3.txt" 1
                               "Heaps." [1]%float;
                sim_score := 0%float |} ] in Hperm.
    cbn [map] in Hperm.
    apply Permutation_length_2_inv in Hperm.
    destruct Hperm as [-> | ->];
      apply StronglySorted_inv in Hsorted; destruct Hsorted as [_ Hfirst];
      inversion Hfirst as [|? ? Hge _]; subst;
      vm_compute in Hge; discriminate. }
  split.
  - apply Hany. apply Permutation_refl.
  - exact Hany.
Qed.

(** C4 (amended): the results of a retrieval are at most [k], as many as
    [k] and the size of the index allow, and they are sorted in
    non-increasing order of score whenever no score computed for the index
    is NaN (a number is NaN exactly when it differs from itself). *)
Theorem retrieve_ranking (env : Env PrimFloat.float) (question : string)
    (k : nat) (resp : RetrievalResponse PrimFloat.float) :
  retrieve env question k = Ok resp ->
  length (results resp) <= k
  /\ length (results resp)
     = Nat.min k (total_chunks (response_metadata resp))
  /\ (Forall (fun x => PrimFloat.eqb x x = true) (candidateScores env question) ->
      nonIncreasing (results resp)).
Proof.
  intros Hr.
  assert (Hlen : length (results resp)
                 = Nat.min k (total_chunks (response_metadata resp))).
  { pose proof Hr as Hr'. apply retrieve_resolved in Hr'.
    destruct Hr' as (indexData & sims & _ & Hs & Hres & _ & _ & Htot).
    rewrite Hres, Htot, length_map, topResultsOf_length.
    unfold similaritiesOf in Hs. apply mapM_length in Hs.
    rewrite Hs, length_combine, length_seq, Nat.min_id. reflexivity. }
  split; [rewrite Hlen; apply Nat.le_min_l|]. split; [exact Hlen|].
  intros Hnumbers.
  apply (retrieve_ranked _ _ _ Hr (float64_comparable Hnumbers)).
Qed.

(** C4 (amended) at work: three records scoring -1, 0 and 1, two results
    asked for. *)
Lemma retrieve_ranking_witness :
  exists resp,
    retrieve Samples.rankingEnv "What is scheduling?" 2 = Ok resp
    /\ map (@score _) (results resp) = [1; 0]%float
    /\ nonIncreasing (results resp) /\ length (results resp) <= 2.
Proof.
  destruct (retrieve Samples.rankingEnv "What is scheduling?" 2)
    as [resp|e] eqn:Hr; [|vm_compute in Hr; discriminate].
  exists resp. split; [reflexivity|]. split.
  - pose proof Hr as Hr'. vm_compute in Hr'. inversion Hr'; subst.
    reflexivity.
  - destruct (retrieve_ranking Samples.rankingEnv "What is scheduling?" 2 Hr)
      as (Hlen & _ & Hsorted).
    split; [|exact Hlen]. apply Hsorted.
    repeat constructor.
Defined.

(** C9: when the index file is missing or does not parse, [loadIndex]
    resolves to null, and [retrieve] rejects with its "No RAG index found"
    error: it does not resolve, so not with an empty list of results. *)
Theorem retrieve_no_index {num : Type} `{JsNumber num}
    (env : Env num) (question : string) (k : nat) :
  (exists e, readIndexFile (store env) = Err e)
  \/ (exists data e, readIndexFile (store env) = Ok data
                     /\ JSON_parse (store env) data = Err e) ->
  loadIndex (store env) = None
  /\ retrieve env question k = Err noIndexError
  /\ error_message noIndexError
     = "No RAG index found. Please run the ingestion script first."%string.
Proof.
  intros Hno.
  assert (Hjson : loadJsonIndex (store env) = None).
  { destruct Hno as [[e He]|(data & e & Hd & He)].
    - eapply loadJsonIndex_missing; eassumption.
    - eapply loadJsonIndex_unparseable; eassumption. }
  assert (Hload : loadIndex (store env) = None).
  { destruct (loadIndex_cases (store env)) as [Hc|Hc]; congruence. }
  split; [exact Hload|]. split; [|reflexivity].
  apply retrieve_without_index. exact Hload.
Qed.

(** C9 on a store with no file. *)
Lemma retrieve_no_index_witness :
  loadIndex (store Samples.noIndexEnv) = None
  /\ retrieve Samples.noIndexEnv "test query" 5 = Err noIndexError
  /\ error_message noIndexError
     = "No RAG index found. Please run the ingestion script first."%string.
Proof.
  apply (retrieve_no_index Samples.noIndexEnv "test query" 5).
  left. eexists. reflexivity.
Defined.

End RetrievalClaims.

(** ** The prompt builder *)

Section PromptFacts.
Import Indexer Retriever PromptBuilder.
Context {num : Type}.
Variable rt : Runtime num.
Variable maxTokens : Z.
Variable includeMetadata : bool.

Lemma ceilQuarter_nonneg (n : nat) : (0 <= ceilQuarter n)%Z.
Proof.
  unfold ceilQuarter. apply Z.div_pos; lia.
Qed.

Lemma ceilQuarter_lower (n : nat) : (Z.of_nat n <= 4 * ceilQuarter n)%Z.
Proof.
  unfold ceilQuarter.
  pose proof (Z.div_mod (Z.of_nat n + 3) 4 ltac:(lia)) as Hdm.
  pose proof (Z.mod_pos_bound (Z.of_nat n + 3) 4 ltac:(lia)) as Hb.
  lia.
Qed.


Lemma appendChunks_cons (acc : ContextSection) (c : RetrievalResult num)
    (l : list (RetrievalResult num)) :
  appendChunks rt includeMetadata acc (c :: l)
  = appendChunks rt includeMetadata
      {| contextText :=
           (contextText acc ++ chunkTextOf rt includeMetadata c)%string;
         sources := sources acc ++ [sourceIdOf rt c];
         estimatedTokens :=
           (estimatedTokens acc + chunkTokensOf rt includeMetadata c)%Z |}
      l.
Proof.
  reflexivity.
Qed.

Lemma appendChunks_sources (acc : ContextSection) (l : list (RetrievalResult num)) :
  sources (appendChunks rt includeMetadata acc l)
  = sources acc ++ map (sourceIdOf rt) l.
Proof.
  revert acc; induction l as [|c l IH]; intros acc.
  - simpl. rewrite app_nil_r. reflexivity.
  - rewrite appendChunks_cons, IH. simpl.
    rewrite <- app_assoc. reflexivity.
Qed.

Lemma appendChunks_tokens (acc : ContextSection) (l : list (RetrievalResult num)) :
  estimatedTokens (appendChunks rt includeMetadata acc l)
  = (estimatedTokens acc
     + fold_right Z.add 0 (map (chunkTokensOf rt includeMetadata) l))%Z.
Proof.
  revert acc; induction l as [|c l IH]; intros acc.
  - simpl. lia.
  - rewrite appendChunks_cons, IH. simpl. lia.
Qed.

(** The loop keeps a prefix: the first chunk whatever it costs, and then
    chunks as long as the running estimate stays within [maxTokens]. *)
Lemma contextLoop_prefix (chunks : list (RetrievalResult num)) :
  forall (i : nat) (acc : ContextSection),
  exists n,
    n <= length chunks
    /\ contextLoop rt maxTokens includeMetadata chunks i acc
       = appendChunks rt includeMetadata acc (firstn n chunks)
    /\ (chunks <> [] -> i = 0 -> 1 <= n)
    /\ (forall next, nth_error chunks n = Some next ->
          (estimatedTokens (appendChunks rt includeMetadata acc (firstn n chunks))
           + chunkTokensOf rt includeMetadata next > maxTokens)%Z)
    /\ (1 <= n -> 2 <= i + n ->
        (estimatedTokens (appendChunks rt includeMetadata acc (firstn n chunks))
         <= maxTokens)%Z).
Proof.
  induction chunks as [|c rest IH]; intros i acc.
  - exists 0. simpl. repeat split; try lia.
    + intros Hne; contradiction.
    + intros next Hn. discriminate.
  - cbn [contextLoop].
    destruct ((estimatedTokens acc + chunkTokensOf rt includeMetadata c
               >? maxTokens)%Z && (0 <? i)) eqn:Hstop.
    + apply andb_prop in Hstop. destruct Hstop as [Hover Hi].
      rewrite Z.gtb_ltb in Hover. apply Z.ltb_lt in Hover.
      apply Nat.ltb_lt in Hi.
      exists 0. simpl. repeat split; try lia.
      intros next Hn. inversion Hn; subst. lia.
    + destruct (IH (S i)
                  {| contextText :=
                       (contextText acc ++ chunkTextOf rt includeMetadata c)%string;
                     sources := sources acc ++ [sourceIdOf rt c];
                     estimatedTokens :=
                       (estimatedTokens acc
                        + chunkTokensOf rt includeMetadata c)%Z |})
        as (n & Hn & Hrun & _ & Hnext & Hbound).
      exists (S n). cbn [firstn length nth_error].
      rewrite appendChunks_cons.
      split; [lia|]. split; [exact Hrun|]. split; [lia|].
      split; [exact Hnext|].
      intros _ Hi. destruct n as [|n].
      * simpl. apply andb_false_iff in Hstop.
        destruct Hstop as [Hover|Hzero].
        -- rewrite Z.gtb_ltb in Hover. apply Z.ltb_ge in Hover. exact Hover.
        -- apply Nat.ltb_ge in Hzero. lia.
      * apply Hbound; lia.
Qed.

End PromptFacts.

Lemma length_append (a b : string) :
  String.length (a ++ b) = String.length a + String.length b.
Proof.
  induction a as [|c a IH]; simpl; [reflexivity|]. rewrite IH. reflexivity.
Qed.

Lemma filler_length (n : nat) : String.length (Samples.filler n) = n.
Proof.
  induction n as [|n IH]; simpl; [reflexivity|]. rewrite IH. reflexivity.
Qed.

Section PromptTextFacts.
Import Indexer Retriever PromptBuilder.

Lemma ceilQuarter_upper (n : nat) (a : Z) :
  (Z.of_nat n <= 4 * a)%Z -> (ceilQuarter n <= a)%Z.
Proof.
  intros Hn. unfold ceilQuarter.
  assert (Hlt : ((Z.of_nat n + 3) / 4 < a + 1)%Z)
    by (apply Z.div_lt_upper_bound; lia).
  lia.
Qed.

Lemma ceilQuarter_add (a b : nat) :
  (ceilQuarter (a + b) <= ceilQuarter a + ceilQuarter b)%Z.
Proof.
  apply ceilQuarter_upper.
  pose proof (ceilQuarter_lower a). pose proof (ceilQuarter_lower b). lia.
Qed.

Lemma append_empty_r (s : string) : (s ++ "")%string = s.
Proof.
  induction s as [|c s IH]; cbn; [reflexivity|]. rewrite IH. reflexivity.
Qed.

Lemma append_assoc (a b c : string) :
  ((a ++ b) ++ c)%string = (a ++ b ++ c)%string.
Proof.
  induction a as [|x a IH]; cbn; [reflexivity|]. rewrite IH. reflexivity.
Qed.

Section WithNumbers.
Context {num : Type}.
Variable rt : Runtime num.
Variable includeMetadata : bool.

Lemma chunkTextsOf_cons (c : RetrievalResult num)
    (l : list (RetrievalResult num)) :
  chunkTextsOf rt includeMetadata (c :: l)
  = (chunkTextOf rt includeMetadata c ++ chunkTextsOf rt includeMetadata l)%string.
Proof.
  unfold chunkTextsOf. cbn [map String.concat].
  destruct (map (chunkTextOf rt includeMetadata) l) as [|x xs] eqn:Hl.
  - cbn. rewrite append_empty_r. reflexivity.
  - reflexivity.
Qed.

(** The text of a section is the text it started from and the texts of the
    chunks kept, and its estimate covers what they add. *)
Lemma appendChunks_text (l : list (RetrievalResult num)) :
  forall acc,
    contextText (appendChunks rt includeMetadata acc l)
    = (contextText acc ++ chunkTextsOf rt includeMetadata l)%string
    /\ (estimateTokens (contextText (appendChunks rt includeMetadata acc l))
        - estimateTokens (contextText acc)
        <= estimatedTokens (appendChunks rt includeMetadata acc l)
           - estimatedTokens acc)%Z.
Proof.
  induction l as [|c l IH]; intros acc.
  - cbn. rewrite append_empty_r. split; [reflexivity|lia].
  - rewrite appendChunks_cons. destruct (IH
      {| contextText := (contextText acc ++ chunkTextOf rt includeMetadata c)%string;
         sources := sources acc ++ [sourceIdOf rt c];
         estimatedTokens :=
           (estimatedTokens acc + chunkTokensOf rt includeMetadata c)%Z |})
      as [Htext Hest].
    cbn [contextText estimatedTokens] in *. split.
    + rewrite Htext, chunkTextsOf_cons, append_assoc. reflexivity.
    + assert (Hstep : (estimateTokens (contextText acc ++ chunkTextOf rt includeMetadata c)
                       <= estimateTokens (contextText acc)
                          + chunkTokensOf rt includeMetadata c)%Z).
      { unfold estimateTokens, chunkTokensOf. rewrite length_append.
        apply ceilQuarter_add. }
      lia.
Qed.

End WithNumbers.

Lemma buildContextSection_prefix {num : Type} (rt : Runtime num)
    (chunks : list (RetrievalResult num)) (maxTokens : Z)
    (includeMetadata : bool) (style : CitationStyle) :
  exists n,
    n <= length chunks
    /\ buildContextSection rt chunks maxTokens includeMetadata style
       = appendChunks rt includeMetadata emptySection (firstn n chunks)
    /\ (chunks <> [] -> 1 <= n)
    /\ (forall next, nth_error chunks n = Some next ->
          (estimatedTokens
             (buildContextSection rt chunks maxTokens includeMetadata style)
           + chunkTokensOf rt includeMetadata next > maxTokens)%Z)
    /\ (2 <= n ->
        (estimatedTokens
           (buildContextSection rt chunks maxTokens includeMetadata style)
         <= maxTokens)%Z).
Proof.
  unfold buildContextSection.
  destruct (contextLoop_prefix rt maxTokens includeMetadata chunks 0 emptySection)
    as (n & Hn & Hrun & Hfirst & Hnext & Hbound).
  fold emptySection. exists n. rewrite Hrun.
  split; [exact Hn|]. split; [reflexivity|].
  split; [intros Hne; apply Hfirst; [exact Hne|reflexivity]|].
  split; [exact Hnext|]. intros Hn2. apply Hbound; lia.
Qed.

(** The context section: a prefix of the chunks, and the text that holds
    exactly their texts. *)
Lemma buildContextSection_kept {num : Type} (rt : Runtime num)
    (chunks : list (RetrievalResult num)) (maxTokens : Z)
    (includeMetadata : bool) (style : CitationStyle) :
  exists n,
    n <= length chunks
    /\ sources (buildContextSection rt chunks maxTokens includeMetadata style)
       = map (sourceIdOf rt) (firstn n chunks)
    /\ contextText (buildContextSection rt chunks maxTokens includeMetadata style)
       = (contextHeading ++ chunkTextsOf rt includeMetadata (firstn n chunks))%string
    /\ estimatedTokens
         (buildContextSection rt chunks maxTokens includeMetadata style)
       = (50 + fold_right Z.add 0
                 (map (chunkTokensOf rt includeMetadata) (firstn n chunks)))%Z
    /\ (chunks <> [] -> 1 <= n)
    /\ (forall next, nth_error chunks n = Some next ->
          (estimatedTokens
             (buildContextSection rt chunks maxTokens includeMetadata style)
           + chunkTokensOf rt includeMetadata next > maxTokens)%Z)
    /\ (2 <= n ->
        (estimatedTokens
           (buildContextSection rt chunks maxTokens includeMetadata style)
         <= maxTokens)%Z).
Proof.
  destruct (buildContextSection_prefix rt chunks maxTokens includeMetadata style)
    as (n & Hn & Hrun & Hfirst & Hnext & Hbound).
  exists n. split; [exact Hn|].
  split; [rewrite Hrun, appendChunks_sources; reflexivity|].
  split.
  { rewrite Hrun.
    destruct (appendChunks_text rt includeMetadata (firstn n chunks) emptySection)
      as [Htext _].
    rewrite Htext. reflexivity. }
  split; [rewrite Hrun, appendChunks_tokens; reflexivity|].
  split; [exact Hfirst|]. split; [exact Hnext|exact Hbound].
Qed.

(** The user prompt opens with the context text, which the question and
    the instructions follow. *)
Lemma buildUserPrompt_text (question contextText : string)
    (answerFormat : AnswerFormat) :
  exists instructions,
    buildUserPrompt question contextText answerFormat
    = (contextText ++ newline ++ newline ++ "QUESTION: " ++ question
       ++ newline ++ newline ++ "INSTRUCTIONS: " ++ instructions)%string.
Proof.
  unfold buildUserPrompt, lines. cbn [String.concat].
  eexists. rewrite !append_assoc. reflexivity.
Qed.

End PromptTextFacts.

Section PromptClaims.
Import Indexer Retriever PromptBuilder.

(** C6, as stated, fails on the code: with a budget of 10 tokens and one
    chunk of 400 letters the estimate is 154, and no fixed margin bounds the
    excess, since the first chunk is kept whatever it costs. *)
Lemma token_budget_counterexample :
  (forall rt : Runtime PrimFloat.float,
      tokenEstimate
        (buildPrompt rt [Samples.resultOfSize 400] "What is a heap?"
           (Samples.budget 10))
      = 154%Z)
  /\ ~ (exists margin : Z,
          forall (rt : Runtime PrimFloat.float)
                 (chunks : list (RetrievalResult PrimFloat.float))
                 (question : string) (options : PromptOptions),
            (tokenEstimate (buildPrompt rt chunks question options)
             <= budgetOf options + margin)%Z).
Proof.
  split.
  - intros rt. vm_compute. reflexivity.
  - intros [margin Hall].
    set (rt := {| truthy := fun _ : PrimFloat.float => true;
                  Number_toString := fun _ => "1"%string;
                  toFixed3 := fun _ => "1.000"%string |}).
    specialize (Hall rt [Samples.resultOfSize (4 * Z.to_nat (Z.abs margin))]
                  "What is a heap?"%string (Samples.budget 0)).
    unfold buildPrompt in Hall. cbn [tokenEstimate budgetOf Samples.budget
      maxContextTokens includeMetadata answerFormat citationStyle] in Hall.
    unfold buildContextSection in Hall.
    cbn [contextLoop estimatedTokens Nat.ltb Nat.leb andb] in Hall.
    rewrite andb_false_r in Hall. cbn [contextLoop estimatedTokens] in Hall.
    pose proof (ceilQuarter_lower
                  (String.length
                     (chunkTextOf rt false
                        (Samples.resultOfSize (4 * Z.to_nat (Z.abs margin))))))
      as Hlow.
    unfold chunkTokensOf in Hall.
    unfold chunkTextOf in Hlow at 1.
    rewrite !length_append in Hlow.
    cbn [result_text Samples.resultOfSize] in Hlow.
    rewrite filler_length in Hlow. lia.
Qed.

(** C6 (amended): the chunks kept in the context section are exactly a
    rank-order prefix of the results: the user prompt is the heading, the
    texts of that prefix in order, then the question and the instructions,
    and the full prompt is the system prompt followed by the user prompt.
    The prefix holds the first result whenever there is one and stops at the
    first result that would take the estimate over [maxContextTokens]; the
    token estimate is 50 plus the cost of the kept chunks and is within
    [maxContextTokens] whenever two or more chunks are kept. *)
Theorem buildPrompt_token_budget {num : Type} (rt : Runtime num)
    (chunks : list (RetrievalResult num)) (question : string)
    (options : PromptOptions) :
  exists n,
    n <= length chunks
    /\ contextSources (buildPrompt rt chunks question options)
       = map (sourceIdOf rt) (firstn n chunks)
    /\ (exists instructions,
          userPrompt (buildPrompt rt chunks question options)
          = (contextHeading
             ++ chunkTextsOf rt (metadataFlagOf options) (firstn n chunks)
             ++ newline ++ newline ++ "QUESTION: " ++ question
             ++ newline ++ newline ++ "INSTRUCTIONS: " ++ instructions)%string)
    /\ fullPrompt (buildPrompt rt chunks question options)
       = (systemPrompt (buildPrompt rt chunks question options)
          ++ newline ++ newline
          ++ userPrompt (buildPrompt rt chunks question options))%string
    /\ tokenEstimate (buildPrompt rt chunks question options)
       = (50 + fold_right Z.add 0
                 (map (chunkTokensOf rt (metadataFlagOf options))
                      (firstn n chunks)))%Z
    /\ (chunks <> [] -> 1 <= n)
    /\ (forall next, nth_error chunks n = Some next ->
          (tokenEstimate (buildPrompt rt chunks question options)
           + chunkTokensOf rt (metadataFlagOf options) next
           > budgetOf options)%Z)
    /\ (2 <= n ->
        (tokenEstimate (buildPrompt rt chunks question options)
         <= budgetOf options)%Z).
Proof.
  destruct (buildContextSection_kept rt chunks (budgetOf options)
              (metadataFlagOf options)
              (match citationStyle options with Some c => c | None => vtu end))
    as (n & Hn & Hsources & Htext & Htokens & Hfirst & Hnext & Hbound).
  exists n. unfold buildPrompt.
  cbn [contextSources userPrompt fullPrompt systemPrompt tokenEstimate].
  fold (budgetOf options). fold (metadataFlagOf options).
  split; [exact Hn|]. split; [exact Hsources|]. split.
  { destruct (buildUserPrompt_text question
                (contextHeading
                 ++ chunkTextsOf rt (metadataFlagOf options) (firstn n chunks))
                (match answerFormat options with
                 | Some f => f
                 | None => detailed
                 end)) as (instructions & Huser).
    exists instructions. rewrite Htext, Huser, append_assoc. reflexivity. }
  split; [reflexivity|]. split; [exact Htokens|].
  split; [exact Hfirst|]. split; [exact Hnext|exact Hbound].
Qed.


End PromptClaims.

(** ** The generation client *)

Section ClientFacts.
Import GeminiClient.
Variable Config : Type.
Variable env : Env.

Lemma requestCount_app (t t' : Trace Config) :
  requestCount (t ++ t') = requestCount t + requestCount t'.
Proof.
  induction t as [|[m p c|d] t IH]; simpl; [reflexivity| |]; rewrite IH;
    reflexivity.
Qed.

Lemma retryLoop_run (model prompt : string) (config : Config) (maxRetries : nat) :
  forall (n attempt : nat) (lastError : option JsError) (t : Trace Config),
    attempt + n = S maxRetries ->
    retryLoop env model prompt config maxRetries (seq attempt n) lastError t
    = match firstSuccess (service env) (requestCount t) n
              (match lastError with
               | Some e => e
               | None => Error "Maximum retry attempts exceeded"
               end) with
      | inl (j, text) =>
          (Ok text, t ++ attemptsFrom model prompt config attempt (S j))
      | inr e => (Err e, t ++ attemptsFrom model prompt config attempt n)
      end.
Proof.
  induction n as [|n IH]; intros attempt lastError t Hsum.
  - simpl. unfold throw. rewrite app_nil_r. reflexivity.
  - cbn [seq retryLoop firstSuccess].
    unfold await at 1, try, callGeminiAPI.
    destruct (readReply (service env (requestCount t))) as [text|e].
    + reflexivity.
    + unfold await at 1.
      destruct n as [|n].
      * assert (Hlast : (attempt <? maxRetries) = false)
          by (apply Nat.ltb_ge; lia).
        rewrite Hlast. unfold resolve. reflexivity.
      * assert (Hmore : (attempt <? maxRetries) = true)
          by (apply Nat.ltb_lt; lia).
        rewrite Hmore. unfold emit.
        rewrite (IH (S attempt) (Some e)) by lia.
        rewrite !requestCount_app. cbn [requestCount].
        rewrite Nat.add_0_r, Nat.add_1_r.
        destruct (firstSuccess (service env) (S (requestCount t)) (S n) e)
          as [[j text]|e'];
          rewrite <- !app_assoc; reflexivity.
Qed.

Lemma generateWithModel_run (model prompt : string) (config : Config)
    (t : Trace Config) :
  generateWithModel env model prompt config defaultMaxRetries t
  = match firstSuccess (service env) (requestCount t) 3
            (Error "Maximum retry attempts exceeded") with
    | inl (j, text) => (Ok text, t ++ attemptsTrace model prompt config (S j))
    | inr e => (Err e, t ++ attemptsTrace model prompt config 3)
    end.
Proof.
  unfold generateWithModel, defaultMaxRetries, attemptsTrace.
  rewrite (retryLoop_run model prompt config (maxRetries := 3) 3 1 None t eq_refl).
  reflexivity.
Qed.

Lemma firstSuccess_bound (service : nat -> HttpReply) (count : nat) :
  forall from lastError j text,
    firstSuccess service from count lastError = inl (j, text) -> j < count.
Proof.
  induction count as [|count IH]; intros from lastError j text Hf; simpl in Hf;
    [discriminate|].
  destruct (readReply (service from)) as [text'|e].
  - inversion Hf; subst. lia.
  - destruct (firstSuccess service (S from) count e) as [[j' text']|e'] eqn:Hrec;
      [|discriminate].
    inversion Hf; subst. apply IH in Hrec. lia.
Qed.

Lemma attemptsTrace_requests (model prompt : string) (config : Config) :
  forall n attempt, requestCount (attemptsFrom model prompt config attempt n) = n.
Proof.
  induction n as [|n IH]; intros attempt; simpl; [reflexivity|].
  destruct n as [|n]; [reflexivity|].
  cbn [requestCount]. rewrite IH. reflexivity.
Qed.

Lemma firstSuccess_exhausted (errors : nat -> JsError) (count : nat) :
  forall from lastError,
    (forall j, j < count -> readReply (service env (from + j)) = Err (errors j)) ->
    firstSuccess (service env) from count lastError
    = inr (match count with
           | 0 => lastError
           | S last => errors last
           end).
Proof.
  revert errors. induction count as [|count IH]; intros errors from lastError Hall;
    [reflexivity|].
  cbn [firstSuccess].
  pose proof (Hall 0 ltac:(lia)) as H0. rewrite Nat.add_0_r in H0. rewrite H0.
  rewrite (IH (fun j => errors (S j))).
  - destruct count; reflexivity.
  - intros j Hj. replace (S from + j) with (from + S j) by lia.
    apply Hall. lia.
Qed.

(** What [generateFromPrompt] does with a key, by the replies. *)
Lemma generateFromPrompt_run (prompt : string) (config : Config)
    (t : Trace Config) (c : ascii) (key : string) :
  GEMINI_API_KEY env = Some (String c key) ->
  generateFromPrompt env prompt config t
  = match firstSuccess (service env) (requestCount t) 3
            (Error "Maximum retry attempts exceeded") with
    | inl (j, text) =>
        (Ok text, t ++ attemptsTrace (GEN_MODEL env) prompt config (S j))
    | inr _ =>
        match firstSuccess (service env) (requestCount t + 3) 3
                (Error "Maximum retry attempts exceeded") with
        | inl (j, text) =>
            (Ok text,
             t ++ attemptsTrace (GEN_MODEL env) prompt config 3
               ++ attemptsTrace (GEN_MODEL_FALLBACK env) prompt config (S j))
        | inr lastError =>
            (Err (Error ("Generation failed: " ++ errorToString lastError)),
             t ++ attemptsTrace (GEN_MODEL env) prompt config 3
               ++ attemptsTrace (GEN_MODEL_FALLBACK env) prompt config 3)
        end
    end.
Proof.
  intros Hkey. unfold generateFromPrompt. rewrite Hkey.
  unfold await at 1, try. rewrite generateWithModel_run.
  destruct (firstSuccess (service env) (requestCount t) 3
              (Error "Maximum retry attempts exceeded")) as [[j text]|e].
  - reflexivity.
  - unfold await at 1. rewrite generateWithModel_run.
    rewrite requestCount_app.
    unfold attemptsTrace at 1. rewrite attemptsTrace_requests.
    destruct (firstSuccess (service env) (requestCount t + 3) 3
                (Error "Maximum retry attempts exceeded")) as [[j text]|e'];
      rewrite <- app_assoc; reflexivity.
Qed.

Lemma firstSuccess_last (count : nat) :
  forall from e1 e2,
    0 < count ->
    firstSuccess (service env) from count e1
    = firstSuccess (service env) from count e2.
Proof.
  induction count as [|count IH]; intros from e1 e2 Hpos; [lia|].
  reflexivity.
Qed.

(** Two runs of attempts, one after the other, find what one long run
    finds. *)
Lemma firstSuccess_split (a b : nat) :
  forall from lastError,
    firstSuccess (service env) from (a + b) lastError
    = match firstSuccess (service env) from a lastError with
      | inl found => inl found
      | inr e =>
          match firstSuccess (service env) (from + a) b e with
          | inl (j, text) => inl (a + j, text)
          | inr e' => inr e'
          end
      end.
Proof.
  induction a as [|a IH]; intros from lastError.
  - cbn [Nat.add firstSuccess]. rewrite Nat.add_0_r.
    destruct (firstSuccess (service env) from b lastError) as [[j text]|e];
      reflexivity.
  - cbn [Nat.add firstSuccess].
    destruct (readReply (service env from)) as [text|e]; [reflexivity|].
    rewrite IH.
    destruct (firstSuccess (service env) (S from) a e) as [[j text]|e'];
      [reflexivity|].
    replace (S from + a) with (from + S a) by lia.
    destruct (firstSuccess (service env) (from + S a) b e') as [[j text]|e''];
      reflexivity.
Qed.

(** After [k] failures the first success is at position [k] or later. *)
Lemma firstSuccess_skips (count : nat) :
  forall from lastError k j text,
    (forall i, i < k -> exists e, readReply (service env (from + i)) = Err e) ->
    firstSuccess (service env) from count lastError = inl (j, text) ->
    k <= j.
Proof.
  induction count as [|count IH]; intros from lastError k j text Hfail Hfound;
    [discriminate|].
  destruct k as [|k]; [lia|].
  cbn [firstSuccess] in Hfound.
  destruct (Hfail 0 ltac:(lia)) as (e & He). rewrite Nat.add_0_r in He.
  rewrite He in Hfound.
  destruct (firstSuccess (service env) (S from) count e) as [[j' text']|e']
    eqn:Hrec; [|discriminate].
  inversion Hfound; subst. apply le_n_S.
  apply (IH (S from) e k j' text); [|exact Hrec].
  intros i Hi. replace (S from + i) with (from + S i) by lia.
  apply Hfail. lia.
Qed.

(** After [k] failures a reply with a text is the first success. *)
Lemma firstSuccess_after (count : nat) :
  forall from lastError k text,
    k < count ->
    (forall i, i < k -> exists e, readReply (service env (from + i)) = Err e) ->
    readReply (service env (from + k)) = Ok text ->
    firstSuccess (service env) from count lastError = inl (k, text).
Proof.
  induction count as [|count IH]; intros from lastError k text Hk Hfail Hok;
    [lia|].
  cbn [firstSuccess]. destruct k as [|k].
  - rewrite Nat.add_0_r in Hok. rewrite Hok. reflexivity.
  - destruct (Hfail 0 ltac:(lia)) as (e & He). rewrite Nat.add_0_r in He.
    rewrite He. rewrite (IH (S from) e k text); [reflexivity|lia| |].
    + intros i Hi. replace (S from + i) with (from + S i) by lia.
      apply Hfail. lia.
    + replace (S from + k) with (from + S k) by lia. exact Hok.
Qed.

(** [generateFromPrompt] with a key, as one run over the six requests of
    its schedule. *)
Lemma generateFromPrompt_schedule (prompt : string) (config : Config)
    (t : Trace Config) (c : ascii) (key : string) :
  GEMINI_API_KEY env = Some (String c key) ->
  generateFromPrompt env prompt config t
  = match firstSuccess (service env) (requestCount t) 6
            (Error "Maximum retry attempts exceeded") with
    | inl (j, text) =>
        (Ok text,
         t ++ scheduleOf (GEN_MODEL env) (GEN_MODEL_FALLBACK env) prompt config
                (S j))
    | inr lastError =>
        (Err (Error ("Generation failed: " ++ errorToString lastError)),
         t ++ scheduleOf (GEN_MODEL env) (GEN_MODEL_FALLBACK env) prompt config
                6)
    end.
Proof.
  intros Hkey. rewrite (generateFromPrompt_run prompt config t Hkey).
  change 6 with (3 + 3) at 1. rewrite firstSuccess_split.
  destruct (firstSuccess (service env) (requestCount t) 3
              (Error "Maximum retry attempts exceeded")) as [[j text]|e] eqn:Hfirst.
  - apply firstSuccess_bound in Hfirst.
    unfold scheduleOf. replace (S j <=? 3) with true
      by (symmetry; apply Nat.leb_le; lia).
    reflexivity.
  - rewrite (firstSuccess_last (requestCount t + 3)
               (Error "Maximum retry attempts exceeded") e) by lia.
    destruct (firstSuccess (service env) (requestCount t + 3) 3 e)
      as [[j text]|e'] eqn:Hsecond.
    + unfold scheduleOf. cbn [Nat.add Nat.leb Nat.sub]. reflexivity.
    + reflexivity.
Qed.

(** The schedule grows by its end. *)
Lemma scheduleOf_prefix (primary fallback prompt : string) (config : Config)
    (a b : nat) :
  a <= b -> b <= 6 ->
  exists rest,
    scheduleOf primary fallback prompt config b
    = scheduleOf primary fallback prompt config a ++ rest.
Proof.
  intros Hab Hb.
  destruct a as [|[|[|[|[|[|[|a]]]]]]]; try lia;
    destruct b as [|[|[|[|[|[|[|b]]]]]]]; try lia;
    eexists; unfold scheduleOf, attemptsTrace;
    cbn [Nat.leb Nat.sub attemptsFrom app]; reflexivity.
Qed.

Lemma readReply_safety (reply : HttpReply) :
  safetyRejected reply ->
  readReply reply = Err (Error "Response blocked by safety filters").
Proof.
  intros (candidate & others & part & others' & -> & Hc & Hf).
  simpl. rewrite Hc, Hf. reflexivity.
Qed.

End ClientFacts.

Section ClientClaims.
Import GeminiClient.

(** C7, as stated, fails on the code: when every request fails, the client
    sends three requests to the fallback model before it throws, not one;
    the fallback runs through the same retry loop as the primary. *)
Lemma fallback_counterexample :
  generateFromPrompt Samples.alwaysUnavailable "Explain heaps." "json"%string []
  = (Err (Error "Generation failed: Error: Gemini API error (503): Service Unavailable"),
     [ Request "gemini-2.0-flash-exp" "Explain heaps." "json"%string;
       Sleep string 1000;
       Request "gemini-2.0-flash-exp" "Explain heaps." "json"%string;
       Sleep string 2000;
       Request "gemini-2.0-flash-exp" "Explain heaps." "json"%string;
       Request "gemini-1.5-flash-latest" "Explain heaps." "json"%string;
       Sleep string 1000;
       Request "gemini-1.5-flash-latest" "Explain heaps." "json"%string;
       Sleep string 2000;
       Request "gemini-1.5-flash-latest" "Explain heaps." "json"%string ])
  /\ requestsTo "gemini-1.5-flash-latest"
       (snd (generateFromPrompt Samples.alwaysUnavailable "Explain heaps."
               "json"%string []))
     = 3.
Proof.
  split; vm_compute; reflexivity.
Qed.

(** C7 (amended): with an API key configured, [generateFromPrompt] sends the
    prompt to the primary model up to three times, pausing 1000 ms and then
    2000 ms between attempts; if all three fail it runs the same loop of up
    to three attempts on the fallback model; it resolves to the text of the
    first attempt that succeeds (so to the fallback model's text when the
    primary failed throughout, with no exception), and when all six attempts
    fail it throws "Generation failed: " followed by the last error. *)
Theorem generateFromPrompt_fallback (Config : Type) (env : Env)
    (prompt : string) (config : Config) (t : Trace Config) :
  (exists c key, GEMINI_API_KEY env = Some (String c key)) ->
  generateFromPrompt env prompt config t
  = match firstSuccess (service env) (requestCount t) 3
            (Error "Maximum retry attempts exceeded") with
    | inl (j, text) =>
        (Ok text, t ++ attemptsTrace (GEN_MODEL env) prompt config (S j))
    | inr _ =>
        match firstSuccess (service env) (requestCount t + 3) 3
                (Error "Maximum retry attempts exceeded") with
        | inl (j, text) =>
            (Ok text,
             t ++ attemptsTrace (GEN_MODEL env) prompt config 3
               ++ attemptsTrace (GEN_MODEL_FALLBACK env) prompt config (S j))
        | inr lastError =>
            (Err (Error ("Generation failed: " ++ errorToString lastError)),
             t ++ attemptsTrace (GEN_MODEL env) prompt config 3
               ++ attemptsTrace (GEN_MODEL_FALLBACK env) prompt config 3)
        end
    end.
Proof.
  intros (c & key & Hkey). unfold generateFromPrompt. rewrite Hkey.
  unfold await at 1, try. rewrite generateWithModel_run.
  destruct (firstSuccess (service env) (requestCount t) 3
              (Error "Maximum retry attempts exceeded")) as [[j text]|e].
  - reflexivity.
  - unfold await at 1. rewrite generateWithModel_run.
    rewrite requestCount_app.
    unfold attemptsTrace at 1. rewrite attemptsTrace_requests.
    destruct (firstSuccess (service env) (requestCount t + 3) 3
                (Error "Maximum retry attempts exceeded")) as [[j text]|e'];
      rewrite <- app_assoc; reflexivity.
Qed.

(** The scenario of the specification: the primary model fails three times,
    then the fallback answers; the text returned is the fallback's, trimmed,
    and nothing is thrown. *)
Lemma generateFromPrompt_fallback_witness :
  generateFromPrompt Samples.fallbackAnswers "Explain heaps." "json"%string []
  = (Ok "Heaps are complete binary trees."%string,
     [ Request "gemini-2.0-flash-exp" "Explain heaps." "json"%string;
       Sleep string 1000;
       Request "gemini-2.0-flash-exp" "Explain heaps." "json"%string;
       Sleep string 2000;
       Request "gemini-2.0-flash-exp" "Explain heaps." "json"%string;
       Request "gemini-1.5-flash-latest" "Explain heaps." "json"%string ]).
Proof.
  rewrite (@generateFromPrompt_fallback string Samples.fallbackAnswers
             "Explain heaps." "json"%string []).
  - vm_compute. reflexivity.
  - exists "t"%char, "est-key"%string. reflexivity.
Defined.

(** C8, as stated, fails on the code: when every response is blocked by
    the safety filters, the same model gets the same prompt three times, and
    the fallback model three more. *)
Lemma safety_counterexample :
  safetyRejected Samples.blocked
  /\ generateFromPrompt Samples.alwaysBlocked "Explain heaps." "json"%string []
     = (Err (Error "Generation failed: Error: Response blocked by safety filters"),
        [ Request "gemini-2.0-flash-exp" "Explain heaps." "json"%string;
          Sleep string 1000;
          Request "gemini-2.0-flash-exp" "Explain heaps." "json"%string;
          Sleep string 2000;
          Request "gemini-2.0-flash-exp" "Explain heaps." "json"%string;
          Request "gemini-1.5-flash-latest" "Explain heaps." "json"%string;
          Sleep string 1000;
          Request "gemini-1.5-flash-latest" "Explain heaps." "json"%string;
          Sleep string 2000;
          Request "gemini-1.5-flash-latest" "Explain heaps." "json"%string ]).
Proof.
  split; [|vm_compute; reflexivity].
  unfold safetyRejected, Samples.blocked.
  do 4 eexists. split; [reflexivity|]. split; reflexivity.
Qed.

(** C8 (amended): a response with content whose finish reason is SAFETY
    makes the call throw "Response blocked by safety filters", and the
    client handles that error like any other.  Whatever number [k] of the
    first responses of a call are rejected that way, the next request of
    the schedule is sent: the same prompt to the same model after the
    backoff pause (1000 ms, then 2000 ms), up to three attempts, and then to
    the fallback model in the same way.  A text that comes back is
    returned, and when all six responses are rejected the call throws
    "Generation failed: Error: Response blocked by safety filters". *)
Theorem safety_rejection_is_retried (Config : Type) (env : Env)
    (prompt : string) (config : Config) (t : Trace Config) (k : nat) :
  (exists c key, GEMINI_API_KEY env = Some (String c key)) ->
  k <= 6 ->
  (forall j, j < k -> safetyRejected (service env (requestCount t + j))) ->
  (forall j, j < k ->
     readReply (service env (requestCount t + j))
     = Err (Error "Response blocked by safety filters"))
  /\ scheduleOf (GEN_MODEL env) (GEN_MODEL_FALLBACK env) prompt config 6
     = [ Request (GEN_MODEL env) prompt config;
         Sleep Config 1000;
         Request (GEN_MODEL env) prompt config;
         Sleep Config 2000;
         Request (GEN_MODEL env) prompt config;
         Request (GEN_MODEL_FALLBACK env) prompt config;
         Sleep Config 1000;
         Request (GEN_MODEL_FALLBACK env) prompt config;
         Sleep Config 2000;
         Request (GEN_MODEL_FALLBACK env) prompt config ]
  /\ (k < 6 ->
      (exists outcome rest,
          generateFromPrompt env prompt config t
          = (outcome,
             t ++ scheduleOf (GEN_MODEL env) (GEN_MODEL_FALLBACK env) prompt
                    config (S k) ++ rest))
      /\ (forall text,
            readReply (service env (requestCount t + k)) = Ok text ->
            generateFromPrompt env prompt config t
            = (Ok text,
               t ++ scheduleOf (GEN_MODEL env) (GEN_MODEL_FALLBACK env) prompt
                      config (S k))))
  /\ (k = 6 ->
      generateFromPrompt env prompt config t
      = (Err (Error "Generation failed: Error: Response blocked by safety filters"),
         t ++ scheduleOf (GEN_MODEL env) (GEN_MODEL_FALLBACK env) prompt
                config 6)).
Proof.
  intros (c & key & Hkey) Hk Hsafe.
  assert (Hread : forall j, j < k ->
             readReply (service env (requestCount t + j))
             = Err (Error "Response blocked by safety filters")).
  { intros j Hj. apply readReply_safety. apply Hsafe. exact Hj. }
  assert (Hfail : forall j, j < k ->
             exists e, readReply (service env (requestCount t + j)) = Err e).
  { intros j Hj. eexists. apply Hread. exact Hj. }
  split; [exact Hread|]. split; [reflexivity|].
  rewrite (generateFromPrompt_schedule env prompt config t Hkey).
  split.
  - intros Hless. split.
    + destruct (firstSuccess (service env) (requestCount t) 6
                  (Error "Maximum retry attempts exceeded"))
        as [[j text]|e] eqn:Hfirst.
      * pose proof (firstSuccess_bound _ _ _ _ Hfirst) as Hj.
        pose proof (firstSuccess_skips env _ _ _ Hfail Hfirst) as Hkj.
        destruct (scheduleOf_prefix (GEN_MODEL env) (GEN_MODEL_FALLBACK env)
                    prompt config (a := S k) (b := S j)) as (rest & Hrest);
          [lia|lia|].
        exists (Ok text), rest. rewrite Hrest. reflexivity.
      * destruct (scheduleOf_prefix (GEN_MODEL env) (GEN_MODEL_FALLBACK env)
                    prompt config (a := S k) (b := 6)) as (rest & Hrest);
          [lia|lia|].
        eexists _, rest. rewrite Hrest. reflexivity.
    + intros text Hok.
      rewrite (firstSuccess_after env (count := 6) _ _ Hless Hfail Hok).
      reflexivity.
  - intros ->.
    rewrite (@firstSuccess_exhausted env
               (fun _ => Error "Response blocked by safety filters") 6
               (requestCount t) (Error "Maximum retry attempts exceeded") Hread).
    reflexivity.
Qed.

(** C8 (amended) on a service that blocks every response: six requests,
    three to each model, and the error of the safety filters. *)
Lemma safety_rejection_is_retried_witness :
  generateFromPrompt Samples.alwaysBlocked "Explain heaps." "json"%string []
  = (Err (Error "Generation failed: Error: Response blocked by safety filters"),
     [] ++ scheduleOf "gemini-2.0-flash-exp" "gemini-1.5-flash-latest"
             "Explain heaps." "json"%string 6).
Proof.
  apply (@safety_rejection_is_retried string Samples.alwaysBlocked
           "Explain heaps." "json"%string [] 6).
  - exists "t"%char, "est-key"%string. reflexivity.
  - apply Nat.le_refl.
  - intros j _. unfold safetyRejected. do 4 eexists.
    split; [reflexivity|]. split; reflexivity.
  - reflexivity.
Defined.

End ClientClaims.

(** ** The query endpoint *)

Section RouteClaims.
Import Indexer Retriever StructuredGeneration AskRoute.

(** C1, as stated, fails on the code: on an index without records the
    retrieval is not confident, and the answer of the endpoint is the sentence
    "Not found in VTU context.", which is not "Not found in context.". *)
Lemma sentinel_counterexample :
  (exists retrieval,
      retrieve Samples.emptyIndexEnv "What is a heap?" 5 = Ok retrieval
      /\ confidence retrieval = false)
  /\ answer (json (POST Samples.routeEnv (Ok (Fields (Samples.ask "What is a heap?")))))
     = JString "Not found in VTU context."
  /\ answer (json (POST Samples.routeEnv (Ok (Fields (Samples.ask "What is a heap?")))))
     <> JString "Not found in context.".
Proof.
  split; [|split].
  - eexists. split; vm_compute; reflexivity.
  - vm_compute. reflexivity.
  - vm_compute. discriminate.
Qed.

(** C1 (amended): for every valid question answered through the RAG
    pipeline whose retrieval is not confident, the response of the endpoint
    has status 200, the answer "Not found in VTU context." and empty
    citations and sources. *)
Theorem low_confidence_answer {num : Type} `{JsNumber num}
    (env : AskRoute.Env num) (body : RagRequest) (questionText : string)
    (retrieval : RetrievalResponse num) :
  question body = Text questionText ->
  validateRequest body = None ->
  useRag body = Some true \/ ENABLE_RAG env = true ->
  retrieve (retriever env) questionText (RAG_TOP_K (retriever env))
    = Ok retrieval ->
  confidence retrieval = false ->
  status (POST env (Ok (Fields body))) = 200
  /\ answer (json (POST env (Ok (Fields body)))) = JString "Not found in VTU context."
  /\ citations (json (POST env (Ok (Fields body)))) = []
  /\ response_sources (json (POST env (Ok (Fields body)))) = [].
Proof.
  intros Hq Hvalid Hrag Hretrieve Hconf.
  unfold POST. rewrite Hq, Hvalid. cbv zeta.
  assert (Huse : (match useRag body with Some true => true | _ => false end
                  || ENABLE_RAG env) = true).
  { destruct Hrag as [Hu|He]; [rewrite Hu; reflexivity|].
    rewrite He. apply orb_true_r. }
  rewrite Huse. cbn [negb].
  unfold handleRagPipeline. rewrite Hretrieve. cbn [bind]. rewrite Hconf.
  cbn. repeat split; reflexivity.
Qed.

(** C1 (amended) on the sample route. *)
Lemma low_confidence_answer_witness :
  status (POST Samples.routeEnv (Ok (Fields (Samples.ask "What is a heap?")))) = 200
  /\ answer (json (POST Samples.routeEnv (Ok (Fields (Samples.ask "What is a heap?")))))
     = JString "Not found in VTU context."
  /\ citations (json (POST Samples.routeEnv (Ok (Fields (Samples.ask "What is a heap?")))))
     = []
  /\ response_sources
       (json (POST Samples.routeEnv (Ok (Fields (Samples.ask "What is a heap?"))))) = [].
Proof.
  eapply (@low_confidence_answer _ _ Samples.routeEnv
            (Samples.ask "What is a heap?") "What is a heap?").
  - reflexivity.
  - reflexivity.
  - left. reflexivity.
  - vm_compute. reflexivity.
  - reflexivity.
Defined.

End RouteClaims.

(** ** The chunker *)

Section StringFacts.
Local Open Scope string_scope.

Lemma endsWithWord_cons (c : ascii) (s : string) :
  s <> "" -> endsWithWord (String c s) <-> endsWithWord s.
Proof.
  destruct s; [contradiction|]. intros _. simpl. tauto.
Qed.

Lemma endsWithWord_nonempty (s : string) : endsWithWord s -> s <> "".
Proof.
  destruct s; simpl; [tauto|discriminate].
Qed.

Lemma endsWithWord_append (a b : string) :
  endsWithWord b -> endsWithWord (a ++ b).
Proof.
  intros Hb. induction a as [|x a IH]; simpl; [exact Hb|].
  destruct (a ++ b) eqn:Hab.
  - exfalso. apply (endsWithWord_nonempty IH). reflexivity.
  - exact IH.
Qed.

Lemma startsWithWord_append (a b : string) :
  startsWithWord a -> startsWithWord (a ++ b).
Proof.
  destruct a; simpl; [tauto|auto].
Qed.

Lemma trimStart_starts (s : string) :
  trimStart s = "" \/ startsWithWord (trimStart s).
Proof.
  induction s as [|c s IH]; simpl; [left; reflexivity|].
  destruct (isWhiteSpace c) eqn:Hc; [exact IH|].
  right. simpl. exact Hc.
Qed.

Lemma trimEnd_starts (s : string) :
  startsWithWord s -> startsWithWord (trimEnd s).
Proof.
  destruct s as [|c s]; simpl; [tauto|]. intros Hc.
  destruct (trimEnd s); [rewrite Hc|]; simpl; exact Hc.
Qed.

Lemma trimEnd_ends (s : string) :
  trimEnd s = "" \/ endsWithWord (trimEnd s).
Proof.
  induction s as [|c s IH]; simpl; [left; reflexivity|].
  destruct (trimEnd s) as [|d t] eqn:Ht.
  - destruct (isWhiteSpace c) eqn:Hc; [left; reflexivity|].
    right. simpl. exact Hc.
  - right. destruct IH as [IH|IH]; [discriminate|]. exact IH.
Qed.

Lemma trimEnd_tidy (s : string) : endsWithWord s -> trimEnd s = s.
Proof.
  induction s as [|c s IH]; simpl; [tauto|].
  destruct s as [|d s].
  - intros Hc. simpl. rewrite Hc. reflexivity.
  - intros Hs. rewrite (IH Hs). reflexivity.
Qed.

Lemma trim_tidy (s : string) : tidy s -> trim s = s.
Proof.
  intros [Hs He]. unfold trim.
  assert (Hst : trimStart s = s).
  { destruct s as [|c s]; simpl in *; [tauto|]. rewrite Hs. reflexivity. }
  rewrite Hst. apply trimEnd_tidy. exact He.
Qed.

Lemma trim_result (s : string) : trim s = "" \/ tidy (trim s).
Proof.
  unfold trim. destruct (trimStart_starts s) as [He|Hs].
  - left. rewrite He. reflexivity.
  - destruct (trimEnd_ends (trimStart s)) as [He|He]; [left; exact He|].
    right. split; [apply trimEnd_starts; exact Hs|exact He].
Qed.

End StringFacts.

Section SplitFacts.
Local Open Scope string_scope.
Variable sep : ascii -> bool.

Lemma splitRuns_nonempty (inRun : bool) (s : string) :
  splitRuns sep inRun s <> [].
Proof.
  revert inRun; induction s as [|c s IH]; intros inRun; simpl; [discriminate|].
  destruct (sep c).
  - destruct inRun; [apply IH|discriminate].
  - destruct (splitRuns sep false s); discriminate.
Qed.

Lemma splitRuns_word (inRun : bool) (c : ascii) (s : string) :
  sep c = false ->
  splitRuns sep inRun (String c s)
  = match splitRuns sep false s with
    | piece :: pieces => String c piece :: pieces
    | [] => [String c ""]
    end.
Proof.
  intros Hc. simpl. rewrite Hc. reflexivity.
Qed.

Lemma splitRuns_separator (inRun : bool) (c : ascii) (s : string) :
  sep c = true ->
  splitRuns sep inRun (String c s)
  = if inRun then splitRuns sep true s else "" :: splitRuns sep true s.
Proof.
  intros Hc. simpl. rewrite Hc. reflexivity.
Qed.

Lemma splitRuns_flag (inRun : bool) (c : ascii) (s : string) :
  sep c = false ->
  splitRuns sep inRun (String c s) = splitRuns sep false (String c s).
Proof.
  intros Hc. rewrite !splitRuns_word by exact Hc. reflexivity.
Qed.

End SplitFacts.

Section WordFacts.
Local Open Scope string_scope.

Lemma spaceFree_single (w : string) (inRun : bool) :
  spaceFree w -> splitRuns isWhiteSpace inRun w = [w].
Proof.
  revert inRun; induction w as [|c w IH]; intros inRun Hw; simpl;
    [reflexivity|].
  destruct Hw as [Hc Hw]. rewrite Hc, (IH false Hw). reflexivity.
Qed.

Lemma isWord_tidy (w : string) : isWord w -> tidy w.
Proof.
  intros [Hne Hw]. split.
  - destruct w; simpl in *; [contradiction|tauto].
  - induction w as [|c w IH]; [contradiction|].
    destruct w as [|d w]; simpl in *; [tauto|].
    apply IH; [discriminate|tauto].
Qed.

(** The words of two tidy texts joined by a white space. *)
Lemma splitWhiteSpace_append (a b : string) (space : ascii) :
  isWhiteSpace space = true -> endsWithWord a -> startsWithWord b ->
  forall inRun,
    splitRuns isWhiteSpace inRun (a ++ String space b)
    = (splitRuns isWhiteSpace inRun a ++ splitRuns isWhiteSpace false b)%list.
Proof.
  intros Hsp Ha Hb. induction a as [|c a IH]; [simpl in Ha; tauto|].
  intros inRun. destruct a as [|d a].
  - simpl in Ha. change (String c "" ++ String space b)
      with (String c (String space b)).
    rewrite !splitRuns_word by exact Ha.
    rewrite splitRuns_separator by exact Hsp.
    destruct b as [|e b]; [simpl in Hb; tauto|].
    simpl in Hb. rewrite (@splitRuns_flag isWhiteSpace true e b Hb).
    rewrite (@splitRuns_word isWhiteSpace inRun c "" Ha). reflexivity.
  - assert (Hrec : endsWithWord (String d a)) by exact Ha.
    specialize (IH Hrec).
    change (String c (String d a) ++ String space b)
      with (String c (String d a ++ String space b)).
    remember (String d a) as a' eqn:Ha'.
    destruct (isWhiteSpace c) eqn:Hc.
    + rewrite !splitRuns_separator by exact Hc.
      destruct inRun; rewrite IH; reflexivity.
    + rewrite !splitRuns_word by exact Hc. rewrite IH.
      destruct (splitRuns isWhiteSpace false a') as [|p ps] eqn:Hs.
      * exfalso. exact (splitRuns_nonempty isWhiteSpace false _ Hs).
      * reflexivity.
Qed.

Lemma joinSpace_cons (w : string) (v : string) (l : list string) :
  joinSpace (w :: v :: l) = w ++ String " " (joinSpace (v :: l)).
Proof.
  reflexivity.
Qed.

Lemma joinSpace_tidy (l : list string) :
  l <> [] -> Forall isWord l -> tidy (joinSpace l).
Proof.
  induction l as [|w l IH]; intros Hne Hall; [contradiction|].
  inversion Hall as [|? ? Hw Hl]; subst.
  destruct l as [|v l].
  - simpl. apply isWord_tidy. exact Hw.
  - rewrite joinSpace_cons. destruct (IH ltac:(discriminate) Hl) as [_ He].
    split.
    + apply startsWithWord_append. apply (isWord_tidy Hw).
    + apply endsWithWord_append.
      change (endsWithWord (String " " (joinSpace (v :: l)))).
      apply endsWithWord_cons; [|exact He].
      apply endsWithWord_nonempty. exact He.
Qed.

(** Joining words with spaces and splitting again gives the words back. *)
Lemma splitWhiteSpace_joinSpace (l : list string) :
  l <> [] -> Forall isWord l -> splitWhiteSpace (joinSpace l) = l.
Proof.
  unfold splitWhiteSpace.
  induction l as [|w l IH]; intros Hne Hall; [contradiction|].
  inversion Hall as [|? ? Hw Hl]; subst.
  destruct l as [|v l].
  - simpl. apply spaceFree_single. apply Hw.
  - rewrite joinSpace_cons.
    rewrite splitWhiteSpace_append.
    + rewrite (@spaceFree_single w false (proj2 Hw)).
      rewrite IH; [reflexivity|discriminate|exact Hl].
    + reflexivity.
    + apply (isWord_tidy Hw).
    + apply (joinSpace_tidy (l := v :: l)); [discriminate|exact Hl].
Qed.

Lemma splitRuns_spaceFree (inRun : bool) (s : string) :
  Forall spaceFree (splitRuns isWhiteSpace inRun s).
Proof.
  revert inRun; induction s as [|c s IH]; intros inRun; simpl.
  - repeat constructor.
  - destruct (isWhiteSpace c) eqn:Hc.
    + destruct inRun; [apply IH|]. constructor; [exact I|apply IH].
    + specialize (IH false).
      destruct (splitRuns isWhiteSpace false s) as [|p ps].
      * repeat constructor. exact Hc.
      * inversion IH; subst. constructor; [|assumption].
        simpl. split; assumption.
Qed.

Lemma splitRuns_pieces (s : string) :
  forall inRun,
    endsWithWord s ->
    match splitRuns isWhiteSpace inRun s with
    | piece :: pieces =>
        Forall (fun w => w <> "") pieces
        /\ (inRun = true \/ startsWithWord s -> piece <> "")
    | [] => False
    end.
Proof.
  induction s as [|c s IH]; intros inRun He; [simpl in He; tauto|].
  cbn [splitRuns]. destruct (isWhiteSpace c) eqn:Hc.
  - destruct s as [|d s]; [simpl in He; congruence|].
    assert (Hrec : endsWithWord (String d s)) by exact He.
    pose proof (IH true Hrec) as IHt.
    destruct (splitRuns isWhiteSpace true (String d s)) as [|p ps] eqn:Hs;
      [tauto|].
    destruct IHt as [Hps Hp].
    destruct inRun.
    + split; [exact Hps|]. intros _. apply Hp. left. reflexivity.
    + split.
      * constructor; [apply Hp; left; reflexivity|exact Hps].
      * intros [Hf|Hf]; [discriminate|]. simpl in Hf. congruence.
  - destruct s as [|d s].
    + simpl. split; [constructor|]. intros _. discriminate.
    + assert (Hrec : endsWithWord (String d s)) by exact He.
      pose proof (IH false Hrec) as IHf.
      destruct (splitRuns isWhiteSpace false (String d s)) as [|p ps] eqn:Hs;
        [tauto|].
      destruct IHf as [Hps _]. split; [exact Hps|]. intros _. discriminate.
Qed.

Lemma tidy_words (s : string) :
  tidy s -> Forall isWord (splitWhiteSpace s).
Proof.
  intros [Hs He]. unfold splitWhiteSpace.
  pose proof (splitRuns_pieces s false He) as Hp.
  pose proof (splitRuns_spaceFree false s) as Hf.
  destruct (splitRuns isWhiteSpace false s) as [|p ps]; [tauto|].
  destruct Hp as [Hps Hp]. inversion Hf as [|? ? Hfp Hfps]; subst.
  constructor.
  - split; [apply Hp; right; exact Hs|exact Hfp].
  - rewrite Forall_forall in *. intros w Hw. split; auto.
Qed.

Lemma tidy_append (a b : string) (space : ascii) :
  tidy a -> tidy b -> tidy (a ++ String space b).
Proof.
  intros [Hsa Hea] [Hsb Heb]. split.
  - apply startsWithWord_append. exact Hsa.
  - apply endsWithWord_append.
    apply endsWithWord_cons; [apply endsWithWord_nonempty|]; exact Heb.
Qed.

End WordFacts.

Create HintDb tidy.
#[export] Hint Resolve tidy_append joinSpace_tidy isWord_tidy tidy_words : tidy.

Section LinkedFacts.
Context {A : Type} (R : A -> A -> Prop).

Lemma Linked_snoc (l : list A) (x : A) :
  Linked R l ->
  (forall prev, hd_error (rev l) = Some prev -> R prev x) ->
  Linked R (l ++ [x]).
Proof.
  induction 1 as [|a|a b l Hab Hl IH]; intros Hlast; simpl.
  - constructor.
  - constructor; [apply Hlast; reflexivity|constructor].
  - constructor; [exact Hab|]. apply IH. intros prev Hprev. apply Hlast.
    simpl in *. destruct (rev l ++ [b]) eqn:Hr.
    + destruct (rev l); discriminate.
    + simpl in *. exact Hprev.
Qed.

Lemma Linked_nth (l : list A) :
  Linked R l ->
  forall i a b, nth_error l i = Some a -> nth_error l (S i) = Some b -> R a b.
Proof.
  induction 1 as [|a|a b l Hab Hl IH]; intros i x y Hx Hy.
  - destruct i; discriminate.
  - destruct i as [|i]; simpl in *; [discriminate|destruct i; discriminate].
  - destruct i as [|i]; simpl in *.
    + inversion Hx; inversion Hy; subst. exact Hab.
    + eapply IH; eassumption.
Qed.

End LinkedFacts.

Section ChunkerFacts.
Import Indexer Ingest.
Local Open Scope string_scope.

Lemma lastWords_length {A : Type} (n : nat) (l : list A) :
  n <= length l -> length (lastWords n l) = n.
Proof.
  intros Hn. unfold lastWords. rewrite length_skipn. lia.
Qed.

Lemma carriesOver_overlaps (n : nat) (earlier later : string) :
  carriesOver n earlier later -> overlaps n earlier later.
Proof.
  intros [rest Hr]. unfold overlaps. rewrite Hr.
  rewrite firstn_app.
  rewrite lastWords_length by (unfold sharedWords; apply Nat.le_min_r).
  rewrite Nat.sub_diag. simpl. rewrite app_nil_r.
  symmetry. apply firstn_all2.
  rewrite lastWords_length by (unfold sharedWords; apply Nat.le_min_r).
  apply Nat.le_refl.
Qed.

Lemma Forall_skipn {A : Type} (P : A -> Prop) (k : nat) (l : list A) :
  Forall P l -> Forall P (skipn k l).
Proof.
  revert l; induction k as [|k IH]; intros l Hl; simpl; [exact Hl|].
  destruct l as [|x l]; [constructor|]. apply IH. inversion Hl; assumption.
Qed.

(** The text carried into the next chunk is tidy and opens with the shared
    words. *)
Lemma getOverlapText_words (cc : string) (n : nat) :
  tidy cc ->
  tidy (getOverlapText cc n)
  /\ exists extra,
       splitWhiteSpace (getOverlapText cc n)
       = (lastWords (sharedWords n cc) (splitWhiteSpace cc) ++ extra)%list.
Proof.
  intros Hcc. pose proof (tidy_words Hcc) as Hwords.
  unfold getOverlapText, sharedWords.
  destruct (Nat.leb_spec (length (splitWhiteSpace cc)) n) as [Hle|Hlt].
  - split; [exact Hcc|]. exists [].
    rewrite Nat.min_r by exact Hle. unfold lastWords.
    rewrite Nat.sub_diag, app_nil_r. reflexivity.
  - rewrite Nat.min_l by lia. destruct n as [|n].
    + cbn [sliceFromEnd].
      assert (Hne : splitWhiteSpace cc <> [])
        by apply splitRuns_nonempty.
      split; [apply joinSpace_tidy; assumption|].
      exists (splitWhiteSpace cc).
      rewrite splitWhiteSpace_joinSpace by assumption.
      unfold lastWords. rewrite Nat.sub_0_r, skipn_all. reflexivity.
    + cbn [sliceFromEnd].
      change (skipn (length (splitWhiteSpace cc) - S n) (splitWhiteSpace cc))
        with (lastWords (S n) (splitWhiteSpace cc)).
      assert (Hne : lastWords (S n) (splitWhiteSpace cc) <> []).
      { intros Hnil. apply (f_equal (@length string)) in Hnil.
        rewrite lastWords_length in Hnil by lia. discriminate. }
      assert (Hall : Forall isWord (lastWords (S n) (splitWhiteSpace cc)))
        by (apply Forall_skipn; exact Hwords).
      split; [apply joinSpace_tidy; assumption|].
      exists []. rewrite app_nil_r.
      apply splitWhiteSpace_joinSpace; assumption.
Qed.

Lemma sentence_tidy (raw : string) :
  trim raw <> "" -> tidy (trim raw ++ ".").
Proof.
  intros Hne. destruct (trim_result raw) as [He|[Hs _]]; [contradiction|].
  split.
  - apply startsWithWord_append. exact Hs.
  - apply endsWithWord_append. reflexivity.
Qed.

Lemma tidy_length (s : string) : tidy s -> (0 <? String.length s)%nat = true.
Proof.
  intros [Hs _]. destruct s; simpl in *; [tauto|reflexivity].
Qed.

Lemma append_words (a b : string) :
  tidy a -> tidy b ->
  splitWhiteSpace (a ++ String " " b)
  = (splitWhiteSpace a ++ splitWhiteSpace b)%list.
Proof.
  intros [_ Ha] [Hb _]. unfold splitWhiteSpace.
  apply splitWhiteSpace_append; [reflexivity|exact Ha|exact Hb].
Qed.

Lemma carriesOver_append (n : nat) (prev cc sentence : string) :
  tidy cc -> tidy sentence ->
  carriesOver n prev cc ->
  carriesOver n prev (cc ++ String " " sentence).
Proof.
  intros Hcc Hs [rest Hr]. exists (rest ++ splitWhiteSpace sentence)%list.
  rewrite append_words by assumption. rewrite Hr, app_assoc. reflexivity.
Qed.

Section WithEnv.
Context {num : Type}.
Variable env : Ingest.Env.
Variable file : FileMetadata.
Variables chunkSizeWords overlapWords : nat.

Lemma chunkStep_invariant (st : ChunkerState (num := num)) (raw : string) :
  trim raw <> "" ->
  chunkerInvariant overlapWords st ->
  chunkerInvariant overlapWords
    (chunkStep env file chunkSizeWords overlapWords st raw).
Proof.
  intros Hraw [Hlinked Hcarry Htidy].
  pose proof (@sentence_tidy raw Hraw) as Hsentence.
  unfold chunkStep. cbv zeta.
  destruct ((chunkSizeWords
             <? currentWordCount st
                + length (splitWhiteSpace (trim raw ++ ".")))%nat
            && (0 <? String.length (currentChunk st))%nat) eqn:Hemit.
  - apply andb_prop in Hemit. destruct Hemit as [_ Hlen].
    destruct Htidy as [[Hempty _]|Hcc];
      [rewrite Hempty in Hlen; discriminate|].
    destruct (@getOverlapText_words _ overlapWords Hcc) as [Hov [extra Hextra]].
    rewrite (@tidy_length _ Hov).
    change (" " ++ trim raw ++ ".") with (String " " (trim raw ++ ".")).
    constructor; cbn [emitted currentChunk].
    + rewrite map_app. cbn [map createChunk doc_text].
      rewrite (@trim_tidy _ Hcc).
      apply Linked_snoc; [exact Hlinked|].
      intros prev Hprev. rewrite <- map_rev in Hprev.
      destruct (rev (emitted st)) as [|p ps] eqn:Hrev; [discriminate|].
      simpl in Hprev. inversion Hprev; subst.
      apply carriesOver_overlaps. apply Hcarry. reflexivity.
    + intros prev Hprev. rewrite rev_app_distr in Hprev. simpl in Hprev.
      inversion Hprev; subst. cbn [createChunk doc_text].
      rewrite (@trim_tidy _ Hcc).
      exists (extra ++ splitWhiteSpace (trim raw ++ "."))%list.
      rewrite append_words by assumption.
      rewrite Hextra, app_assoc. reflexivity.
    + right. auto with tidy.
  - constructor; cbn [emitted currentChunk].
    + exact Hlinked.
    + intros prev Hprev. destruct Htidy as [[_ Hnone]|Hcc].
      * rewrite Hnone in Hprev. discriminate.
      * rewrite (@tidy_length _ Hcc).
        change (" " ++ trim raw ++ ".") with (String " " (trim raw ++ ".")).
        apply carriesOver_append; [assumption|assumption|].
        apply Hcarry. exact Hprev.
    + right. destruct Htidy as [[Hempty _]|Hcc].
      * rewrite Hempty. simpl. exact Hsentence.
      * rewrite (@tidy_length _ Hcc).
        change (" " ++ trim raw ++ ".") with (String " " (trim raw ++ ".")).
        auto with tidy.
Qed.

Lemma chunkLoop_invariant (sentences : list string) :
  Forall (fun raw => trim raw <> "") sentences ->
  forall st : ChunkerState (num := num),
    chunkerInvariant overlapWords st ->
    chunkerInvariant overlapWords
      (fold_left (chunkStep env file chunkSizeWords overlapWords) sentences st).
Proof.
  induction 1 as [|raw sentences Hraw _ IH]; intros st Hst; simpl;
    [exact Hst|].
  apply IH. apply chunkStep_invariant; assumption.
Qed.

Lemma chunkText_linked (text : string) :
  Linked (overlaps overlapWords)
    (map (@doc_text num)
         (chunkText env text file chunkSizeWords overlapWords)).
Proof.
  unfold chunkText. cbv zeta.
  set (sentences := filter _ _).
  assert (Hsent : Forall (fun raw => trim raw <> "") sentences).
  { apply Forall_forall. intros raw Hin. apply filter_In in Hin.
    destruct Hin as [_ Hlen]. intros Hempty. rewrite Hempty in Hlen.
    discriminate. }
  set (init := {| emitted := []; currentChunk := ""; currentWordCount := 0;
                  chunkIndex := 0 |}).
  assert (Hinit : chunkerInvariant overlapWords init).
  { constructor; simpl; [constructor|discriminate|left; split; reflexivity]. }
  destruct (@chunkLoop_invariant sentences Hsent init Hinit) as [Hlinked Hcarry Htidy].
  set (final := fold_left _ sentences init) in *.
  destruct Htidy as [[Hempty Hnone]|Hcc].
  - rewrite Hempty, Hnone. simpl. constructor.
  - rewrite (@trim_tidy _ Hcc), (@tidy_length _ Hcc).
    rewrite map_app. cbn [map createChunk doc_text].
    apply Linked_snoc; [exact Hlinked|].
    intros prev Hprev. rewrite <- map_rev in Hprev.
    destruct (rev (emitted final)) as [|p ps] eqn:Hrev; [discriminate|].
    simpl in Hprev. inversion Hprev; subst.
    apply carriesOver_overlaps. apply Hcarry. reflexivity.
Qed.

End WithEnv.
End ChunkerFacts.

Section ChunkerClaims.
Import Indexer Ingest.

(** C5, as stated, fails on the code: with chunks of at most three words
    and an overlap of two, the first chunk of the sample is the single word
    "Trees."; the second chunk, which is not the last, starts with that one
    word and goes on with new text, so the two share one word, not two. *)
Lemma chunk_overlap_counterexample :
  map (@doc_text _) Samples.shortFirstSentence
  = ["Trees."; "Trees. Heaps are trees."; "are trees. Queues use heaps."]%string
  /\ exists earlier later,
       nth_error Samples.shortFirstSentence 0 = Some earlier
       /\ nth_error Samples.shortFirstSentence 1 = Some later
       /\ wordsOf earlier = ["Trees."]%string
       /\ firstn 2 (wordsOf later) = ["Trees."; "Heaps"]%string
       /\ lastWords 2 (wordsOf earlier) <> firstn 2 (wordsOf later).
Proof.
  split; [vm_compute; reflexivity|].
  do 2 eexists.
  split; [vm_compute; reflexivity|]. split; [vm_compute; reflexivity|].
  split; [vm_compute; reflexivity|]. split; [vm_compute; reflexivity|].
  vm_compute. discriminate.
Qed.

(** C5 (amended): for every text and every pair of parameters, two
    consecutive chunks of [chunkText], the last included, share
    min(overlapWords, number of words of the earlier chunk) words: that many
    last words of the earlier chunk are the first words of the later one.
    So when the earlier chunk has at least [overlapWords] words, its last
    [overlapWords] words open the later chunk. *)
Theorem chunk_overlap {num : Type} (env : Ingest.Env) (text : string)
    (file : FileMetadata) (chunkSizeWords overlapWords : nat) (i : nat)
    (earlier later : DocumentChunk num) :
  nth_error (chunkText env text file chunkSizeWords overlapWords) i
    = Some earlier ->
  nth_error (chunkText env text file chunkSizeWords overlapWords) (S i)
    = Some later ->
  lastWords (Nat.min overlapWords (length (wordsOf earlier))) (wordsOf earlier)
  = firstn (Nat.min overlapWords (length (wordsOf earlier))) (wordsOf later)
  /\ (overlapWords <= length (wordsOf earlier) ->
      lastWords overlapWords (wordsOf earlier)
      = firstn overlapWords (wordsOf later)).
Proof.
  intros Hearlier Hlater.
  pose proof (chunkText_linked (num := num) env file chunkSizeWords
                overlapWords text) as Hlinked.
  assert (Hshare : overlaps overlapWords (doc_text earlier) (doc_text later)).
  { eapply (Linked_nth Hlinked i); apply map_nth_error; eassumption. }
  unfold overlaps, sharedWords in Hshare. split; [exact Hshare|].
  intros Hlen. unfold wordsOf in *.
  rewrite Nat.min_l in Hshare by exact Hlen. exact Hshare.
Qed.

(** C5 (amended) on the sample: the second and third chunks share the two
    words "are trees.". *)
Lemma chunk_overlap_witness :
  exists earlier later,
    nth_error Samples.shortFirstSentence 1 = Some earlier
    /\ nth_error Samples.shortFirstSentence 2 = Some later
    /\ lastWords 2 (wordsOf earlier) = ["are"; "trees."]%string
    /\ lastWords 2 (wordsOf earlier) = firstn 2 (wordsOf later).
Proof.
  destruct (nth_error Samples.shortFirstSentence 1) as [earlier|] eqn:He;
    [|vm_compute in He; discriminate].
  destruct (nth_error Samples.shortFirstSentence 2) as [later|] eqn:Hl;
    [|vm_compute in Hl; discriminate].
  exists earlier, later.
  split; [reflexivity|]. split; [reflexivity|].
  assert (Hwords : wordsOf earlier
                   = ["Trees."; "Heaps"; "are"; "trees."]%string).
  { pose proof He as He'. vm_compute in He'. inversion He'; subst.
    vm_compute. reflexivity. }
  split; [rewrite Hwords; reflexivity|].
  apply (chunk_overlap Samples.ingestEnv
           "Trees. Heaps are trees. Queues use heaps." Samples.notes 3 2 1
           He Hl).
  rewrite Hwords. simpl. lia.
Defined.

End ChunkerClaims.

(* ================================================================== *)
(** * Part III: the rest of the code *)
(* ================================================================== *)

(** ** Filtered retrieval, statistics and query expansion *)

Section FilteredRetrieval.
Import Indexer Embeddings Retriever RetrieverTools.
Context {num : Type} `{JsNumber num}.

Lemma firstn_In {A : Type} (k : nat) (l : list A) (x : A) :
  In x (firstn k l) -> In x l.
Proof.
  intros Hin. rewrite <- (firstn_skipn k l). apply in_or_app. left. exact Hin.
Qed.

Lemma filter_filter {A : Type} (f g : A -> bool) (l : list A) :
  filter g (filter f l) = filter (fun x => f x && g x) l.
Proof.
  induction l as [|x l IH]; simpl; [reflexivity|].
  destruct (f x); simpl; [destruct (g x)|]; rewrite IH; reflexivity.
Qed.

Lemma filter_StronglySorted {A : Type} (R : A -> A -> Prop) (f : A -> bool)
    (l : list A) :
  StronglySorted R l -> StronglySorted R (filter f l).
Proof.
  induction 1 as [|x l Hs IH Hall]; simpl; [constructor|].
  destruct (f x); [|exact IH].
  constructor; [exact IH|].
  rewrite Forall_forall in *. intros y Hy. apply filter_In in Hy.
  apply Hall. tauto.
Qed.

(** The three steps of filtering keep the results that pass the filters. *)
Lemma applyFilters_filter (filters : Filters num)
    (l : list (RetrievalResult num)) :
  exists keep,
    applyFilters filters l = filter keep l
    /\ forall r, keep r = true -> meetsFilters filters r.
Proof.
  exists (fun r =>
            match filter_source filters with
            | Some (String _ _ as wanted) => sourceIncludes wanted r
            | _ => true
            end
            && match filter_unit filters with
               | Some (String _ _ as wanted) => unitIs wanted r
               | _ => true
               end
            && match filter_minScore filters with
               | Some minScore => scoreAtLeast minScore r
               | None => true
               end).
  split.
  - unfold applyFilters.
    assert (Hid : forall l' : list (RetrievalResult num),
               l' = filter (fun _ => true) l').
    { induction l' as [|x l' IH]; simpl; congruence. }
    destruct (filter_source filters) as [[|c s]|];
      destruct (filter_unit filters) as [[|c' s']|];
      destruct (filter_minScore filters) as [m|];
      rewrite ?filter_filter;
      try (rewrite (Hid l) at 1; rewrite ?filter_filter);
      apply filter_ext; intros r;
      rewrite ?andb_true_r, ?andb_true_l, ?andb_assoc; reflexivity.
  - intros r Hkeep.
    apply andb_prop in Hkeep. destruct Hkeep as [Hkeep Hscore].
    apply andb_prop in Hkeep. destruct Hkeep as [Hsource Hunit].
    repeat split.
    + intros wanted Hw Hne. rewrite Hw in Hsource.
      destruct wanted; [congruence|]. exact Hsource.
    + intros wanted Hw Hne. rewrite Hw in Hunit.
      destruct wanted; [congruence|]. unfold unitIs in Hunit.
      destruct (unit (result_metadata r)) as [u|]; [|discriminate].
      exists u. split; [reflexivity|]. apply String.eqb_eq. exact Hunit.
    + intros minScore Hm. rewrite Hm in Hscore. exact Hscore.
Qed.

Lemma applyFilters_unfiltered (filters : Filters num)
    (l : list (RetrievalResult num)) :
  unfiltered filters -> applyFilters filters l = l.
Proof.
  intros (Hs & Hu & Hm). unfold applyFilters.
  rewrite Hm. destruct Hs as [-> | ->], Hu as [-> | ->]; reflexivity.
Qed.

(** What a retrieval that resolves returns, in full. *)
Lemma retrieve_unfold (env : Env num) (question : string) (k : nat)
    (resp : RetrievalResponse num) :
  retrieve env question k = Ok resp ->
  exists indexData similarities,
    loadIndex (store env) = Some indexData
    /\ similaritiesOf (embedQuery env question) (chunks indexData)
       = Ok similarities
    /\ resp
       = {| results := map formatResult (topResultsOf k similarities);
            confidence :=
              ngeb (averageOf (map (@sim_score num) (topResultsOf k similarities)))
                   (RAG_MIN_SIM env);
            query := question;
            response_metadata :=
              {| total_chunks := length (chunks indexData);
                 search_time_ms := searchTime env;
                 top_k := k;
                 min_similarity := RAG_MIN_SIM env;
                 average_score :=
                   averageOf (map (@sim_score num) (topResultsOf k similarities)) |} |}.
Proof.
  unfold retrieve. intros Hr.
  destruct (loadIndex (store env)) as [indexData|]; [|discriminate].
  cbn zeta in Hr. apply bind_Ok in Hr. destruct Hr as (sims & Hs & Hr).
  exists indexData, sims. repeat split; [exact Hs|]. congruence.
Qed.

(** [retrieve] depends on [k] only through [slice(0, k)]. *)
Lemma retrieve_any_k (env : Env num) (question : string) (k k' : nat)
    (resp : RetrievalResponse num) :
  retrieve env question k = Ok resp ->
  exists indexData similarities,
    loadIndex (store env) = Some indexData
    /\ similaritiesOf (embedQuery env question) (chunks indexData)
       = Ok similarities
    /\ retrieve env question k'
       = Ok {| results := map formatResult (topResultsOf k' similarities);
               confidence :=
                 ngeb (averageOf (map (@sim_score num) (topResultsOf k' similarities)))
                      (RAG_MIN_SIM env);
               query := question;
               response_metadata :=
                 {| total_chunks := length (chunks indexData);
                    search_time_ms := searchTime env;
                    top_k := k';
                    min_similarity := RAG_MIN_SIM env;
                    average_score :=
                      averageOf (map (@sim_score num) (topResultsOf k' similarities)) |} |}.
Proof.
  intros Hr. apply retrieve_unfold in Hr.
  destruct Hr as (indexData & sims & Hload & Hs & _).
  exists indexData, sims. repeat split; try assumption.
  unfold retrieve. rewrite Hload. cbn zeta. rewrite Hs. reflexivity.
Qed.

Lemma similaritiesOf_mismatch (queryEmbedding : list num)
    (chunks : list (IndexedChunk num)) :
  Exists (fun c => length (embedding c) <> length queryEmbedding) chunks ->
  similaritiesOf queryEmbedding chunks
  = Err (Error "Vectors must have same length").
Proof.
  unfold similaritiesOf. generalize 0 as start.
  induction chunks as [|c chunks IH]; intros start Hex; [inversion Hex|].
  cbn [length seq combine mapM fst snd].
  destruct (Nat.eq_dec (length (embedding c)) (length queryEmbedding)) as [Heq|Hne].
  - rewrite cosineSimilarity_same_length by (symmetry; exact Heq).
    cbn [bind]. rewrite IH; [reflexivity|].
    inversion Hex; subst; [contradiction|assumption].
  - rewrite cosineSimilarity_length_mismatch; [reflexivity|].
    intros Heq. apply Hne. symmetry. exact Heq.
Qed.

End FilteredRetrieval.

(** *** Query expansion *)

Section QueryExpansion.
Import RetrieverTools.

Lemma existsb_eqb_In (x : string) (seen : list string) :
  existsb (String.eqb x) seen = true <-> In x seen.
Proof.
  rewrite existsb_exists. split.
  - intros (y & Hy & Heq). apply String.eqb_eq in Heq. subst. exact Hy.
  - intros Hin. exists x. split; [exact Hin|apply String.eqb_refl].
Qed.

Lemma uniqueFrom_In (l : list string) :
  forall seen x, In x (uniqueFrom seen l) <-> In x l /\ ~ In x seen.
Proof.
  induction l as [|y l IH]; intros seen x; cbn [uniqueFrom].
  - simpl. tauto.
  - destruct (existsb (String.eqb y) seen) eqn:Hseen.
    + apply existsb_eqb_In in Hseen. rewrite IH. simpl.
      split; [tauto|]. intros [[-> | Hin] Hnot]; tauto.
    + assert (Hnot : ~ In y seen).
      { intros Hin. apply existsb_eqb_In in Hin. congruence. }
      simpl. rewrite IH. simpl.
      destruct (string_dec y x) as [-> | Hne]; tauto.
Qed.

Lemma uniqueFrom_NoDup (l : list string) :
  forall seen, NoDup (uniqueFrom seen l).
Proof.
  induction l as [|y l IH]; intros seen; cbn [uniqueFrom]; [constructor|].
  destruct (existsb (String.eqb y) seen); [apply IH|].
  constructor; [|apply IH].
  rewrite uniqueFrom_In. simpl. tauto.
Qed.

Lemma uniqueFrom_length (l : list string) :
  forall seen, length (uniqueFrom seen l) <= length l.
Proof.
  induction l as [|y l IH]; intros seen; cbn [uniqueFrom length]; [lia|].
  destruct (existsb (String.eqb y) seen); cbn [length].
  - specialize (IH seen). lia.
  - specialize (IH (y :: seen)). lia.
Qed.

(** The expansions a table gives for a query, before duplicates go. *)
Lemma fold_expandWith (query : string) (table : list (string * list string)) :
  forall acc,
    fold_left (expandWith query) table acc
    = acc ++ flat_map
               (fun entry =>
                  if includes (toLowerCase query) (fst entry)
                  then map (fun syn => replaceIgnoringCase (fst entry) syn 0 query)
                           (snd entry)
                  else [])
               table.
Proof.
  induction table as [|[term synonyms] table IH]; intros acc; cbn [fold_left flat_map].
  - rewrite app_nil_r. reflexivity.
  - rewrite IH. cbn [expandWith fst snd].
    destruct (includes (toLowerCase query) term).
    + rewrite <- app_assoc. reflexivity.
    + reflexivity.
Qed.

End QueryExpansion.

(** *** The records a retrieval returns *)

Section ReturnedRecords.
Import Indexer Embeddings Retriever.
Context {num : Type} `{JsNumber num}.

(** Each scored record is a record of the index, with the cosine of its
    embedding and the query's. *)
Lemma similaritiesOf_records (queryEmbedding : list num)
    (chunks : list (IndexedChunk num)) (similarities : list (Similarity num)) :
  similaritiesOf queryEmbedding chunks = Ok similarities ->
  map (@sim_chunk num) similarities = chunks
  /\ Forall (fun s => cosineSimilarity queryEmbedding (embedding (sim_chunk s))
                      = Ok (sim_score s))
            similarities.
Proof.
  unfold similaritiesOf. generalize 0 as start. revert similarities.
  induction chunks as [|c chunks IH]; intros similarities start Hs.
  - cbn in Hs. inversion Hs. split; [reflexivity|constructor].
  - cbn [length seq combine mapM fst snd] in Hs.
    apply bind_Ok in Hs. destruct Hs as (s & Hcos & Hs).
    apply bind_Ok in Hcos. destruct Hcos as (x & Hcos & Hx).
    inversion Hx; subst s; clear Hx.
    apply bind_Ok in Hs. destruct Hs as (rest & Hrest & Hs).
    inversion Hs; subst similarities; clear Hs.
    destruct (IH _ _ Hrest) as [Hchunks Hall].
    split.
    + cbn [map sim_chunk]. rewrite Hchunks. reflexivity.
    + constructor; [exact Hcos|exact Hall].
Qed.

Lemma StronglySorted_app {A : Type} (R : A -> A -> Prop) (a b : list A) :
  StronglySorted R (a ++ b) ->
  forall x y, In x a -> In y b -> R x y.
Proof.
  induction a as [|z a IH]; intros Hs x y Hx Hy; [destruct Hx|].
  cbn [app] in Hs. apply StronglySorted_inv in Hs. destruct Hs as [Hs Hall].
  destruct Hx as [-> | Hx].
  - rewrite Forall_forall in Hall. apply Hall. apply in_or_app. right. exact Hy.
  - apply IH; assumption.
Qed.

End ReturnedRecords.

Section RetrieverToolsClaims.
Import Indexer Embeddings Retriever RetrieverTools.
Import Floats.

(** retrieveFiltered: the results are results of [retrieve(question, 2k)]
    that pass every filter set, at most [k] of them; they are still ranked
    whenever the scores of the index compare (none of them is NaN); the
    confidence is recomputed from their mean. *)
Theorem retrieveFiltered_results {num : Type} `{JsNumber num}
    (env : Env num) (question : string) (filters : Filters num) (k : nat)
    (resp : RetrievalResponse num) :
  retrieveFiltered env question filters k = Ok resp ->
  (exists allResults,
      retrieve env question (k * 2) = Ok allResults
      /\ incl (results resp) (results allResults))
  /\ Forall (meetsFilters filters) (results resp)
  /\ length (results resp) <= k
  /\ (Comparable (candidateScores env question) ->
      nonIncreasing (results resp))
  /\ confidence resp
     = ngeb (averageOf (map (@score num) (results resp))) (RAG_MIN_SIM env).
Proof.
  intros Hr. unfold retrieveFiltered in Hr.
  apply bind_Ok in Hr. destruct Hr as (allResults & Hall & Hr).
  inversion Hr; subst resp; clear Hr. cbn [results confidence].
  destruct (applyFilters_filter filters (results allResults))
    as (keep & Hkeep & Hmeets).
  rewrite Hkeep.
  split; [|split; [|split; [|split]]].
  - exists allResults. split; [exact Hall|].
    intros r Hin. apply firstn_In in Hin. apply filter_In in Hin. tauto.
  - apply firstn_Forall. apply Forall_forall. intros r Hin.
    apply filter_In in Hin. apply Hmeets. tauto.
  - rewrite length_firstn. apply Nat.le_min_l.
  - intros Hcomp.
    destruct (retrieve_ranked _ _ _ Hall Hcomp) as [Hsorted _].
    apply firstn_StronglySorted. apply filter_StronglySorted. exact Hsorted.
  - reflexivity.
Qed.

(** The theorem at work in binary64: of the three records that score -1, 0
    and 1, the one of [OS_unit2.txt] passes the filters. *)
Lemma retrieveFiltered_results_witness :
  exists resp,
    retrieveFiltered Samples.rankingEnv "What is scheduling?" Scenarios.fromOS 2
    = Ok resp
    /\ map (@result_id _) (results resp) = ["OS_unit2.txt_chunk_0"%string]
    /\ Forall (meetsFilters Scenarios.fromOS) (results resp)
    /\ length (results resp) <= 2.
Proof.
  destruct (retrieveFiltered Samples.rankingEnv "What is scheduling?"
              Scenarios.fromOS 2) as [resp|e] eqn:Hr;
    [|vm_compute in Hr; discriminate].
  exists resp. split; [reflexivity|]. split.
  - pose proof Hr as Hr'. vm_compute in Hr'. inversion Hr'; subst.
    reflexivity.
  - destruct (@retrieveFiltered_results _ _ _ _ _ _ _ Hr)
      as (_ & Hmeets & Hlen & _).
    split; assumption.
Defined.

(** retrieveFiltered with no filter set returns the results, the
    confidence and the average score of [retrieve(question, k)]; only
    [top_k] differs, which is [2k]. *)
Theorem retrieveFiltered_unfiltered {num : Type} `{JsNumber num}
    (env : Env num) (question : string) (filters : Filters num) (k : nat)
    (resp : RetrievalResponse num) :
  unfiltered filters ->
  retrieve env question k = Ok resp ->
  exists resp',
    retrieveFiltered env question filters k = Ok resp'
    /\ results resp' = results resp
    /\ confidence resp' = confidence resp
    /\ average_score (response_metadata resp')
       = average_score (response_metadata resp)
    /\ query resp' = query resp
    /\ top_k (response_metadata resp') = k * 2.
Proof.
  intros Hnone Hr.
  destruct (retrieve_any_k env question k (k * 2) Hr)
    as (indexData & sims & Hload & Hs & Hall).
  apply retrieve_unfold in Hr.
  destruct Hr as (indexData' & sims' & Hload' & Hs' & ->).
  rewrite Hload in Hload'. inversion Hload'; subst indexData'.
  rewrite Hs in Hs'. inversion Hs'; subst sims'.
  unfold retrieveFiltered. rewrite Hall. cbn [bind results].
  rewrite (applyFilters_unfiltered _ Hnone).
  assert (Hfirst : firstn k (map formatResult (topResultsOf (k * 2) sims))
                   = map formatResult (topResultsOf k sims)).
  { rewrite firstn_map. f_equal.
    unfold topResultsOf. rewrite firstn_firstn. f_equal. lia. }
  rewrite Hfirst, map_score_formatResult.
  eexists. split; [reflexivity|]. cbn. repeat split.
Qed.

Lemma retrieveFiltered_unfiltered_witness :
  exists resp resp',
    retrieve Samples.rankingEnv "What is scheduling?" 2 = Ok resp
    /\ retrieveFiltered Samples.rankingEnv "What is scheduling?"
         Scenarios.noFilters 2 = Ok resp'
    /\ results resp' = results resp
    /\ confidence resp' = confidence resp.
Proof.
  destruct (retrieve Samples.rankingEnv "What is scheduling?" 2)
    as [resp|e] eqn:Hr; [|vm_compute in Hr; discriminate].
  assert (Hnone : unfiltered Scenarios.noFilters).
  { repeat split; [left|right]; reflexivity. }
  destruct (@retrieveFiltered_unfiltered _ _ _ _ _ _ _ Hnone Hr)
    as (resp' & Hf & Hres & Hconf & _).
  exists resp, resp'. repeat split; assumption.
Defined.

(** getRetrievalStats never rejects: it reports [no_index] when there is no
    index, [ready] with the count of its one-result test query when every
    embedding of the index has the length of the query's, and otherwise
    [error] with the message of [cosineSimilarity]. *)
Theorem getRetrievalStats_status {num : Type} `{JsNumber num}
    (env : Env num) (testTime : nat) :
  (loadIndex (store env) = None ->
   getRetrievalStats env testTime
   = no_index "No RAG index found. Run ingestion script first."%string)
  /\ (forall indexData,
         loadIndex (store env) = Some indexData ->
         (Forall (fun c => length (embedding c)
                           = length (embedQuery env "test query"%string))
                 (chunks indexData) ->
          exists confident,
            getRetrievalStats env testTime
            = ready (index_metadata indexData) (RAG_TOP_K env)
                (RAG_MIN_SIM env) testTime
                (Nat.min 1 (length (chunks indexData))) confident)
         /\ (Exists (fun c => length (embedding c)
                              <> length (embedQuery env "test query"%string))
                    (chunks indexData) ->
             getRetrievalStats env testTime
             = error "Vectors must have same length"%string)).
Proof.
  unfold getRetrievalStats. split.
  - intros ->. reflexivity.
  - intros indexData Hload. rewrite Hload. split.
    + intros Hall.
      destruct (retrieve_total env "test query"%string 1 Hload Hall) as (resp & Hr).
      rewrite Hr. exists (confidence resp). f_equal.
      apply retrieve_resolved in Hr.
      destruct Hr as (indexData' & sims & Hload' & Hs & Hres & _).
      rewrite Hload in Hload'. inversion Hload'; subst indexData'.
      rewrite Hres, length_map, topResultsOf_length.
      unfold similaritiesOf in Hs. apply mapM_length in Hs.
      rewrite Hs, length_combine, length_seq, Nat.min_id. reflexivity.
    + intros Hex. unfold retrieve. rewrite Hload. cbn zeta.
      rewrite (similaritiesOf_mismatch _ Hex). reflexivity.
Qed.

End RetrieverToolsClaims.

Section QueryExpansionClaims.
Import RetrieverTools.

(** expandQuery: the result starts with the query itself, lists after it
    exactly the expansions the table gives (for each term the query
    mentions, the query with the term replaced by each synonym), and holds
    no string twice; at most 20 strings, and the query alone when it
    mentions no term. *)
Theorem expandQuery_expansions (query : string) :
  (exists rest, expandQuery query = query :: rest)
  /\ (forall expansion,
        In expansion (expandQuery query)
        <-> expansion = query \/ synonymExpansion query expansion)
  /\ NoDup (expandQuery query)
  /\ length (expandQuery query) <= 20
  /\ ((forall term, In term (map fst synonymMap) ->
         includes (toLowerCase query) term = false) ->
      expandQuery query = [query]).
Proof.
  unfold expandQuery, Array_from_Set. rewrite fold_expandWith.
  split; [|split; [|split; [|split]]].
  - cbn [app uniqueFrom existsb]. eexists. reflexivity.
  - intros expansion. rewrite uniqueFrom_In. cbn [app In].
    rewrite in_flat_map. unfold synonymExpansion.
    split.
    + intros [[Heq | ([term synonyms] & Hentry & Hin)] _]; [left; congruence|].
      right. cbn [fst snd] in Hin.
      destruct (includes (toLowerCase query) term) eqn:Hinc; [|destruct Hin].
      apply in_map_iff in Hin. destruct Hin as (syn & Heq & Hsyn).
      exists term, synonyms, syn. repeat split; try assumption.
      symmetry. exact Heq.
    + intros [-> | (term & synonyms & syn & Hentry & Hsyn & Hinc & ->)];
        (split; [|tauto]); [left; reflexivity|].
      right. exists (term, synonyms). split; [exact Hentry|].
      cbn [fst snd]. rewrite Hinc. apply in_map_iff.
      exists syn. split; [reflexivity|exact Hsyn].
  - apply uniqueFrom_NoDup.
  - etransitivity; [apply uniqueFrom_length|].
    cbn [app length]. apply le_n_S.
    unfold synonymMap. cbn [flat_map fst snd].
    repeat match goal with
           | |- context [if ?b then _ else _] => destruct b
           end; cbn; lia.
  - intros Hnone.
    assert (Hflat : forall table : list (string * list string),
               (forall term, In term (map fst table) ->
                  includes (toLowerCase query) term = false) ->
               flat_map
                 (fun entry =>
                    if includes (toLowerCase query) (fst entry)
                    then map (fun syn => replaceIgnoringCase (fst entry) syn 0 query)
                             (snd entry)
                    else [])
                 table = []).
    { induction table as [|entry table IH]; intros Hn; cbn [flat_map];
        [reflexivity|].
      rewrite (Hn (fst entry)) by (left; reflexivity).
      apply IH. intros term Hin. apply Hn. right. exact Hin. }
    rewrite (Hflat _ Hnone). reflexivity.
Qed.

End QueryExpansionClaims.

Section ReturnedRecordsClaims.
Import Indexer Embeddings Retriever.
Import Floats.

(** retrieve returns records of the index: each result carries the id,
    text and metadata of a record of the index, and its score is the cosine
    similarity of that record's embedding and the query's. *)
Theorem retrieve_results_from_index {num : Type} `{JsNumber num}
    (env : Env num) (question : string) (k : nat) (resp : RetrievalResponse num) :
  retrieve env question k = Ok resp ->
  exists indexData,
    loadIndex (store env) = Some indexData
    /\ total_chunks (response_metadata resp) = length (chunks indexData)
    /\ Forall
         (fun r =>
            exists chunk,
              In chunk (chunks indexData)
              /\ result_id r = id chunk
              /\ result_text r = text chunk
              /\ result_metadata r = metadata chunk
              /\ cosineSimilarity (embedQuery env question) (embedding chunk)
                 = Ok (score r))
         (results resp).
Proof.
  intros Hr. apply retrieve_unfold in Hr.
  destruct Hr as (indexData & sims & Hload & Hs & ->).
  exists indexData. split; [exact Hload|]. split; [reflexivity|].
  cbn [results]. destruct (similaritiesOf_records _ _ Hs) as [Hchunks Hcos].
  apply Forall_forall. intros r Hin.
  apply in_map_iff in Hin. destruct Hin as (s & <- & Hin).
  unfold topResultsOf in Hin. apply firstn_In in Hin.
  apply (Permutation_in _ (Array_sort_permutation _ _)) in Hin.
  exists (sim_chunk s). split.
  - rewrite <- Hchunks. apply in_map. exact Hin.
  - rewrite Forall_forall in Hcos. repeat split. apply Hcos. exact Hin.
Qed.

Lemma retrieve_results_from_index_witness :
  exists resp indexData,
    retrieve Samples.rankingEnv "What is scheduling?" 2 = Ok resp
    /\ loadIndex (store Samples.rankingEnv) = Some indexData
    /\ total_chunks (response_metadata resp) = 3.
Proof.
  destruct (retrieve Samples.rankingEnv "What is scheduling?" 2)
    as [resp|e] eqn:Hr; [|vm_compute in Hr; discriminate].
  destruct (@retrieve_results_from_index _ _ _ _ _ _ Hr)
    as (indexData & Hload & Htotal & _).
  exists resp, indexData. repeat split; try assumption.
  rewrite Htotal. vm_compute in Hload. inversion Hload. reflexivity.
Defined.

(** retrieve returns the best: the scored records of the index are the
    results followed by records that score no higher than any result. *)
Theorem retrieve_top_k {num : Type} `{JsNumber num}
    (env : Env num) (question : string) (k : nat) (resp : RetrievalResponse num) :
  retrieve env question k = Ok resp ->
  Comparable (candidateScores env question) ->
  exists similarities others,
    (exists indexData,
        loadIndex (store env) = Some indexData
        /\ similaritiesOf (embedQuery env question) (chunks indexData)
           = Ok similarities)
    /\ Permutation (map formatResult similarities) (results resp ++ others)
    /\ forall r other, In r (results resp) -> In other others ->
         ngeb (score r) (score other) = true.
Proof.
  intros Hr Hcomp. apply retrieve_unfold in Hr.
  destruct Hr as (indexData & sims & Hload & Hs & ->).
  unfold candidateScores in Hcomp. rewrite Hload, Hs in Hcomp.
  exists sims,
    (map formatResult (skipn k (Array_sort byScoreDescending sims))).
  cbn [results]. unfold topResultsOf. split; [|split].
  - exists indexData. split; assumption.
  - rewrite <- map_app, firstn_skipn. apply Permutation_map.
    symmetry. apply Array_sort_permutation.
  - intros r other Hr Hother.
    assert (Hsorted : StronglySorted scoresAtLeast
                        (Array_sort byScoreDescending sims)).
    { apply (Array_sort_sorted Hcomp).
      apply Forall_forall. intros y Hy. apply in_map. exact Hy. }
    rewrite <- (firstn_skipn k) in Hsorted.
    apply in_map_iff in Hr. destruct Hr as (s & <- & Hs').
    apply in_map_iff in Hother. destruct Hother as (s' & <- & Hs'').
    exact (@StronglySorted_app _ _ _ _ Hsorted _ _ Hs' Hs'').
Qed.

Lemma retrieve_top_k_witness :
  exists resp others,
    retrieve Samples.rankingEnv "What is scheduling?" 2 = Ok resp
    /\ map (@score _) (results resp) = [1; 0]%float
    /\ length others = 1
    /\ forall r other, In r (results resp) -> In other others ->
         ngeb (score r) (score other) = true.
Proof.
  destruct (retrieve Samples.rankingEnv "What is scheduling?" 2)
    as [resp|e] eqn:Hr; [|vm_compute in Hr; discriminate].
  assert (Hcomp : Comparable (candidateScores Samples.rankingEnv
                                "What is scheduling?")).
  { apply comparableb_sound. vm_compute. reflexivity. }
  destruct (@retrieve_top_k _ _ _ _ _ _ Hr Hcomp)
    as (sims & others & (indexData & Hload & Hs) & Hperm & Hbest).
  exists resp, others. split; [reflexivity|].
  pose proof Hr as Hr'. vm_compute in Hr'. inversion Hr'; subst resp.
  split; [reflexivity|]. split; [|exact Hbest].
  apply Permutation_length in Hperm.
  rewrite length_map, length_app in Hperm.
  vm_compute in Hload. inversion Hload; subst indexData.
  apply similaritiesOf_records in Hs. destruct Hs as [Hchunks _].
  apply (f_equal (@length _)) in Hchunks. rewrite length_map in Hchunks.
  cbn in Hperm, Hchunks. lia.
Defined.

End ReturnedRecordsClaims.

(** ** The embedding service *)

Section HashEmbedding.
Import Embeddings EmbeddingService.


Lemma hexOf_length (bytes : list Byte.byte) :
  String.length (hexOf bytes) = 2 * length bytes.
Proof.
  induction bytes as [|b bytes IH]; [reflexivity|].
  cbn [hexOf hexOfByte append String.length length]. rewrite IH. lia.
Qed.


Section WithNumbers.
Context {num : Type} `{JsNumber num}.
Variable env : Env num.

Lemma hashEmbed_length (text : string) :
  length (hashEmbed env text) = 768.
Proof.
  unfold hashEmbed. rewrite !length_map, length_seq. reflexivity.
Qed.


Lemma hashCoordinate_period (hash : string) (i : nat) :
  String.length hash = 64 ->
  hashCoordinate env hash (i + 32) = hashCoordinate env hash i.
Proof.
  intros Hlen. unfold hashCoordinate. rewrite Hlen.
  replace ((i + 32) * 2) with (i * 2 + 1 * 64) by lia.
  rewrite Nat.Div0.mod_add. reflexivity.
Qed.

End WithNumbers.

(** *** In exact arithmetic *)

Local Open Scope R_scope.



End HashEmbedding.

(** *** Batches of requests *)

Section EmbedTexts.
Import Embeddings EmbeddingService.
Context {num : Type} `{JsNumber num}.
Variable env : Env num.

Lemma embedRequestCount_app (t t' : Trace) :
  requestCount (t ++ t') = requestCount t + requestCount t'.
Proof.
  induction t as [|[text|ms] t IH]; cbn [app requestCount]; lia.
Qed.

Lemma requestCount_requests (batch : list string) :
  requestCount (map (fun text => Request (substring 0 textLimit text)) batch)
  = length batch.
Proof.
  induction batch as [|text batch IH]; cbn [map requestCount length]; lia.
Qed.

(** A batch sends its requests in order; it resolves to the replies, and
    rejects when a reply is a failure. *)
Lemma Promise_all_run (batch : list string) :
  forall t,
    snd (Promise_all env batch t)
    = t ++ map (fun text => Request (substring 0 textLimit text)) batch
    /\ match fst (Promise_all env batch t) with
       | Some embeddings =>
           length embeddings = length batch
           /\ forall j values, nth_error embeddings j = Some values ->
                readEmbedding (service env (requestCount t + j)) = Ok values
       | None =>
           exists j e, j < length batch
                       /\ readEmbedding (service env (requestCount t + j)) = Err e
       end.
Proof.
  induction batch as [|text batch IH]; intros t; cbn [Promise_all].
  - cbn. rewrite app_nil_r. repeat split. intros [|j] values Hv; discriminate.
  - unfold generateSingleEmbedding.
    specialize (IH (t ++ [Request (substring 0 textLimit text)])).
    destruct (Promise_all env batch (t ++ [Request (substring 0 textLimit text)]))
      as [others t''].
    cbn [fst snd] in *. destruct IH as [Htrace Hothers].
    rewrite embedRequestCount_app in Hothers. cbn [requestCount] in Hothers.
    split.
    + rewrite Htrace, <- app_assoc. reflexivity.
    + destruct (readEmbedding (service env (requestCount t))) as [values|e] eqn:Hfirst.
      * destruct others as [embeddings|].
        -- destruct Hothers as [Hlen Hnth]. split; [cbn; lia|].
           intros [|j] v Hv; cbn [nth_error] in Hv.
           ++ inversion Hv; subst. rewrite Nat.add_0_r. exact Hfirst.
           ++ replace (requestCount t + S j) with (requestCount t + 1 + j) by lia.
              apply Hnth. exact Hv.
        -- destruct Hothers as (j & e & Hj & He).
           exists (S j), e. split; [cbn; lia|].
           replace (requestCount t + S j) with (requestCount t + 1 + j) by lia.
           exact He.
      * exists 0, e. split; [cbn; lia|]. rewrite Nat.add_0_r. exact Hfirst.
Qed.

Lemma successor_mod_10 (p : nat) :
  S p mod 10 = if p mod 10 =? 9 then 0 else S (p mod 10).
Proof.
  pose proof (Nat.div_mod_eq p 10) as Hp.
  pose proof (Nat.mod_upper_bound p 10 ltac:(discriminate)) as Hr.
  destruct (p mod 10 =? 9) eqn:H9.
  - apply Nat.eqb_eq in H9. symmetry.
    apply (Nat.mod_unique (S p) 10 (S (p / 10)) 0); lia.
  - apply Nat.eqb_neq in H9. symmetry.
    apply (Nat.mod_unique (S p) 10 (p / 10) (S (p mod 10))); lia.
Qed.

(** The rule on positions, read off a batch and what follows it. *)
Lemma batchedRequests_batch (rest : list string) (batch : list string) :
  forall p,
    p mod 10 + length batch <= 10 ->
    batchedRequests p (batch ++ rest)
    = map (fun text => Request (substring 0 textLimit text)) batch
      ++ (if (p mod 10 + length batch =? 10) && (0 <? length batch)
             && (0 <? length rest)
          then [Sleep 100] else [])
      ++ batchedRequests (p + length batch) rest.
Proof.
  induction batch as [|text batch IH]; intros p Hp.
  - cbn [app map length]. rewrite !Nat.add_0_r, andb_false_r. reflexivity.
  - cbn [app map length batchedRequests]. f_equal.
    rewrite successor_mod_10.
    cbn [length] in Hp.
    destruct batch as [|text' batch].
    + cbn [app map length].
      replace (p mod 10 + 1 =? 10) with (p mod 10 =? 9).
      2:{ destruct (p mod 10 =? 9) eqn:H9.
          - apply Nat.eqb_eq in H9. symmetry. apply Nat.eqb_eq. lia.
          - apply Nat.eqb_neq in H9. symmetry. apply Nat.eqb_neq. lia. }
      replace (p + 1) with (S p) by lia.
      destruct (p mod 10 =? 9); cbn [Nat.eqb andb Nat.ltb Nat.leb app];
        reflexivity.
    + cbn [length] in Hp.
      assert (H9 : (p mod 10 =? 9) = false) by (apply Nat.eqb_neq; lia).
      rewrite H9. cbn [Nat.eqb andb app].
      rewrite IH.
      2:{ rewrite successor_mod_10, H9. cbn [length]. lia. }
      rewrite successor_mod_10, H9.
      cbn [length].
      replace (S (p mod 10) + S (length batch))
        with (p mod 10 + S (S (length batch))) by lia.
      replace (S p + S (length batch)) with (p + S (S (length batch))) by lia.
      reflexivity.
Qed.

(** The loop, from round [i] on: it resolves to one embedding more for
    each text left, each the reply to the request sent for it, or it
    throws after a reply that is a failure. *)
Lemma batchLoop_run (texts : list string) :
  forall rounds i embeddings t,
    length texts <= i + 10 * rounds ->
    (exists sent,
        snd (batchLoop env rounds texts i embeddings t) = t ++ sent
        /\ requestCount sent <= length texts - i)
    /\ match fst (batchLoop env rounds texts i embeddings t) with
       | Some result =>
           exists fresh,
             result = embeddings ++ fresh
             /\ length fresh = length texts - i
             /\ (forall j values, nth_error fresh j = Some values ->
                   readEmbedding (service env (requestCount t + j)) = Ok values)
             /\ (i mod 10 = 0 ->
                 snd (batchLoop env rounds texts i embeddings t)
                 = t ++ batchedRequests i (skipn i texts))
       | None =>
           exists j e, j < length texts - i
                       /\ readEmbedding (service env (requestCount t + j)) = Err e
       end.
Proof.
  assert (Hdone : forall i embeddings (t : Trace),
             length texts <= i ->
             (exists sent, t = t ++ sent /\ requestCount sent <= length texts - i)
             /\ exists fresh : list (list num),
                  embeddings = embeddings ++ fresh
                  /\ length fresh = length texts - i
                  /\ (forall j values, nth_error fresh j = Some values ->
                        readEmbedding (service env (requestCount t + j)) = Ok values)
                  /\ (i mod 10 = 0 -> t = t ++ batchedRequests i (skipn i texts))).
  { intros i embeddings t Hi. split.
    - exists []. rewrite app_nil_r. split; [reflexivity|cbn; lia].
    - exists []. rewrite app_nil_r. repeat split.
      + cbn. lia.
      + intros [|j] values Hv; discriminate.
      + intros _. rewrite skipn_all2 by exact Hi. cbn. rewrite app_nil_r.
        reflexivity. }
  induction rounds as [|rounds IH]; intros i embeddings t Hfuel.
  - cbn [batchLoop fst snd]. apply Hdone. lia.
  - cbn [batchLoop]. destruct (i <? length texts) eqn:Hi.
    2:{ cbn [fst snd]. apply Hdone. apply Nat.ltb_ge. exact Hi. }
    apply Nat.ltb_lt in Hi.
    set (batch := firstn batchSize (skipn i texts)).
    assert (Hbatch : length batch = Nat.min 10 (length texts - i)).
    { unfold batch. rewrite length_firstn, length_skipn. reflexivity. }
    assert (Hsplit : skipn i texts = batch ++ skipn (i + 10) texts).
    { unfold batch, batchSize.
      rewrite <- (firstn_skipn 10 (skipn i texts)) at 1.
      rewrite skipn_skipn. rewrite (Nat.add_comm 10 i). reflexivity. }
    destruct (Promise_all_run batch t) as [Htrace Hreplies].
    destruct (Promise_all env batch t) as [[batchEmbeddings|] t'];
      cbn [fst snd] in Htrace, Hreplies.
    + destruct Hreplies as [Hlen Hnth]. unfold batchSize in *.
      match goal with
      | |- context [batchLoop _ _ _ _ _ ?next] => set (t'' := next)
      end.
      assert (Hcount : requestCount t'' = requestCount t + length batch).
      { unfold t''. destruct (i + 10 <? length texts);
          rewrite Htrace, ?embedRequestCount_app, requestCount_requests;
          cbn [requestCount]; lia. }
      specialize (IH (i + 10) (embeddings ++ batchEmbeddings) t'').
      destruct IH as [(sent & Hsent & Hsentn) Hresult]; [lia|].
      split.
      * exists ((map (fun text => Request (substring 0 textLimit text)) batch
                 ++ (if i + 10 <? length texts then [Sleep 100] else []))
                ++ sent).
        split.
        -- rewrite Hsent. unfold t''. rewrite Htrace.
           destruct (i + 10 <? length texts);
             rewrite <- ?app_assoc; cbn [app]; reflexivity.
        -- rewrite !embedRequestCount_app, requestCount_requests.
           destruct (i + 10 <? length texts); cbn [requestCount]; lia.
      * destruct (fst (batchLoop env rounds texts (i + 10)
                         (embeddings ++ batchEmbeddings) t''))
          as [result|] eqn:Hfst.
        -- destruct Hresult as (fresh & Hres & Hfresh & Hfnth & Hftrace).
           exists (batchEmbeddings ++ fresh). split; [|split; [|split]].
           ++ rewrite Hres, <- app_assoc. reflexivity.
           ++ rewrite length_app, Hlen, Hbatch, Hfresh. lia.
           ++ intros j values Hv.
              destruct (Nat.lt_ge_cases j (length batchEmbeddings)) as [Hj|Hj].
              ** rewrite nth_error_app1 in Hv by exact Hj. apply Hnth. exact Hv.
              ** rewrite nth_error_app2 in Hv by exact Hj.
                 apply Hfnth in Hv. rewrite Hcount in Hv.
                 replace (requestCount t + j)
                   with (requestCount t + length batch
                         + (j - length batchEmbeddings)) by lia.
                 exact Hv.
           ++ intros Hmod. rewrite Hftrace.
              2:{ replace (i + 10) with (i + 1 * 10) by lia.
                  rewrite Nat.Div0.mod_add. exact Hmod. }
              rewrite Hsplit.
              rewrite batchedRequests_batch by (rewrite Hmod, Hbatch; lia).
              rewrite Hmod. cbn [Nat.add].
              unfold t''. rewrite Htrace, length_skipn.
              destruct (i + 10 <? length texts) eqn:Hmore.
              ** apply Nat.ltb_lt in Hmore.
                 assert (Hten : length batch = 10) by lia.
                 replace (0 <? length texts - (i + 10)) with true
                   by (symmetry; apply Nat.ltb_lt; lia).
                 rewrite Hten. cbn [Nat.eqb Nat.ltb Nat.leb andb].
                 rewrite <- !app_assoc. reflexivity.
              ** apply Nat.ltb_ge in Hmore.
                 replace (0 <? length texts - (i + 10)) with false
                   by (symmetry; apply Nat.ltb_ge; lia).
                 rewrite andb_false_r. cbn [app].
                 rewrite (skipn_all2 texts) by lia.
                 cbn [batchedRequests]. rewrite !app_nil_r. reflexivity.
        -- destruct Hresult as (j & e & Hj & He).
           exists (length batch + j), e. split; [lia|].
           rewrite Hcount in He. rewrite Nat.add_assoc. exact He.
    + split.
      * exists (map (fun text => Request (substring 0 textLimit text)) batch).
        split; [exact Htrace|]. rewrite requestCount_requests. lia.
      * destruct Hreplies as (j & e & Hj & He). exists j, e.
        split; [lia|exact He].
Qed.

(** One embedding for each text. *)
Lemma embedTexts_length (texts : list string) (t : Trace) :
  length (fst (embedTexts env texts t)) = length texts.
Proof.
  unfold embedTexts.
  destruct (GEMINI_API_KEY env) as [[|c key]|];
    try (cbn [fst]; apply length_map).
  destruct (batchLoop_run texts (length texts) 0 [] t) as [_ Hresult]; [lia|].
  destruct (batchLoop env (length texts) texts 0 [] t) as [[result|] t'];
    cbn [fst snd] in *.
  - destruct Hresult as (fresh & -> & Hlen & _). cbn [app]. lia.
  - apply length_map.
Qed.

End EmbedTexts.

Section HashEmbeddingClaims.
Import Embeddings EmbeddingService.

(** hashEmbed: a vector of 768 coordinates whatever the text, so that the
    cosine similarity of two hash embeddings never throws; the coordinates
    repeat the 32 bytes of the digest, 24 times. *)
Theorem hashEmbed_dimension {num : Type} `{JsNumber num} (env : Env num) :
  (forall text, length (hashEmbed env text) = 768)
  /\ (forall a b, exists s,
         cosineSimilarity (hashEmbed env a) (hashEmbed env b) = Ok s)
  /\ (forall text i,
         length (sha256 env (trim (toLowerCase text))) = 32 ->
         i + 32 < 768 ->
         nth (i + 32) (hashEmbed env text) nzero
         = nth i (hashEmbed env text) nzero).
Proof.
  split; [|split].
  - apply hashEmbed_length.
  - intros a b. rewrite cosineSimilarity_same_length
      by (rewrite !hashEmbed_length; reflexivity).
    eexists. reflexivity.
  - intros text i Hlen Hi. unfold hashEmbed.
    set (hash := hexOf (sha256 env (trim (toLowerCase text)))).
    assert (Hhash : String.length hash = 64).
    { unfold hash. rewrite hexOf_length, Hlen. reflexivity. }
    set (scale := fun val : num => _).
    assert (Hnth : forall j, j < 768 ->
               nth j (map scale (map (hashCoordinate env hash)
                                     (seq 0 EMBEDDING_DIMENSION))) nzero
               = scale (hashCoordinate env hash j)).
    { intros j Hj. rewrite map_map.
      rewrite (nth_indep _ nzero (scale (hashCoordinate env hash 0)))
        by (rewrite length_map, length_seq; exact Hj).
      rewrite (map_nth (fun i => scale (hashCoordinate env hash i)) _ 0).
      rewrite seq_nth by exact Hj. reflexivity. }
    rewrite !Hnth by lia.
    rewrite hashCoordinate_period by exact Hhash. reflexivity.
Qed.



End HashEmbeddingClaims.

Section EmbedTextsClaims.
Import Embeddings EmbeddingService.
Import Floats.

(** embedTexts never rejects and returns one embedding for each text:
    either the reply of the service to each request, in order, or, as soon
    as the key is missing or a request fails, the hash embedding of every
    text, never a mix of the two.  It sends at most one request for each
    text, and none without a key. *)
Theorem embedTexts_all_or_nothing {num : Type} `{JsNumber num}
    (env : Env num) (texts : list string) (t : Trace) :
  length (fst (embedTexts env texts t)) = length texts
  /\ (fst (embedTexts env texts t) = map (hashEmbed env) texts
      \/ (keyIsSet (GEMINI_API_KEY env)
          /\ forall j values,
               nth_error (fst (embedTexts env texts t)) j = Some values ->
               readEmbedding (service env (requestCount t + j)) = Ok values))
  /\ (exists sent,
         snd (embedTexts env texts t) = t ++ sent
         /\ requestCount sent <= length texts
         /\ (~ keyIsSet (GEMINI_API_KEY env) -> sent = [])).
Proof.
  unfold embedTexts.
  assert (Hoff : forall t : Trace,
             length (fst (map (hashEmbed env) texts, t)) = length texts
             /\ (fst (map (hashEmbed env) texts, t) = map (hashEmbed env) texts
                 \/ (keyIsSet (GEMINI_API_KEY env)
                     /\ forall j values,
                          nth_error (fst (map (hashEmbed env) texts, t)) j
                          = Some values ->
                          readEmbedding (service env (requestCount t + j))
                          = Ok values))
             /\ (exists sent,
                    snd (map (hashEmbed env) texts, t) = t ++ sent
                    /\ requestCount sent <= length texts
                    /\ (~ keyIsSet (GEMINI_API_KEY env) -> sent = []))).
  { intros t0. cbn [fst snd]. split; [apply length_map|].
    split; [left; reflexivity|].
    exists []. rewrite app_nil_r. repeat split. cbn. lia. }
  destruct (GEMINI_API_KEY env) as [[|c key]|] eqn:Hkey; try apply Hoff.
  assert (Hset : keyIsSet (Some (String c key))) by (exists c, key; reflexivity).
  destruct (batchLoop_run env texts (length texts) 0 [] t) as
    [(sent & Hsent & Hcount) Hresult]; [lia|].
  destruct (batchLoop env (length texts) texts 0 [] t) as [[result|] t'];
    cbn [fst snd] in *.
  - destruct Hresult as (fresh & -> & Hlen & Hnth & _). cbn [app].
    split; [lia|]. split.
    + right. split; [exact Hset|exact Hnth].
    + exists sent. repeat split; [exact Hsent|lia|]. intros Hno. contradiction.
  - split; [apply length_map|]. split; [left; reflexivity|].
    exists sent. repeat split; [exact Hsent|lia|]. intros Hno. contradiction.
Qed.

(** embedTexts when no request fails: the embeddings are the replies, and
    the requests leave in batches of ten, each text cut to 30000 code units,
    with a pause of 100 ms after each batch but the last. *)
Theorem embedTexts_batches {num : Type} `{JsNumber num}
    (env : Env num) (texts : list string) (t : Trace) :
  keyIsSet (GEMINI_API_KEY env) ->
  (forall j, j < length texts ->
     exists values, readEmbedding (service env (requestCount t + j)) = Ok values) ->
  snd (embedTexts env texts t) = t ++ batchedRequests 0 texts
  /\ length (fst (embedTexts env texts t)) = length texts
  /\ forall j values,
       nth_error (fst (embedTexts env texts t)) j = Some values ->
       readEmbedding (service env (requestCount t + j)) = Ok values.
Proof.
  intros (c & key & Hkey) Hfine. unfold embedTexts. rewrite Hkey.
  destruct (batchLoop_run env texts (length texts) 0 [] t) as
    [_ Hresult]; [lia|].
  destruct (batchLoop env (length texts) texts 0 [] t) as [[result|] t'];
    cbn [fst snd] in *.
  - destruct Hresult as (fresh & -> & Hlen & Hnth & Htrace). cbn [app].
    split; [apply Htrace; reflexivity|]. split; [lia|exact Hnth].
  - destruct Hresult as (j & e & Hj & He).
    destruct (Hfine j) as (values & Hv); [lia|]. congruence.
Qed.

(** Twelve texts: ten requests, a pause, two requests. *)
Lemma embedTexts_batches_witness :
  snd (embedTexts Scenarios.online Scenarios.twelveTexts [])
  = [ Request "text 0"; Request "text 1"; Request "text 2"; Request "text 3";
      Request "text 4"; Request "text 5"; Request "text 6"; Request "text 7";
      Request "text 8"; Request "text 9"; Sleep 100;
      Request "text 10"; Request "text 11" ]
  /\ length (fst (embedTexts Scenarios.online Scenarios.twelveTexts [])) = 12.
Proof.
  assert (Hkey : keyIsSet (GEMINI_API_KEY Scenarios.online)).
  { exists "t"%char, "est-key"%string. reflexivity. }
  assert (Hfine : forall j, j < length Scenarios.twelveTexts ->
            exists values,
              readEmbedding (service Scenarios.online (requestCount [] + j))
              = Ok values).
  { intros j _. eexists. reflexivity. }
  destruct (embedTexts_batches Scenarios.online Scenarios.twelveTexts [] Hkey Hfine)
    as (Htrace & Hlen & _).
  split; [rewrite Htrace; reflexivity|exact Hlen].
Defined.

(** embedQuery never rejects and always returns a vector: without a key the
    hash embedding of the query, with no request sent; with a key the reply
    to its one request, or the hash embedding when that request fails.  It
    never pauses. *)
Theorem embedQuery_fallback {num : Type} `{JsNumber num}
    (env : Env num) (query : string) (t : Trace) :
  (~ keyIsSet (GEMINI_API_KEY env) ->
   embedQuery env query t = (hashEmbed env query, t))
  /\ (keyIsSet (GEMINI_API_KEY env) ->
      embedQuery env query t
      = (match readEmbedding (service env (requestCount t)) with
         | Ok values => values
         | Err _ => hashEmbed env query
         end,
         t ++ [Request (substring 0 textLimit query)])).
Proof.
  unfold embedQuery, embedTexts. split.
  - intros Hno. destruct (GEMINI_API_KEY env) as [[|c key]|]; try reflexivity.
    exfalso. apply Hno. exists c, key. reflexivity.
  - intros (c & key & ->).
    cbn [length batchLoop Nat.ltb Nat.leb skipn firstn batchSize Promise_all].
    unfold generateSingleEmbedding.
    destruct (readEmbedding (service env (requestCount t))); reflexivity.
Qed.

End EmbedTextsClaims.

(** ** The index file *)

Section IndexFileFacts.
Import Indexer IndexFiles.
Context {num : Type} `{JsNumber num}.
Variable io : Io num.

Lemma loadIndex_supported (st : Store num) :
  supportedDriver (RAG_INDEX_DRIVER st) -> loadIndex st = loadJsonIndex st.
Proof.
  unfold loadIndex. intros [-> | [-> | ->]]; reflexivity.
Qed.

Lemma loadIndex_absent (disk : Disk) :
  disk = None -> loadIndex (storeOn io disk) = None.
Proof.
  intros ->. destruct (loadIndex_cases (storeOn io None)) as [-> | ->];
    reflexivity.
Qed.

Lemma indexedChunksOf_fields (chunks : list (DocumentChunk num))
    (embeddings : list (list num)) :
  length embeddings = length chunks ->
  length (indexedChunksOf chunks embeddings) = length chunks
  /\ map (@id num) (indexedChunksOf chunks embeddings) = map (@doc_id num) chunks
  /\ map (@text num) (indexedChunksOf chunks embeddings)
     = map (@doc_text num) chunks
  /\ map (@metadata num) (indexedChunksOf chunks embeddings)
     = map (@doc_metadata num) chunks
  /\ map (@embedding num) (indexedChunksOf chunks embeddings) = embeddings.
Proof.
  unfold indexedChunksOf. intros Hlen.
  assert (Hgen : forall (chunks : list (DocumentChunk num)) start
                        (rest : list (list num)),
             length rest = length chunks ->
             (forall j, j < length rest ->
                nth (start + j) embeddings [] = nth j rest []) ->
             let built :=
               map (fun ic : nat * DocumentChunk num =>
                      {| id := doc_id (snd ic);
                         text := doc_text (snd ic);
                         metadata := doc_metadata (snd ic);
                         embedding := nth (fst ic) embeddings [] |})
                   (combine (seq start (length chunks)) chunks) in
             length built = length chunks
             /\ map (@id num) built = map (@doc_id num) chunks
             /\ map (@text num) built = map (@doc_text num) chunks
             /\ map (@metadata num) built = map (@doc_metadata num) chunks
             /\ map (@embedding num) built = rest).
  { clear chunks Hlen. intros chunks. induction chunks as [|c chunks IH];
      intros start rest Hrest Hnth.
    - destruct rest; [|discriminate]. cbn. repeat split.
    - destruct rest as [|e rest]; [discriminate|].
      cbn [length seq combine map fst snd id text metadata embedding].
      destruct (IH (S start) rest) as (Hl & Hi & Ht & Hm & He).
      + cbn [length] in Hrest. lia.
      + intros j Hj. replace (S start + j) with (start + S j) by lia.
        rewrite Hnth by (cbn [length]; lia). reflexivity.
      + cbn zeta in *. repeat split; try congruence.
        f_equal; [|exact He].
        specialize (Hnth 0). rewrite Nat.add_0_r in Hnth.
        apply Hnth. cbn [length]. lia. }
  apply (Hgen chunks 0 embeddings Hlen). intros j _. reflexivity.
Qed.

(** What a successful [buildIndex] leaves behind. *)
Lemma buildIndex_written (chunks : list (DocumentChunk num)) (driver : string)
    (disk : Disk) (t : EmbeddingService.Trace) (indexData : IndexData num) :
  indexData
  = indexDataOf io
      (indexedChunksOf chunks
         (fst (EmbeddingService.embedTexts (embedder io)
                 (map (@doc_text num) chunks) t))) ->
  mkdir io = Ok tt ->
  supportedDriver driver ->
  supportedDriver (driverSetting io) ->
  writeFile io (JSON_stringify io indexData) = Ok tt ->
  JSON_parse io (JSON_stringify io indexData) = Ok indexData ->
  buildIndex io chunks driver disk t
  = (Ok tt, Some (JSON_stringify io indexData),
     snd (EmbeddingService.embedTexts (embedder io)
            (map (@doc_text num) chunks) t))
  /\ loadIndex (storeOn io (Some (JSON_stringify io indexData)))
     = Some indexData.
Proof.
  intros Hdata Hmkdir Hdriver Hsetting Hwrite Hparse.
  assert (Hbuild : buildJsonIndex io
                     (indexedChunksOf chunks
                        (fst (EmbeddingService.embedTexts (embedder io)
                                (map (@doc_text num) chunks) t))) disk
                   = (Ok tt, Some (JSON_stringify io indexData))).
  { unfold buildJsonIndex. rewrite <- Hdata, Hwrite. reflexivity. }
  split.
  - unfold buildIndex. rewrite Hmkdir.
    destruct (EmbeddingService.embedTexts (embedder io)
                (map (@doc_text num) chunks) t) as [embeddings t'].
    cbn [fst snd] in *. unfold buildFaissIndex, buildChromaIndex.
    destruct Hdriver as [-> | [-> | ->]]; cbn [String.eqb Ascii.eqb Bool.eqb];
      rewrite Hbuild; reflexivity.
  - rewrite loadIndex_supported by exact Hsetting.
    unfold loadJsonIndex. cbn [storeOn readIndexFile bind Indexer.JSON_parse].
    rewrite Hparse. reflexivity.
Qed.

End IndexFileFacts.

Section IndexFileClaims.
Import Indexer IndexFiles.
Import Floats.

(** buildIndex then loadIndex: when the directory and the file can be
    written and the index written parses back, [loadIndex] returns the
    chunks given to [buildIndex], in order, each with the embedding
    [embedTexts] gave for its text, and [chunk_count] their number;
    [getIndexStats] reports it ready.  The drivers faiss and chroma write
    the same JSON file. *)
Theorem buildIndex_then_loadIndex {num : Type} `{JsNumber num}
    (io : Io num) (chunks : list (DocumentChunk num)) (driver : string)
    (disk : Disk) (t : EmbeddingService.Trace) (indexData : IndexData num) :
  indexData
  = indexDataOf io
      (indexedChunksOf chunks
         (fst (EmbeddingService.embedTexts (embedder io)
                 (map (@doc_text num) chunks) t))) ->
  mkdir io = Ok tt ->
  supportedDriver driver ->
  supportedDriver (driverSetting io) ->
  writeFile io (JSON_stringify io indexData) = Ok tt ->
  JSON_parse io (JSON_stringify io indexData) = Ok indexData ->
  exists disk' t',
    buildIndex io chunks driver disk t = (Ok tt, disk', t')
    /\ loadIndex (storeOn io disk') = Some indexData
    /\ map (@id num) (Indexer.chunks indexData) = map (@doc_id num) chunks
    /\ map (@text num) (Indexer.chunks indexData) = map (@doc_text num) chunks
    /\ map (@metadata num) (Indexer.chunks indexData)
       = map (@doc_metadata num) chunks
    /\ map (@embedding num) (Indexer.chunks indexData)
       = fst (EmbeddingService.embedTexts (embedder io)
                (map (@doc_text num) chunks) t)
    /\ chunk_count (index_metadata indexData) = length chunks
    /\ getIndexStats io disk'
       = ready "json" (length chunks) (fst (clock io)) (snd (clock io))
           "text-embedding-004".
Proof.
  intros Hdata Hmkdir Hdriver Hsetting Hwrite Hparse.
  pose proof (embedTexts_length (embedder io) (map (@doc_text num) chunks) t)
    as Hlen.
  rewrite length_map in Hlen.
  destruct (indexedChunksOf_fields chunks _ Hlen)
    as (Hn & Hid & Htext & Hmeta & Hemb).
  destruct (buildIndex_written chunks disk t Hdata Hmkdir Hdriver Hsetting
              Hwrite Hparse) as [Hbuild Hload].
  exists (Some (JSON_stringify io indexData)),
    (snd (EmbeddingService.embedTexts (embedder io) (map (@doc_text num) chunks) t)).
  split; [exact Hbuild|]. split; [exact Hload|].
  unfold getIndexStats. rewrite Hload. subst indexData.
  cbn [Indexer.chunks index_metadata indexDataOf chunk_count Indexer.driver
       index_created_at updated_at embedding_model].
  rewrite Hn. repeat split; assumption.
Qed.

(** Two chunks, hash embeddings, the json driver. *)
Lemma buildIndex_then_loadIndex_witness :
  exists disk' t',
    buildIndex (Scenarios.indexIo "json") Scenarios.twoChunks "json" None []
    = (Ok tt, disk', t')
    /\ loadIndex (storeOn (Scenarios.indexIo "json") disk')
       = Some Scenarios.builtIndex
    /\ map (@text _) (Indexer.chunks Scenarios.builtIndex)
       = ["Trees. Heaps are trees."; "trees. Queues use heaps."]%string.
Proof.
  assert (Hdata : Scenarios.builtIndex
                  = indexDataOf (Scenarios.indexIo "json")
                      (indexedChunksOf Scenarios.twoChunks
                         (fst (EmbeddingService.embedTexts
                                 (embedder (Scenarios.indexIo "json"))
                                 (map (@doc_text _) Scenarios.twoChunks) []))))
    by (vm_compute; reflexivity).
  destruct (@buildIndex_then_loadIndex _ _ (Scenarios.indexIo "json")
              Scenarios.twoChunks "json" None [] Scenarios.builtIndex Hdata)
    as (disk' & t' & Hbuild & Hload & _ & Htext & _).
  - reflexivity.
  - left. reflexivity.
  - left. reflexivity.
  - reflexivity.
  - reflexivity.
  - exists disk', t'. split; [exact Hbuild|]. split; [exact Hload|].
    rewrite Htext. vm_compute. reflexivity.
Defined.

(** buildIndex with a driver it does not know rejects with
    "Unsupported index driver: ..." and leaves the index file as it was,
    but only after it has asked for the embeddings of all the texts. *)
Theorem buildIndex_unsupported_driver {num : Type} `{JsNumber num}
    (io : Io num) (chunks : list (DocumentChunk num)) (driver : string)
    (disk : Disk) (t : EmbeddingService.Trace) :
  mkdir io = Ok tt ->
  ~ supportedDriver driver ->
  buildIndex io chunks driver disk t
  = (Err (Error ("Unsupported index driver: " ++ driver)), disk,
     snd (EmbeddingService.embedTexts (embedder io)
            (map (@doc_text num) chunks) t)).
Proof.
  intros Hmkdir Hdriver. unfold buildIndex. rewrite Hmkdir.
  destruct (EmbeddingService.embedTexts (embedder io)
              (map (@doc_text num) chunks) t) as [embeddings t'].
  cbn [snd].
  destruct (String.eqb_spec driver "json") as [-> | _];
    [exfalso; apply Hdriver; left; reflexivity|].
  destruct (String.eqb_spec driver "faiss") as [-> | _];
    [exfalso; apply Hdriver; right; left; reflexivity|].
  destruct (String.eqb_spec driver "chroma") as [-> | _];
    [exfalso; apply Hdriver; right; right; reflexivity|].
  reflexivity.
Qed.

Lemma buildIndex_unsupported_driver_witness :
  buildIndex (Scenarios.indexIo "json") Scenarios.twoChunks "unsupported_driver"
    (Some "{ chunks: [] }"%string) []
  = (Err (Error "Unsupported index driver: unsupported_driver"),
     Some "{ chunks: [] }"%string, []).
Proof.
  apply (@buildIndex_unsupported_driver _ _ (Scenarios.indexIo "json")
           Scenarios.twoChunks "unsupported_driver").
  - reflexivity.
  - intros [Hd | [Hd | Hd]]; discriminate.
Defined.

(** clearIndex never rejects and leaves the file either gone or as it
    was; when the file was absent or could be removed, [loadIndex] then
    resolves to null and [getIndexStats] reports [not_found] with no
    chunk. *)
Theorem clearIndex_then_loadIndex {num : Type} `{JsNumber num}
    (io : Io num) (disk : Disk) :
  (clearIndex io disk = None \/ clearIndex io disk = disk)
  /\ (disk = None \/ unlink io = Ok tt ->
      clearIndex io disk = None
      /\ loadIndex (storeOn io (clearIndex io disk)) = None
      /\ getIndexStats io (clearIndex io disk)
         = not_found (driverSetting io) 0).
Proof.
  split.
  - unfold clearIndex. destruct disk; [|left; reflexivity].
    destruct (unlink io); [left|right]; reflexivity.
  - intros Hgone.
    assert (Hclear : clearIndex io disk = None).
    { unfold clearIndex. destruct Hgone as [-> | ->]; [reflexivity|].
      destruct disk; reflexivity. }
    rewrite Hclear. split; [reflexivity|].
    unfold getIndexStats. rewrite (loadIndex_absent io (eq_refl None)).
    split; reflexivity.
Qed.

(** Offline, end to end: without an API key, an index that [buildIndex]
    wrote can always be queried.  [buildIndex] sends no request, every
    embedding of the index and of a query is a hash embedding of 768
    coordinates, so [retrieve] never throws and returns [k] results, or
    as many as there are chunks. *)
Theorem offline_index_answers {num : Type} `{JsNumber num} (io : Io num)
    (chunks : list (DocumentChunk num)) (driver : string)
    (disk : Disk) (t : EmbeddingService.Trace)
    (indexData : IndexData num) :
  ~ keyIsSet (EmbeddingService.GEMINI_API_KEY (embedder io)) ->
  indexData
  = indexDataOf io
      (indexedChunksOf chunks
         (fst (EmbeddingService.embedTexts (embedder io)
                 (map (@doc_text _) chunks) t))) ->
  mkdir io = Ok tt ->
  supportedDriver driver ->
  supportedDriver (driverSetting io) ->
  writeFile io (JSON_stringify io indexData) = Ok tt ->
  JSON_parse io (JSON_stringify io indexData) = Ok indexData ->
  exists disk',
    buildIndex io chunks driver disk t = (Ok tt, disk', t)
    /\ forall (question : string) (k topK searchTime : nat) (minSim : num),
         exists resp,
           Retriever.retrieve
             {| Retriever.RAG_TOP_K := topK;
                Retriever.RAG_MIN_SIM := minSim;
                Retriever.store := storeOn io disk';
                Retriever.embedQuery :=
                  fun q => fst (EmbeddingService.embedQuery (embedder io) q []);
                Retriever.searchTime := searchTime |}
             question k = Ok resp
           /\ length (Retriever.results resp) = Nat.min k (length chunks).
Proof.
  intros Hno Hdata Hmkdir Hdriver Hsetting Hwrite Hparse.
  destruct (buildIndex_written chunks disk t Hdata Hmkdir Hdriver Hsetting
              Hwrite Hparse) as [Hbuild Hload].
  assert (Hoff : forall texts t0,
             EmbeddingService.embedTexts (embedder io) texts t0
             = (map (EmbeddingService.hashEmbed (embedder io)) texts, t0)).
  { intros texts t0. unfold EmbeddingService.embedTexts.
    destruct (EmbeddingService.GEMINI_API_KEY (embedder io)) as [[|c key]|];
      try reflexivity.
    exfalso. apply Hno. exists c, key. reflexivity. }
  rewrite Hoff in Hbuild. cbn [snd] in Hbuild.
  exists (Some (JSON_stringify io indexData)). split; [exact Hbuild|].
  intros question k topK searchTime minSim.
  set (env := {| Retriever.RAG_TOP_K := topK |}).
  assert (Hquery : length (Retriever.embedQuery env question) = 768).
  { cbn [Retriever.embedQuery env]. unfold EmbeddingService.embedQuery.
    rewrite Hoff. cbn [fst map nth]. apply hashEmbed_length. }
  assert (Hchunks : length (Indexer.chunks indexData) = length chunks
                    /\ Forall (fun c => length (embedding c) = 768)
                              (Indexer.chunks indexData)).
  { rewrite Hdata, Hoff. cbn [fst indexDataOf Indexer.chunks].
    destruct (indexedChunksOf_fields chunks
                (map (EmbeddingService.hashEmbed (embedder io))
                     (map (@doc_text _) chunks)))
      as (Hn & _ & _ & _ & Hemb); [rewrite !length_map; reflexivity|].
    split; [exact Hn|].
    apply Forall_forall. intros c Hc.
    apply (in_map (@embedding _)) in Hc. rewrite Hemb in Hc.
    apply in_map_iff in Hc. destruct Hc as (text & <- & _).
    apply hashEmbed_length. }
  destruct Hchunks as [Hn Hall].
  destruct (@retrieve_total _ _ env question k indexData Hload) as (resp & Hr).
  { apply Forall_forall. intros c Hc. rewrite Forall_forall in Hall.
    rewrite Hquery. apply Hall. exact Hc. }
  exists resp. split; [exact Hr|].
  apply retrieve_unfold in Hr.
  destruct Hr as (indexData' & sims & Hload' & Hs & ->).
  cbn [Retriever.store env] in Hload'. rewrite Hload in Hload'.
  inversion Hload'; subst indexData'.
  cbn [Retriever.results]. rewrite length_map, topResultsOf_length.
  unfold Retriever.similaritiesOf in Hs. apply mapM_length in Hs.
  rewrite Hs, length_combine, length_seq, Nat.min_id, Hn. reflexivity.
Qed.

Lemma offline_index_answers_witness :
  exists resp,
    Retriever.retrieve
      {| Retriever.RAG_TOP_K := 5;
         Retriever.RAG_MIN_SIM := 0.25%float;
         Retriever.store :=
           storeOn (Scenarios.indexIo "json") (Some "{ chunks: [ ... ] }"%string);
         Retriever.embedQuery :=
           fun q => fst (EmbeddingService.embedQuery Scenarios.offlineFloat q []);
         Retriever.searchTime := 3 |}
      "What is a heap?" 5 = Ok resp
    /\ length (Retriever.results resp) = 2.
Proof.
  assert (Hno : ~ keyIsSet (EmbeddingService.GEMINI_API_KEY
                              (embedder (Scenarios.indexIo "json")))).
  { intros (c & key & Hkey). discriminate. }
  assert (Hdata : Scenarios.builtIndex
                  = indexDataOf (Scenarios.indexIo "json")
                      (indexedChunksOf Scenarios.twoChunks
                         (fst (EmbeddingService.embedTexts
                                 (embedder (Scenarios.indexIo "json"))
                                 (map (@doc_text _) Scenarios.twoChunks) []))))
    by (vm_compute; reflexivity).
  destruct (@offline_index_answers _ _ (Scenarios.indexIo "json")
              Scenarios.twoChunks "json" None [] Scenarios.builtIndex Hno Hdata)
    as (disk' & Hbuild & Hquery).
  - reflexivity.
  - left. reflexivity.
  - left. reflexivity.
  - reflexivity.
  - reflexivity.
  - assert (Hdisk : disk' = Some "{ chunks: [ ... ] }"%string).
    { vm_compute in Hbuild. inversion Hbuild. reflexivity. }
    subst disk'.
    destruct (Hquery "What is a heap?"%string 5 5 3 0.25%float)
      as (resp & Hr & Hlen).
    exists resp. split; [exact Hr|]. rewrite Hlen. reflexivity.
Defined.

End IndexFileClaims.

(** ** The generation client: effort and structured responses *)

Section ClientEffort.
Import GeminiClient.
Variable Config : Type.
Variable env : Env.

Lemma pausedMs_app (t t' : Trace Config) :
  pausedMs (t ++ t') = pausedMs t + pausedMs t'.
Proof.
  induction t as [|[model prompt config|ms] t IH]; cbn [app pausedMs]; lia.
Qed.

(** The pauses of [n] attempts add up to [2^(n-1) - 1] seconds, scaled by
    the first of them. *)
Lemma attemptsFrom_paused (model prompt : string) (config : Config) :
  forall n attempt,
    1 <= attempt ->
    pausedMs (attemptsFrom model prompt config attempt (S n)) + 2 ^ (attempt - 1) * 1000
    = 2 ^ (attempt - 1) * 2 ^ n * 1000.
Proof.
  induction n as [|n IH]; intros attempt Hattempt.
  - cbn [attemptsFrom pausedMs Nat.pow]. lia.
  - change (attemptsFrom model prompt config attempt (S (S n)))
      with (Request model prompt config
            :: Sleep Config (2 ^ (attempt - 1) * 1000)
            :: attemptsFrom model prompt config (S attempt) (S n)).
    cbn [pausedMs]. specialize (IH (S attempt) ltac:(lia)).
    replace (S attempt - 1) with (S (attempt - 1)) in IH by lia.
    cbn [Nat.pow] in *. lia.
Qed.

Lemma attemptsTrace_paused (model prompt : string) (config : Config) (n : nat) :
  pausedMs (attemptsTrace model prompt config n) = (2 ^ (n - 1) - 1) * 1000.
Proof.
  destruct n as [|n]; [reflexivity|].
  unfold attemptsTrace.
  pose proof (attemptsFrom_paused model prompt config n (le_n 1)) as Hp.
  cbn [Nat.sub Nat.pow] in Hp. replace (S n - 1) with n by lia.
  pose proof (Nat.pow_nonzero 2 n ltac:(discriminate)). nia.
Qed.

Lemma attemptsFrom_requestsOnly (primary fallback model prompt : string)
    (config : Config) :
  model = primary \/ model = fallback ->
  forall n attempt,
    requestsOnly primary fallback prompt config
      (attemptsFrom model prompt config attempt n).
Proof.
  intros Hmodel. unfold requestsOnly.
  induction n as [|n IH]; intros attempt; [constructor|].
  cbn [attemptsFrom]. constructor; [repeat split; assumption|].
  destruct n as [|n]; [constructor|].
  constructor; [exact I|apply IH].
Qed.

(** When every reply among [count] is a failure, the error is the last. *)
End ClientEffort.

Section StructuredFacts.
Import StructuredGeneration.
Context {num : Type}.
Variable rt : Runtime num.

(** Each expected key is in the parsed object or among the missing. *)
Lemma missingKeysOf_covers (value : Json num) (expectedKeys : list string) :
  forall missingKeys,
    missingKeysOf rt expectedKeys value = Some missingKeys ->
    forall key, In key expectedKeys ->
      keyIn rt key value = Some true \/ In key missingKeys.
Proof.
  induction expectedKeys as [|k keys IH]; intros missingKeys Hm key Hin;
    [destruct Hin|].
  cbn [missingKeysOf] in Hm.
  destruct (keyIn rt k value) as [there|] eqn:Hk; [|discriminate].
  destruct (missingKeysOf rt keys value) as [missing|]; [|discriminate].
  inversion Hm; subst missingKeys; clear Hm.
  destruct Hin as [-> | Hin].
  - destruct there; [left; exact Hk|right; left; reflexivity].
  - destruct (IH missing eq_refl key Hin) as [Hthere | Hmissing];
      [left; exact Hthere|].
    right. destruct there; [exact Hmissing|right; exact Hmissing].
Qed.

(** Only keys that are not in the parsed object are set. *)
Lemma missingKeysOf_absent (value : Json num) (expectedKeys : list string) :
  forall missingKeys,
    missingKeysOf rt expectedKeys value = Some missingKeys ->
    forall key, In key missingKeys ->
      In key expectedKeys /\ keyIn rt key value = Some false.
Proof.
  induction expectedKeys as [|k keys IH]; intros missingKeys Hm key Hin.
  - inversion Hm; subst. destruct Hin.
  - cbn [missingKeysOf] in Hm.
    destruct (keyIn rt k value) as [there|] eqn:Hk; [|discriminate].
    destruct (missingKeysOf rt keys value) as [missing|]; [|discriminate].
    inversion Hm; subst missingKeys; clear Hm.
    destruct there.
    + destruct (IH missing eq_refl key Hin). split; [right|]; assumption.
    + destruct Hin as [<- | Hin]; [split; [left; reflexivity|exact Hk]|].
      destruct (IH missing eq_refl key Hin). split; [right|]; assumption.
Qed.

Lemma present_wrapped (response key : string) :
  In key defaultKeys -> present rt (wrapped response) key = true.
Proof.
  intros [<- | [<- | [<- | []]]]; reflexivity.
Qed.

End StructuredFacts.

Section ClientEffortClaims.
Import GeminiClient.

(** generateFromPrompt, whatever the service replies: it sends at most six
    requests, all with the prompt and configuration given, to the primary
    or the fallback model, and pauses for at most 6000 ms in all; without
    an API key it throws at once and sends nothing. *)
Theorem generateFromPrompt_effort (Config : Type) (env : Env)
    (prompt : string) (config : Config) (t : Trace Config) :
  exists sent,
    snd (generateFromPrompt env prompt config t) = t ++ sent
    /\ requestCount sent <= 6
    /\ pausedMs sent <= 6 * 1000
    /\ requestsOnly (GEN_MODEL env) (GEN_MODEL_FALLBACK env) prompt config sent
    /\ (~ keyIsSet (GEMINI_API_KEY env) ->
        sent = []
        /\ fst (generateFromPrompt env prompt config t)
           = Err (Error "GEMINI_API_KEY environment variable is required for RAG functionality")).
Proof.
  destruct (GEMINI_API_KEY env) as [[|c key]|] eqn:Hkey.
  1, 3: exists []; unfold generateFromPrompt; rewrite Hkey; cbn [throw fst snd];
        rewrite app_nil_r; repeat split; try (cbn; lia); constructor.
  assert (Hprimary : forall n attempt,
             requestsOnly (GEN_MODEL env) (GEN_MODEL_FALLBACK env) prompt config
               (attemptsFrom (GEN_MODEL env) prompt config attempt n))
    by (apply attemptsFrom_requestsOnly; left; reflexivity).
  assert (Hfallback : forall n attempt,
             requestsOnly (GEN_MODEL env) (GEN_MODEL_FALLBACK env) prompt config
               (attemptsFrom (GEN_MODEL_FALLBACK env) prompt config attempt n))
    by (apply attemptsFrom_requestsOnly; right; reflexivity).
  assert (Hset : ~ ~ keyIsSet (Some (String c key))).
  { intros Hno. apply Hno. exists c, key. reflexivity. }
  rewrite (generateFromPrompt_run env prompt config t Hkey).
  destruct (firstSuccess (service env) (requestCount t) 3
              (Error "Maximum retry attempts exceeded")) as [[j text]|e] eqn:Hfirst.
  - apply firstSuccess_bound in Hfirst.
    exists (attemptsTrace (GEN_MODEL env) prompt config (S j)).
    cbn [snd]. split; [reflexivity|].
    unfold attemptsTrace at 1. rewrite attemptsTrace_requests.
    rewrite attemptsTrace_paused.
    repeat split; try lia; try apply Hprimary; try contradiction.
    replace (S j - 1) with j by lia.
    assert (Hpow : 2 ^ j <= 4).
    { destruct j as [|[|[|j]]]; cbn; lia. }
    lia.
  - destruct (firstSuccess (service env) (requestCount t + 3) 3
                (Error "Maximum retry attempts exceeded")) as [[j text]|e']
      eqn:Hsecond.
    + apply firstSuccess_bound in Hsecond.
      exists (attemptsTrace (GEN_MODEL env) prompt config 3
              ++ attemptsTrace (GEN_MODEL_FALLBACK env) prompt config (S j)).
      cbn [snd]. split; [reflexivity|].
      rewrite requestCount_app, pausedMs_app.
      unfold attemptsTrace at 1 2. rewrite !attemptsTrace_requests.
      rewrite !attemptsTrace_paused.
      repeat split; try lia; try contradiction.
      * replace (S j - 1) with j by lia.
        assert (Hpow : 2 ^ j <= 4).
        { destruct j as [|[|[|j]]]; cbn; lia. }
        cbn [Nat.sub Nat.pow]. lia.
      * apply Forall_app. split; [apply Hprimary|apply Hfallback].
    + exists (attemptsTrace (GEN_MODEL env) prompt config 3
              ++ attemptsTrace (GEN_MODEL_FALLBACK env) prompt config 3).
      cbn [snd]. split; [reflexivity|].
      rewrite requestCount_app, pausedMs_app.
      unfold attemptsTrace at 1 2. rewrite !attemptsTrace_requests.
      rewrite !attemptsTrace_paused.
      repeat split; try (cbn; lia); try contradiction.
      apply Forall_app. split; [apply Hprimary|apply Hfallback].
Qed.

(** generateWithModel when every attempt fails, for any number of
    attempts: it throws the error of the last attempt (and "Maximum retry
    attempts exceeded" when it is allowed no attempt), having sent as many
    requests as it was allowed attempts and paused 1, 2, 4, ... seconds
    between them, [2^(maxRetries-1) - 1] seconds in all. *)
Theorem generateWithModel_exhausted (Config : Type) (env : Env)
    (model prompt : string) (config : Config) (maxRetries : nat)
    (t : Trace Config) (errors : nat -> JsError) :
  (forall j, j < maxRetries ->
     readReply (service env (requestCount t + j)) = Err (errors j)) ->
  generateWithModel env model prompt config maxRetries t
  = (Err (match maxRetries with
          | 0 => Error "Maximum retry attempts exceeded"
          | S last => errors last
          end),
     t ++ attemptsTrace model prompt config maxRetries)
  /\ requestCount (attemptsTrace model prompt config maxRetries) = maxRetries
  /\ pausedMs (attemptsTrace model prompt config maxRetries)
     = (2 ^ (maxRetries - 1) - 1) * 1000.
Proof.
  intros Hfail. split; [|split].
  - unfold generateWithModel.
    rewrite retryLoop_run by lia.
    rewrite (@firstSuccess_exhausted env errors maxRetries _ _ Hfail).
    reflexivity.
  - apply attemptsTrace_requests.
  - apply attemptsTrace_paused.
Qed.

Lemma generateWithModel_exhausted_witness :
  generateWithModel Samples.alwaysUnavailable "gemini-2.0-flash-exp"
    "Explain heaps." "json"%string 4 []
  = (Err (Error "Gemini API error (503): Service Unavailable"),
     [ Request "gemini-2.0-flash-exp" "Explain heaps." "json"%string;
       Sleep string 1000;
       Request "gemini-2.0-flash-exp" "Explain heaps." "json"%string;
       Sleep string 2000;
       Request "gemini-2.0-flash-exp" "Explain heaps." "json"%string;
       Sleep string 4000;
       Request "gemini-2.0-flash-exp" "Explain heaps." "json"%string ])
  /\ pausedMs (attemptsTrace "gemini-2.0-flash-exp" "Explain heaps."
                 "json"%string 4) = 7 * 1000.
Proof.
  destruct (@generateWithModel_exhausted string Samples.alwaysUnavailable
              "gemini-2.0-flash-exp" "Explain heaps." "json"%string 4 []
              (fun _ => Error "Gemini API error (503): Service Unavailable"))
    as (Hrun & _ & Hpaused).
  - intros j _. reflexivity.
  - split; [rewrite Hrun; reflexivity|rewrite Hpaused; reflexivity].
Defined.

End ClientEffortClaims.

Section StructuredClaims.
Import GeminiClient StructuredGeneration.

(** generateStructuredResponse rejects only when generateFromPrompt does,
    with the same error; otherwise it resolves, whatever text the model
    returned.  Called with its default keys, the object it resolves to
    always has [answer], [citations] and [exam_format]; it sets no key the
    parsed object already has; and when the text is not JSON, or is JSON
    for a value that is no object, it is the wrapped raw text. *)
Theorem generateStructuredResponse_keys {num : Type} (Config : Type)
    (rt : Runtime num) (env : Env) (jsonConfig : Config) (prompt : string)
    (expectedKeys : list string) (t : Trace Config) :
  match generateFromPrompt env prompt jsonConfig t with
  | (Err e, t') =>
      generateStructuredResponse rt env jsonConfig prompt expectedKeys t
      = (Err e, t')
  | (Ok response, t') =>
      generateStructuredResponse rt env jsonConfig prompt expectedKeys t
      = (Ok (structure rt response expectedKeys), t')
      /\ (forall key, In key defaultKeys ->
            present rt (structure rt response defaultKeys) key = true)
      /\ (forall key, In key (map fst (defaulted (structure rt response expectedKeys))) ->
            keyIn rt key (parsed (structure rt response expectedKeys)) = Some false)
      /\ ((exists e, JSON_parse rt response = Err e)
          \/ (exists value, JSON_parse rt response = Ok value
                            /\ expectedKeys <> []
                            /\ notAnObject value) ->
          structure rt response expectedKeys = wrapped response
          /\ valueOf (structure rt response expectedKeys) "answer"
             = Some (JString response))
  end.
Proof.
  unfold generateStructuredResponse, await.
  destruct (generateFromPrompt env prompt jsonConfig t) as [[response|e] t'];
    [|reflexivity].
  split; [reflexivity|]. split; [|split].
  - intros key Hkey. unfold structure.
    destruct (JSON_parse rt response) as [value|e];
      [|apply present_wrapped; exact Hkey].
    destruct (missingKeysOf rt defaultKeys value) as [missingKeys|] eqn:Hm;
      [|apply present_wrapped; exact Hkey].
    unfold present. cbn [parsed defaulted].
    destruct (missingKeysOf_covers rt value defaultKeys Hm key Hkey)
      as [Hthere | Hmissing].
    + rewrite Hthere. apply orb_true_r.
    + apply orb_true_iff. left. apply existsb_exists.
      exists (key, defaultFor response key). split.
      * apply in_map_iff. exists key. split; [reflexivity|exact Hmissing].
      * apply String.eqb_refl.
  - intros key Hkey. unfold structure in *.
    destruct (JSON_parse rt response) as [value|e]; [|destruct Hkey].
    destruct (missingKeysOf rt expectedKeys value) as [missingKeys|] eqn:Hm;
      [|destruct Hkey].
    cbn [parsed defaulted] in *. rewrite map_map in Hkey. cbn [fst] in Hkey.
    rewrite map_id in Hkey.
    apply (missingKeysOf_absent rt value expectedKeys Hm key Hkey).
  - intros Hbad.
    assert (Hwrapped : structure rt response expectedKeys = wrapped response).
    { unfold structure.
      destruct Hbad as [(e & ->) | (value & -> & Hkeys & Hprimitive)];
        [reflexivity|].
      destruct expectedKeys as [|k keys]; [congruence|].
      cbn [missingKeysOf].
      assert (Hk : keyIn rt k value = None).
      { destruct value; try reflexivity; destruct Hprimitive. }
      rewrite Hk. reflexivity. }
    rewrite Hwrapped. split; reflexivity.
Qed.

End StructuredClaims.

(** ** Prompts: follow-up and optimisation *)

Section PromptToolFacts.
Import Indexer Retriever PromptBuilder PromptTools.

Lemma substring_length (n : nat) (s : string) :
  String.length (substring 0 n s) = Nat.min n (String.length s).
Proof.
  revert s. induction n as [|n IH]; intros [|c s]; cbn; try reflexivity.
  rewrite IH. reflexivity.
Qed.

Lemma substring_prefix (n : nat) (s : string) :
  exists rest, s = (substring 0 n s ++ rest)%string.
Proof.
  revert s. induction n as [|n IH]; intros [|c s]; cbn.
  - exists EmptyString. reflexivity.
  - exists (String c s). reflexivity.
  - exists EmptyString. reflexivity.
  - destruct (IH s) as (rest & Hrest). exists rest. rewrite <- Hrest. reflexivity.
Qed.

End PromptToolFacts.

Section PromptToolClaims.
Import Indexer Retriever PromptBuilder PromptTools.

(** buildContextSection: the context text is the heading followed by the
    texts of the chunks kept, in rank order, and the running estimate never
    falls short of the estimate of that text: it exceeds it by 44 tokens
    at least. *)
Theorem contextSection_estimate_covers_text {num : Type} (rt : Runtime num)
    (chunks : list (RetrievalResult num)) (maxTokens : Z)
    (includeMetadata : bool) (style : CitationStyle) :
  exists n,
    n <= length chunks
    /\ contextText (buildContextSection rt chunks maxTokens includeMetadata style)
       = ("CONTEXT INFORMATION:" ++ newline ++ newline
          ++ chunkTextsOf rt includeMetadata (firstn n chunks))%string
    /\ (estimateTokens
          (contextText (buildContextSection rt chunks maxTokens includeMetadata style))
        + 44
        <= estimatedTokens
             (buildContextSection rt chunks maxTokens includeMetadata style))%Z.
Proof.
  destruct (buildContextSection_prefix rt chunks maxTokens includeMetadata style)
    as (n & Hn & Hsection & _).
  exists n. split; [exact Hn|]. rewrite Hsection.
  destruct (appendChunks_text rt includeMetadata (firstn n chunks) emptySection)
    as [Htext Hest].
  split.
  - rewrite Htext. reflexivity.
  - change (estimateTokens (contextText emptySection)) with 6%Z in Hest.
    change (estimatedTokens emptySection) with 50%Z in Hest. lia.
Qed.

(** buildFollowUpPrompt: the chunks kept are a rank-order prefix of the new
    chunks, with the first always among them: the user prompt is the
    heading, the texts of that prefix in order, then the follow-up question
    and the closing instruction, and the full prompt is the system prompt
    followed by the user prompt.  The token estimate is the estimate of the
    context section plus 500, at most 3500 when two chunks or more are kept;
    and the previous answer adds at most 500 code units to the system
    prompt. *)
Theorem buildFollowUpPrompt_budget {num : Type} (rt : Runtime num)
    (originalQuestion originalAnswer followUpQuestion : string)
    (newChunks : list (RetrievalResult num)) :
  exists n,
    n <= length newChunks
    /\ contextSources (buildFollowUpPrompt rt originalQuestion originalAnswer
                         followUpQuestion newChunks)
       = map (sourceIdOf rt) (firstn n newChunks)
    /\ (exists closing,
          userPrompt (buildFollowUpPrompt rt originalQuestion originalAnswer
                        followUpQuestion newChunks)
          = (contextHeading ++ chunkTextsOf rt true (firstn n newChunks)
             ++ newline ++ newline
             ++ "FOLLOW-UP QUESTION: " ++ followUpQuestion ++ closing)%string)
    /\ fullPrompt (buildFollowUpPrompt rt originalQuestion originalAnswer
                     followUpQuestion newChunks)
       = (systemPrompt (buildFollowUpPrompt rt originalQuestion originalAnswer
                          followUpQuestion newChunks)
          ++ newline ++ newline
          ++ userPrompt (buildFollowUpPrompt rt originalQuestion originalAnswer
                           followUpQuestion newChunks))%string
    /\ tokenEstimate (buildFollowUpPrompt rt originalQuestion originalAnswer
                        followUpQuestion newChunks)
       = (550 + fold_right Z.add 0
                  (map (chunkTokensOf rt true) (firstn n newChunks)))%Z
    /\ (newChunks <> [] -> 1 <= n)
    /\ (2 <= n ->
        (tokenEstimate (buildFollowUpPrompt rt originalQuestion originalAnswer
                          followUpQuestion newChunks) <= 3500)%Z)
    /\ String.length (systemPrompt (buildFollowUpPrompt rt originalQuestion
                                      originalAnswer followUpQuestion newChunks))
       = String.length (systemPrompt (buildFollowUpPrompt rt originalQuestion
                                        "" followUpQuestion newChunks))
         + Nat.min 500 (String.length originalAnswer).
Proof.
  destruct (buildContextSection_kept rt newChunks 3000 true vtu)
    as (n & Hn & Hsources & Htext & Htokens & Hfirst & _ & Hfit).
  exists n. unfold buildFollowUpPrompt.
  cbn [contextSources tokenEstimate systemPrompt userPrompt fullPrompt].
  split; [exact Hn|]. split; [exact Hsources|]. split.
  { eexists. rewrite Htext, !append_assoc. reflexivity. }
  split; [reflexivity|]. split; [rewrite Htokens; lia|].
  split; [exact Hfirst|]. split.
  - intros H2. specialize (Hfit H2). lia.
  - rewrite !length_append, substring_length. cbn [String.length substring].
    lia.
Qed.

(** optimizePromptForTokens: a prompt within the limit comes back as it
    is; otherwise the user prompt is cut to a prefix of itself, the system
    prompt and the sources stay, the full prompt is put together again from
    the two, and the estimate is set to the limit, whatever the cut prompt
    would be estimated at.
    Optimising twice changes nothing more.  When the limit leaves room
    after the system prompt, the text before the context and a margin of
    100 tokens, the system prompt and the cut user prompt fit in the limit
    less that margin; when it leaves none, the user prompt is empty. *)
Theorem optimizePromptForTokens_fits (prompt : BuiltPrompt) (maxTokens : Z) :
  ((tokenEstimate prompt <= maxTokens)%Z ->
   optimizePromptForTokens prompt maxTokens = prompt)
  /\ (tokenEstimate (optimizePromptForTokens prompt maxTokens) <= maxTokens)%Z
  /\ ((maxTokens < tokenEstimate prompt)%Z ->
      tokenEstimate (optimizePromptForTokens prompt maxTokens) = maxTokens
      /\ fullPrompt (optimizePromptForTokens prompt maxTokens)
         = (systemPrompt prompt ++ newline ++ newline
            ++ userPrompt (optimizePromptForTokens prompt maxTokens))%string)
  /\ systemPrompt (optimizePromptForTokens prompt maxTokens) = systemPrompt prompt
  /\ contextSources (optimizePromptForTokens prompt maxTokens)
     = contextSources prompt
  /\ (exists rest,
         userPrompt prompt
         = (userPrompt (optimizePromptForTokens prompt maxTokens) ++ rest)%string)
  /\ optimizePromptForTokens (optimizePromptForTokens prompt maxTokens) maxTokens
     = optimizePromptForTokens prompt maxTokens
  /\ ((maxTokens < tokenEstimate prompt)%Z ->
      ((0 <= maxTokens - estimateTokens (systemPrompt prompt)
             - estimateTokens (beforeFirst "CONTEXT INFORMATION:"
                                 (userPrompt prompt)) - 100)%Z ->
       (estimateTokens (systemPrompt (optimizePromptForTokens prompt maxTokens))
        + estimateTokens (userPrompt (optimizePromptForTokens prompt maxTokens))
        + 100 <= maxTokens)%Z)
      /\ ((maxTokens - estimateTokens (systemPrompt prompt)
           - estimateTokens (beforeFirst "CONTEXT INFORMATION:"
                               (userPrompt prompt)) - 100 <= 0)%Z ->
          userPrompt (optimizePromptForTokens prompt maxTokens) = EmptyString)).
Proof.
  unfold optimizePromptForTokens.
  destruct (tokenEstimate prompt <=? maxTokens)%Z eqn:Hwithin.
  - rewrite Hwithin. apply Z.leb_le in Hwithin.
    repeat split; try reflexivity; try lia.
    exists EmptyString. rewrite append_empty_r. reflexivity.
  - apply Z.leb_gt in Hwithin.
    cbn [tokenEstimate systemPrompt contextSources userPrompt].
    rewrite Z.leb_refl.
    set (available := (maxTokens - estimateTokens (systemPrompt prompt)
                       - estimateTokens (beforeFirst "CONTEXT INFORMATION:"
                                           (userPrompt prompt)) - 100)%Z).
    split; [lia|]. split; [lia|]. split; [intros _; split; reflexivity|].
    split; [reflexivity|]. split; [reflexivity|].
    split; [apply substring_prefix|]. split; [reflexivity|].
    intros _. split.
    + intros Hroom.
      assert (Hcut : (estimateTokens (substringTo (available * 4) (userPrompt prompt))
                      <= available)%Z).
      { unfold estimateTokens, substringTo. apply ceilQuarter_upper.
        rewrite substring_length. fold available in Hroom.
        clearbody available.
        pose proof (Nat.le_min_l (Z.to_nat (available * 4))
                      (String.length (userPrompt prompt))) as Hmin.
        apply Nat2Z.inj_le in Hmin.
        rewrite (Z2Nat.id (available * 4)) in Hmin by lia. lia. }
      pose proof (ceilQuarter_nonneg
                    (String.length (beforeFirst "CONTEXT INFORMATION:"
                                      (userPrompt prompt)))) as Hquestion.
      unfold estimateTokens in *. unfold available in *. lia.
    + intros Hnone. fold available in Hnone. unfold substringTo.
      replace (Z.to_nat (available * 4)) with 0 by lia.
      destruct (userPrompt prompt); reflexivity.
Qed.

End PromptToolClaims.

(** ** File names *)

Section FileNames.
Local Open Scope string_scope.
Import IngestFiles.

Ltac each_unit c := destruct c as [[] [] [] [] [] [] [] []]; cbn;
                    try reflexivity; try discriminate.

Lemma letter_facts (c : ascii) :
  isLetter c = true ->
  isDot c = false /\ isDigit c = false /\ (nat_of_ascii c =? 95)%nat = false.
Proof.
  each_unit c; intros _; repeat split.
Qed.

Lemma digit_facts (c : ascii) :
  isDigit c = true ->
  isDot c = false /\ isLetter c = false /\ (nat_of_ascii c =? 95)%nat = false
  /\ toLowerCaseUnit c = c /\ Ascii.eqb (toLowerCaseUnit c) "u" = false.
Proof.
  each_unit c; intros _; repeat split.
Qed.

Lemma everyUnit_append (class : ascii -> bool) (a b : string) :
  everyUnit class (a ++ b) = everyUnit class a && everyUnit class b.
Proof.
  induction a as [|c a IH]; cbn; [reflexivity|].
  rewrite IH, andb_assoc. reflexivity.
Qed.

Lemma everyUnit_weaken (class class' : ascii -> bool) (s : string) :
  (forall c, class c = true -> class' c = true) ->
  everyUnit class s = true -> everyUnit class' s = true.
Proof.
  intros Himp. induction s as [|c s IH]; cbn; [reflexivity|].
  intros Hs. apply andb_prop in Hs. destruct Hs as [Hc Hs].
  rewrite (Himp c Hc), (IH Hs). reflexivity.
Qed.

(** A greedy run stops where the class does. *)
Lemma takeWhile_run (class : ascii -> bool) (run rest : string) :
  everyUnit class run = true ->
  match rest with
  | EmptyString => True
  | String c _ => class c = false
  end ->
  takeWhile class (run ++ rest) = run
  /\ dropWhile class (run ++ rest) = rest.
Proof.
  intros Hrun Hrest. induction run as [|c run IH]; cbn in *.
  - destruct rest as [|c rest]; cbn; [split; reflexivity|].
    rewrite Hrest. split; reflexivity.
  - apply andb_prop in Hrun. destruct Hrun as [Hc Hrun].
    rewrite Hc. destruct (IH Hrun) as [-> ->]. split; reflexivity.
Qed.

Lemma takeWhile_all (class : ascii -> bool) (s : string) :
  everyUnit class s = true -> takeWhile class s = s.
Proof.
  intros Hs. induction s as [|c s IH]; cbn in *; [reflexivity|].
  apply andb_prop in Hs. destruct Hs as [Hc Hs]. rewrite Hc, (IH Hs).
  reflexivity.
Qed.

Lemma isExtension_spec (extension : string) :
  extension <> "" ->
  everyUnit (fun c => negb (isDot c)) extension = true ->
  isExtension extension = true.
Proof.
  intros Hne Hdots. unfold isExtension.
  rewrite takeWhile_all by exact Hdots. rewrite Nat.eqb_refl.
  destruct extension; [contradiction|reflexivity].
Qed.

(** The extension goes when the name before it has no dot. *)
Lemma stripExtension_name (name extension : string) :
  everyUnit (fun c => negb (isDot c)) name = true ->
  extension <> "" ->
  everyUnit (fun c => negb (isDot c)) extension = true ->
  stripExtension (name ++ String "." extension) = name.
Proof.
  intros Hname Hne Hext. induction name as [|c name IH]; cbn in *.
  - change (isDot ".") with true. rewrite (@isExtension_spec extension Hne Hext).
    reflexivity.
  - apply andb_prop in Hname. destruct Hname as [Hc Hname].
    apply negb_true_iff in Hc. rewrite Hc. cbn [andb].
    rewrite (IH Hname). reflexivity.
Qed.

Lemma substring_whole (s : string) (n : nat) :
  String.length s <= n -> substring 0 n s = s.
Proof.
  revert n. induction s as [|c s IH]; intros [|n] Hn; cbn in *;
    try reflexivity; try lia.
  rewrite IH by lia. reflexivity.
Qed.

Lemma toLowerCase_digits (s : string) :
  everyUnit isDigit s = true -> toLowerCase s = s.
Proof.
  induction s as [|c s IH]; cbn; [reflexivity|].
  intros Hs. apply andb_prop in Hs. destruct Hs as [Hc Hs].
  destruct (@digit_facts c Hc) as (_ & _ & _ & -> & _).
  rewrite (IH Hs). reflexivity.
Qed.

End FileNames.

(** ** The chunks of a file *)

Section ChunkShapes.
Import Indexer Ingest.
Local Open Scope string_scope.

Lemma endsWith_nonempty (c : ascii) (s : string) : endsWith c s -> s <> "".
Proof.
  destruct s; simpl; [tauto|discriminate].
Qed.

Lemma endsWith_append (c : ascii) (a b : string) :
  endsWith c b -> endsWith c (a ++ b).
Proof.
  intros Hb. induction a as [|x a IH]; simpl; [exact Hb|].
  destruct (a ++ b) eqn:Hab.
  - exfalso. apply (@endsWith_nonempty c "" IH). reflexivity.
  - exact IH.
Qed.

Lemma sentence_shape (raw : string) :
  trim raw <> "" -> sentenceText (trim raw ++ ".").
Proof.
  intros Hraw. split; [apply sentence_tidy; exact Hraw|].
  apply endsWith_append. reflexivity.
Qed.

Lemma sentenceText_append (a b : string) :
  tidy a -> sentenceText b -> sentenceText (a ++ String " " b).
Proof.
  intros Ha [Hb Hdot]. split; [apply tidy_append; assumption|].
  apply endsWith_append.
  destruct b as [|c b]; [destruct (@endsWith_nonempty "." "" Hdot); reflexivity|].
  exact Hdot.
Qed.

(** With an overlap of 0 the text carried over has all the words of the
    chunk. *)
Lemma getOverlapText_zero (cc : string) :
  tidy cc ->
  tidy (getOverlapText cc 0)
  /\ splitWhiteSpace (getOverlapText cc 0) = splitWhiteSpace cc.
Proof.
  intros Hcc. split; [apply getOverlapText_words; exact Hcc|].
  pose proof (@tidy_words cc Hcc) as Hwords.
  assert (Hne : splitWhiteSpace cc <> []) by apply splitRuns_nonempty.
  unfold getOverlapText.
  destruct (splitWhiteSpace cc) as [|w ws] eqn:Hsplit; [contradiction|].
  cbn [length Nat.leb sliceFromEnd].
  apply splitWhiteSpace_joinSpace; assumption.
Qed.

Lemma trim_nonempty (s : string) :
  (0 <? String.length (trim s))%nat = true ->
  (0 <? String.length s)%nat = true.
Proof.
  destruct s; [intros H; exact H|reflexivity].
Qed.

Section WithEnv.
Context {num : Type}.
Variable env : Ingest.Env.
Variable file : FileMetadata.
Variables chunkSizeWords overlapWords : nat.

Let step := chunkStep (num := num) env file chunkSizeWords overlapWords.
Let init : ChunkerState (num := num) :=
  {| emitted := []; currentChunk := ""; currentWordCount := 0;
     chunkIndex := 0 |}.

Lemma chunkStep_shape (st : ChunkerState (num := num)) (raw : string) :
  trim raw <> "" ->
  chunkerShape env file st ->
  chunkerShape env file (step st raw)
  /\ sentenceText (currentChunk (step st raw)).
Proof.
  intros Hraw [Hindex Hchunks Hcurrent].
  pose proof (@sentence_shape raw Hraw) as Hsentence.
  assert (Hshape :
    sentenceText (currentChunk (step st raw))
    /\ (emitted (step st raw) = emitted st
        /\ chunkIndex (step st raw) = chunkIndex st
        \/ sentenceText (currentChunk st)
           /\ emitted (step st raw)
              = (emitted st
                 ++ [createChunk env (currentChunk st) file (chunkIndex st)])%list
           /\ chunkIndex (step st raw) = S (chunkIndex st))).
  { unfold step, chunkStep. cbv zeta.
    destruct ((chunkSizeWords
               <? currentWordCount st
                  + length (splitWhiteSpace (trim raw ++ ".")))%nat
              && (0 <? String.length (currentChunk st))%nat) eqn:Hemit.
    - apply andb_prop in Hemit. destruct Hemit as [_ Hlen].
      destruct Hcurrent as [[Hempty _]|Hcc];
        [rewrite Hempty in Hlen; discriminate|].
      destruct (@getOverlapText_words _ overlapWords (proj1 Hcc)) as [Hov _].
      rewrite (@tidy_length _ Hov).
      change (" " ++ trim raw ++ ".") with (String " " (trim raw ++ ".")).
      cbn [emitted currentChunk chunkIndex].
      rewrite (@trim_tidy _ (proj1 Hcc)).
      split; [apply sentenceText_append; assumption|].
      right. split; [exact Hcc|]. split; reflexivity.
    - cbn [emitted currentChunk chunkIndex].
      split; [|left; split; reflexivity].
      destruct Hcurrent as [[Hempty _]|Hcc].
      + rewrite Hempty. exact Hsentence.
      + rewrite (@tidy_length _ (proj1 Hcc)).
        change (" " ++ trim raw ++ ".") with (String " " (trim raw ++ ".")).
        apply sentenceText_append; [apply Hcc|exact Hsentence].
  }
  destruct Hshape as [Hnext Hcases]. split; [|exact Hnext].
  destruct Hcases as [[Hsame Hidx]|(Hcc & Hpush & Hidx)].
  - constructor.
    + rewrite Hidx, Hsame. exact Hindex.
    + rewrite Hsame. exact Hchunks.
    + right. exact Hnext.
  - constructor.
    + rewrite Hidx, Hpush, length_app, Hindex. simpl. lia.
    + rewrite Hpush. intros i chunk Hi.
      destruct (Nat.lt_ge_cases i (length (emitted st))) as [Hlt|Hge].
      * rewrite nth_error_app1 in Hi by exact Hlt. apply Hchunks. exact Hi.
      * rewrite nth_error_app2 in Hi by exact Hge.
        destruct (i - length (emitted st)) as [|j] eqn:Hj;
          [|destruct j; discriminate].
        simpl in Hi. inversion Hi; subst chunk.
        cbn [createChunk doc_text]. split; [|exact Hcc].
        replace i with (chunkIndex st) by lia. reflexivity.
    + right. exact Hnext.
Qed.

Lemma chunkLoop_shape (sentences : list string) :
  Forall (fun raw => trim raw <> "") sentences ->
  forall st : ChunkerState (num := num),
    chunkerShape env file st ->
    chunkerShape env file (fold_left step sentences st)
    /\ (sentences <> [] \/ sentenceText (currentChunk st) ->
        sentenceText (currentChunk (fold_left step sentences st))).
Proof.
  induction 1 as [|raw sentences Hraw _ IH]; intros st Hst; simpl.
  - split; [exact Hst|]. intros [Hne|Hcc]; [contradiction|exact Hcc].
  - destruct (@chunkStep_shape st raw Hraw Hst) as [Hnext Hcc].
    destruct (IH _ Hnext) as [Hfinal Hcurrent].
    split; [exact Hfinal|]. intros _. apply Hcurrent. right. exact Hcc.
Qed.

Lemma sentencesOf_nonblank (text : string) :
  Forall (fun raw => trim raw <> "") (sentencesOf text).
Proof.
  apply Forall_forall. intros raw Hin. apply filter_In in Hin.
  destruct Hin as [_ Hlen]. intros Hempty. rewrite Hempty in Hlen.
  discriminate.
Qed.

Lemma init_shape : chunkerShape env file init.
Proof.
  constructor; simpl.
  - reflexivity.
  - intros [|i] chunk Hi; discriminate.
  - left. split; reflexivity.
Qed.

(** The chunks of a text, by the state the loop ends in. *)
Lemma chunkText_final (text : string) :
  let final := fold_left step (sentencesOf text) init in
  chunkText (num := num) env text file chunkSizeWords overlapWords
  = if (0 <? String.length (trim (currentChunk final)))%nat
    then (emitted final
          ++ [createChunk env (trim (currentChunk final)) file
                (chunkIndex final)])%list
    else emitted final.
Proof.
  reflexivity.
Qed.

Lemma chunkText_shape (text : string) (i : nat) (chunk : DocumentChunk num) :
  nth_error (chunkText env text file chunkSizeWords overlapWords) i
  = Some chunk ->
  chunk = createChunk env (doc_text chunk) file i
  /\ sentenceText (doc_text chunk).
Proof.
  rewrite chunkText_final. cbv zeta.
  destruct (@chunkLoop_shape _ (sentencesOf_nonblank text) init init_shape)
    as [[Hindex Hchunks Hcurrent] _].
  set (final := fold_left step (sentencesOf text) init) in *.
  destruct Hcurrent as [[Hempty Hnone]|Hcc].
  - rewrite Hempty, Hnone. destruct i; discriminate.
  - rewrite (@trim_tidy _ (proj1 Hcc)), (@tidy_length _ (proj1 Hcc)).
    intros Hi.
    destruct (Nat.lt_ge_cases i (length (emitted final))) as [Hlt|Hge].
    + rewrite nth_error_app1 in Hi by exact Hlt. apply Hchunks. exact Hi.
    + rewrite nth_error_app2 in Hi by exact Hge.
      destruct (i - length (emitted final)) as [|j] eqn:Hj;
        [|destruct j; discriminate].
      simpl in Hi. inversion Hi; subst chunk.
      cbn [createChunk doc_text]. split; [|exact Hcc].
      replace i with (chunkIndex final) by lia. reflexivity.
Qed.

Lemma chunkStep_count (st : ChunkerState (num := num)) (raw : string) :
  length (emitted (step st raw)) + pending (step st raw)
  <= S (length (emitted st) + pending st).
Proof.
  assert (Hone : forall st' : ChunkerState (num := num), pending st' <= 1).
  { intros st'. unfold pending. destruct (0 <? _)%nat; lia. }
  unfold step, chunkStep. cbv zeta.
  destruct ((chunkSizeWords
             <? currentWordCount st
                + length (splitWhiteSpace (trim raw ++ ".")))%nat
            && (0 <? String.length (currentChunk st))%nat) eqn:Hemit.
  - apply andb_prop in Hemit. destruct Hemit as [_ Hlen].
    match goal with |- length (emitted ?s) + pending ?s <= _ =>
      pose proof (Hone s) as Hs end.
    cbn [emitted] in *. rewrite length_app. simpl length.
    unfold pending at 2. rewrite Hlen. lia.
  - match goal with |- length (emitted ?s) + pending ?s <= _ =>
      pose proof (Hone s) as Hs end.
    cbn [emitted] in *. lia.
Qed.

Lemma chunkLoop_count (sentences : list string) :
  forall st : ChunkerState (num := num),
    length (emitted (fold_left step sentences st))
    + pending (fold_left step sentences st)
    <= length (emitted st) + pending st + length sentences.
Proof.
  induction sentences as [|raw sentences IH]; intros st; simpl; [lia|].
  specialize (IH (step st raw)). pose proof (chunkStep_count st raw). lia.
Qed.

Lemma chunkText_count (text : string) :
  length (chunkText (num := num) env text file chunkSizeWords overlapWords)
  <= length (sentencesOf text)
  /\ (sentencesOf text <> [] ->
      chunkText (num := num) env text file chunkSizeWords overlapWords <> []).
Proof.
  rewrite chunkText_final. cbv zeta.
  pose proof (chunkLoop_count (sentencesOf text) init) as Hcount.
  destruct (@chunkLoop_shape _ (sentencesOf_nonblank text) init init_shape)
    as [_ Hcurrent].
  set (final := fold_left step (sentencesOf text) init) in *.
  split.
  - change (length (emitted init) + pending init) with 0 in Hcount.
    destruct (0 <? String.length (trim (currentChunk final)))%nat eqn:Hlen.
    + apply trim_nonempty in Hlen. unfold pending in Hcount.
      rewrite Hlen in Hcount. rewrite length_app. simpl. lia.
    + lia.
  - intros Hne. destruct (Hcurrent (or_introl Hne)) as [Hcc _].
    rewrite (@trim_tidy _ Hcc), (@tidy_length _ Hcc).
    intros Hnil. apply (f_equal (@length _)) in Hnil.
    rewrite length_app in Hnil. simpl in Hnil. lia.
Qed.

End WithEnv.

Section ZeroOverlap.
Context {num : Type}.
Variable env : Ingest.Env.
Variable file : FileMetadata.
Variable chunkSizeWords : nat.

Lemma extendsWords_append (prev cc sentence : string) :
  tidy cc -> tidy sentence ->
  extendsWords prev cc ->
  extendsWords prev (cc ++ String " " sentence).
Proof.
  intros Hcc Hs (rest & Hne & Hr).
  exists (rest ++ splitWhiteSpace sentence)%list. split.
  - destruct rest; [contradiction|discriminate].
  - rewrite append_words by assumption. rewrite Hr, app_assoc. reflexivity.
Qed.

Lemma chunkStep_carriesAll (st : ChunkerState (num := num)) (raw : string) :
  trim raw <> "" ->
  chunkerCarriesAll st ->
  chunkerCarriesAll (chunkStep env file chunkSizeWords 0 st raw).
Proof.
  intros Hraw [Hlinked Hcarry Htidy].
  pose proof (@sentence_tidy raw Hraw) as Hsentence.
  unfold chunkStep. cbv zeta.
  destruct ((chunkSizeWords
             <? currentWordCount st
                + length (splitWhiteSpace (trim raw ++ ".")))%nat
            && (0 <? String.length (currentChunk st))%nat) eqn:Hemit.
  - apply andb_prop in Hemit. destruct Hemit as [_ Hlen].
    destruct Htidy as [[Hempty _]|Hcc];
      [rewrite Hempty in Hlen; discriminate|].
    destruct (@getOverlapText_zero _ Hcc) as [Hov Hall].
    rewrite (@tidy_length _ Hov).
    change (" " ++ trim raw ++ ".") with (String " " (trim raw ++ ".")).
    constructor; cbn [emitted currentChunk].
    + rewrite map_app. cbn [map createChunk doc_text].
      rewrite (@trim_tidy _ Hcc).
      apply Linked_snoc; [exact Hlinked|].
      intros prev Hprev. rewrite <- map_rev in Hprev.
      destruct (rev (emitted st)) as [|p ps] eqn:Hrev; [discriminate|].
      simpl in Hprev. inversion Hprev; subst.
      apply Hcarry. reflexivity.
    + intros prev Hprev. rewrite rev_app_distr in Hprev. simpl in Hprev.
      inversion Hprev; subst. cbn [createChunk doc_text].
      rewrite (@trim_tidy _ Hcc).
      exists (splitWhiteSpace (trim raw ++ ".")). split.
      * apply splitRuns_nonempty.
      * rewrite append_words by assumption. rewrite Hall. reflexivity.
    + right. apply tidy_append; assumption.
  - constructor; cbn [emitted currentChunk].
    + exact Hlinked.
    + intros prev Hprev. destruct Htidy as [[_ Hnone]|Hcc].
      * rewrite Hnone in Hprev. discriminate.
      * rewrite (@tidy_length _ Hcc).
        change (" " ++ trim raw ++ ".") with (String " " (trim raw ++ ".")).
        apply extendsWords_append; [assumption|assumption|].
        apply Hcarry. exact Hprev.
    + right. destruct Htidy as [[Hempty _]|Hcc].
      * rewrite Hempty. simpl. exact Hsentence.
      * rewrite (@tidy_length _ Hcc).
        change (" " ++ trim raw ++ ".") with (String " " (trim raw ++ ".")).
        apply tidy_append; assumption.
Qed.

Lemma chunkLoop_carriesAll (sentences : list string) :
  Forall (fun raw => trim raw <> "") sentences ->
  forall st : ChunkerState (num := num),
    chunkerCarriesAll st ->
    chunkerCarriesAll
      (fold_left (chunkStep env file chunkSizeWords 0) sentences st).
Proof.
  induction 1 as [|raw sentences Hraw _ IH]; intros st Hst; simpl;
    [exact Hst|].
  apply IH. apply chunkStep_carriesAll; assumption.
Qed.

Lemma chunkText_carriesAll (text : string) :
  Linked extendsWords
    (map (@doc_text num) (chunkText env text file chunkSizeWords 0)).
Proof.
  rewrite chunkText_final. cbv zeta.
  set (init := {| emitted := []; currentChunk := ""; currentWordCount := 0;
                  chunkIndex := 0 |}).
  assert (Hinit : chunkerCarriesAll (num := num) init).
  { constructor; simpl; [constructor|discriminate|left; split; reflexivity]. }
  destruct (@chunkLoop_carriesAll _ (sentencesOf_nonblank text) init Hinit)
    as [Hlinked Hcarry Htidy].
  set (final := fold_left _ (sentencesOf text) init) in *.
  destruct Htidy as [[Hempty Hnone]|Hcc].
  - rewrite Hempty, Hnone. simpl. constructor.
  - rewrite (@trim_tidy _ Hcc), (@tidy_length _ Hcc).
    rewrite map_app. cbn [map createChunk doc_text].
    apply Linked_snoc; [exact Hlinked|].
    intros prev Hprev. rewrite <- map_rev in Hprev.
    destruct (rev (emitted final)) as [|p ps] eqn:Hrev; [discriminate|].
    simpl in Hprev. inversion Hprev; subst.
    apply Hcarry. reflexivity.
Qed.

End ZeroOverlap.
End ChunkShapes.

Section FileNameClaims.
Import IngestFiles.
Local Open Scope string_scope.

(** parseFilename on the names of course files.  For a subject of letters,
    a number and an extension, [subject_unit<number>.<extension>] gives the
    subject in upper case and [unit<number>]; without the underscore the
    letters of [unit] go to the subject and no unit is found; and a name
    that starts with a digit gives neither. *)
Theorem parseFilename_names (subjectName number extension : string) :
  subjectName <> "" -> everyUnit isLetter subjectName = true ->
  number <> "" -> everyUnit isDigit number = true ->
  extension <> "" ->
  everyUnit (fun c => negb (isDot c)) extension = true ->
  parseFilename (subjectName ++ "_unit" ++ number ++ "." ++ extension)
  = {| subject := Some (toUpperCaseLetters subjectName);
       unit := Some ("unit" ++ number) |}
  /\ parseFilename (subjectName ++ "unit" ++ number ++ "." ++ extension)
     = {| subject := Some (toUpperCaseLetters (subjectName ++ "unit"));
          unit := None |}
  /\ parseFilename (number ++ "_" ++ subjectName ++ "." ++ extension)
     = {| subject := None; unit := None |}.
Proof.
  intros Hsubject Hletters Hnumber Hdigits Hextension Hdots.
  assert (Hl : everyUnit (fun c => negb (isDot c)) subjectName = true).
  { eapply everyUnit_weaken; [|exact Hletters]. intros c Hc.
    destruct (@letter_facts c Hc) as (-> & _). reflexivity. }
  assert (Hd : everyUnit (fun c => negb (isDot c)) number = true).
  { eapply everyUnit_weaken; [|exact Hdigits]. intros c Hc.
    destruct (@digit_facts c Hc) as (-> & _). reflexivity. }
  destruct number as [|d number]; [contradiction|].
  cbn [everyUnit] in Hdigits. apply andb_prop in Hdigits.
  destruct Hdigits as [Hdigit Hdigits].
  destruct (@digit_facts d Hdigit) as (Hddot & Hdletter & Hdunder & Hdlower & Hdu).
  split; [|split].
  - replace (subjectName ++ "_unit" ++ String d number ++ "." ++ extension)
      with ((subjectName ++ "_unit" ++ String d number) ++ String "." extension)
      by (rewrite !append_assoc; reflexivity).
    unfold parseFilename. rewrite stripExtension_name; try assumption.
    2:{ rewrite !everyUnit_append, Hl, Hd. reflexivity. }
    destruct (@takeWhile_run isLetter subjectName ("_unit" ++ String d number)
                Hletters eq_refl) as [-> ->].
    destruct subjectName as [|s0 subjectName]; [contradiction|].
    cbn [append Nat.eqb nat_of_ascii].
    change (nat_of_ascii "_" =? 95)%nat with true. cbv iota.
    change (matchesIgnoringCase "unit" (String "u" (String "n" (String "i"
              (String "t" (String d number)))))) with true.
    cbn [String.length substring].
    rewrite substring_whole by (cbn; lia).
    assert (Hrun : takeWhile isDigit (String d number) = String d number).
    { apply takeWhile_all. cbn [everyUnit]. rewrite Hdigit, Hdigits. reflexivity. }
    rewrite Hrun. cbn [String.length Nat.ltb Nat.leb andb Nat.add substring].
    rewrite substring_whole by lia.
    cbn [toLowerCase]. rewrite Hdlower, (@toLowerCase_digits number Hdigits).
    reflexivity.
  - replace (subjectName ++ "unit" ++ String d number ++ "." ++ extension)
      with (((subjectName ++ "unit") ++ String d number) ++ String "." extension)
      by (rewrite !append_assoc; reflexivity).
    unfold parseFilename. rewrite stripExtension_name; try assumption.
    2:{ rewrite !everyUnit_append, Hl, Hd. reflexivity. }
    destruct (@takeWhile_run isLetter (subjectName ++ "unit") (String d number))
      as [-> ->].
    { rewrite everyUnit_append, Hletters. reflexivity. }
    { exact Hdletter. }
    destruct subjectName as [|s0 subjectName]; [contradiction|].
    cbn [append]. rewrite Hdunder.
    cbn [matchesIgnoringCase]. rewrite Hdu. reflexivity.
  - replace (String d number ++ "_" ++ subjectName ++ "." ++ extension)
      with ((String d number ++ "_" ++ subjectName) ++ String "." extension)
      by (rewrite !append_assoc; reflexivity).
    unfold parseFilename. rewrite stripExtension_name; try assumption.
    2:{ rewrite !everyUnit_append, Hl, Hd. reflexivity. }
    cbn [append takeWhile]. rewrite Hdletter. reflexivity.
Qed.

Lemma parseFilename_names_witness :
  parseFilename "DSA_unit3.txt"
  = {| subject := Some "DSA"; unit := Some "unit3" |}
  /\ parseFilename "DSAunit3.txt"
     = {| subject := Some "DSAUNIT"; unit := None |}
  /\ parseFilename "3_DSA.txt" = {| subject := None; unit := None |}.
Proof.
  apply (@parseFilename_names "DSA" "3" "txt"); try reflexivity; discriminate.
Defined.

End FileNameClaims.

Section ChunkClaims.
Import Indexer Ingest.
Local Open Scope string_scope.

(** The chunks of a file are numbered from 0 in the order they are cut:
    chunk [i] has the id [<filename>_chunk_<i>] and the chunk_id
    [<filename>_<i>], and every chunk names the file as its source, has no
    page, and carries the unit read off the file name. *)
Theorem chunkText_numbering {num : Type} (env : Ingest.Env) (text : string)
    (file : FileMetadata) (chunkSizeWords overlapWords : nat) :
  let chunks := chunkText (num := num) env text file chunkSizeWords
                  overlapWords in
  map (fun chunk => (doc_id chunk, chunk_id (doc_metadata chunk))) chunks
  = map (fun i => (filename file ++ "_chunk_" ++ decimal i,
                   filename file ++ "_" ++ decimal i))
        (seq 0 (length chunks))
  /\ Forall (fun chunk =>
               source (doc_metadata chunk) = filename file
               /\ page (doc_metadata chunk) = None
               /\ unit (doc_metadata chunk)
                  = parseFilenameUnit env (filename file)) chunks.
Proof.
  intros chunks. split.
  - apply nth_error_ext. intros i. rewrite !nth_error_map, nth_error_seq.
    destruct (nth_error chunks i) as [chunk|] eqn:Hi.
    + assert (Hlt : i < length chunks)
        by (apply nth_error_Some; rewrite Hi; discriminate).
      apply Nat.ltb_lt in Hlt. rewrite Hlt.
      destruct (@chunkText_shape num env file chunkSizeWords overlapWords
                  text i chunk Hi) as [-> _].
      reflexivity.
    + apply nth_error_None in Hi. apply Nat.ltb_ge in Hi. rewrite Hi.
      reflexivity.
  - apply Forall_forall. intros chunk Hin.
    apply In_nth_error in Hin. destruct Hin as [i Hi].
    destruct (@chunkText_shape num env file chunkSizeWords overlapWords
                text i chunk Hi) as [-> _].
    repeat split.
Qed.

(** Every chunk text is trimmed, is not empty and ends with a full stop;
    there are at most as many chunks as the text has sentences, and none
    only when it has no sentence. *)
Theorem chunkText_sentences {num : Type} (env : Ingest.Env) (text : string)
    (file : FileMetadata) (chunkSizeWords overlapWords : nat) :
  let chunks := chunkText (num := num) env text file chunkSizeWords
                  overlapWords in
  Forall (fun chunk =>
            trim (doc_text chunk) = doc_text chunk
            /\ doc_text chunk <> ""
            /\ endsWith "." (doc_text chunk)) chunks
  /\ length chunks <= length (sentencesOf text)
  /\ (chunks = [] <-> sentencesOf text = []).
Proof.
  intros chunks.
  destruct (@chunkText_count num env file chunkSizeWords overlapWords text)
    as [Hcount Hsome].
  fold chunks in Hcount, Hsome.
  split; [|split; [exact Hcount|]].
  - apply Forall_forall. intros chunk Hin.
    apply In_nth_error in Hin. destruct Hin as [i Hi].
    destruct (@chunkText_shape num env file chunkSizeWords overlapWords
                text i chunk Hi) as [_ [Htidy Hdot]].
    split; [apply trim_tidy; exact Htidy|]. split; [|exact Hdot].
    apply (@endsWith_nonempty "." _ Hdot).
  - split.
    + intros Hnone. destruct (sentencesOf text) as [|s l] eqn:Hs;
        [reflexivity|].
      exfalso. apply Hsome; [discriminate|exact Hnone].
    + intros Hnone. rewrite Hnone in Hcount.
      destruct chunks; [reflexivity|simpl in Hcount; lia].
Qed.

(** With [overlapWords = 0] no text is dropped between chunks: the words of
    each chunk are all the words of the chunk before it, followed by at
    least one more. *)
Theorem chunkText_zero_overlap {num : Type} (env : Ingest.Env) (text : string)
    (file : FileMetadata) (chunkSizeWords : nat) (i : nat)
    (earlier later : DocumentChunk num) :
  nth_error (chunkText env text file chunkSizeWords 0) i = Some earlier ->
  nth_error (chunkText env text file chunkSizeWords 0) (S i) = Some later ->
  exists rest,
    rest <> [] /\ wordsOf later = (wordsOf earlier ++ rest)%list.
Proof.
  intros Hearlier Hlater.
  pose proof (@chunkText_carriesAll num env file chunkSizeWords text)
    as Hlinked.
  eapply (Linked_nth Hlinked i); apply map_nth_error; eassumption.
Qed.

Lemma chunkText_zero_overlap_witness :
  exists earlier later rest,
    nth_error Scenarios.noOverlapAsked 0 = Some earlier
    /\ nth_error Scenarios.noOverlapAsked 1 = Some later
    /\ wordsOf earlier = ["Trees."]
    /\ rest <> [] /\ wordsOf later = (wordsOf earlier ++ rest)%list.
Proof.
  destruct (nth_error Scenarios.noOverlapAsked 0) as [earlier|] eqn:He;
    [|vm_compute in He; discriminate].
  destruct (nth_error Scenarios.noOverlapAsked 1) as [later|] eqn:Hl;
    [|vm_compute in Hl; discriminate].
  destruct (@chunkText_zero_overlap _ Samples.ingestEnv
              "Trees. Heaps are trees. Queues use heaps." Samples.notes 3 0
              earlier later He Hl) as (rest & Hrest & Hwords).
  exists earlier, later, rest.
  split; [reflexivity|]. split; [reflexivity|].
  split; [|split; assumption].
  pose proof He as He'. vm_compute in He'. inversion He'; subst.
  vm_compute. reflexivity.
Defined.

End ChunkClaims.

(** ** The query endpoint, continued *)

Section RouteFacts.
Import Indexer Retriever StructuredGeneration AskRoute.
Local Open Scope string_scope.
Context {num : Type} `{JsNumber num}.
Variable env : AskRoute.Env num.

Lemma validateRequest_accepted (body : RagRequest) :
  validateRequest body = None <-> acceptedQuestion (question body).
Proof.
  unfold validateRequest, acceptedQuestion.
  destruct (question body) as [| |q].
  - split; [discriminate|]. intros (q & Hq & _). discriminate.
  - split; [discriminate|]. intros (q & Hq & _). discriminate.
  - destruct q as [|c q].
    + split; [discriminate|]. intros (q & Hq & Hne & _).
      inversion Hq; subst. exfalso. apply Hne. reflexivity.
    + destruct (String.length (trim (String c q)) =? 0)%nat eqn:Hblank.
      * split; [discriminate|]. intros (q' & Hq & Hne & _).
        inversion Hq; subst q'. apply Nat.eqb_eq in Hblank. exfalso.
        destruct (trim (String c q)); [apply Hne; reflexivity|discriminate].
      * destruct (2000 <? String.length (String c q))%nat eqn:Hlong.
        -- split; [discriminate|]. intros (q' & Hq & _ & Hlen).
           inversion Hq; subst q'. apply Nat.ltb_lt in Hlong. exfalso. lia.
        -- split; [|reflexivity]. intros _. exists (String c q).
           split; [reflexivity|]. split.
           ++ intros Hempty. rewrite Hempty in Hblank. discriminate.
           ++ apply Nat.ltb_ge in Hlong. exact Hlong.
Qed.

Lemma withDefault_nonempty (a : option string) (d : string) :
  d <> "" -> withDefault a d <> "".
Proof.
  intros Hd. unfold withDefault, orElse.
  destruct a as [[|c s]|]; try exact Hd. discriminate.
Qed.

Lemma withDefault_given (a d : string) : a <> "" -> withDefault (Some a) d = a.
Proof.
  destruct a; [contradiction|reflexivity].
Qed.

(** What the pipeline resolves to. *)
Lemma handleRagPipeline_resolved (q : string) (response : HttpResponse num) :
  handleRagPipeline env q = Ok response ->
  exists retrieval,
    retrieve (retriever env) q (RAG_TOP_K (retriever env)) = Ok retrieval
    /\ status response = 200 /\ error (json response) = None
    /\ exists d, debug (json response) = Some d
                 /\ method d = rag
                 /\ retrieval_confidence d = confidence retrieval
                 /\ scores d = map (@score num) (results retrieval).
Proof.
  unfold handleRagPipeline. intros Hr.
  apply bind_Ok in Hr. destruct Hr as (retrieval & Hretrieve & Hr).
  exists retrieval. split; [exact Hretrieve|].
  destruct (confidence retrieval) eqn:Hconf; cbn [negb] in Hr.
  - cbv zeta in Hr. apply bind_Ok in Hr. destruct Hr as (g & _ & Hr).
    apply bind_Ok in Hr. destruct Hr as ([[answerValue cites] sources] & _ & Hr).
    inversion Hr; subst response; clear Hr. cbn.
    repeat split. eexists. repeat split.
  - inversion Hr; subst response; clear Hr. cbn.
    repeat split. eexists. repeat split.
Qed.

Lemma handleHeuristicFallback_cases (q : string) (body : RagRequest)
    (ragError : option JsError) :
  let response := handleHeuristicFallback env q body ragError in
  (status response = 200 /\ error (json response) = None)
  \/ (status response = 500 /\ error (json response) <> None
      /\ citations (json response) = []
      /\ response_sources (json response) = []).
Proof.
  unfold handleHeuristicFallback. cbv zeta.
  destruct (getAiResponse env q (withDefault (scheme body) "2022")) as [r|e];
    cbn [bind].
  - destruct (success r).
    + left. split; reflexivity.
    + right. cbn. repeat split. discriminate.
  - right. cbn. repeat split. discriminate.
Qed.

(** The response when the heuristic system fails. *)
Lemma handleHeuristicFallback_failed (q : string) (body : RagRequest)
    (ragError : option JsError) (message : string) :
  (exists e, getAiResponse env q (withDefault (scheme body) "2022") = Err e
             /\ message = error_message e)
  \/ (exists r, getAiResponse env q (withDefault (scheme body) "2022") = Ok r
                /\ success r = false
                /\ message = withDefault (heuristic_error r)
                               "Heuristic system failed") ->
  status (handleHeuristicFallback env q body ragError) = 500
  /\ error (json (handleHeuristicFallback env q body ragError))
     = Some ("RAG failed: "
             ++ withDefault (option_map error_message ragError)
                  "Unknown RAG error"
             ++ ". Fallback failed: " ++ message).
Proof.
  unfold handleHeuristicFallback. cbv zeta.
  intros [(e & -> & ->)|(r & -> & Hr & ->)]; cbn [bind].
  - split; reflexivity.
  - rewrite Hr. split; reflexivity.
Qed.

(** The path a valid request takes. *)
Lemma POST_valid (body : RagRequest) (q : string) :
  question body = Text q ->
  validateRequest body = None ->
  POST env (Ok (Fields body))
  = if negb (match useRag body with Some true => true | _ => false end
             || ENABLE_RAG env)
    then handleHeuristicFallback env q body None
    else match handleRagPipeline env q with
         | Ok response => response
         | Err ragError => handleHeuristicFallback env q body (Some ragError)
         end.
Proof.
  intros Hq Hvalid. unfold POST. rewrite Hq, Hvalid. reflexivity.
Qed.

Lemma shouldUseRag_true (body : RagRequest) :
  useRag body = Some true \/ ENABLE_RAG env = true ->
  (match useRag body with Some true => true | _ => false end
   || ENABLE_RAG env) = true.
Proof.
  intros [Hu|He]; [rewrite Hu; reflexivity|].
  rewrite He. apply orb_true_r.
Qed.

Lemma shouldUseRag_false (body : RagRequest) :
  useRag body <> Some true -> ENABLE_RAG env = false ->
  (match useRag body with Some true => true | _ => false end
   || ENABLE_RAG env) = false.
Proof.
  intros Hu He. rewrite He.
  destruct (useRag body) as [[|]|]; try reflexivity.
  exfalso. apply Hu. reflexivity.
Qed.

Lemma StronglySorted_map {A B : Type} (f : A -> B) (R : B -> B -> Prop)
    (l : list A) :
  StronglySorted (fun x y => R (f x) (f y)) l -> StronglySorted R (map f l).
Proof.
  induction 1 as [|x l Hl IH Hx]; simpl; constructor; [exact IH|].
  apply Forall_forall. intros y Hy. apply in_map_iff in Hy.
  destruct Hy as (z & <- & Hz). rewrite Forall_forall in Hx. apply Hx, Hz.
Qed.

Lemma valueOr_truthy (a : option (Json num)) (d : Json num) :
  truthyValue env d = true -> truthyValue env (valueOr env a d) = true.
Proof.
  intros Hd. unfold valueOr, orValue.
  destruct a as [value|]; [|exact Hd].
  destruct (truthyValue env value) eqn:Hvalue; [exact Hvalue|exact Hd].
Qed.

(** A value that is falsy or left out gives the default. *)
Lemma valueOr_default (a : option (Json num)) (d : Json num) :
  match a with
  | Some value => truthyValue env value = false
  | None => True
  end ->
  valueOr env a d = d.
Proof.
  unfold valueOr, orValue. destruct a as [value|]; [|reflexivity].
  intros ->. reflexivity.
Qed.

Lemma valueOr_given (value d : Json num) :
  truthyValue env value = true -> valueOr env (Some value) d = value.
Proof.
  unfold valueOr, orValue. intros ->. reflexivity.
Qed.

(** The callback of the citations throws on [null] and on nothing else; the
    citation it makes has a source and a chunk_id that are truthy. *)
Lemma mapCitation_cases (retrieved : list (RetrievalResult num))
    (citation : Json num) :
  (citation = JNull
   /\ mapCitation env retrieved citation = Err (typeError env SourceOfNull))
  \/ (citation <> JNull
      /\ exists c, mapCitation env retrieved citation = Ok c
                   /\ truthyValue env (cit_source c) = true
                   /\ truthyValue env (cit_chunk_id c) = true).
Proof.
  destruct citation; [left; split; reflexivity|right..];
    (split; [discriminate|]);
    (eexists; split; [reflexivity|]);
    cbn [cit_source cit_chunk_id]; split; apply valueOr_truthy; reflexivity.
Qed.

Lemma mapM_mapCitation (retrieved : list (RetrievalResult num))
    (items : list (Json num)) :
  ~ In JNull items ->
  exists cites,
    mapM (mapCitation env retrieved) items = Ok cites
    /\ length cites = length items
    /\ Forall (fun c => truthyValue env (cit_source c) = true
                        /\ truthyValue env (cit_chunk_id c) = true) cites.
Proof.
  induction items as [|citation items IH]; intros Hnull.
  - exists []. repeat split. constructor.
  - destruct (mapCitation_cases retrieved citation)
      as [[Hc _]|(_ & c & Hc & Hsource & Hid)].
    + exfalso. apply Hnull. left. exact Hc.
    + destruct IH as (cites & Hcites & Hlen & Hall).
      { intros Hin. apply Hnull. right. exact Hin. }
      exists (c :: cites). cbn [mapM]. rewrite Hc. cbn [bind].
      rewrite Hcites. cbn [bind]. split; [reflexivity|]. split.
      * cbn [length]. rewrite Hlen. reflexivity.
      * constructor; [split; assumption|exact Hall].
Qed.

Lemma mapM_mapCitation_null (retrieved : list (RetrievalResult num))
    (items : list (Json num)) :
  In JNull items ->
  mapM (mapCitation env retrieved) items = Err (typeError env SourceOfNull).
Proof.
  induction items as [|citation items IH]; intros Hin; [destruct Hin|].
  cbn [mapM].
  destruct (mapCitation_cases retrieved citation)
    as [[_ Hc]|(Hne & c & Hc & _)]; rewrite Hc; cbn [bind]; [reflexivity|].
  destruct Hin as [Heq|Hin]; [exfalso; apply Hne; exact Heq|].
  rewrite (IH Hin). reflexivity.
Qed.

(** What [processGeminiResponse] returns for citations that are an array
    without [null] (the array being empty when the reply holds a falsy
    value, or nothing, under [citations]). *)
Lemma processGeminiResponse_resolved (g : Structured num)
    (retrieved : list (RetrievalResult num)) (items : list (Json num)) :
  valueOr env (valueOf g "citations") (JArray []) = JArray items ->
  ~ In JNull items ->
  exists cites sources,
    processGeminiResponse env g retrieved
    = Ok (valueOr env (valueOf g "answer") (JString "No answer generated"),
          cites, sources)
    /\ length cites = length items
    /\ Forall (fun c => truthyValue env (cit_source c) = true
                        /\ truthyValue env (cit_chunk_id c) = true) cites
    /\ map (@src_score num) sources = map (@score num) retrieved
    /\ map (@src_chunk_id num) sources
       = map (fun r => chunk_id (result_metadata r)) retrieved
    /\ (nonIncreasing retrieved -> sourcesRanked sources).
Proof.
  intros Hitems Hnull. unfold processGeminiResponse. cbv zeta.
  rewrite Hitems. cbn [bind].
  destruct (@mapM_mapCitation retrieved items Hnull) as (cites & Hcites & Hlen & Hall).
  rewrite Hcites. cbn [bind].
  eexists. eexists. split; [reflexivity|].
  split; [exact Hlen|]. split; [exact Hall|].
  split; [rewrite map_map; reflexivity|].
  split; [rewrite map_map; reflexivity|].
  intros Hsorted. unfold sourcesRanked.
  apply StronglySorted_map. exact Hsorted.
Qed.

(** [processGeminiResponse] throws a [TypeError] in the two other cases. *)
Lemma processGeminiResponse_throws (g : Structured num)
    (retrieved : list (RetrievalResult num)) :
  ((forall items,
       valueOr env (valueOf g "citations") (JArray []) <> JArray items) ->
   processGeminiResponse env g retrieved = Err (typeError env MapOfCitations))
  /\ (forall items,
        valueOr env (valueOf g "citations") (JArray []) = JArray items ->
        In JNull items ->
        processGeminiResponse env g retrieved = Err (typeError env SourceOfNull)).
Proof.
  unfold processGeminiResponse. cbv zeta. split.
  - intros Hnone.
    destruct (valueOr env (valueOf g "citations") (JArray [])) as [| | | |items|];
      try reflexivity.
    exfalso. apply (Hnone items). reflexivity.
  - intros items Hitems Hin. rewrite Hitems. cbn [bind].
    rewrite (@mapM_mapCitation_null retrieved items Hin). reflexivity.
Qed.

(** The generation step of the pipeline, once the client has resolved. *)
Lemma generated_text (prompt text : string) :
  fst (GeminiClient.generateFromPrompt (client env) prompt jsonConfig [])
  = Ok text ->
  generated env prompt
  = Ok (structure (language env) text ["answer"; "citations"; "exam_format"]).
Proof.
  unfold generated, generateStructuredResponse, GeminiClient.await.
  destruct (GeminiClient.generateFromPrompt (client env) prompt jsonConfig [])
    as [[response|e] t']; cbn [fst]; intros Hgen; [|discriminate].
  inversion Hgen; subst. reflexivity.
Qed.

(** The pipeline, for a confident retrieval. *)
Lemma handleRagPipeline_confident (q : string)
    (retrieval : RetrievalResponse num) :
  retrieve (retriever env) q (RAG_TOP_K (retriever env)) = Ok retrieval ->
  confidence retrieval = true ->
  handleRagPipeline env q
  = (geminiResponse <-
       generated env
         (PromptBuilder.fullPrompt
            (PromptBuilder.buildPrompt (runtime env) (results retrieval) q
               {| PromptBuilder.maxContextTokens := None;
                  PromptBuilder.includeMetadata := Some true;
                  PromptBuilder.answerFormat := Some PromptBuilder.exam;
                  PromptBuilder.citationStyle := Some PromptBuilder.vtu |})) ;;
     processedResponse <-
       processGeminiResponse env geminiResponse (results retrieval) ;;
     let '(answer, citations, sources) := processedResponse in
     Ok (ok {| answer := answer;
               citations := citations;
               response_sources := sources;
               debug := Some (debugOf retrieval true);
               error := None |})).
Proof.
  intros Hretrieve Hconf. unfold handleRagPipeline.
  rewrite Hretrieve. cbn [bind]. rewrite Hconf. reflexivity.
Qed.

End RouteFacts.

Section RouteExtras.
Import Indexer Retriever StructuredGeneration AskRoute.
Local Open Scope string_scope.

(** The statuses of the endpoint.  Every response has status 200, 400 or
    500; it is 400 exactly when the body parsed to a value other than
    [null] whose question is absent or a string that is empty, blank or
    longer than 2000 code units; a body that does not parse, a body that is
    [null] and a question of another type give 500; a response of status
    200 carries no error, and any other carries an error and neither
    citations nor sources. *)
Theorem POST_status_classes {num : Type} `{JsNumber num}
    (env : AskRoute.Env num) (body : Result RequestBody) :
  let response := POST env body in
  (status response = 200 \/ status response = 400 \/ status response = 500)
  /\ (status response = 400 <->
      exists request,
        body = Ok (Fields request) /\ question request <> NotAString
        /\ ~ acceptedQuestion (question request))
  /\ ((exists e, body = Err e) \/ body = Ok NullBody
      \/ (exists request, body = Ok (Fields request)
                           /\ question request = NotAString) ->
      status response = 500)
  /\ (status response = 200 -> error (json response) = None)
  /\ (status response <> 200 ->
      error (json response) <> None
      /\ citations (json response) = []
      /\ response_sources (json response) = []).
Proof.
  cbv zeta. destruct body as [[|request]|e].
  3:{ cbn. split; [auto|]. split; [|split; [|split]].
      - split; [discriminate|]. intros (r & Hr & _). discriminate.
      - reflexivity.
      - discriminate.
      - intros _. repeat split. discriminate. }
  { cbn. split; [auto|]. split; [|split; [|split]].
    - split; [discriminate|]. intros (r & Hr & _). discriminate.
    - reflexivity.
    - discriminate.
    - intros _. repeat split. discriminate. }
  assert (Hnot500 : forall status : nat,
             question request <> NotAString ->
             (exists e : JsError, Ok (Fields request) = Err e)
             \/ Ok (Fields request) = Ok NullBody
             \/ (exists r, Ok (Fields request) = Ok (Fields r)
                           /\ question r = NotAString) ->
             status = 500).
  { intros st Hq [(e & He)|[Hnull|(r & Hr & Hn)]]; try discriminate.
    inversion Hr; subst r. contradiction. }
  destruct (question request) as [| |q] eqn:Hq.
  - assert (Hpost : POST env (Ok (Fields request))
                    = {| status := 400;
                         json := {| answer := JString "Question is required and must be a string";
                                    citations := [];
                                    response_sources := [];
                                    debug := None;
                                    error := Some "Question is required and must be a string" |} |}).
    { unfold POST, validateRequest. rewrite Hq. reflexivity. }
    rewrite Hpost. cbn. split; [auto|]. split; [|split; [|split]].
    + split; [|reflexivity]. intros _. exists request.
      split; [reflexivity|]. split; [rewrite Hq; discriminate|].
      rewrite Hq. intros (q & Hq' & _). discriminate.
    + apply Hnot500. discriminate.
    + discriminate.
    + intros _. repeat split. discriminate.
  - assert (Hpost : POST env (Ok (Fields request))
                    = serverError (typeErrorMessage env SubstringOfQuestion)).
    { unfold POST. rewrite Hq. reflexivity. }
    rewrite Hpost. cbn. split; [auto|]. split; [|split; [|split]].
    + split; [discriminate|]. intros (r & Hr & Hn & _).
      inversion Hr; subst r. rewrite Hq in Hn. contradiction.
    + reflexivity.
    + discriminate.
    + intros _. repeat split. discriminate.
  - destruct (validateRequest request) as [validationError|] eqn:Hvalid.
    + assert (Hpost : POST env (Ok (Fields request))
                      = {| status := 400;
                           json := {| answer := JString validationError;
                                      citations := [];
                                      response_sources := [];
                                      debug := None;
                                      error := Some validationError |} |}).
      { unfold POST. rewrite Hq, Hvalid. reflexivity. }
      rewrite Hpost. cbn. split; [auto|]. split; [|split; [|split]].
      * split; [|reflexivity]. intros _. exists request.
        split; [reflexivity|]. split; [rewrite Hq; discriminate|].
        intros Hacc. apply validateRequest_accepted in Hacc. congruence.
      * apply Hnot500. discriminate.
      * discriminate.
      * intros _. repeat split. discriminate.
    + rewrite (@POST_valid _ _ env request q Hq Hvalid).
      assert (Hnot400 : forall response : HttpResponse num,
                 (status response = 200 /\ error (json response) = None)
                 \/ (status response = 500 /\ error (json response) <> None
                     /\ citations (json response) = []
                     /\ response_sources (json response) = []) ->
                 (status response = 200 \/ status response = 400
                  \/ status response = 500)
                 /\ (status response = 400 <->
                     exists r, Ok (Fields request) = Ok (Fields r)
                               /\ question r <> NotAString
                               /\ ~ acceptedQuestion (question r))
                 /\ ((exists e : JsError, Ok (Fields request) = Err e)
                     \/ Ok (Fields request) = Ok NullBody
                     \/ (exists r, Ok (Fields request) = Ok (Fields r)
                                   /\ question r = NotAString) ->
                     status response = 500)
                 /\ (status response = 200 -> error (json response) = None)
                 /\ (status response <> 200 ->
                     error (json response) <> None
                     /\ citations (json response) = []
                     /\ response_sources (json response) = [])).
      { intros response Hcases. split; [|split; [|split; [|split]]].
        - destruct Hcases as [[-> _]|[-> _]]; auto.
        - split.
          + intros H400. destruct Hcases as [[Hs _]|[Hs _]];
              rewrite Hs in H400; discriminate.
          + intros (r & Hr & _ & Hn). inversion Hr; subst r.
            exfalso. apply Hn. apply validateRequest_accepted. exact Hvalid.
        - apply Hnot500. discriminate.
        - intros H200. destruct Hcases as [[_ He]|[Hs _]]; [exact He|].
          rewrite Hs in H200. discriminate.
        - intros Hnot. destruct Hcases as [[Hs _]|[_ Hrest]];
            [contradiction|exact Hrest]. }
      apply Hnot400.
      destruct (negb _).
      * apply handleHeuristicFallback_cases.
      * destruct (handleRagPipeline env q) as [response|ragError] eqn:Hrag.
        -- left. apply handleRagPipeline_resolved in Hrag.
           destruct Hrag as (_ & _ & Hs & He & _). split; assumption.
        -- apply handleHeuristicFallback_cases.
Qed.

(** With RAG asked for and no index on disk, the endpoint does not answer
    "not found": it answers from the heuristic system, with status 200, no
    citations or sources, and a debug block that names the heuristic method
    and reports confidence; and when the heuristic system fails too, the
    status is 500 and the error names both failures. *)
Theorem missing_index_falls_back {num : Type} `{JsNumber num}
    (env : AskRoute.Env num) (body : RagRequest) (q : string) :
  question body = Text q ->
  validateRequest body = None ->
  useRag body = Some true \/ ENABLE_RAG env = true ->
  loadIndex (store (retriever env)) = None ->
  let response := POST env (Ok (Fields body)) in
  (forall r,
      getAiResponse env q (withDefault (scheme body) "2022") = Ok r ->
      success r = true ->
      status response = 200
      /\ answer (json response) = JString (heuristic_answer r)
      /\ citations (json response) = []
      /\ response_sources (json response) = []
      /\ error (json response) = None
      /\ exists d, debug (json response) = Some d
                   /\ method d = heuristic_fallback
                   /\ retrieval_confidence d = true
                   /\ scores d = [])
  /\ (forall e,
        getAiResponse env q (withDefault (scheme body) "2022") = Err e ->
        status response = 500
        /\ error (json response)
           = Some ("RAG failed: " ++ error_message noIndexError
                   ++ ". Fallback failed: " ++ error_message e)).
Proof.
  intros Hq Hvalid Hrag Hnone. cbv zeta.
  rewrite (@POST_valid _ _ env body q Hq Hvalid).
  rewrite shouldUseRag_true by exact Hrag. cbn [negb].
  assert (Hpipe : handleRagPipeline env q = Err noIndexError).
  { unfold handleRagPipeline.
    rewrite (@retrieve_without_index _ _ (retriever env) q _ Hnone).
    reflexivity. }
  rewrite Hpipe. split.
  - intros r Hr Hsuccess. unfold handleHeuristicFallback. cbv zeta.
    rewrite Hr. cbn [bind]. rewrite Hsuccess. cbn.
    repeat split. eexists. repeat split.
  - intros e He.
    apply handleHeuristicFallback_failed.
    left. exists e. split; [exact He|reflexivity].
Qed.

Lemma missing_index_falls_back_witness :
  status (POST Scenarios.noIndexRoute (Ok (Fields (Samples.ask "What is a heap?")))) = 200
  /\ answer (json (POST Scenarios.noIndexRoute (Ok (Fields (Samples.ask "What is a heap?")))))
     = JString "A heap is a complete binary tree.".
Proof.
  destruct (@missing_index_falls_back _ _ Scenarios.noIndexRoute
              (Samples.ask "What is a heap?") "What is a heap?"
              eq_refl eq_refl (or_introl eq_refl) eq_refl) as [Hanswers _].
  destruct (Hanswers _ eq_refl eq_refl) as (Hs & Ha & _).
  split; [exact Hs|exact Ha].
Defined.

(** With RAG neither asked for nor enabled, a failure of the heuristic
    system gives status 500 and an error that still opens with "RAG failed:
    Unknown RAG error", followed by the failure of the heuristic system: its
    exception, its own error text, or "Heuristic system failed" when it gave
    none. *)
Theorem heuristic_failure_report {num : Type} `{JsNumber num}
    (env : AskRoute.Env num) (body : RagRequest) (q message : string) :
  question body = Text q ->
  validateRequest body = None ->
  useRag body <> Some true ->
  ENABLE_RAG env = false ->
  (exists e, getAiResponse env q (withDefault (scheme body) "2022") = Err e
             /\ message = error_message e)
  \/ (exists r, getAiResponse env q (withDefault (scheme body) "2022") = Ok r
                /\ success r = false
                /\ message = withDefault (heuristic_error r)
                               "Heuristic system failed") ->
  status (POST env (Ok (Fields body))) = 500
  /\ error (json (POST env (Ok (Fields body))))
     = Some ("RAG failed: Unknown RAG error. Fallback failed: " ++ message)
  /\ citations (json (POST env (Ok (Fields body)))) = []
  /\ response_sources (json (POST env (Ok (Fields body)))) = [].
Proof.
  intros Hq Hvalid Huse Henabled Hfails.
  rewrite (@POST_valid _ _ env body q Hq Hvalid).
  rewrite shouldUseRag_false by assumption. cbn [negb].
  pose proof Hfails as Hreport.
  apply (@handleHeuristicFallback_failed num env q body None message) in Hreport.
  destruct Hreport as [Hs He].
  split; [exact Hs|]. split; [exact He|].
  pose proof (@handleHeuristicFallback_cases num env q body None) as Hcases.
  cbv zeta in Hcases. destruct Hcases as [[Hs' _]|(_ & _ & Hc & Hr)].
  - rewrite Hs in Hs'. discriminate.
  - split; assumption.
Qed.

Lemma heuristic_failure_report_witness :
  status (POST Scenarios.heuristicOnlyRoute
            (Ok (Fields (Scenarios.askPlainly "What is a heap?")))) = 500
  /\ error (json (POST Scenarios.heuristicOnlyRoute
                    (Ok (Fields (Scenarios.askPlainly "What is a heap?")))))
     = Some "RAG failed: Unknown RAG error. Fallback failed: Heuristic system failed".
Proof.
  destruct (@heuristic_failure_report _ _ Scenarios.heuristicOnlyRoute
              (Scenarios.askPlainly "What is a heap?") "What is a heap?"
              "Heuristic system failed" eq_refl eq_refl)
    as (Hs & He & _).
  - discriminate.
  - reflexivity.
  - right. eexists. split; [reflexivity|]. split; reflexivity.
  - split; [exact Hs|exact He].
Defined.

(** A confident answer, end to end.  The retrieval is confident and the
    generation client resolves to a text, which [generateStructuredResponse]
    reads with the keys answer, citations and exam_format.  When the reply
    holds under [citations] a falsy value, nothing, or an array without
    [null], the response has status 200 and no error; its answer is the
    value the reply holds under [answer], or "No answer generated" when
    that is falsy or missing; its sources are the retrieved chunks, at most
    RAG_TOP_K of them, best first when the scores compare, with their
    scores repeated in the debug block; it has one citation for each of the
    reply, none with a falsy source or chunk_id.  When [citations] is
    another value, or an array that holds [null], the pipeline throws a
    [TypeError] and the response is that of the heuristic system. *)
Theorem confident_answer {num : Type} `{JsNumber num}
    (env : AskRoute.Env num) (body : RagRequest) (q : string)
    (retrieval : RetrievalResponse num) (text : string) :
  question body = Text q ->
  validateRequest body = None ->
  useRag body = Some true \/ ENABLE_RAG env = true ->
  retrieve (retriever env) q (RAG_TOP_K (retriever env)) = Ok retrieval ->
  confidence retrieval = true ->
  fst (GeminiClient.generateFromPrompt (client env)
         (PromptBuilder.fullPrompt
            (PromptBuilder.buildPrompt (runtime env) (results retrieval) q
               {| PromptBuilder.maxContextTokens := None;
                  PromptBuilder.includeMetadata := Some true;
                  PromptBuilder.answerFormat := Some PromptBuilder.exam;
                  PromptBuilder.citationStyle := Some PromptBuilder.vtu |}))
         jsonConfig [])
  = Ok text ->
  let reply :=
    structure (language env) text ["answer"; "citations"; "exam_format"] in
  let rawCitations := valueOr env (valueOf reply "citations") (JArray []) in
  let response := json (POST env (Ok (Fields body))) in
  (forall items,
      rawCitations = JArray items ->
      ~ In JNull items ->
      status (POST env (Ok (Fields body))) = 200
      /\ error response = None
      /\ answer response
         = valueOr env (valueOf reply "answer") (JString "No answer generated")
      /\ truthyValue env (answer response) = true
      /\ map (@src_chunk_id num) (response_sources response)
         = map (fun r => chunk_id (result_metadata r)) (results retrieval)
      /\ length (response_sources response) <= RAG_TOP_K (retriever env)
      /\ (Comparable (candidateScores (retriever env) q) ->
          sourcesRanked (response_sources response))
      /\ (exists d, debug response = Some d
                    /\ method d = rag
                    /\ retrieval_confidence d = true
                    /\ scores d = map (@src_score num) (response_sources response))
      /\ length (citations response) = length items
      /\ Forall (fun c => truthyValue env (cit_source c) = true
                          /\ truthyValue env (cit_chunk_id c) = true)
                (citations response))
  /\ ((forall items, rawCitations <> JArray items) ->
      POST env (Ok (Fields body))
      = handleHeuristicFallback env q body (Some (typeError env MapOfCitations)))
  /\ (forall items,
        rawCitations = JArray items ->
        In JNull items ->
        POST env (Ok (Fields body))
        = handleHeuristicFallback env q body (Some (typeError env SourceOfNull))).
Proof.
  intros Hq Hvalid Hrag Hretrieve Hconf Hgen. cbv zeta.
  rewrite (@POST_valid _ _ env body q Hq Hvalid).
  rewrite shouldUseRag_true by exact Hrag. cbn [negb].
  rewrite (@handleRagPipeline_confident _ _ env q retrieval Hretrieve Hconf).
  rewrite (@generated_text _ _ env _ text Hgen). cbn [bind].
  set (reply := structure (language env) text
                  ["answer"; "citations"; "exam_format"]).
  split; [|split].
  - intros items Hitems Hnull.
    destruct (@processGeminiResponse_resolved _ _ env reply (results retrieval)
                items Hitems Hnull)
      as (cites & sources & Hprocessed & Hcount & Hcites & Hscores & Hids
          & Hranked).
    rewrite Hprocessed. cbn.
    split; [reflexivity|]. split; [reflexivity|]. split; [reflexivity|].
    split; [apply valueOr_truthy; reflexivity|].
    split; [exact Hids|]. split.
    { apply (f_equal (@length _)) in Hscores. rewrite !length_map in Hscores.
      rewrite Hscores.
      destruct (@retrieve_resolved _ _ (retriever env) q _ retrieval Hretrieve)
        as (indexData & sims & _ & _ & Hres & _).
      rewrite Hres, length_map, topResultsOf_length. apply Nat.le_min_l. }
    split.
    { intros Hcomp. apply Hranked.
      apply (@retrieve_ranked _ _ (retriever env) q _ retrieval Hretrieve Hcomp). }
    split.
    { eexists. split; [reflexivity|]. cbn. repeat split.
      symmetry. exact Hscores. }
    split; [exact Hcount|exact Hcites].
  - intros Hnone.
    destruct (@processGeminiResponse_throws _ env reply (results retrieval))
      as [Hthrows _].
    rewrite (Hthrows Hnone). reflexivity.
  - intros items Hitems Hin.
    destruct (@processGeminiResponse_throws _ env reply (results retrieval))
      as [_ Hthrows].
    rewrite (Hthrows items Hitems Hin). reflexivity.
Qed.

Lemma confident_answer_witness :
  status (POST Scenarios.confidentRoute
            (Ok (Fields (Samples.ask "What are binary trees?")))) = 200
  /\ answer (json (POST Scenarios.confidentRoute
                     (Ok (Fields (Samples.ask "What are binary trees?")))))
     = JString "A binary tree has at most two children per node."
  /\ length (citations
               (json (POST Scenarios.confidentRoute
                        (Ok (Fields (Samples.ask "What are binary trees?")))))) = 1
  /\ length (response_sources
               (json (POST Scenarios.confidentRoute
                        (Ok (Fields (Samples.ask "What are binary trees?")))))) <= 5.
Proof.
  assert (Hretrieve : Retriever.retrieve Samples.boundaryEnv
                        "What are binary trees?" 5
                      = Ok Samples.boundaryResponse) by (vm_compute; reflexivity).
  destruct (@confident_answer _ _ Scenarios.confidentRoute
              (Samples.ask "What are binary trees?") "What are binary trees?"
              Samples.boundaryResponse Samples.replyText
              eq_refl eq_refl (or_introl eq_refl) Hretrieve eq_refl)
    as (Hanswers & _).
  - vm_compute. reflexivity.
  - destruct (Hanswers
                [ JObject [ ("chunk_id", JString "DSA_unit3.txt_0") ] ])
      as (Hs & _ & Ha & _ & _ & Hl & _ & _ & Hc & _).
    + vm_compute. reflexivity.
    + intros [Hin|[]]. discriminate.
    + split; [exact Hs|]. split; [rewrite Ha; vm_compute; reflexivity|].
      split; [exact Hc|exact Hl].
Defined.

End RouteExtras.

(** ** Cosine similarity, continued *)

Section SymmetryOfProducts.
Import Floats.
Local Unset Implicit Arguments.

Lemma SFmul_comm (x y : SpecFloat.spec_float) :
  SpecFloat.SFmul FloatOps.prec FloatOps.emax x y
  = SpecFloat.SFmul FloatOps.prec FloatOps.emax y x.
Proof.
  destruct x as [sx|sx| |sx mx ex], y as [sy|sy| |sy my ey]; cbn;
    try reflexivity; try (rewrite (xorb_comm sx sy); reflexivity).
  rewrite (xorb_comm sx sy), (Pos.mul_comm mx my), (Z.add_comm ex ey).
  reflexivity.
Qed.

Lemma float_mul_comm (x y : PrimFloat.float) :
  PrimFloat.mul x y = PrimFloat.mul y x.
Proof.
  rewrite <- (FloatAxioms.SF2Prim_Prim2SF (PrimFloat.mul x y)),
          <- (FloatAxioms.SF2Prim_Prim2SF (PrimFloat.mul y x)).
  rewrite !FloatAxioms.mul_spec. rewrite SFmul_comm. reflexivity.
Qed.

End SymmetryOfProducts.

Section SymmetryOfCosine.
Import Embeddings.
Context {num : Type} `{JsNumber num}.
Hypothesis nmul_comm : forall x y : num, nmul x y = nmul y x.

Lemma accumulate_swap (a b : list num) :
  forall dot na nb,
    accumulate b a {| dotProduct := dot; normA := nb; normB := na |}
    = {| dotProduct :=
           dotProduct (accumulate a b {| dotProduct := dot; normA := na;
                                         normB := nb |});
         normA :=
           normB (accumulate a b {| dotProduct := dot; normA := na;
                                    normB := nb |});
         normB :=
           normA (accumulate a b {| dotProduct := dot; normA := na;
                                    normB := nb |}) |}.
Proof.
  revert b. induction a as [|x a IH]; intros [|y b] dot na nb; cbn;
    try reflexivity.
  rewrite (nmul_comm y x). apply IH.
Qed.

Lemma cosineSimilarity_comm (a b : list num) :
  cosineSimilarity a b = cosineSimilarity b a.
Proof.
  unfold cosineSimilarity. rewrite (Nat.eqb_sym (length b) (length a)).
  destruct (length a =? length b); cbn [negb]; [|reflexivity].
  cbv zeta. rewrite (accumulate_swap a b). cbn [dotProduct normA normB].
  rewrite (nmul_comm (nsqrt (normB _)) (nsqrt (normA _))). reflexivity.
Qed.

End SymmetryOfCosine.

Section CosineExtras.
Import Embeddings.

(** The cosine similarity does not depend on the order of its two vectors:
    in binary64 arithmetic, rounding and special values included, and in
    exact arithmetic, [cosineSimilarity a b] and [cosineSimilarity b a] are
    the same number, or the same error when the lengths differ. *)
Theorem cosineSimilarity_symmetric :
  (forall a b : list PrimFloat.float,
      cosineSimilarity a b = cosineSimilarity b a)
  /\ (forall a b : list R, cosineSimilarity a b = cosineSimilarity b a).
Proof.
  split; intros a b; apply cosineSimilarity_comm.
  - intros x y. apply float_mul_comm.
  - intros x y. apply Rmult_comm.
Qed.

End CosineExtras.
